(** * maths-vector-ts: a 2D vector over a pluggable operator system

    A shallow embedding of [src/vector.ts] and of the two operator systems
    [src/operator-system/base.ts] (native numbers) and
    [src/operator-system/big.ts] (big.js decimals), with the part of the
    JavaScript platform these files rely on: IEEE-754 doubles, the
    conversions between numbers and strings, truthiness and [||].

    JavaScript numbers are Rocq's primitive binary64 floats; strings are
    sequences of one-byte characters; Vector instances live in a heap and
    are passed by reference. *)

From Stdlib Require Import ZArith Floats String Ascii List Lia Bool.
From Stdlib Require Import DecimalString DecimalN DecimalPos DecimalFacts.
From stdpp Require Import base option list strings gmap.

Local Open Scope string_scope.
Local Open Scope Z_scope.

(** ** Characters and decimal digit strings *)

Module Chars.

Definition is_digit (c : ascii) : bool :=
  let n := nat_of_ascii c in (48 <=? n)%nat && (n <=? 57)%nat.

Definition digit_val (c : ascii) : Z := Z.of_nat (nat_of_ascii c) - 48.

(** Value of a sequence of decimal digits, most significant first. *)
Definition digits_val (l : list ascii) : Z :=
  fold_left (fun acc c => 10 * acc + digit_val c) l 0.

(** Longest prefix of decimal digits, and the rest. *)
Fixpoint span_digits (l : list ascii) : list ascii * list ascii :=
  match l with
  | c :: l' =>
      if is_digit c then let '(d, r) := span_digits l' in (c :: d, r)
      else ([], l)
  | [] => ([], [])
  end.

(** Decimal digits of a non-negative integer, without leading zeros
    (["0"] for zero). *)
Definition digits (n : Z) : string :=
  NilZero.string_of_uint (N.to_uint (Z.to_N n)).

Definition digit_chars (n : Z) : list ascii := list_ascii_of_string (digits n).

Definition zero_chars (n : Z) : list ascii := repeat "0"%char (Z.to_nat n).

Definition zeros (n : Z) : string := string_of_list_ascii (zero_chars n).

Definition take (n : Z) (s : string) : string := substring 0 (Z.to_nat n) s.
Definition drop (n : Z) (s : string) : string :=
  substring (Z.to_nat n) (String.length s - Z.to_nat n) s.
Definition len (s : string) : Z := Z.of_nat (String.length s).

(** Rendering of a possibly negative integer, as [String(e)] does for an
    integral exponent. *)
Definition int_chars (e : Z) : list ascii :=
  if e <? 0 then "-"%char :: digit_chars (- e) else digit_chars e.

(** A decimal literal [digits [. digits] [e [+-] digits]], read as the
    integer [mant] scaled by [10 ^ exp10]: the unsigned part of the
    grammar shared by ECMAScript's StrDecimalLiteral and big.js's NUMERIC
    pattern.  ["1."] and [".5"] are literals, ["."] and ["1e"] are not. *)
Definition parse_exponent (l : list ascii) : option Z :=
  match l with
  | [] => Some 0
  | c :: l1 =>
      if (c =? "e")%char || (c =? "E")%char then
        let '(neg, l2) :=
          match l1 with
          | s :: l2 =>
              if (s =? "-")%char then (true, l2)
              else if (s =? "+")%char then (false, l2) else (false, l1)
          | [] => (false, l1)
          end in
        let '(ds, rest) := span_digits l2 in
        match ds, rest with
        | _ :: _, [] => Some (if neg then - digits_val ds else digits_val ds)
        | _, _ => None
        end
      else None
  end.

Definition parse_decimal (l : list ascii) : option (Z * Z) :=
  let '(ip, r1) := span_digits l in
  let '(fp, r2, ok) :=
    match r1 with
    | c :: r =>
        if (c =? ".")%char then
          let '(fp, r2) := span_digits r in
          (fp, r2, match ip, fp with [], [] => false | _, _ => true end)
        else ([], r1, match ip with [] => false | _ => true end)
    | [] => ([], r1, match ip with [] => false | _ => true end)
    end in
  if ok then
    match parse_exponent r2 with
    | Some e => Some (digits_val (ip ++ fp), e - Z.of_nat (length fp))
    | None => None
    end
  else None.

End Chars.

(** ** JavaScript numbers *)

Module Num.
Import Chars.

(** The double nearest to the positive rational [num / den], ties to even.
    The quotient is taken with at least 63 significant bits and a sticky
    bit, then rounded by the standard library's [binary_normalize]. *)
Definition round_ratio (num den : Z) : spec_float :=
  let b := Z.max 0 (64 + Z.log2 den - Z.log2 num) in
  let q := (num * 2 ^ b) / den in
  let r := (num * 2 ^ b) mod den in
  binary_normalize prec emax (2 * q + (if r =? 0 then 0 else 1)) (- b - 1) false.

(** The double nearest to [m * 10 ^ e], for [m > 0]. *)
Definition round_dec (m e : Z) : spec_float :=
  if 0 <=? e then round_ratio (m * 10 ^ e) 1 else round_ratio m (10 ^ (- e)).

(** [x >= 10 ^ n] for the positive rational [x = num / den]. *)
Definition geq_pow10 (num den n : Z) : bool :=
  if 0 <=? n then den * 10 ^ n <=? num else den <=? num * 10 ^ (- n).

(** The integer [n] with [10 ^ (n - 1) <= num / den < 10 ^ n]. *)
Definition decimal_exponent (num den : Z) : Z :=
  let n1 := ((Z.log2 num - Z.log2 den) * 30103) / 100000 in
  match List.find (fun n => negb (geq_pow10 num den n))
          [n1 - 1; n1; n1 + 1; n1 + 2; n1 + 3] with
  | Some n => n
  | None => n1 + 4
  end.

(** Number::toString, radix 10, for the finite positive double
    [m * 2 ^ e]: the pair [(s, n)] with the fewest digits [k] such that
    [s * 10 ^ (n - k)] rounds to the double, the closest such [s], the even
    one on a tie. *)
Section Shortest.
Variables (m : positive) (e : Z).

Let num := if 0 <=? e then Zpos m * 2 ^ e else Zpos m.
Let den := if 0 <=? e then 1 else 2 ^ (- e).
Let n0 := decimal_exponent num den.

Definition rounds_back (s k : Z) : bool :=
  match round_dec s (n0 - k) with
  | S754_finite false m' e' => (Zpos m' =? Zpos m) && (e' =? e)
  | _ => false
  end.

Definition candidate (k : Z) : option Z :=
  let A := if 0 <=? k - n0 then num * 10 ^ (k - n0) else num in
  let B := if 0 <=? k - n0 then den else den * 10 ^ (n0 - k) in
  let lo := A / B in
  let r := A mod B in
  let hi := lo + 1 in
  match rounds_back lo k, rounds_back hi k with
  | true, true =>
      Some (if 2 * r <? B then lo
            else if B <? 2 * r then hi
            else if Z.even lo then lo else hi)
  | true, false => Some lo
  | false, true => Some hi
  | false, false => None
  end.

Fixpoint shortest_from (fuel : nat) (k : Z) : Z * Z :=
  match candidate k, fuel with
  | Some s, _ => (s, k)
  | None, S fuel' => shortest_from fuel' (k + 1)
  | None, O => (num * 10 ^ (k - n0) / den, k)
  end.

Definition shortest : Z * Z * Z :=
  let '(s, k) := shortest_from 20 1 in
  if s =? 10 ^ k then (10 ^ (k - 1), k, n0 + 1) else (s, k, n0).
End Shortest.

Definition format_digits (s k n : Z) : string :=
  let ds := digits s in
  if (k <=? n) && (n <=? 21) then ds ++ zeros (n - k)
  else if (0 <? n) && (n <=? 21) then take n ds ++ "." ++ drop n ds
  else if (-6 <? n) && (n <=? 0) then "0." ++ zeros (- n) ++ ds
  else
    let ex := (if 0 <=? n - 1 then "+" else "-") ++ digits (Z.abs (n - 1)) in
    if k =? 1 then ds ++ "e" ++ ex
    else take 1 ds ++ "." ++ drop 1 ds ++ "e" ++ ex.

Definition SF_toString (x : spec_float) : string :=
  match x with
  | S754_nan => "NaN"
  | S754_zero _ => "0"
  | S754_infinity false => "Infinity"
  | S754_infinity true => "-Infinity"
  | S754_finite sg m e =>
      let '(s, k, n) := shortest m e in
      (if sg then "-" else "") ++ format_digits s k n
  end.

(** [Number.prototype.toString()] *)
Definition toString (x : float) : string := SF_toString (Prim2SF x).

(** StringToNumber: white space is trimmed, the empty string is [+0],
    then a signed decimal literal, [Infinity], or an unsigned binary,
    octal or hexadecimal integer; anything else is [NaN].  Of the white
    space and line terminators of ECMAScript, the one-byte characters are
    U+0009 to U+000D, U+0020 and U+00A0. *)
Definition is_space (c : ascii) : bool :=
  let n := nat_of_ascii c in
  ((9 <=? n)%nat && (n <=? 13)%nat) || (n =? 32)%nat || (n =? 160)%nat.

Fixpoint trim_left (l : list ascii) : list ascii :=
  match l with
  | c :: l' => if is_space c then trim_left l' else l
  | [] => []
  end.

Definition trim (l : list ascii) : list ascii :=
  rev (trim_left (rev (trim_left l))).

Definition radix_digit (radix : Z) (c : ascii) : option Z :=
  let n := Z.of_nat (nat_of_ascii c) in
  let v := if (48 <=? n) && (n <=? 57) then n - 48
           else if (97 <=? n) && (n <=? 102) then n - 87
           else if (65 <=? n) && (n <=? 70) then n - 55
           else 99 in
  if v <? radix then Some v else None.

Fixpoint radix_val (radix : Z) (l : list ascii) (acc : Z) : option Z :=
  match l with
  | [] => Some acc
  | c :: l' =>
      match radix_digit radix c with
      | Some v => radix_val radix l' (radix * acc + v)
      | None => None
      end
  end.

Definition of_magnitude (neg : bool) (m e : Z) : spec_float :=
  if m =? 0 then S754_zero neg
  else match round_dec m e with
       | S754_finite _ m' e' => S754_finite neg m' e'
       | S754_infinity _ => S754_infinity neg
       | S754_zero _ => S754_zero neg
       | S754_nan => S754_nan
       end.

Definition unsigned_literal (neg : bool) (l : list ascii) : spec_float :=
  if String.eqb (string_of_list_ascii l) "Infinity" then S754_infinity neg
  else match parse_decimal l with
       | Some (m, e) => of_magnitude neg m e
       | None => S754_nan
       end.

Definition non_decimal (l : list ascii) : option spec_float :=
  match l with
  | z :: p :: ((_ :: _) as ds) =>
      if (z =? "0")%char then
        let radix :=
          if (p =? "x")%char || (p =? "X")%char then 16
          else if (p =? "o")%char || (p =? "O")%char then 8
          else if (p =? "b")%char || (p =? "B")%char then 2
          else 0 in
        if radix =? 0 then None
        else Some match radix_val radix ds 0 with
                  | Some v => of_magnitude false v 0
                  | None => S754_nan
                  end
      else None
  | _ => None
  end.

Definition SF_ofString (s : string) : spec_float :=
  match trim (list_ascii_of_string s) with
  | [] => S754_zero false
  | (c :: l') as l =>
      match non_decimal l with
      | Some r => r
      | None =>
          if (c =? "-")%char then unsigned_literal true l'
          else if (c =? "+")%char then unsigned_literal false l'
          else unsigned_literal false l
      end
  end.

Definition ofString (s : string) : float := SF2Prim (SF_ofString s).

End Num.

(** ** Exceptions and fallible computations *)

Inductive exn :=
  | TypeError (msg : string)
  | Error (msg : string).

Inductive res (A : Type) :=
  | Ok (a : A)
  | Throw (e : exn).
Arguments Ok {A} a.
Arguments Throw {A} e.

#[export] Instance res_ret : MRet res := fun A a => Ok a.
#[export] Instance res_bind : MBind res := fun A B f r =>
  match r with
  | Ok a => f a
  | Throw e => Throw e
  end.

(** ** big.js decimals

    big.js is an external package: [Big] follows its documented behaviour
    at the default settings ([DP = 20] decimal places, [RM = 1] round half
    up, exponential notation from [1e-7] down and from [1e+21] up).
    A [Big] is [(-1) ^ neg * coef * 10 ^ expo], where [coef] has no trailing
    zero; zero is [coef = 0, expo = 0] and keeps a sign. *)

Module BigJs.
Import Chars.

Record Big := { neg : bool; coef : N; expo : Z }.

Definition DP : Z := 20.
Definition NE : Z := -7.
Definition PE : Z := 21.

Definition INVALID : exn := Error "[big.js] Invalid number".
Definition DIV_BY_ZERO : exn := Error "[big.js] Division by zero".
Definition NO_SQRT : exn := Error "[big.js] No square root".

Definition zero (s : bool) : Big := {| neg := s; coef := 0; expo := 0 |}.
Definition is_zero (x : Big) : bool := (coef x =? 0)%N.
Definition negate (x : Big) : Big :=
  {| neg := negb (neg x); coef := coef x; expo := expo x |}.

Fixpoint strip (fuel : nat) (c e : Z) : Z * Z :=
  match fuel with
  | O => (c, e)
  | S fuel' => if c mod 10 =? 0 then strip fuel' (c / 10) (e + 1) else (c, e)
  end.

(** The Big of sign [s] and magnitude [c * 10 ^ e], for [c >= 0]. *)
Definition make (s : bool) (c e : Z) : Big :=
  if c <=? 0 then zero s
  else let '(c', e') := strip (Z.to_nat (Z.log2 c)) c e in
       {| neg := s; coef := Z.to_N c'; expo := e' |}.

(** The Big of the integer [z] scaled by [10 ^ e]; a zero result is [+0]. *)
Definition of_Z (z e : Z) : Big := make (z <? 0) (Z.abs z) e.

(** [coef x * 10 ^ (expo x - e0)], for [e0 <= expo x]. *)
Definition mag (x : Big) (e0 : Z) : Z := Z.of_N (coef x) * 10 ^ (expo x - e0).
Definition signed (x : Big) (e0 : Z) : Z :=
  if neg x then - mag x e0 else mag x e0.

(** big.js's NUMERIC pattern: an optional [-], then a decimal literal
    (no [+], no white space, no [Infinity]); anything else is invalid. *)
Definition parse (s : string) : res Big :=
  let l := list_ascii_of_string s in
  let '(sg, l') :=
    match l with
    | c :: l' => if (c =? "-")%char then (true, l') else (false, l)
    | [] => (false, l)
    end in
  match parse_decimal l' with
  | Some (m, e) => Ok (make sg m e)
  | None => Throw INVALID
  end.

(** The digits of the magnitude, in normal or exponential notation. *)
Definition unsigned_chars (x : Big) : list ascii :=
  let ds := digit_chars (Z.of_N (coef x)) in
  let n := Z.of_nat (length ds) in
  let e := n - 1 + expo x in
  (if (e <=? NE) || (PE <=? e) then
     firstn 1 ds ++ (if 1 <? n then "."%char :: skipn 1 ds else [])
       ++ (if e <? 0 then ["e"%char] else ["e"%char; "+"%char])
       ++ int_chars e
   else if e <? 0 then "0"%char :: "."%char :: zero_chars (- e - 1) ++ ds
   else if 0 <? e then
     if n <? e + 1 then ds ++ zero_chars (e + 1 - n)
     else if e + 1 <? n then
       firstn (Z.to_nat (e + 1)) ds ++ "."%char :: skipn (Z.to_nat (e + 1)) ds
     else ds
   else if 1 <? n then firstn 1 ds ++ "."%char :: skipn 1 ds
   else ds)%list.

Definition render (x : Big) (minus_zero : bool) : list ascii :=
  if neg x && (negb (is_zero x) || minus_zero) then "-"%char :: unsigned_chars x
  else unsigned_chars x.

(** [Big.prototype.toString]: minus zero is rendered ["0"]. *)
Definition toString (x : Big) : string := string_of_list_ascii (render x false).
(** [Big.prototype.valueOf]: minus zero is rendered ["-0"]. *)
Definition valueOf (x : Big) : string := string_of_list_ascii (render x true).

Definition plus_same (x y : Big) : Big :=
  if is_zero x || is_zero y then
    if negb (is_zero y) then y
    else if negb (is_zero x) then x else zero (neg x)
  else
    let e0 := Z.min (expo x) (expo y) in
    make (neg x) (mag x e0 + mag y e0) e0.

Definition minus_same (x y : Big) : Big :=
  if is_zero x || is_zero y then
    if negb (is_zero y) then negate y
    else if negb (is_zero x) then x else zero false
  else
    let e0 := Z.min (expo x) (expo y) in
    of_Z (signed x e0 - signed y e0) e0.

Definition plus (x y : Big) : Big :=
  if Bool.eqb (neg x) (neg y) then plus_same x y else minus_same x (negate y).

Definition minus (x y : Big) : Big :=
  if Bool.eqb (neg x) (neg y) then minus_same x y else plus_same x (negate y).

Definition times (x y : Big) : Big :=
  let s := xorb (neg x) (neg y) in
  if is_zero x || is_zero y then zero s
  else make s (Z.of_N (coef x) * Z.of_N (coef y)) (expo x + expo y).

(** The quotient rounded half up to [DP] decimal places. *)
Definition div (x y : Big) : res Big :=
  let s := xorb (neg x) (neg y) in
  if is_zero y then Throw DIV_BY_ZERO
  else if is_zero x then Ok (zero s)
  else
    let d := expo x - expo y + DP in
    let A := if 0 <=? d then Z.of_N (coef x) * 10 ^ d else Z.of_N (coef x) in
    let B := if 0 <=? d then Z.of_N (coef y) else Z.of_N (coef y) * 10 ^ (- d) in
    Ok (make s ((2 * A + B) / (2 * B)) (- DP)).

(** The square root as big.js documents it: rounded half up to [DP]
    decimal places.  big.js reaches it by a Newton iteration that starts
    from the native square root and works with [DP + 4] places; the model
    gives the documented value and does not follow the iteration, which
    need not settle for an operand so small that its root has no
    significant digit within those places, such as [1e-49]. *)
Definition sqrt (x : Big) : res Big :=
  if is_zero x then Ok x
  else if neg x then Throw NO_SQRT
  else
    let d := expo x + 2 * DP in
    let t := if 0 <=? d then 4 * Z.of_N (coef x) * 10 ^ d
             else 4 * Z.of_N (coef x) / 10 ^ (- d) in
    Ok (make false ((Z.sqrt t + 1) / 2) (- DP)).

Definition abs (x : Big) : Big :=
  {| neg := false; coef := coef x; expo := expo x |}.

Definition eq (x y : Big) : bool :=
  if is_zero x || is_zero y then is_zero x && is_zero y
  else Bool.eqb (neg x) (neg y) && (coef x =? coef y)%N && (expo x =? expo y).

End BigJs.

(** ** JavaScript values

    [Operand<T> = T | string | number]: a native number, a string, or a
    [Big]; [VUndefined] is a missing argument or property. *)

Inductive value :=
  | VUndefined
  | VNum (n : float)
  | VStr (s : string)
  | VBig (b : BigJs.Big).

Module JS.

Definition is_nan (n : float) : bool := negb (PrimFloat.eqb n n).

(** ToBoolean *)
Definition truthy (v : value) : bool :=
  match v with
  | VUndefined => false
  | VNum n => negb (PrimFloat.eqb n 0 || is_nan n)
  | VStr s => negb (String.eqb s "")
  | VBig _ => true
  end.

(** [a || b] *)
Definition or_else (a b : value) : value := if truthy a then a else b.

(** ToNumber, as applied by [Number(x)] and by [Math.sqrt], [Math.abs];
    an object is first converted by its [valueOf]. *)
Definition ToNumber (v : value) : float :=
  match v with
  | VUndefined => nan
  | VNum n => n
  | VStr s => Num.ofString s
  | VBig b => Num.ofString (BigJs.valueOf b)
  end.

(** The method call [v.toString()]. *)
Definition toString (v : value) : res string :=
  match v with
  | VUndefined => Throw (TypeError "Cannot read properties of undefined")
  | VNum n => Ok (Num.toString n)
  | VStr s => Ok s
  | VBig b => Ok (BigJs.toString b)
  end.

(** [n === 0 && 1 / n < 0] *)
Definition is_minus_zero (n : float) : bool :=
  PrimFloat.eqb n 0 && PrimFloat.ltb (1 / n) 0.

(** [new Big(n)] *)
Definition new_Big (v : value) : res BigJs.Big :=
  match v with
  | VBig b => Ok b
  | VNum n => if is_minus_zero n then BigJs.parse "-0"
              else BigJs.parse (Num.toString n)
  | VStr s => BigJs.parse s
  | VUndefined => BigJs.parse "undefined"
  end.

End JS.

(** ** Operator systems ([src/operator-system/types.ts])

    The eight operations are pure; each may throw. *)

Record IOperatorSystem := {
  name : string;
  create : value -> res value;
  sqrt : value -> res value;
  abs : value -> res value;
  plus : value -> value -> res value;
  minus : value -> value -> res value;
  divide : value -> value -> res value;
  multiply : value -> value -> res value;
  equal : value -> value -> res bool
}.

(** [src/operator-system/base.ts] *)
Definition BaseOperatorSystem : IOperatorSystem := {|
  name := "BaseOperatorSystem";
  create x := Ok (VNum (JS.ToNumber x));
  plus x y := Ok (VNum (JS.ToNumber x + JS.ToNumber y)%float);
  minus x y := Ok (VNum (JS.ToNumber x - JS.ToNumber y)%float);
  divide x y := Ok (VNum (JS.ToNumber x / JS.ToNumber y)%float);
  multiply x y := Ok (VNum (JS.ToNumber x * JS.ToNumber y)%float);
  sqrt x := Ok (VNum (PrimFloat.sqrt (JS.ToNumber x)));
  abs x := Ok (VNum (PrimFloat.abs (JS.ToNumber x)));
  equal x y := Ok (PrimFloat.eqb (JS.ToNumber x) (JS.ToNumber y))
|}.

(** [src/operator-system/big.ts]: [new Big(x).plus(y)] converts [x], then
    [y] inside the method. *)
Definition BigOperatorSystem : IOperatorSystem := {|
  name := "BigOperatorSystem";
  create x := bx ← JS.new_Big x; Ok (VBig bx);
  plus x y := bx ← JS.new_Big x; by' ← JS.new_Big y; Ok (VBig (BigJs.plus bx by'));
  minus x y := bx ← JS.new_Big x; by' ← JS.new_Big y; Ok (VBig (BigJs.minus bx by'));
  divide x y :=
    bx ← JS.new_Big x; by' ← JS.new_Big y; q ← BigJs.div bx by'; Ok (VBig q);
  multiply x y :=
    bx ← JS.new_Big x; by' ← JS.new_Big y; Ok (VBig (BigJs.times bx by'));
  sqrt x := bx ← JS.new_Big x; r ← BigJs.sqrt bx; Ok (VBig r);
  abs x := bx ← JS.new_Big x; Ok (VBig (BigJs.abs bx));
  equal x y := bx ← JS.new_Big x; by' ← JS.new_Big y; Ok (BigJs.eq bx by')
|}.

(** The default export of [src/operator-system/index.ts]: a plain object
    used as a name-keyed registry. *)
Definition OperatorSystem : gmap string IOperatorSystem :=
  {[ "base" := BaseOperatorSystem; "big" := BigOperatorSystem ]}.

(** What [this.operatorSystem] may hold: an operator system, or, after a
    lookup of the registry object by a name it inherits from
    [Object.prototype], that member. *)
Inductive sysref :=
  | OS (os : IOperatorSystem)
  | ProtoMember (key : string).

Definition Object_prototype_keys : list string :=
  [ "constructor"; "__defineGetter__"; "__defineSetter__"; "hasOwnProperty";
    "__lookupGetter__"; "__lookupSetter__"; "isPrototypeOf";
    "propertyIsEnumerable"; "toString"; "valueOf"; "__proto__";
    "toLocaleString" ].

(** [OperatorSystem[key]]: an own property, else an inherited one, else
    [undefined]. *)
Definition registry_get (key : string) : option sysref :=
  match OperatorSystem !! key with
  | Some os => Some (OS os)
  | None =>
      if bool_decide (key ∈ Object_prototype_keys) then Some (ProtoMember key)
      else None
  end.

Definition not_a_function {A} (f : string) : res A :=
  Throw (TypeError (f ++ " is not a function")).

(** The operations read off [this.operatorSystem].  A member of
    [Object.prototype] has none of them, except that [constructor] is
    [Object], whose [create] is [Object.create]: it throws on a primitive
    and returns an object inheriting from a [Big], which behaves as that
    [Big]. *)
Definition sys_create (s : sysref) (v : value) : res value :=
  match s with
  | OS os => create os v
  | ProtoMember key =>
      if String.eqb key "constructor" then
        match v with
        | VBig b => Ok (VBig b)
        | _ => Throw (TypeError "Object prototype may only be an Object or null")
        end
      else not_a_function "this.operatorSystem.create"
  end.

Definition sys_unary (f : IOperatorSystem -> value -> res value) (fname : string)
    (s : sysref) (v : value) : res value :=
  match s with
  | OS os => f os v
  | ProtoMember _ => not_a_function fname
  end.

Definition sys_binary {A} (f : IOperatorSystem -> value -> value -> res A)
    (fname : string) (s : sysref) (v w : value) : res A :=
  match s with
  | OS os => f os v w
  | ProtoMember _ => not_a_function fname
  end.

Definition sys_sqrt := sys_unary sqrt "sqrt".
Definition sys_abs := sys_unary abs "abs".
Definition sys_plus := sys_binary plus "plus".
Definition sys_minus := sys_binary minus "minus".
Definition sys_divide := sys_binary divide "divide".
Definition sys_multiply := sys_binary multiply "multiply".
Definition sys_equal := sys_binary equal "equal".

(** ** The heap of Vector instances and the static field [Vector.SYSTEM] *)

Definition loc := nat.

Record Vector := {
  _x : value;
  _y : value;
  operatorSystem : sysref
}.

Record state := {
  SYSTEM : IOperatorSystem;
  heap : list Vector
}.

Definition M (A : Type) : Type := state -> res (A * state).

#[export] Instance M_ret : MRet M := fun A a σ => Ok (a, σ).
#[export] Instance M_bind : MBind M := fun A B f m σ =>
  match m σ with
  | Ok (a, σ') => f a σ'
  | Throw e => Throw e
  end.

Definition lift {A} (r : res A) : M A := fun σ =>
  match r with
  | Ok a => Ok (a, σ)
  | Throw e => Throw e
  end.

Definition get_SYSTEM : M IOperatorSystem := fun σ => Ok (SYSTEM σ, σ).

Definition set_SYSTEM (os : IOperatorSystem) : M unit := fun σ =>
  Ok (tt, {| SYSTEM := os; heap := heap σ |}).

Definition deref (l : loc) : M Vector := fun σ =>
  match heap σ !! l with
  | Some o => Ok (o, σ)
  | None => Throw (TypeError "Cannot read properties of undefined")
  end.

Definition alloc (o : Vector) : M loc := fun σ =>
  Ok (length (heap σ), {| SYSTEM := SYSTEM σ; heap := heap σ ++ [o] |}).

Definition store (l : loc) (o : Vector) : M unit := fun σ =>
  Ok (tt, {| SYSTEM := SYSTEM σ; heap := <[l := o]> (heap σ) |}).

(** The state a program starts in: [static SYSTEM = BigOperatorSystem]. *)
Definition initial : state := {| SYSTEM := BigOperatorSystem; heap := [] |}.

(** ** The Vector class ([src/vector.ts]) *)

(** [VectorOperand<T> = Vector<T> | Operand<T>] *)
Inductive VectorOperand :=
  | Vec (l : loc)
  | Scalar (v : value).

(** The argument of [config]: [system] is a name or an operator system;
    when it is missing, the parameter's default applies. *)
Inductive system_option :=
  | SystemName (s : string)
  | SystemInstance (os : IOperatorSystem).

Module Vec.
Section Methods.
(** [Math.cos] and [Math.sin] are implementation-approximated, and
    [degree2radian] lives in [src/util.ts]: they are parameters. *)
Variables Math_cos Math_sin : float -> float.
Variable degree2radian : value -> (value -> value -> res value) -> res value.

Definition isVector (vec : VectorOperand) : bool :=
  match vec with
  | Vec _ => true
  | Scalar _ => false
  end.

Definition config (this : loc) (system : option system_option) : M unit :=
  let system := default (SystemInstance BigOperatorSystem) system in
  o ← deref this;
  match system with
  | SystemName s =>
      sys ← get_SYSTEM;
      store this {| _x := _x o; _y := _y o;
                    operatorSystem := default (OS sys) (registry_get s) |}
  | SystemInstance os =>
      store this {| _x := _x o; _y := _y o; operatorSystem := OS os |}
  end.

(** [operatorSystem = Vector.SYSTEM] initialises the field, then the
    constructor stores [x || 0] and [y || 0]. *)
Definition new (x y : value) : M loc :=
  sys ← get_SYSTEM;
  alloc {| _x := JS.or_else x (VNum 0);
           _y := JS.or_else y (VNum 0);
           operatorSystem := OS sys |}.

Definition x (this : loc) : M string :=
  o ← deref this; lift (JS.toString (_x o)).

Definition set_x (this : loc) (v : value) : M unit :=
  o ← deref this;
  c ← lift (sys_create (operatorSystem o) v);
  store this {| _x := c; _y := _y o; operatorSystem := operatorSystem o |}.

Definition y (this : loc) : M string :=
  o ← deref this; lift (JS.toString (_y o)).

Definition set_y (this : loc) (v : value) : M unit :=
  o ← deref this;
  c ← lift (sys_create (operatorSystem o) v);
  store this {| _x := _x o; _y := c; operatorSystem := operatorSystem o |}.

Definition system_of (this : loc) : M sysref :=
  o ← deref this; mret (operatorSystem o).

Definition lengthSq (this : loc) : M string :=
  os ← system_of this;
  x1 ← x this; x2 ← x this;
  xx ← lift (sys_multiply os (VStr x1) (VStr x2));
  y1 ← y this; y2 ← y this;
  yy ← lift (sys_multiply os (VStr y1) (VStr y2));
  s ← lift (sys_plus os xx yy);
  lift (JS.toString s).

Definition length (this : loc) : M string :=
  os ← system_of this;
  sq ← lengthSq this;
  r ← lift (sys_sqrt os (VStr sq));
  lift (JS.toString r).

Definition fromArray (arr : list value) : M loc :=
  new (JS.or_else (default VUndefined (arr !! 0%nat)) (VNum 0))
      (JS.or_else (default VUndefined (arr !! 1%nat)) (VNum 0)).

Definition fromObject (obj : gmap string value) : M loc :=
  new (JS.or_else (default VUndefined (obj !! "x")) (VNum 0))
      (JS.or_else (default VUndefined (obj !! "y")) (VNum 0)).

(** [isVector(vec) ? vec.x : vec] *)
Definition x_or_scalar (vec : VectorOperand) : M value :=
  match vec with
  | Vec l => s ← x l; mret (VStr s)
  | Scalar v => mret v
  end.

Definition y_or_scalar (vec : VectorOperand) : M value :=
  match vec with
  | Vec l => s ← y l; mret (VStr s)
  | Scalar v => mret v
  end.

Definition addX (this : loc) (vec : VectorOperand) : M loc :=
  os ← system_of this;
  tx ← x this;
  a ← x_or_scalar vec;
  targetX ← lift (sys_plus os (VStr tx) a);
  ty ← y this;
  new targetX (VStr ty).

Definition addY (this : loc) (vec : VectorOperand) : M loc :=
  os ← system_of this;
  ty ← y this;
  a ← y_or_scalar vec;
  targetY ← lift (sys_plus os (VStr ty) a);
  tx ← x this;
  new (VStr tx) targetY.

Definition add (this : loc) (vec : VectorOperand) : M loc :=
  v ← addX this vec; addY v vec.

Definition subtractX (this : loc) (vec : VectorOperand) : M loc :=
  os ← system_of this;
  tx ← x this;
  a ← x_or_scalar vec;
  targetX ← lift (sys_minus os (VStr tx) a);
  ty ← y this;
  new targetX (VStr ty).

Definition subtractY (this : loc) (vec : VectorOperand) : M loc :=
  os ← system_of this;
  ty ← y this;
  a ← y_or_scalar vec;
  targetY ← lift (sys_minus os (VStr ty) a);
  tx ← x this;
  new (VStr tx) targetY.

Definition subtract (this : loc) (vec : VectorOperand) : M loc :=
  v ← subtractX this vec; subtractY v vec.

Definition divideX (this : loc) (vec : VectorOperand) : M loc :=
  os ← system_of this;
  tx ← x this;
  a ← x_or_scalar vec;
  targetX ← lift (sys_divide os (VStr tx) a);
  ty ← y this;
  new targetX (VStr ty).

Definition divideY (this : loc) (vec : VectorOperand) : M loc :=
  os ← system_of this;
  ty ← y this;
  a ← y_or_scalar vec;
  targetY ← lift (sys_divide os (VStr ty) a);
  tx ← x this;
  new (VStr tx) targetY.

Definition divide (this : loc) (vec : VectorOperand) : M loc :=
  v ← divideX this vec; divideY v vec.

Definition multiplyX (this : loc) (vec : VectorOperand) : M loc :=
  os ← system_of this;
  tx ← x this;
  a ← x_or_scalar vec;
  targetX ← lift (sys_multiply os (VStr tx) a);
  ty ← y this;
  new targetX (VStr ty).

Definition multiplyY (this : loc) (vec : VectorOperand) : M loc :=
  os ← system_of this;
  ty ← y this;
  a ← y_or_scalar vec;
  targetY ← lift (sys_multiply os (VStr ty) a);
  tx ← x this;
  new (VStr tx) targetY.

Definition multiply (this : loc) (vec : VectorOperand) : M loc :=
  v ← multiplyX this vec; multiplyY v vec.

Definition invertX (this : loc) : M loc := multiplyX this (Scalar (VNum (-1))).
Definition invertY (this : loc) : M loc := multiplyY this (Scalar (VNum (-1))).
Definition invert (this : loc) : M loc := multiply this (Scalar (VNum (-1))).

Definition normalize (this : loc) : M loc :=
  len ← length this; divide this (Scalar (VStr len)).

Definition norm (this : loc) : M loc := normalize this.

Definition rotate (this : loc) (angle : value) : M loc :=
  os ← system_of this;
  x1 ← x this;
  a ← lift (sys_multiply os (VStr x1) (VNum (Math_cos (JS.ToNumber angle))));
  y1 ← y this;
  b ← lift (sys_multiply os (VStr y1) (VNum (Math_sin (JS.ToNumber angle))));
  nx ← lift (sys_minus os a b);
  x2 ← x this;
  c ← lift (sys_multiply os (VStr x2) (VNum (Math_sin (JS.ToNumber angle))));
  y2 ← y this;
  d ← lift (sys_multiply os (VStr y2) (VNum (Math_cos (JS.ToNumber angle))));
  ny ← lift (sys_plus os c d);
  new nx ny.

Definition rotateDegree (this : loc) (degree : value) : M loc :=
  os ← system_of this;
  angle ← lift (degree2radian degree (sys_divide os));
  rotate this angle.

Definition dot (this vec2 : loc) : M string :=
  os ← system_of this;
  x1 ← x this; x2 ← x vec2;
  a ← lift (sys_multiply os (VStr x1) (VStr x2));
  y1 ← y this; y2 ← y vec2;
  b ← lift (sys_multiply os (VStr y1) (VStr y2));
  s ← lift (sys_plus os a b);
  lift (JS.toString s).

Definition cross (this vec2 : loc) : M string :=
  os ← system_of this;
  x1 ← x this; y2 ← y vec2;
  a ← lift (sys_multiply os (VStr x1) (VStr y2));
  y1 ← y this; x2 ← x vec2;
  b ← lift (sys_multiply os (VStr y1) (VStr x2));
  s ← lift (sys_minus os a b);
  lift (JS.toString s).

Definition projectOnto (this vec2 : loc) : M loc :=
  os ← system_of this;
  d ← dot this vec2;
  sq ← lengthSq vec2;
  coeff ← lift (sys_divide os (VStr d) (VStr sq));
  x2 ← x vec2;
  px ← lift (sys_multiply os coeff (VStr x2));
  y2 ← y vec2;
  py ← lift (sys_multiply os coeff (VStr y2));
  new px py.

Definition cosAngleBetween (this vec2 : loc) : M string :=
  len1 ← length this;
  v1 ← divide this (Scalar (VStr len1));
  len2 ← length vec2;
  v2 ← divide v1 (Scalar (VStr len2));
  dot v2 vec2.

Definition isZero (this : loc) : M bool :=
  os ← system_of this;
  x1 ← x this;
  ex ← lift (sys_equal os (VStr x1) (VNum 0));
  if ex : bool then
    y1 ← y this; lift (sys_equal os (VStr y1) (VNum 0))
  else mret false.

Definition isEqualTo (this vec2 : loc) : M bool :=
  os ← system_of this;
  x1 ← x this; x2 ← x vec2;
  ex ← lift (sys_equal os (VStr x1) (VStr x2));
  if ex : bool then
    y1 ← y this; y2 ← y vec2; lift (sys_equal os (VStr y1) (VStr y2))
  else mret false.

Definition toString (this : loc) : M string :=
  x1 ← x this; y1 ← y this; mret ("x:" ++ x1 ++ ", y:" ++ y1).

Definition toArray (this : loc) : M (list value) :=
  x1 ← x this; y1 ← y this; mret [VStr x1; VStr y1].

Definition toObject (this : loc) : M (gmap string value) :=
  x1 ← x this; y1 ← y this;
  mret ({[ "x" := VStr x1; "y" := VStr y1 ]} : gmap string value).

(** [Math.atan2] and [Math.acos] are implementation-approximated, and
    [radian2degree] lives in [src/util.ts]: they are parameters too. *)
Variable Math_atan2 : float -> float -> float.
Variable Math_acos : float -> float.
Variable radian2degree : value -> (value -> value -> res value) -> res value.

Definition angle (this : loc) : M string :=
  y1 ← y this; x1 ← x this;
  mret (Num.toString (Math_atan2 (JS.ToNumber (VStr y1)) (JS.ToNumber (VStr x1)))).

Definition angleDegree (this : loc) : M string :=
  os ← system_of this;
  a ← angle this;
  d ← lift (radian2degree (VStr a) (sys_multiply os));
  lift (JS.toString d).

Definition verticalAngle (this : loc) : M string :=
  x1 ← x this; y1 ← y this;
  mret (Num.toString (Math_atan2 (JS.ToNumber (VStr x1)) (JS.ToNumber (VStr y1)))).

Definition verticalAngleDegree (this : loc) : M string :=
  os ← system_of this;
  a ← verticalAngle this;
  d ← lift (radian2degree (VStr a) (sys_multiply os));
  lift (JS.toString d).

Definition angleBetween (this vec2 : loc) : M string :=
  c ← cosAngleBetween this vec2;
  mret (Num.toString (Math_acos (JS.ToNumber (VStr c)))).

Definition distanceX (this vec : loc) : M string :=
  os ← system_of this;
  x1 ← x this; x2 ← x vec;
  d ← lift (sys_minus os (VStr x1) (VStr x2));
  lift (JS.toString d).

Definition absDistanceX (this vec : loc) : M string :=
  os ← system_of this;
  d ← distanceX this vec;
  a ← lift (sys_abs os (VStr d));
  lift (JS.toString a).

Definition distanceY (this vec : loc) : M string :=
  os ← system_of this;
  y1 ← y this; y2 ← y vec;
  d ← lift (sys_minus os (VStr y1) (VStr y2));
  lift (JS.toString d).

Definition absDistanceY (this vec : loc) : M string :=
  os ← system_of this;
  d ← distanceY this vec;
  a ← lift (sys_abs os (VStr d));
  lift (JS.toString a).

Definition distanceSq (this vec : loc) : M string :=
  os ← system_of this;
  dx ← distanceX this vec;
  dy ← distanceY this vec;
  xx ← lift (sys_multiply os (VStr dx) (VStr dx));
  yy ← lift (sys_multiply os (VStr dy) (VStr dy));
  s ← lift (sys_plus os xx yy);
  lift (JS.toString s).

Definition distance (this vec : loc) : M string :=
  os ← system_of this;
  sq ← distanceSq this vec;
  r ← lift (sys_sqrt os (VStr sq));
  lift (JS.toString r).


(** The twelve binary manipulation methods, and all nineteen methods that
    return a Vector, as data, so that a statement can range over them. *)
Inductive binary_method :=
  | AddX | AddY | Add
  | SubtractX | SubtractY | Subtract
  | DivideX | DivideY | Divide
  | MultiplyX | MultiplyY | Multiply.

Definition binary (m : binary_method) : loc -> VectorOperand -> M loc :=
  match m with
  | AddX => addX | AddY => addY | Add => add
  | SubtractX => subtractX | SubtractY => subtractY | Subtract => subtract
  | DivideX => divideX | DivideY => divideY | Divide => divide
  | MultiplyX => multiplyX | MultiplyY => multiplyY | Multiply => multiply
  end.

Inductive manipulation :=
  | Binary (m : binary_method) (vec : VectorOperand)
  | InvertX | InvertY | Invert
  | Normalize
  | Rotate (angle : value)
  | RotateDegree (degree : value)
  | ProjectOnto (vec2 : loc).

Definition manipulate (m : manipulation) (this : loc) : M loc :=
  match m with
  | Binary b vec => binary b this vec
  | InvertX => invertX this
  | InvertY => invertY this
  | Invert => invert this
  | Normalize => normalize this
  | Rotate angle => rotate this angle
  | RotateDegree degree => rotateDegree this degree
  | ProjectOnto vec2 => projectOnto this vec2
  end.

End Methods.
End Vec.

(** * Specification vocabulary

    Programs, states and predicates the statements below are written
    with. *)

(** The result of a computation, without the final state. *)
Definition eval {A} (m : M A) (σ : state) : res A :=
  match m σ with
  | Ok (a, _) => Ok a
  | Throw e => Throw e
  end.

(** The state with [Vector.SYSTEM = BaseOperatorSystem] and no Vector. *)
Definition native : state := {| SYSTEM := BaseOperatorSystem; heap := [] |}.

(** A computation that returns leaves the state as it found it. *)
Definition read_only {A} (m : M A) : Prop :=
  ∀ σ a σ', m σ = Ok (a, σ') → σ' = σ.

(** [σ'] is [σ] with Vectors appended, [r] the last of them, created under
    the static default of [σ]. *)
Definition grows (σ : state) (r : loc) (σ' : state) : Prop :=
  SYSTEM σ' = SYSTEM σ ∧
  ∃ mid o, heap σ' = (heap σ ++ mid ++ [o])%list
           ∧ r = length (heap σ ++ mid)%list
           ∧ operatorSystem o = OS (SYSTEM σ).

Definition allocates (m : M loc) : Prop :=
  ∀ σ r σ', m σ = Ok (r, σ') → grows σ r σ'.

(** Whether a result is a value rather than an exception. *)
Definition is_Ok {A} (r : res A) : bool :=
  match r with
  | Ok _ => true
  | Throw _ => false
  end.

(** [String(s.name)]: a function inherited from [Object.prototype] is
    named after its key, except that [constructor] is [Object];
    [__proto__] is [Object.prototype] itself, which has no name. *)
Definition sysref_name (s : sysref) : string :=
  match s with
  | OS os => name os
  | ProtoMember key =>
      if String.eqb key "constructor" then "Object"
      else if String.eqb key "__proto__" then "undefined"
      else key
  end.

Module C1.

(** [var v = new Vector(100, 50); v.config({ system: 'base' });
     var r = v.addX(20);] then the names of [v.operatorSystem] and of
    [r.operatorSystem]. *)
Definition program : M (string * string) :=
  v ← Vec.new (VNum 100) (VNum 50);
  _ ← Vec.config v (Some (SystemName "base"));
  r ← Vec.addX v (Scalar (VNum 20));
  sv ← Vec.system_of v;
  sr ← Vec.system_of r;
  mret (sysref_name sv, sysref_name sr).

End C1.

Definition configured_native : state :=
  {| SYSTEM := BigOperatorSystem;
     heap := [ {| _x := VNum 100; _y := VNum 50;
                  operatorSystem := OS BaseOperatorSystem |} ] |}.

Definition two_vectors : state :=
  {| SYSTEM := BigOperatorSystem;
     heap := [ {| _x := VNum 100; _y := VNum 50;
                  operatorSystem := OS BigOperatorSystem |};
               {| _x := VNum 20; _y := VNum 30;
                  operatorSystem := OS BigOperatorSystem |} ] |}.

Module C2.

Definition isFinite (n : float) : bool :=
  PrimFloat.ltb (PrimFloat.abs n) infinity.

(** [Vector(1,1).divide(Vector(0,0)).x] *)
Definition program : M string :=
  a ← Vec.new (VNum 1) (VNum 1);
  b ← Vec.new (VNum 0) (VNum 0);
  r ← Vec.divide a (Vec b);
  Vec.x r.

(** The same, with the native system chosen for the receiver alone by
    [config({ system: 'base' })] under the default static system. *)
Definition program_config : M string :=
  a ← Vec.new (VNum 1) (VNum 1);
  _ ← Vec.config a (Some (SystemName "base"));
  b ← Vec.new (VNum 0) (VNum 0);
  r ← Vec.divide a (Vec b);
  Vec.x r.

End C2.

Module C3.

(** [var v = new Vector(1, 1); v.config({ system: key });] then the name of
    [v.operatorSystem]. *)
Definition program (key : string) : M string :=
  v ← Vec.new (VNum 1) (VNum 1);
  _ ← Vec.config v (Some (SystemName key));
  s ← Vec.system_of v;
  mret (sysref_name s).

End C3.

Module C4.

(** [var v = new Vector(x0, 2);] then [v.x], and the rendering of
    [v.operatorSystem.create(x0)]. *)
Definition program (x0 : value) : M (string * string) :=
  v ← Vec.new x0 (VNum 2);
  gx ← Vec.x v;
  os ← Vec.system_of v;
  c ← lift (sys_create os x0);
  rendered ← lift (JS.toString c);
  mret (gx, rendered).

End C4.

Module C10.

(** What a factory called with the coordinates [x0], [y0] does: it returns
    a Vector; a falsy [x0] is stored as the number [0] and read as ["0"],
    a truthy one is stored as it is; the same for [y0]. *)
Definition zero_for_falsy (x0 y0 : value) (factory : M loc) : Prop :=
  ∀ σ, ∃ r σ' o,
    factory σ = Ok (r, σ')
    ∧ heap σ' !! r = Some o
    ∧ (JS.truthy x0 = false → _x o = VNum 0 ∧ eval (Vec.x r) σ' = Ok "0")
    ∧ (JS.truthy y0 = false → _y o = VNum 0 ∧ eval (Vec.y r) σ' = Ok "0")
    ∧ (JS.truthy x0 = true → _x o = x0)
    ∧ (JS.truthy y0 = true → _y o = y0).

(** [var v = Vector.fromObject({ x: NaN, y: "" }); v.config({ system });]
    then [v.x] and [v.y]. *)
Definition program (system : option system_option) : M (string * string) :=
  v ← Vec.fromObject {[ "x" := VNum nan; "y" := VStr "" ]};
  _ ← Vec.config v system;
  sx ← Vec.x v;
  sy ← Vec.y v;
  mret (sx, sy).

End C10.

Module Literal.

(** A sequence of decimal digits. *)
Definition digit_list (l : list ascii) : Prop :=
  Forall (λ c, Chars.is_digit c = true) l.

(** What may follow the digits of a literal: nothing, or an exponent. *)
Definition ends_mantissa (r : list ascii) : Prop :=
  match r with
  | [] => True
  | c :: _ => Chars.is_digit c = false ∧ (c =? ".")%char = false
  end.

(** The characters of the rendering of a finite number, its sign apart. *)
Definition numeral_char (c : ascii) : bool :=
  Chars.is_digit c || (c =? ".")%char || (c =? "e")%char || (c =? "+")%char
  || (c =? "-")%char.

(** A rendering made of such characters that starts with a digit. *)
Definition numeral (l : list ascii) : Prop :=
  Forall (λ c, numeral_char c = true) l
  ∧ ∃ c l', l = c :: l' ∧ Chars.is_digit c = true.

End Literal.

Module BigSpec.

(** A nonzero Big in the form big.js keeps: no trailing zero in the
    coefficient. *)
Definition canonical (b : BigJs.Big) : Prop :=
  0 < Z.of_N (BigJs.coef b) ∧ Z.of_N (BigJs.coef b) mod 10 ≠ 0.

(** The square of a nonzero Big. *)
Definition square (b : BigJs.Big) : BigJs.Big :=
  BigJs.make false (Z.of_N (BigJs.coef b) * Z.of_N (BigJs.coef b))
    (BigJs.expo b + BigJs.expo b).

(** [1] and [-1]. *)
Definition unit (s : bool) : BigJs.Big :=
  {| BigJs.neg := s; BigJs.coef := 1; BigJs.expo := 0 |}.

(** The forms big.js keeps a Big in: a zero of either sign, or a nonzero
    Big with no trailing zero in its coefficient. *)
Definition normal (b : BigJs.Big) : Prop :=
  b = BigJs.zero (BigJs.neg b) ∨ canonical b.

(** What [new Big(b.toString())] is: [b] itself, except that a minus zero
    is read back as zero. *)
Definition reread (b : BigJs.Big) : BigJs.Big :=
  if BigJs.is_zero b then BigJs.zero false else b.

End BigSpec.

Module Rnd.

(** [M / 2 ^ n] rounded to the nearest integer, ties to even. *)
Definition rne (M n : Z) : Z :=
  let q := M / 2 ^ n in
  let r := M mod 2 ^ n in
  if 2 * r <? 2 ^ n then q
  else if 2 ^ n <? 2 * r then q + 1
  else if Z.even q then q else q + 1.

(** What [binary_round_aux] does with a rounded mantissa: one more
    alignment, then the overflow test. *)
Definition finish (sx : bool) (m1 e1 : Z) : spec_float :=
  let '(mrs, e2) := shr_fexp prec emax m1 e1 loc_Exact in
  match shr_m mrs with
  | Z0 => S754_zero sx
  | Zpos m => if e2 <=? emax - prec then S754_finite sx m e2
              else S754_infinity sx
  | Zneg _ => S754_nan
  end.

(** The mantissa [Num.round_ratio] hands to [binary_normalize] when it
    keeps [β] binary places: the quotient [a * 2 ^ β / b] with a sticky
    bit. *)
Definition sticky (a b β : Z) : Z :=
  2 * (a * 2 ^ β / b) + (if (a * 2 ^ β) mod b =? 0 then 0 else 1).

(** The double [mp * 2 ^ e] as a quotient of positive integers, as
    [Num.shortest] takes it. *)
Definition dnum (mp : positive) (e : Z) : Z :=
  if 0 <=? e then Z.pos mp * 2 ^ e else Z.pos mp.
Definition dden (e : Z) : Z := if 0 <=? e then 1 else 2 ^ (- e).

(** [10 ^ z] and [2 ^ z] as quotients of positive integers. *)
Definition p10p (z : Z) : Z := 10 ^ Z.max z 0.
Definition p10n (z : Z) : Z := 10 ^ Z.max (- z) 0.
Definition p2p (z : Z) : Z := 2 ^ Z.max z 0.
Definition p2n (z : Z) : Z := 2 ^ Z.max (- z) 0.

(** Whether [10 ^ (n1 - 2) <= 2 ^ L] and [2 ^ (L + 1) <= 10 ^ (n1 + 4)] for
    the estimate [n1] that [Num.decimal_exponent] starts from. *)
Definition bracket (L : Z) : bool :=
  let n1 := (L * 30103) / 100000 in
  (p10p (n1 - 2) * p2n L <=? p2p L * p10n (n1 - 2))
  && (p2p (L + 1) * p10n (n1 + 4) <=? p10p (n1 + 4) * p2n (L + 1)).

(** The decimal exponent of the double, and its first [k] digits,
    truncated. *)
Definition dexp (mp : positive) (e : Z) : Z :=
  Num.decimal_exponent (dnum mp e) (dden e).
Definition lo_of (mp : positive) (e k : Z) : Z :=
  (dnum mp e * p10p (k - dexp mp e)) / (dden e * p10n (k - dexp mp e)).

End Rnd.

Module C5.

(** [var v = new Vector(x0, y0);] then whether [v.length] equals [0], the
    rendering of [v.normalize().length], and whether it equals [1], both
    judged by the [equal] of the Vector's operator system. *)
Definition program (x0 y0 : value) : M (bool * string * bool) :=
  v ← Vec.new x0 y0;
  len ← Vec.length v;
  os ← Vec.system_of v;
  zero ← lift (sys_equal os (VStr len) (VNum 0));
  n ← Vec.normalize v;
  nlen ← Vec.length n;
  nos ← Vec.system_of n;
  one ← lift (sys_equal nos (VStr nlen) (VNum 1));
  mret (zero, nlen, one).

(** [lengthSq] and [length] of a Vector whose coordinates are read as [sx]
    and [sy], as functions of its operator system. *)
Definition lengthSq_of (os : sysref) (sx sy : string) : res string :=
  xx ← sys_multiply os (VStr sx) (VStr sx);
  yy ← sys_multiply os (VStr sy) (VStr sy);
  s ← sys_plus os xx yy;
  JS.toString s.

Definition length_of (os : sysref) (sx sy : string) : res string :=
  sq ← lengthSq_of os sx sy;
  r ← sys_sqrt os (VStr sq);
  JS.toString r.

(** [X], [Y] lie on a coordinate axis: one is zero, the other is nonzero
    with at most [DP] decimal places. *)
Definition on_axis (X Y : BigJs.Big) : Prop :=
  (BigSpec.canonical X ∧ - BigJs.DP <= BigJs.expo X ∧ BigJs.is_zero Y = true)
  ∨ (BigJs.is_zero X = true ∧ BigSpec.canonical Y ∧ - BigJs.DP <= BigJs.expo Y).

(** [var n = v.normalize();] then [n.length]. *)
Definition normalized_length (v : loc) : M string :=
  n ← Vec.normalize v; Vec.length n.

(** A state whose default system is the Big one, with the Vector
    [(-2.5, 0)] at location [0]. *)
Definition on_x_axis : state :=
  {| SYSTEM := BigOperatorSystem;
     heap := [ {| _x := VStr "-2.5"; _y := VNum 0;
                  operatorSystem := OS BigOperatorSystem |} ] |}.

(** A native number whose square neither underflows nor overflows:
    [2 ^ -511 <= |p| < 2 ^ 512]. *)
Definition in_range (p : float) : bool :=
  (0x1p-511 <=? PrimFloat.abs p)%float && (PrimFloat.abs p <? 0x1p+512)%float.

(** The native numbers [p], [q] lie on a coordinate axis: one is [0] or
    [-0], the other is in range. *)
Definition native_on_axis (p q : float) : Prop :=
  (in_range p = true ∧ PrimFloat.eqb q 0 = true)
  ∨ (PrimFloat.eqb p 0 = true ∧ in_range q = true).

(** A Vector of the operator system [os] whose coordinates read [sx] and
    [sy] lies on a coordinate axis: [on_axis] for the Bigs the
    arbitrary-precision system reads, [native_on_axis] for the numbers
    the native system reads. *)
Definition axis_aligned (os : IOperatorSystem) (sx sy : string) : Prop :=
  (os = BigOperatorSystem
   ∧ ∃ X Y, BigJs.parse sx = Ok X ∧ BigJs.parse sy = Ok Y ∧ on_axis X Y)
  ∨ (os = BaseOperatorSystem
     ∧ native_on_axis (Num.ofString sx) (Num.ofString sy)).

(** A state whose default system is the native one, with the Vector
    [(0, -7)] at location [0]. *)
Definition native_on_y_axis : state :=
  {| SYSTEM := BaseOperatorSystem;
     heap := [ {| _x := VNum 0; _y := VNum (-7);
                  operatorSystem := OS BaseOperatorSystem |} ] |}.

End C5.

Module C6.

(** [var a = new Vector(1, 0), b = new Vector(49, 0);] then
    [a.cosAngleBetween(b)] and [a.normalize().dot(b.normalize())]. *)
Definition program : M (string * string) :=
  a ← Vec.new (VNum 1) (VNum 0);
  b ← Vec.new (VNum 49) (VNum 0);
  c ← Vec.cosAngleBetween a b;
  na ← Vec.normalize a;
  nb ← Vec.normalize b;
  d ← Vec.dot na nb;
  mret (c, d).

End C6.

Module C8.

(** [var v = new Vector(x0, y0);] then
    [Vector.fromArray(v.toArray()).isEqualTo(v)]. *)
Definition array_round_trip (v : loc) : M bool :=
  arr ← Vec.toArray v; w ← Vec.fromArray arr; Vec.isEqualTo w v.

Definition object_round_trip (v : loc) : M bool :=
  obj ← Vec.toObject v; w ← Vec.fromObject obj; Vec.isEqualTo w v.

Definition program (x0 y0 : value) : M (bool * bool) :=
  v ← Vec.new x0 y0;
  a ← array_round_trip v;
  o ← object_round_trip v;
  mret (a, o).

(** [var v = new Vector(1, 1); v.x = NaN;] then the round trips. *)
Definition program_set : M (bool * bool) :=
  v ← Vec.new (VNum 1) (VNum 1);
  _ ← Vec.set_x v (VNum nan);
  a ← array_round_trip v;
  o ← object_round_trip v;
  mret (a, o).

(** The operands a Vector holds after its constructor or a setter of
    either operator system: a number, a non-empty string or a Big. *)
Definition storable (v : value) : Prop :=
  match v with
  | VUndefined => False
  | VStr s => s ≠ ""
  | VNum _ | VBig _ => True
  end.

End C8.

Module C7.

(** The negation of a value an operator system returns: of a number, of a
    Big. *)
Definition negation (v : value) : option value :=
  match v with
  | VNum n => Some (VNum (- n)%float)
  | VBig b => Some (VBig (BigJs.negate b))
  | VStr _ | VUndefined => None
  end.

End C7.

(** A computation that returns leaves [Vector.SYSTEM] and every existing
    Vector as they were; it may create Vectors. *)
Definition preserves {A} (m : M A) : Prop :=
  ∀ σ a σ', m σ = Ok (a, σ') →
    SYSTEM σ' = SYSTEM σ ∧ ∃ mid, heap σ' = (heap σ ++ mid)%list.

(** One of the two operator systems of the package. *)
Definition builtin (os : IOperatorSystem) : Prop :=
  os = BaseOperatorSystem ∨ os = BigOperatorSystem.

(** The common shape of the X-only and of the Y-only binary methods, over
    the operation [f] they read off the operator system: [Vec.addX] is
    [methodX sys_plus], [Vec.divideY] is [methodY sys_divide]. *)
Definition methodX (f : sysref → value → value → res value)
    (this : loc) (vec : VectorOperand) : M loc :=
  os ← Vec.system_of this; tx ← Vec.x this; a ← Vec.x_or_scalar vec;
  t ← lift (f os (VStr tx) a); ty ← Vec.y this; Vec.new t (VStr ty).

Definition methodY (f : sysref → value → value → res value)
    (this : loc) (vec : VectorOperand) : M loc :=
  os ← Vec.system_of this; ty ← Vec.y this; a ← Vec.y_or_scalar vec;
  t ← lift (f os (VStr ty) a); tx ← Vec.x this; Vec.new (VStr tx) t.

(** The coordinates a binary method computes; the other one is copied
    from the receiver. *)
Definition computes_x (m : Vec.binary_method) : bool :=
  match m with
  | Vec.AddY | Vec.SubtractY | Vec.DivideY | Vec.MultiplyY => false
  | _ => true
  end.

Definition computes_y (m : Vec.binary_method) : bool :=
  match m with
  | Vec.AddX | Vec.SubtractX | Vec.DivideX | Vec.MultiplyX => false
  | _ => true
  end.

(** The renderings of both coordinates of the Vector a computation
    returns. *)
Definition coordinates (m : M loc) : M (string * string) :=
  v ← m; sx ← Vec.x v; sy ← Vec.y v; mret (sx, sy).

(** A state whose default system is the native one, with the Vectors
    [(3, 4)] and [(1.5, -2)] of the native system. *)
Definition native_vectors : state :=
  {| SYSTEM := BaseOperatorSystem;
     heap := [ {| _x := VNum 3; _y := VNum 4;
                  operatorSystem := OS BaseOperatorSystem |};
               {| _x := VStr "1.5"; _y := VNum (-2);
                  operatorSystem := OS BaseOperatorSystem |} ] |}.

(** A state whose default system is the arbitrary-precision one, with the
    zero Vector [("0.0", 0)] of that system. *)
Definition zero_vector : state :=
  {| SYSTEM := BigOperatorSystem;
     heap := [ {| _x := VStr "0.0"; _y := VNum 0;
                  operatorSystem := OS BigOperatorSystem |} ] |}.

(** * Properties *)

Lemma bind_Ok {A B} (m : M A) (k : A → M B) σ b σ' :
  (m ≫= k) σ = Ok (b, σ') ↔ ∃ a σ1, m σ = Ok (a, σ1) ∧ k a σ1 = Ok (b, σ').
Proof.
  unfold mbind, M_bind. split.
  - destruct (m σ) as [[a σ1]|e]; [eauto | discriminate].
  - intros (a & σ1 & -> & H). exact H.
Qed.

Lemma lift_Ok {A} (r : res A) σ a σ' :
  lift r σ = Ok (a, σ') ↔ r = Ok a ∧ σ' = σ.
Proof.
  unfold lift. destruct r; split; intros H.
  - by inversion H.
  - destruct H as [H ->]. by inversion H.
  - discriminate.
  - by destruct H.
Qed.

Lemma deref_Ok l σ o σ' :
  deref l σ = Ok (o, σ') ↔ heap σ !! l = Some o ∧ σ' = σ.
Proof.
  unfold deref. destruct (heap σ !! l); split; intros H.
  - by inversion H.
  - destruct H as [H ->]. by inversion H.
  - discriminate.
  - by destruct H.
Qed.

Lemma read_only_ret {A} (a : A) : read_only (mret a).
Proof. intros σ b σ' H. by inversion H. Qed.

Lemma read_only_lift {A} (r : res A) : read_only (lift r).
Proof. intros σ a σ' H. by apply lift_Ok in H as [_ ->]. Qed.

Lemma read_only_deref l : read_only (deref l).
Proof. intros σ a σ' H. by apply deref_Ok in H as [_ ->]. Qed.

Lemma read_only_get_SYSTEM : read_only get_SYSTEM.
Proof. intros σ a σ' H. by inversion H. Qed.

Lemma read_only_bind {A B} (m : M A) (k : A → M B) :
  read_only m → (∀ a, read_only (k a)) → read_only (m ≫= k).
Proof.
  intros Hm Hk σ b σ' H. apply bind_Ok in H as (a & σ1 & H1 & H2).
  apply Hm in H1 as ->. by apply Hk in H2.
Qed.

Lemma read_only_if {A} (b : bool) (m1 m2 : M A) :
  read_only m1 → read_only m2 → read_only (if b then m1 else m2).
Proof. by destruct b. Qed.

Create HintDb vec discriminated.
#[export] Hint Resolve read_only_ret read_only_lift read_only_deref
  read_only_get_SYSTEM : vec.

Ltac read_only_steps :=
  repeat first
    [ solve [eauto with vec]
    | apply read_only_bind; [ | intros ? ]
    | apply read_only_if ].

Lemma read_only_system_of this : read_only (Vec.system_of this).
Proof. unfold Vec.system_of. read_only_steps. Qed.
Lemma read_only_x this : read_only (Vec.x this).
Proof. unfold Vec.x. read_only_steps. Qed.
Lemma read_only_y this : read_only (Vec.y this).
Proof. unfold Vec.y. read_only_steps. Qed.
#[export] Hint Resolve read_only_system_of read_only_x read_only_y : vec.

Lemma read_only_x_or_scalar vec : read_only (Vec.x_or_scalar vec).
Proof. destruct vec; simpl; read_only_steps. Qed.
Lemma read_only_y_or_scalar vec : read_only (Vec.y_or_scalar vec).
Proof. destruct vec; simpl; read_only_steps. Qed.
#[export] Hint Resolve read_only_x_or_scalar read_only_y_or_scalar : vec.

Lemma read_only_lengthSq this : read_only (Vec.lengthSq this).
Proof. unfold Vec.lengthSq. read_only_steps. Qed.
#[export] Hint Resolve read_only_lengthSq : vec.
Lemma read_only_length this : read_only (Vec.length this).
Proof. unfold Vec.length. read_only_steps. Qed.
Lemma read_only_dot this vec2 : read_only (Vec.dot this vec2).
Proof. unfold Vec.dot. read_only_steps. Qed.
Lemma read_only_cross this vec2 : read_only (Vec.cross this vec2).
Proof. unfold Vec.cross. read_only_steps. Qed.
Lemma read_only_isEqualTo this vec2 : read_only (Vec.isEqualTo this vec2).
Proof. unfold Vec.isEqualTo. read_only_steps. Qed.
Lemma read_only_isZero this : read_only (Vec.isZero this).
Proof. unfold Vec.isZero. read_only_steps. Qed.
Lemma read_only_toArray this : read_only (Vec.toArray this).
Proof. unfold Vec.toArray. read_only_steps. Qed.
Lemma read_only_toObject this : read_only (Vec.toObject this).
Proof. unfold Vec.toObject. read_only_steps. Qed.
#[export] Hint Resolve read_only_length read_only_dot read_only_cross
  read_only_isEqualTo read_only_isZero read_only_toArray read_only_toObject : vec.

Lemma new_Ok x y σ r σ' :
  Vec.new x y σ = Ok (r, σ') ↔
  r = length (heap σ) ∧
  σ' = {| SYSTEM := SYSTEM σ;
          heap := (heap σ ++ [ {| _x := JS.or_else x (VNum 0);
                                  _y := JS.or_else y (VNum 0);
                                  operatorSystem := OS (SYSTEM σ) |} ])%list |}.
Proof.
  unfold Vec.new, get_SYSTEM, alloc, mbind, M_bind. split.
  - intros H. by inversion H.
  - by intros [-> ->].
Qed.

Lemma allocates_new x y : allocates (Vec.new x y).
Proof.
  intros σ r σ' H. apply new_Ok in H as [-> ->]. split; [done|].
  exists [], {| _x := JS.or_else x (VNum 0); _y := JS.or_else y (VNum 0);
                operatorSystem := OS (SYSTEM σ) |}.
  simpl. by rewrite app_nil_r.
Qed.

Lemma allocates_bind_read_only {A} (m : M A) (k : A → M loc) :
  read_only m → (∀ a, allocates (k a)) → allocates (m ≫= k).
Proof.
  intros Hm Hk σ r σ' H. apply bind_Ok in H as (a & σ1 & H1 & H2).
  apply Hm in H1 as ->. by apply Hk in H2.
Qed.

Lemma allocates_bind (m : M loc) (k : loc → M loc) :
  allocates m → (∀ a, allocates (k a)) → allocates (m ≫= k).
Proof.
  intros Hm Hk σ r σ' H. apply bind_Ok in H as (a & σ1 & H1 & H2).
  apply Hm in H1 as (HS1 & mid1 & o1 & Hh1 & _ & _).
  apply Hk in H2 as (HS2 & mid2 & o2 & Hh2 & -> & Ho2).
  split; [congruence|].
  exists (mid1 ++ [o1] ++ mid2)%list, o2. rewrite Hh2, Hh1.
  repeat split.
  - by rewrite <- !app_assoc.
  - by rewrite <- !app_assoc.
  - congruence.
Qed.

#[export] Hint Resolve allocates_new : vec.

Ltac allocates_steps :=
  repeat first
    [ solve [eauto with vec]
    | apply allocates_bind_read_only; [ solve [read_only_steps] | intros ? ]
    | apply allocates_bind; [ | intros ? ] ].

Lemma allocates_binary m this vec : allocates (Vec.binary m this vec).
Proof.
  assert (HX : ∀ f this vec, allocates
    (os ← Vec.system_of this; tx ← Vec.x this; a ← Vec.x_or_scalar vec;
     t ← lift (f os (VStr tx) a); ty ← Vec.y this; Vec.new t (VStr ty)))
    by (intros; allocates_steps).
  assert (HY : ∀ f this vec, allocates
    (os ← Vec.system_of this; ty ← Vec.y this; a ← Vec.y_or_scalar vec;
     t ← lift (f os (VStr ty) a); tx ← Vec.x this; Vec.new (VStr tx) t))
    by (intros; allocates_steps).
  destruct m; simpl;
    first [ apply HX | apply HY | (apply allocates_bind; [ apply HX | intros; apply HY ]) ].
Qed.
#[export] Hint Resolve allocates_binary : vec.

Section Manipulation.
Variables Math_cos Math_sin : float → float.
Variable degree2radian : value → (value → value → res value) → res value.

Lemma allocates_rotate this angle :
  allocates (Vec.rotate Math_cos Math_sin this angle).
Proof. unfold Vec.rotate. allocates_steps. Qed.

Lemma allocates_manipulate m this :
  allocates (Vec.manipulate Math_cos Math_sin degree2radian m this).
Proof.
  destruct m as [b vec| | | | | | |]; simpl.
  - apply allocates_binary.
  - apply (allocates_binary Vec.MultiplyX).
  - apply (allocates_binary Vec.MultiplyY).
  - apply (allocates_binary Vec.Multiply).
  - unfold Vec.normalize. apply allocates_bind_read_only; [eauto with vec|].
    intros len. apply (allocates_binary Vec.Divide).
  - apply allocates_rotate.
  - unfold Vec.rotateDegree.
    do 2 (apply allocates_bind_read_only; [eauto with vec|intros ?]).
    apply allocates_rotate.
  - unfold Vec.projectOnto. allocates_steps.
Qed.
End Manipulation.

Lemma grows_lookup σ r σ' :
  grows σ r σ' →
  (∀ l o, heap σ !! l = Some o → heap σ' !! l = Some o)
  ∧ heap σ !! r = None
  ∧ ∃ o, heap σ' !! r = Some o ∧ operatorSystem o = OS (SYSTEM σ).
Proof.
  intros (_ & mid & o & Hh & -> & Ho). repeat split.
  - intros l o' Hl. rewrite Hh. by apply lookup_app_l_Some.
  - apply lookup_ge_None. rewrite length_app. lia.
  - exists o. split; [|done].
    rewrite Hh, app_assoc. by apply list_lookup_middle.
Qed.

Lemma eval_Ok {A} (m : M A) σ a :
  eval m σ = Ok a ↔ ∃ σ', m σ = Ok (a, σ').
Proof.
  unfold eval. destruct (m σ) as [[a' σ']|e]; split.
  - intros [= ->]. eauto.
  - by intros (? & [= -> _]).
  - discriminate.
  - by intros (? & ?).
Qed.

(** A computation that evaluates to a result returns it in some state. *)
Lemma returns {A} (m : M A) σ :
  is_Ok (eval m σ) = true → ∃ a σ', m σ = Ok (a, σ').
Proof.
  unfold eval. destruct (m σ) as [[a σ']|e]; [eauto | discriminate].
Qed.

(** ** C1: the operator system of a returned Vector *)

(** C1, as stated, fails: a receiver configured with the native operator
    system, under the default static system, returns from [addX] a Vector
    whose operator system is the arbitrary-precision one. *)
Lemma C1_counterexample :
  eval C1.program initial = Ok ("BaseOperatorSystem", "BigOperatorSystem").
Proof. vm_compute. reflexivity. Qed.

(** C1, amended: every manipulation method that returns (addX ... projectOnto)
    returns a new Vector whose operator system is the static default
    [Vector.SYSTEM] current at the call, and leaves that default unchanged;
    it is the receiver's operator system when the receiver's is that
    default. *)
Theorem C1_returned_vector_has_static_default
    (Math_cos Math_sin : float → float)
    (degree2radian : value → (value → value → res value) → res value)
    (m : Vec.manipulation) (this : loc) (σ : state) (r : loc) (σ' : state) :
  Vec.manipulate Math_cos Math_sin degree2radian m this σ = Ok (r, σ') →
  SYSTEM σ' = SYSTEM σ ∧
  heap σ !! r = None ∧
  ∃ o, heap σ' !! r = Some o
       ∧ operatorSystem o = OS (SYSTEM σ)
       ∧ ∀ ov, heap σ !! this = Some ov →
               operatorSystem ov = OS (SYSTEM σ) →
               operatorSystem o = operatorSystem ov.
Proof.
  intros H. apply allocates_manipulate in H.
  pose proof (grows_lookup _ _ _ H) as (_ & Hfresh & o & Hr & Ho).
  destruct H as [HS _].
  split; [exact HS|]. split; [exact Hfresh|].
  exists o. split; [exact Hr|]. split; [exact Ho|].
  intros ov _ Hov. congruence.
Qed.

Lemma C1_witness :
  ∃ r σ',
    Vec.addX 0%nat (Scalar (VNum 20)) configured_native = Ok (r, σ')
    ∧ SYSTEM σ' = BigOperatorSystem
    ∧ ∃ o, heap σ' !! r = Some o ∧ operatorSystem o = OS BigOperatorSystem.
Proof.
  destruct (returns (Vec.addX 0%nat (Scalar (VNum 20))) configured_native)
    as (r & σ' & E); [vm_compute; reflexivity|].
  exists r, σ'. split; [exact E|].
  destruct (C1_returned_vector_has_static_default
              (fun a => a) (fun a => a) (fun d _ => Ok d)
              (Vec.Binary Vec.AddX (Scalar (VNum 20))) 0%nat configured_native r σ' E)
    as (HS & _ & o & Hr & Ho & _).
  split; [exact HS|]. exists o. split; [exact Hr | exact Ho].
Defined.

(** ** C9: the binary manipulation methods are frame-preserving *)

(** C9: a binary manipulation method that returns, on a Vector or a scalar
    argument, returns a new Vector (a location not in use before the call)
    and leaves every Vector that existed, the receiver and a Vector argument
    among them, with the coordinates and operator system it had; and each
    combined method is its X-only method followed by its Y-only method on
    the result. *)
Theorem C9_binary_methods_return_new_vector
    (m : Vec.binary_method) (this : loc) (vec : VectorOperand)
    (σ : state) (r : loc) (σ' : state) :
  Vec.binary m this vec σ = Ok (r, σ') →
  (∀ l o, heap σ !! l = Some o → heap σ' !! l = Some o)
  ∧ heap σ !! r = None
  ∧ is_Some (heap σ' !! r)
  ∧ Vec.add this vec = (v ← Vec.addX this vec; Vec.addY v vec)
  ∧ Vec.subtract this vec = (v ← Vec.subtractX this vec; Vec.subtractY v vec)
  ∧ Vec.divide this vec = (v ← Vec.divideX this vec; Vec.divideY v vec)
  ∧ Vec.multiply this vec = (v ← Vec.multiplyX this vec; Vec.multiplyY v vec).
Proof.
  intros H. apply allocates_binary in H.
  apply grows_lookup in H as (Hold & Hfresh & o & Hr & _).
  split; [exact Hold|]. split; [exact Hfresh|]. split; [by exists o|].
  by repeat split.
Qed.

Lemma C9_witness :
  ∃ r σ',
    Vec.subtract 0%nat (Vec 1%nat) two_vectors = Ok (r, σ')
    ∧ heap σ' !! 0%nat = heap two_vectors !! 0%nat
    ∧ heap σ' !! 1%nat = heap two_vectors !! 1%nat
    ∧ heap two_vectors !! r = None
    ∧ is_Some (heap σ' !! r).
Proof.
  destruct (returns (Vec.subtract 0%nat (Vec 1%nat)) two_vectors)
    as (r & σ' & E); [vm_compute; reflexivity|].
  exists r, σ'. split; [exact E|].
  destruct (C9_binary_methods_return_new_vector Vec.Subtract 0%nat (Vec 1%nat)
              two_vectors r σ' E) as (Hold & Hfresh & Hnew & _).
  split; [exact (Hold 0%nat _ eq_refl)|].
  split; [exact (Hold 1%nat _ eq_refl)|].
  split; [exact Hfresh | exact Hnew].
Defined.

(** ** Symbolic execution of the accessors and of the constructor *)

Lemma x_lookup σ this o :
  heap σ !! this = Some o → Vec.x this σ = lift (JS.toString (_x o)) σ.
Proof. intros H. unfold Vec.x, mbind, M_bind, deref. by rewrite H. Qed.

Lemma y_lookup σ this o :
  heap σ !! this = Some o → Vec.y this σ = lift (JS.toString (_y o)) σ.
Proof. intros H. unfold Vec.y, mbind, M_bind, deref. by rewrite H. Qed.

Lemma system_of_lookup σ this o :
  heap σ !! this = Some o → Vec.system_of this σ = Ok (operatorSystem o, σ).
Proof. intros H. unfold Vec.system_of, mbind, M_bind, deref. by rewrite H. Qed.

Lemma toString_zero : JS.toString (VNum 0) = Ok "0".
Proof. vm_compute. reflexivity. Qed.

Lemma new_lookup x y σ :
  ∃ σ', Vec.new x y σ = Ok (length (heap σ), σ')
        ∧ SYSTEM σ' = SYSTEM σ
        ∧ heap σ' !! length (heap σ) =
            Some {| _x := JS.or_else x (VNum 0); _y := JS.or_else y (VNum 0);
                    operatorSystem := OS (SYSTEM σ) |}.
Proof.
  eexists. split; [by apply new_Ok|]. split; [done|].
  simpl. by apply list_lookup_middle.
Qed.

(** ** C2: division by the zero vector *)

(** C2: with the native operator system as the static system,
    [Vector(1,1).divide(Vector(0,0)).x] returns ["Infinity"], which reads
    back as a non-finite number, and nothing is thrown; with the
    arbitrary-precision system (the default) the same call throws big.js's
    division-by-zero error, which [divide] does not catch. *)
Theorem C2_divide_by_zero_vector :
  eval C2.program native = Ok "Infinity"
  ∧ C2.isFinite (Num.ofString "Infinity") = false
  ∧ eval C2.program initial = Throw BigJs.DIV_BY_ZERO.
Proof. repeat split; vm_compute; reflexivity. Qed.

(** When only the receiver is configured with the native system, [divideX]
    runs natively but its result is a default (Big) Vector, on which
    [divideY] throws. *)
Lemma divide_by_zero_after_config :
  eval C2.program_config initial = Throw BigJs.DIV_BY_ZERO.
Proof. vm_compute. reflexivity. Qed.

(** ** C3: configuration by system name *)

(** C3, as stated, fails: the registry has no entry ["native"] (nor
    ["precise"]), so configuring with ["native"] leaves the default
    arbitrary-precision system, not the native one. *)
Lemma C3_counterexample :
  registry_get "native" = None
  ∧ registry_get "precise" = None
  ∧ eval (C3.program "native") initial = Ok "BigOperatorSystem"
  ∧ name BaseOperatorSystem = "BaseOperatorSystem".
Proof. repeat split; vm_compute; reflexivity. Qed.

Lemma registry_get_None key :
  key ≠ "base" → key ≠ "big" → key ∉ Object_prototype_keys →
  registry_get key = None.
Proof.
  intros H1 H2 H3. unfold registry_get, OperatorSystem.
  rewrite lookup_insert_ne by done. rewrite lookup_singleton_ne by done.
  by rewrite bool_decide_eq_false_2.
Qed.

(** C3, amended: the registry maps ["base"] to the native operator system
    and ["big"] to the arbitrary-precision one; for a name that is neither
    of them nor a property the registry object inherits from
    [Object.prototype], [config] does not throw and sets the Vector's
    operator system to the static default [Vector.SYSTEM] (the
    arbitrary-precision system unless reassigned). *)
Theorem C3_config_by_name (key : string) (σ : state) (this : loc) (o : Vector) :
  key ≠ "base" → key ≠ "big" → key ∉ Object_prototype_keys →
  heap σ !! this = Some o →
  registry_get "base" = Some (OS BaseOperatorSystem)
  ∧ registry_get "big" = Some (OS BigOperatorSystem)
  ∧ SYSTEM initial = BigOperatorSystem
  ∧ Vec.config this (Some (SystemName key)) σ =
      Ok (tt, {| SYSTEM := SYSTEM σ;
                 heap := <[this := {| _x := _x o; _y := _y o;
                                      operatorSystem := OS (SYSTEM σ) |}]>
                           (heap σ) |}).
Proof.
  intros H1 H2 H3 Ho. split; [|split; [|split; [done|]]].
  - unfold registry_get, OperatorSystem. by rewrite lookup_insert_eq.
  - unfold registry_get, OperatorSystem.
    rewrite lookup_insert_ne by done. by rewrite lookup_singleton_eq.
  - unfold Vec.config, mbind, M_bind, deref. simpl. rewrite Ho.
    by rewrite registry_get_None.
Qed.

Lemma C3_witness :
  registry_get "base" = Some (OS BaseOperatorSystem)
  ∧ registry_get "big" = Some (OS BigOperatorSystem)
  ∧ SYSTEM initial = BigOperatorSystem
  ∧ Vec.config 0%nat (Some (SystemName "native")) configured_native =
      Ok (tt, {| SYSTEM := BigOperatorSystem;
                 heap := [ {| _x := VNum 100; _y := VNum 50;
                              operatorSystem := OS BigOperatorSystem |} ] |}).
Proof.
  apply (C3_config_by_name "native" configured_native 0%nat
           {| _x := VNum 100; _y := VNum 50;
              operatorSystem := OS BaseOperatorSystem |}).
  - discriminate.
  - discriminate.
  - apply (bool_decide_eq_false_1 _). vm_compute. reflexivity.
  - reflexivity.
Defined.

(** ** C4: the coordinate accessors *)

(** C4, as stated, fails for the getters: the constructor stores its
    argument as it is, and the getter renders the stored operand by the
    operand's own [toString]; a string ["1.0"] is returned as ["1.0"], while
    either operator system normalizes it to a value rendered ["1"]. *)
Lemma C4_counterexample :
  eval (C4.program (VStr "1.0")) native = Ok ("1.0", "1")
  ∧ eval (C4.program (VStr "1.0")) initial = Ok ("1.0", "1").
Proof. split; vm_compute; reflexivity. Qed.

Lemma set_x_lookup σ this o v :
  heap σ !! this = Some o →
  Vec.set_x this v σ =
    (c ← lift (sys_create (operatorSystem o) v);
     store this {| _x := c; _y := _y o; operatorSystem := operatorSystem o |}) σ.
Proof. intros H. unfold Vec.set_x at 1, mbind at 1, M_bind at 1, deref. by rewrite H. Qed.

Lemma set_y_lookup σ this o v :
  heap σ !! this = Some o →
  Vec.set_y this v σ =
    (c ← lift (sys_create (operatorSystem o) v);
     store this {| _x := _x o; _y := c; operatorSystem := operatorSystem o |}) σ.
Proof. intros H. unfold Vec.set_y at 1, mbind at 1, M_bind at 1, deref. by rewrite H. Qed.

(** C4, amended: the [x] and [y] getters return the stored operand's own
    [toString()] rendering, whatever the operator system (the constructor
    stores operands without normalizing them); assigning [v] through the [x]
    or [y] setter stores [create(v)] of the Vector's operator system, so
    that the getter then returns the rendering of [create(v)], and throws
    what [create] throws. *)
Theorem C4_accessors (σ : state) (this : loc) (o : Vector) (v : value) :
  heap σ !! this = Some o →
  Vec.x this σ = lift (JS.toString (_x o)) σ
  ∧ Vec.y this σ = lift (JS.toString (_y o)) σ
  ∧ (∀ c, sys_create (operatorSystem o) v = Ok c →
       ∃ σ', Vec.set_x this v σ = Ok (tt, σ')
             ∧ SYSTEM σ' = SYSTEM σ
             ∧ heap σ' = <[this := {| _x := c; _y := _y o;
                                      operatorSystem := operatorSystem o |}]> (heap σ)
             ∧ Vec.x this σ' = lift (JS.toString c) σ')
  ∧ (∀ c, sys_create (operatorSystem o) v = Ok c →
       ∃ σ', Vec.set_y this v σ = Ok (tt, σ')
             ∧ SYSTEM σ' = SYSTEM σ
             ∧ heap σ' = <[this := {| _x := _x o; _y := c;
                                      operatorSystem := operatorSystem o |}]> (heap σ)
             ∧ Vec.y this σ' = lift (JS.toString c) σ')
  ∧ (∀ e, sys_create (operatorSystem o) v = Throw e →
       Vec.set_x this v σ = Throw e ∧ Vec.set_y this v σ = Throw e).
Proof.
  intros Ho.
  assert (Hlt : (this < length (heap σ))%nat) by by eapply lookup_lt_Some.
  split; [by apply x_lookup|]. split; [by apply y_lookup|].
  split; [|split].
  - intros c Hc. eexists. split.
    + rewrite (set_x_lookup _ _ _ _ Ho). unfold mbind, M_bind, lift, store.
      rewrite Hc. reflexivity.
    + split; [done|]. split; [done|].
      apply (x_lookup _ this {| _x := c; _y := _y o;
                                operatorSystem := operatorSystem o |}).
      simpl. by apply list_lookup_insert_eq.
  - intros c Hc. eexists. split.
    + rewrite (set_y_lookup _ _ _ _ Ho). unfold mbind, M_bind, lift, store.
      rewrite Hc. reflexivity.
    + split; [done|]. split; [done|].
      apply (y_lookup _ this {| _x := _x o; _y := c;
                                operatorSystem := operatorSystem o |}).
      simpl. by apply list_lookup_insert_eq.
  - intros e He. split.
    + rewrite (set_x_lookup _ _ _ _ Ho). unfold mbind, M_bind, lift.
      by rewrite He.
    + rewrite (set_y_lookup _ _ _ _ Ho). unfold mbind, M_bind, lift.
      by rewrite He.
Qed.

Lemma C4_witness :
  eval (Vec.x 0%nat) configured_native = Ok "100"
  ∧ eval (Vec.y 0%nat) configured_native = Ok "50"
  ∧ eval (_ ← Vec.set_x 0%nat (VStr "1.0"); Vec.x 0%nat) configured_native = Ok "1".
Proof.
  destruct (C4_accessors configured_native 0%nat
              {| _x := VNum 100; _y := VNum 50;
                 operatorSystem := OS BaseOperatorSystem |}
              (VStr "1.0") eq_refl) as (Hx & Hy & Hsx & _).
  split; [|split].
  - unfold eval. rewrite Hx. vm_compute. reflexivity.
  - unfold eval. rewrite Hy. vm_compute. reflexivity.
  - destruct (Hsx (VNum 1)) as (σ' & Hs & _ & _ & Hx');
      [vm_compute; reflexivity|].
    unfold eval, mbind, M_bind. rewrite Hs, Hx'. vm_compute. reflexivity.
Defined.

(** ** C10: falsy coordinate inputs *)

(** [config] replaces the operator system of the receiver and nothing
    else. *)
Lemma config_lookup σ this o system :
  heap σ !! this = Some o →
  ∃ s, Vec.config this system σ =
         Ok (tt, {| SYSTEM := SYSTEM σ;
                    heap := <[this := {| _x := _x o; _y := _y o;
                                         operatorSystem := s |}]> (heap σ) |}).
Proof.
  intros Ho. unfold Vec.config, mbind, M_bind, deref. rewrite Ho.
  destruct (default (SystemInstance BigOperatorSystem) system); simpl; eauto.
Qed.

Lemma or_else_falsy v : JS.truthy v = false → JS.or_else v (VNum 0) = VNum 0.
Proof. unfold JS.or_else. by intros ->. Qed.

Lemma or_else_truthy v : JS.truthy v = true → JS.or_else v (VNum 0) = v.
Proof. unfold JS.or_else. by intros ->. Qed.

Lemma or_else_idem v :
  JS.or_else (JS.or_else v (VNum 0)) (VNum 0) = JS.or_else v (VNum 0).
Proof.
  destruct (JS.truthy v) eqn:E.
  - rewrite (or_else_truthy v E). by apply or_else_truthy.
  - by rewrite (or_else_falsy v E).
Qed.

Lemma eval_x_zero σ r o :
  heap σ !! r = Some o → _x o = VNum 0 → eval (Vec.x r) σ = Ok "0".
Proof.
  intros Hl Hx. unfold eval. rewrite (x_lookup _ _ _ Hl), Hx.
  by rewrite toString_zero.
Qed.

Lemma eval_y_zero σ r o :
  heap σ !! r = Some o → _y o = VNum 0 → eval (Vec.y r) σ = Ok "0".
Proof.
  intros Hl Hy. unfold eval. rewrite (y_lookup _ _ _ Hl), Hy.
  by rewrite toString_zero.
Qed.

Lemma new_zero_for_falsy x0 y0 x1 y1 :
  JS.or_else x1 (VNum 0) = JS.or_else x0 (VNum 0) →
  JS.or_else y1 (VNum 0) = JS.or_else y0 (VNum 0) →
  C10.zero_for_falsy x0 y0 (Vec.new x1 y1).
Proof.
  intros Hx Hy σ. destruct (new_lookup x1 y1 σ) as (σ' & Hn & _ & Hl).
  rewrite Hx, Hy in Hl.
  eexists _, σ', _. split; [exact Hn|]. split; [exact Hl|]. simpl.
  split; [|split; [|split]].
  - intros E. split; [by apply or_else_falsy|].
    eapply eval_x_zero; [exact Hl|]. by apply or_else_falsy.
  - intros E. split; [by apply or_else_falsy|].
    eapply eval_y_zero; [exact Hl|]. by apply or_else_falsy.
  - apply or_else_truthy.
  - apply or_else_truthy.
Qed.

(** C10: the constructor and both factories store the number [0] for every
    falsy coordinate input: a missing one, [0], [-0], [NaN] and [""] are all
    falsy, and [Vector.fromObject({ x: NaN, y: "" })] reads ["0"] on both
    axes under every static system and after any [config]. *)
Theorem C10_falsy_coordinates_become_zero :
  (JS.truthy VUndefined = false ∧ JS.truthy (VNum 0) = false
   ∧ JS.truthy (VNum (-0)) = false ∧ JS.truthy (VNum nan) = false
   ∧ JS.truthy (VStr "") = false)
  ∧ (∀ x0 y0, C10.zero_for_falsy x0 y0 (Vec.new x0 y0))
  ∧ (∀ arr : list value,
       C10.zero_for_falsy (default VUndefined (arr !! 0%nat))
         (default VUndefined (arr !! 1%nat)) (Vec.fromArray arr))
  ∧ (∀ obj : gmap string value,
       C10.zero_for_falsy (default VUndefined (obj !! "x"))
         (default VUndefined (obj !! "y")) (Vec.fromObject obj))
  ∧ (∀ σ system, eval (C10.program system) σ = Ok ("0", "0")).
Proof.
  split; [by vm_compute|].
  split; [intros; by apply new_zero_for_falsy|].
  split; [intros; apply new_zero_for_falsy; apply or_else_idem|].
  split; [intros; apply new_zero_for_falsy; apply or_else_idem|].
  intros σ system.
  destruct (new_zero_for_falsy (VNum nan) (VStr "")
              (JS.or_else (VNum nan) (VNum 0)) (JS.or_else (VStr "") (VNum 0))
              (or_else_idem _) (or_else_idem _) σ)
    as (r & σ' & o & Hn & Hl & Hx & Hy & _).
  destruct (Hx eq_refl) as [Hx0 _]. destruct (Hy eq_refl) as [Hy0 _].
  destruct (config_lookup σ' r o system Hl) as (s & Hc).
  rewrite Hx0, Hy0 in Hc.
  assert (Hlt : (r < length (heap σ'))%nat) by by eapply lookup_lt_Some.
  unfold eval, C10.program, Vec.fromObject.
  rewrite lookup_insert_eq, lookup_insert_ne, lookup_singleton_eq by done.
  unfold mbind at 1, M_bind at 1. simpl default. rewrite Hn.
  unfold mbind at 1, M_bind at 1. rewrite Hc.
  unfold mbind at 1, M_bind at 1.
  rewrite (x_lookup _ r {| _x := VNum 0; _y := VNum 0; operatorSystem := s |})
    by (simpl; by apply list_lookup_insert_eq).
  simpl _x. rewrite toString_zero. simpl lift.
  unfold mbind at 1, M_bind at 1.
  rewrite (y_lookup _ r {| _x := VNum 0; _y := VNum 0; operatorSystem := s |})
    by (simpl; by apply list_lookup_insert_eq).
  simpl _y. rewrite toString_zero. reflexivity.
Qed.

(** ** C6: the cosine of the angle between two vectors *)

(** C6, as stated, fails: for [a = (1, 0)] and [b = (49, 0)] the dot
    product of the two normalized vectors is ["1"], while [cosAngleBetween]
    divides [a] by both lengths and multiplies by the unnormalized [b],
    which rounds differently under either operator system. *)
Lemma C6_counterexample :
  eval C6.program native = Ok ("0.9999999999999999", "1")
  ∧ eval C6.program initial = Ok ("1.00000000000000000005", "1").
Proof. split; vm_compute; reflexivity. Qed.

(** C6, amended: [a.cosAngleBetween(b)] is the dot product, with [b]
    itself, of [a] normalized by its own length and then divided by the
    length of [b]: [a.normalize().divide(b.length).dot(b)]; [b] is not
    normalized. *)
Theorem C6_cosAngleBetween_divides_receiver_twice
    (this vec2 : loc) (σ : state) :
  Vec.cosAngleBetween this vec2 σ =
    (n ← Vec.normalize this;
     len2 ← Vec.length vec2;
     v ← Vec.divide n (Scalar (VStr len2));
     Vec.dot v vec2) σ.
Proof.
  unfold Vec.cosAngleBetween, Vec.normalize, mbind, M_bind.
  destruct (Vec.length this σ) as [[len1 σ1]|e]; [|done].
  by destruct (Vec.divide this (Scalar (VStr len1)) σ1) as [[v1 σ2]|e].
Qed.

(** ** C8: serialization round trips *)

(** C8, as stated, fails: under the default system the round trips of
    [Vector(Infinity, 1)] throw, since big.js rejects ["Infinity"]; under
    the native system they return false for a Vector holding [NaN] or a
    non-numeric string, since [NaN === NaN] is false. *)
Lemma C8_counterexample :
  eval (C8.program (VNum infinity) (VNum 1)) initial = Throw BigJs.INVALID
  ∧ eval C8.program_set native = Ok (false, false)
  ∧ eval (C8.program (VStr "abc") (VNum 1)) native = Ok (false, false).
Proof. repeat split; vm_compute; reflexivity. Qed.

(** Renderings are never empty. *)

Lemma append_nonempty_l (s t : string) : s ≠ "" → s ++ t ≠ "".
Proof. by destruct s. Qed.

Lemma append_nonempty_r (s t : string) : t ≠ "" → s ++ t ≠ "".
Proof. destruct s; [done|]. discriminate. Qed.

Lemma digits_nonempty z : Chars.digits z ≠ "".
Proof.
  unfold Chars.digits, NilZero.string_of_uint.
  by destruct (N.to_uint (Z.to_N z)).
Qed.

Lemma format_digits_nonempty s k n : Num.format_digits s k n ≠ "".
Proof.
  unfold Num.format_digits.
  repeat case_match;
    first [ apply append_nonempty_l, digits_nonempty
          | apply append_nonempty_r; discriminate
          | discriminate ].
Qed.

Lemma Num_toString_nonempty n : Num.toString n ≠ "".
Proof.
  unfold Num.toString, Num.SF_toString.
  destruct (Prim2SF n) as [s|s| |s m e];
    [by destruct s | by destruct s | done | ].
  destruct (Num.shortest m e) as [[s' k] n'].
  destruct s; [discriminate|]. apply format_digits_nonempty.
Qed.

Lemma digit_chars_nonempty z : Chars.digit_chars z ≠ [].
Proof.
  unfold Chars.digit_chars. pose proof (digits_nonempty z).
  by destruct (Chars.digits z).
Qed.

Lemma Big_toString_nonempty b : BigJs.toString b ≠ "".
Proof.
  unfold BigJs.toString.
  assert (H : BigJs.render b false ≠ []); [|by destruct (BigJs.render b false)].
  unfold BigJs.render, BigJs.unsigned_chars.
  pose proof (digit_chars_nonempty (Z.of_N (BigJs.coef b))) as Hd.
  destruct (Chars.digit_chars (Z.of_N (BigJs.coef b))) as [|d ds]; [done|].
  repeat case_match; simpl; try discriminate.
  all: destruct (Z.to_nat _); simpl; discriminate.
Qed.

Lemma toString_storable v :
  C8.storable v → ∃ s, JS.toString v = Ok s ∧ s ≠ "".
Proof.
  destruct v as [|n|s|b]; simpl; [done|..]; intros H; eexists; split; try done.
  - apply Num_toString_nonempty.
  - apply Big_toString_nonempty.
Qed.

Lemma or_else_nonempty s : s ≠ "" → JS.or_else (VStr s) (VNum 0) = VStr s.
Proof.
  intros H. apply or_else_truthy. simpl.
  by destruct (String.eqb_spec s "").
Qed.

Lemma isEqualTo_eval σ w v ow ov a b c d :
  heap σ !! w = Some ow → heap σ !! v = Some ov →
  JS.toString (_x ow) = Ok a → JS.toString (_x ov) = Ok b →
  JS.toString (_y ow) = Ok c → JS.toString (_y ov) = Ok d →
  eval (Vec.isEqualTo w v) σ =
    (ex ← sys_equal (operatorSystem ow) (VStr a) (VStr b);
     if ex : bool then sys_equal (operatorSystem ow) (VStr c) (VStr d)
     else Ok false).
Proof.
  intros Hw Hv Ha Hb Hc Hd. unfold eval, Vec.isEqualTo, mbind, M_bind, res_bind.
  rewrite (system_of_lookup _ _ _ Hw).
  rewrite (x_lookup _ _ _ Hw), Ha. simpl.
  rewrite (x_lookup _ _ _ Hv), Hb. simpl.
  destruct (sys_equal (operatorSystem ow) (VStr a) (VStr b)) as [[|]|e];
    simpl; [|done|done].
  rewrite (y_lookup _ _ _ Hw), Hc. simpl.
  rewrite (y_lookup _ _ _ Hv), Hd. simpl.
  by destruct (sys_equal (operatorSystem ow) (VStr c) (VStr d)).
Qed.

Lemma round_trip_eval σ v o sx sy :
  heap σ !! v = Some o →
  JS.toString (_x o) = Ok sx → JS.toString (_y o) = Ok sy →
  sx ≠ "" → sy ≠ "" →
  ∀ m : M bool,
    (m = (w ← Vec.new (JS.or_else (VStr sx) (VNum 0))
                      (JS.or_else (VStr sy) (VNum 0));
          Vec.isEqualTo w v)) →
    eval m σ =
      (ex ← equal (SYSTEM σ) (VStr sx) (VStr sx);
       if ex : bool then equal (SYSTEM σ) (VStr sy) (VStr sy) else Ok false).
Proof.
  intros Ho Hx Hy Hsx Hsy m ->.
  destruct (new_lookup (JS.or_else (VStr sx) (VNum 0))
              (JS.or_else (VStr sy) (VNum 0)) σ) as (σ' & Hn & HS & Hl).
  rewrite !or_else_idem, !or_else_nonempty in Hl by done.
  assert (Hv : heap σ' !! v = Some o).
  { apply new_Ok in Hn as [_ ->]. simpl. by apply lookup_app_l_Some. }
  pose proof (isEqualTo_eval σ' _ v _ o sx sx sy sy Hl Hv eq_refl Hx eq_refl Hy)
    as He.
  unfold eval in *. unfold mbind at 1, M_bind at 1. rewrite Hn.
  exact He.
Qed.

Lemma bind_run {A B} (m : M A) (k : A → M B) σ a σ1 :
  m σ = Ok (a, σ1) → (m ≫= k) σ = k a σ1.
Proof. intros H. unfold mbind, M_bind. by rewrite H. Qed.

Lemma toArray_lookup σ v o sx sy :
  heap σ !! v = Some o →
  JS.toString (_x o) = Ok sx → JS.toString (_y o) = Ok sy →
  Vec.toArray v σ = Ok ([VStr sx; VStr sy], σ).
Proof.
  intros Ho Hx Hy. unfold Vec.toArray.
  rewrite (bind_run _ _ σ sx σ) by (by rewrite (x_lookup _ _ _ Ho), Hx).
  by rewrite (bind_run _ _ σ sy σ) by (by rewrite (y_lookup _ _ _ Ho), Hy).
Qed.

Lemma toObject_lookup σ v o sx sy :
  heap σ !! v = Some o →
  JS.toString (_x o) = Ok sx → JS.toString (_y o) = Ok sy →
  Vec.toObject v σ = Ok ({[ "x" := VStr sx; "y" := VStr sy ]}, σ).
Proof.
  intros Ho Hx Hy. unfold Vec.toObject.
  rewrite (bind_run _ _ σ sx σ) by (by rewrite (x_lookup _ _ _ Ho), Hx).
  by rewrite (bind_run _ _ σ sy σ) by (by rewrite (y_lookup _ _ _ Ho), Hy).
Qed.

Lemma fromObject_xy (a b : value) :
  Vec.fromObject {[ "x" := a; "y" := b ]} =
  Vec.new (JS.or_else a (VNum 0)) (JS.or_else b (VNum 0)).
Proof.
  unfold Vec.fromObject.
  by rewrite lookup_insert_eq, lookup_insert_ne, lookup_singleton_eq.
Qed.

(** C8, amended: for every Vector [v] whose coordinates are storable
    operands (a number, a non-empty string or a Big) and whose renderings
    the static system's [equal] judges equal to themselves (as it does for
    finite numerals, but not for [NaN] or a non-numeric string under the
    native system, nor for a string big.js rejects),
    [Vector.fromArray(v.toArray()).isEqualTo(v)] and
    [Vector.fromObject(v.toObject()).isEqualTo(v)] are true. *)
Theorem C8_round_trip (σ : state) (v : loc) (o : Vector) (sx sy : string) :
  heap σ !! v = Some o →
  C8.storable (_x o) → C8.storable (_y o) →
  JS.toString (_x o) = Ok sx → JS.toString (_y o) = Ok sy →
  equal (SYSTEM σ) (VStr sx) (VStr sx) = Ok true →
  equal (SYSTEM σ) (VStr sy) (VStr sy) = Ok true →
  eval (C8.array_round_trip v) σ = Ok true
  ∧ eval (C8.object_round_trip v) σ = Ok true.
Proof.
  intros Ho Sx Sy Hx Hy Ex Ey.
  apply toString_storable in Sx as (sx' & Hx' & Hsx).
  apply toString_storable in Sy as (sy' & Hy' & Hsy).
  assert (sx' = sx) as -> by congruence. assert (sy' = sy) as -> by congruence.
  pose proof (round_trip_eval σ v o sx sy Ho Hx Hy Hsx Hsy) as Hrt.
  split.
  - unfold eval, C8.array_round_trip.
    rewrite (bind_run _ _ _ _ _ (toArray_lookup _ _ _ _ _ Ho Hx Hy)).
    specialize (Hrt (w ← Vec.fromArray [VStr sx; VStr sy]; Vec.isEqualTo w v)
                    eq_refl).
    unfold eval in Hrt. rewrite Hrt, Ex. simpl. by rewrite Ey.
  - unfold eval, C8.object_round_trip.
    rewrite (bind_run _ _ _ _ _ (toObject_lookup _ _ _ _ _ Ho Hx Hy)).
    rewrite fromObject_xy.
    specialize (Hrt _ eq_refl).
    unfold eval in Hrt. rewrite Hrt, Ex. simpl. by rewrite Ey.
Qed.

Lemma C8_witness :
  eval (C8.array_round_trip 0%nat) two_vectors = Ok true
  ∧ eval (C8.object_round_trip 0%nat) two_vectors = Ok true.
Proof.
  apply (C8_round_trip two_vectors 0%nat
           {| _x := VNum 100; _y := VNum 50;
              operatorSystem := OS BigOperatorSystem |} "100" "50").
  - reflexivity.
  - exact I.
  - exact I.
  - vm_compute. reflexivity.
  - vm_compute. reflexivity.
  - vm_compute. reflexivity.
  - vm_compute. reflexivity.
Defined.

(** ** C7: antisymmetry of the cross product *)

(** Facts of IEEE-754 arithmetic, from the specification of the primitive
    floats. *)

Lemma Prim2SF_inj (x y : float) : Prim2SF x = Prim2SF y → x = y.
Proof.
  intros H. rewrite <- (SF2Prim_Prim2SF x), <- (SF2Prim_Prim2SF y).
  by rewrite H.
Qed.

Lemma SFmul_comm prec emax x y : SFmul prec emax x y = SFmul prec emax y x.
Proof.
  destruct x as [sx|sx| |sx mx ex], y as [sy|sy| |sy my ey]; simpl;
    try reflexivity; try (by rewrite xorb_comm).
  by rewrite xorb_comm, Pos.mul_comm, Z.add_comm.
Qed.

Lemma float_mul_comm (x y : float) : (x * y)%float = (y * x)%float.
Proof.
  apply Prim2SF_inj. rewrite !mul_spec. apply SFmul_comm.
Qed.

Lemma binary_round_aux_opp prec emax s m e l :
  binary_round_aux prec emax (negb s) m e l =
  SFopp (binary_round_aux prec emax s m e l).
Proof.
  unfold binary_round_aux.
  destruct (shr_fexp prec emax m e l) as [mrs' e'].
  destruct (shr_fexp prec emax _ e' loc_Exact) as [mrs'' e''].
  destruct (shr_m mrs''); [done| |done].
  by destruct (e'' <=? emax - prec).
Qed.

Lemma binary_round_opp prec emax s m e :
  binary_round prec emax (negb s) m e = SFopp (binary_round prec emax s m e).
Proof.
  unfold binary_round.
  destruct (shl_align m e _) as [mz ez]. apply binary_round_aux_opp.
Qed.

(** The renderings of [p - q] and of [-(q - p)] are the same: the two
    differ at most in the sign of a zero. *)
Lemma SF_toString_sub_opp prec emax p q :
  Num.SF_toString (SFopp (SFsub prec emax q p)) =
  Num.SF_toString (SFsub prec emax p q).
Proof.
  destruct p as [sp|sp| |sp mp ep], q as [sq|sq| |sq mq eq]; simpl;
    try reflexivity;
    try (by destruct sp, sq);
    try (by destruct sp);
    try (by destruct sq).
  rewrite (Z.min_comm eq ep).
  set (zp := cond_Zopp sp (Z.pos (shl_align mp ep (Z.min ep eq)).1)).
  set (zq := cond_Zopp sq (Z.pos (shl_align mq eq (Z.min ep eq)).1)).
  replace (zq - zp) with (- (zp - zq)) by lia.
  destruct (zp - zq) as [|d|d]; simpl; [done| |].
  - by rewrite <- (binary_round_opp _ _ true).
  - by rewrite <- (binary_round_opp _ _ false).
Qed.

Lemma Num_toString_sub_opp (p q : float) :
  Num.toString (- (q - p))%float = Num.toString (p - q)%float.
Proof.
  unfold Num.toString. rewrite opp_spec, !sub_spec. apply SF_toString_sub_opp.
Qed.

(** Facts of the decimal arithmetic. *)

Lemma Big_times_comm x y : BigJs.times x y = BigJs.times y x.
Proof.
  unfold BigJs.times.
  by rewrite xorb_comm, orb_comm, Z.mul_comm, Z.add_comm.
Qed.

Lemma Big_negate_make s c e :
  BigJs.negate (BigJs.make s c e) = BigJs.make (negb s) c e.
Proof.
  unfold BigJs.make. destruct (c <=? 0); [done|].
  by destruct (BigJs.strip _ c e).
Qed.

Lemma Big_negate_negate x : BigJs.negate (BigJs.negate x) = x.
Proof. destruct x. unfold BigJs.negate. simpl. by rewrite negb_involutive. Qed.

Lemma Big_toString_zero s : BigJs.toString (BigJs.zero s) = "0".
Proof. by destruct s. Qed.

Lemma Big_toString_of_Z_opp z e :
  BigJs.toString (BigJs.negate (BigJs.of_Z (- z) e)) =
  BigJs.toString (BigJs.of_Z z e).
Proof.
  unfold BigJs.of_Z. rewrite Big_negate_make, Z.abs_opp.
  destruct z as [|p|p]; simpl; [|done|done].
  unfold BigJs.make. simpl. by rewrite !Big_toString_zero.
Qed.

Lemma Big_minus_same_negate x y :
  BigJs.toString (BigJs.negate (BigJs.minus_same y x)) =
  BigJs.toString (BigJs.minus_same x y).
Proof.
  unfold BigJs.minus_same. rewrite (orb_comm (BigJs.is_zero y)).
  destruct (BigJs.is_zero x) eqn:Zx, (BigJs.is_zero y) eqn:Zy; simpl.
  - by rewrite !Big_toString_zero.
  - done.
  - by rewrite Big_negate_negate.
  - rewrite (Z.min_comm (BigJs.expo y)).
    set (e0 := Z.min (BigJs.expo x) (BigJs.expo y)).
    replace (BigJs.signed y e0 - BigJs.signed x e0)
      with (- (BigJs.signed x e0 - BigJs.signed y e0)) by lia.
    apply Big_toString_of_Z_opp.
Qed.

Lemma Big_plus_same_negate x y :
  BigJs.neg x = negb (BigJs.neg y) →
  BigJs.negate (BigJs.plus_same y (BigJs.negate x)) =
  BigJs.plus_same x (BigJs.negate y).
Proof.
  intros Hs. unfold BigJs.plus_same.
  change (BigJs.is_zero (BigJs.negate x)) with (BigJs.is_zero x).
  change (BigJs.is_zero (BigJs.negate y)) with (BigJs.is_zero y).
  rewrite (orb_comm (BigJs.is_zero y)).
  destruct (BigJs.is_zero x) eqn:Zx, (BigJs.is_zero y) eqn:Zy; simpl.
  - unfold BigJs.negate, BigJs.zero. simpl. by rewrite Hs.
  - done.
  - by rewrite Big_negate_negate.
  - rewrite Big_negate_make, (Z.min_comm (BigJs.expo y)), Hs.
    unfold BigJs.mag. simpl. by rewrite Z.add_comm.
Qed.

Lemma Big_toString_minus_negate p q :
  BigJs.toString (BigJs.negate (BigJs.minus q p)) =
  BigJs.toString (BigJs.minus p q).
Proof.
  unfold BigJs.minus.
  destruct (Bool.eqb (BigJs.neg p) (BigJs.neg q)) eqn:E.
  - rewrite (eqb_true_iff _ _) in E. rewrite E, eqb_reflx.
    apply Big_minus_same_negate.
  - rewrite (eqb_false_iff _ _) in E.
    replace (Bool.eqb (BigJs.neg q) (BigJs.neg p)) with false
      by (by destruct (BigJs.neg p), (BigJs.neg q)).
    rewrite Big_plus_same_negate; [done|].
    by destruct (BigJs.neg p), (BigJs.neg q).
Qed.

Lemma cross_eval σ a b oa ob :
  heap σ !! a = Some oa → heap σ !! b = Some ob →
  eval (Vec.cross a b) σ =
    (ax ← JS.toString (_x oa);
     by' ← JS.toString (_y ob);
     p ← sys_multiply (operatorSystem oa) (VStr ax) (VStr by');
     ay ← JS.toString (_y oa);
     bx ← JS.toString (_x ob);
     q ← sys_multiply (operatorSystem oa) (VStr ay) (VStr bx);
     s ← sys_minus (operatorSystem oa) p q;
     JS.toString s).
Proof.
  intros Ha Hb. unfold eval, Vec.cross, mbind, M_bind, res_bind.
  rewrite (system_of_lookup _ _ _ Ha).
  rewrite (x_lookup _ _ _ Ha). destruct (JS.toString (_x oa)); simpl; [|done].
  rewrite (y_lookup _ _ _ Hb). destruct (JS.toString (_y ob)); simpl; [|done].
  destruct (sys_multiply _ _ _); simpl; [|done].
  rewrite (y_lookup _ _ _ Ha). destruct (JS.toString (_y oa)); simpl; [|done].
  rewrite (x_lookup _ _ _ Hb). destruct (JS.toString (_x ob)); simpl; [|done].
  destruct (sys_multiply _ _ _); simpl; [|done].
  destruct (sys_minus _ _ _); simpl; [|done].
  by destruct (JS.toString _).
Qed.

(** C7: for Vectors [a] and [b] of one common operator system, native or
    arbitrary-precision, whenever [a.cross(b)] returns, [b.cross(a)]
    returns the rendering of a value [r] of that system, and [a.cross(b)]
    is the rendering of the negation of [r]. *)
Theorem C7_cross_antisymmetric
    (os : IOperatorSystem) (σ : state) (a b : loc) (oa ob : Vector)
    (s1 : string) :
  os = BaseOperatorSystem ∨ os = BigOperatorSystem →
  heap σ !! a = Some oa → heap σ !! b = Some ob →
  operatorSystem oa = OS os → operatorSystem ob = OS os →
  eval (Vec.cross a b) σ = Ok s1 →
  ∃ r r', eval (Vec.cross b a) σ = JS.toString r
          ∧ C7.negation r = Some r'
          ∧ JS.toString r' = Ok s1.
Proof.
  intros Hos Ha Hb Hoa Hob.
  rewrite (cross_eval _ _ _ _ _ Ha Hb), (cross_eval _ _ _ _ _ Hb Ha).
  rewrite Hoa, Hob. unfold mbind, res_bind.
  destruct (JS.toString (_x oa)) as [ax|]; [|done].
  destruct (JS.toString (_y ob)) as [by'|]; [|done].
  destruct Hos as [-> | ->]; simpl.
  - destruct (JS.toString (_y oa)) as [ay|]; [|done].
    destruct (JS.toString (_x ob)) as [bx|]; [|done]. simpl.
    intros [= <-].
    eexists (VNum _), _. split; [reflexivity|]. split; [reflexivity|].
    simpl. f_equal.
    rewrite (float_mul_comm (Num.ofString bx)), (float_mul_comm (Num.ofString by')).
    apply Num_toString_sub_opp.
  - unfold mbind, res_bind.
    destruct (BigJs.parse ax) as [AX|]; [|done].
    destruct (BigJs.parse by') as [BY|]; [|done]. simpl.
    destruct (JS.toString (_y oa)) as [ay|]; [|done].
    destruct (JS.toString (_x ob)) as [bx|]; [|done]. simpl.
    destruct (BigJs.parse ay) as [AY|]; [|done].
    destruct (BigJs.parse bx) as [BX|]; [|done]. simpl.
    intros [= <-].
    eexists (VBig _), _. split; [reflexivity|]. split; [reflexivity|].
    simpl. f_equal.
    rewrite (Big_times_comm BX), (Big_times_comm BY).
    apply Big_toString_minus_negate.
Qed.

Lemma C7_witness :
  ∃ r r', eval (Vec.cross 1%nat 0%nat) two_vectors = JS.toString r
          ∧ C7.negation r = Some r'
          ∧ JS.toString r' = Ok "2000".
Proof.
  apply (C7_cross_antisymmetric BigOperatorSystem two_vectors 0%nat 1%nat
           {| _x := VNum 100; _y := VNum 50;
              operatorSystem := OS BigOperatorSystem |}
           {| _x := VNum 20; _y := VNum 30;
              operatorSystem := OS BigOperatorSystem |}).
  - right. reflexivity.
  - reflexivity.
  - reflexivity.
  - reflexivity.
  - reflexivity.
  - vm_compute. reflexivity.
Defined.

(** ** Decimal literals and the arithmetic of big.js *)

(** Decimal digit strings *)

Lemma fold_digits l acc :
  fold_left (λ a c, 10 * a + Chars.digit_val c) l acc =
  acc * 10 ^ Z.of_nat (length l) + Chars.digits_val l.
Proof.
  unfold Chars.digits_val. revert acc.
  induction l as [|c l IH]; intros acc; simpl fold_left.
  - simpl. lia.
  - rewrite IH, (IH (10 * 0 + _)).
    replace (Z.of_nat (length (c :: l))) with (Z.of_nat (length l) + 1)
      by (simpl length; lia).
    rewrite Z.pow_add_r by lia. lia.
Qed.

Lemma digits_val_app l1 l2 :
  Chars.digits_val (l1 ++ l2)%list =
  Chars.digits_val l1 * 10 ^ Z.of_nat (length l2) + Chars.digits_val l2.
Proof.
  unfold Chars.digits_val at 1. rewrite fold_left_app, fold_digits.
  reflexivity.
Qed.

Lemma uint_chars_acc d (acc : positive) :
  fold_left (λ a c, 10 * a + Chars.digit_val c)
    (list_ascii_of_string (NilEmpty.string_of_uint d)) (Z.pos acc) =
  Z.pos (Pos.of_uint_acc d acc).
Proof.
  revert acc. induction d; intros acc; simpl; [done|..];
    rewrite <- IHd; f_equal;
    try match goal with
        | |- context [Chars.digit_val ?c] =>
            let v := eval vm_compute in (Chars.digit_val c) in
            change (Chars.digit_val c) with v
        end; lia.
Qed.

Lemma uint_chars d :
  Chars.digits_val (list_ascii_of_string (NilEmpty.string_of_uint d)) =
  Z.of_N (Pos.of_uint d).
Proof.
  unfold Chars.digits_val. induction d; simpl; [done|done|..];
    rewrite <- uint_chars_acc; f_equal.
Qed.

Lemma uint_chars_digits d :
  Forall (λ c, Chars.is_digit c = true)
    (list_ascii_of_string (NilEmpty.string_of_uint d)).
Proof. induction d; simpl; by constructor. Qed.

Lemma digit_chars_eq z :
  Chars.digit_chars z =
  list_ascii_of_string (NilEmpty.string_of_uint (N.to_uint (Z.to_N z))).
Proof.
  unfold Chars.digit_chars, Chars.digits, NilZero.string_of_uint.
  destruct (N.to_uint (Z.to_N z)) eqn:E; try reflexivity.
  destruct (Z.to_N z); simpl in E; [discriminate|].
  by apply DecimalPos.Unsigned.to_uint_nonnil in E.
Qed.

Lemma digit_chars_val z : 0 <= z → Chars.digits_val (Chars.digit_chars z) = z.
Proof.
  intros Hz. rewrite digit_chars_eq, uint_chars.
  change (Pos.of_uint ?d) with (N.of_uint d).
  rewrite DecimalN.Unsigned.of_to. lia.
Qed.

Lemma digit_chars_digits z :
  Forall (λ c, Chars.is_digit c = true) (Chars.digit_chars z).
Proof. rewrite digit_chars_eq. apply uint_chars_digits. Qed.

Lemma zero_chars_digits k :
  Forall (λ c, Chars.is_digit c = true) (Chars.zero_chars k).
Proof. unfold Chars.zero_chars. induction (Z.to_nat k); simpl; by constructor. Qed.

Lemma zero_chars_val k : Chars.digits_val (Chars.zero_chars k) = 0.
Proof.
  unfold Chars.zero_chars, Chars.digits_val.
  induction (Z.to_nat k) as [|n IH]; simpl; [done|]. exact IH.
Qed.

Lemma zero_chars_length k : 0 <= k → Z.of_nat (length (Chars.zero_chars k)) = k.
Proof. intros. unfold Chars.zero_chars. rewrite repeat_length. lia. Qed.

Lemma span_digits_app ds r :
  Forall (λ c, Chars.is_digit c = true) ds →
  match r with [] => True | c :: _ => Chars.is_digit c = false end →
  Chars.span_digits (ds ++ r)%list = (ds, r).
Proof.
  intros Hds Hr. induction Hds as [|c ds Hc _ IH]; simpl.
  - destruct r as [|c r]; [done|]. simpl. by rewrite Hr.
  - by rewrite Hc, IH.
Qed.

Lemma parse_exponent_render E :
  Chars.parse_exponent
    ((if E <? 0 then ["e"%char] else ["e"%char; "+"%char]) ++ Chars.int_chars E)%list
  = Some E.
Proof.
  unfold Chars.int_chars.
  pose proof (digit_chars_digits (- E)) as Hn.
  pose proof (digit_chars_digits E) as Hp.
  destruct (E <? 0) eqn:HE; simpl.
  - rewrite <- (app_nil_r (Chars.digit_chars (- E))).
    rewrite (span_digits_app _ [] Hn I).
    pose proof (digit_chars_nonempty (- E)).
    destruct (Chars.digit_chars (- E)) eqn:Hd; [done|].
    rewrite <- Hd, digit_chars_val by lia. f_equal. lia.
  - rewrite <- (app_nil_r (Chars.digit_chars E)).
    rewrite (span_digits_app _ [] Hp I).
    pose proof (digit_chars_nonempty E).
    destruct (Chars.digit_chars E) eqn:Hd; [done|].
    rewrite <- Hd, digit_chars_val by lia. done.
Qed.

Lemma ends_mantissa_render E :
  Literal.ends_mantissa
    ((if E <? 0 then ["e"%char] else ["e"%char; "+"%char]) ++ Chars.int_chars E)%list.
Proof. by destruct (E <? 0). Qed.

Lemma parse_decimal_int ip r E :
  Literal.digit_list ip → ip ≠ [] → Literal.ends_mantissa r →
  Chars.parse_exponent r = Some E →
  Chars.parse_decimal (ip ++ r)%list = Some (Chars.digits_val ip, E).
Proof.
  intros Hip Hne Hr HE. unfold Chars.parse_decimal.
  rewrite (span_digits_app ip r Hip) by (destruct r; [done|apply Hr]).
  destruct r as [|c r].
  - destruct ip; [done|]. rewrite HE, app_nil_r. simpl length. f_equal. f_equal. lia.
  - destruct Hr as [_ ->]. destruct ip; [done|].
    rewrite HE, app_nil_r. simpl length. f_equal. f_equal. lia.
Qed.

Lemma parse_decimal_frac ip fp r E :
  Literal.digit_list ip → Literal.digit_list fp → ip ≠ [] → Literal.ends_mantissa r →
  Chars.parse_exponent r = Some E →
  Chars.parse_decimal (ip ++ "."%char :: fp ++ r)%list =
    Some (Chars.digits_val (ip ++ fp)%list, E - Z.of_nat (length fp)).
Proof.
  intros Hip Hfp Hne Hr HE. unfold Chars.parse_decimal.
  rewrite (span_digits_app ip _ Hip) by done.
  simpl.
  rewrite (span_digits_app fp r Hfp) by (destruct r; [done|apply Hr]).
  destruct ip; [done|]. by rewrite HE.
Qed.

Lemma strip_pow10 fuel c j e :
  c mod 10 ≠ 0 → (j <= fuel)%nat →
  BigJs.strip fuel (c * 10 ^ Z.of_nat j) e = (c, e + Z.of_nat j).
Proof.
  intros Hc. revert fuel e. induction j as [|j IH]; intros fuel e Hj.
  - rewrite Z.mul_1_r, Z.add_0_r.
    destruct fuel; simpl; [done|].
    by destruct (Z.eqb_spec (c mod 10) 0).
  - destruct fuel as [|fuel]; [lia|]. simpl BigJs.strip.
    replace (c * 10 ^ Z.of_nat (S j)) with (c * 10 ^ Z.of_nat j * 10)
      by (rewrite Nat2Z.inj_succ, Z.pow_succ_r; lia).
    rewrite Z.mod_mul, Z.div_mul by lia. simpl.
    rewrite IH by lia. f_equal. lia.
Qed.

Lemma log2_pow10 j : 0 <= j → j <= Z.log2 (10 ^ j).
Proof.
  intros Hj. rewrite <- (Z.log2_pow2 j) at 1 by lia.
  apply Z.log2_le_mono. apply Z.pow_le_mono_l. lia.
Qed.

Lemma make_pow10 s c j e :
  0 < c → c mod 10 ≠ 0 → 0 <= j →
  BigJs.make s (c * 10 ^ j) e =
    {| BigJs.neg := s; BigJs.coef := Z.to_N c; BigJs.expo := e + j |}.
Proof.
  intros Hc Hm Hj. unfold BigJs.make.
  assert (Hp : 0 < 10 ^ j) by (apply Z.pow_pos_nonneg; lia).
  assert (Hcp : 0 < c * 10 ^ j) by nia.
  destruct (Z.leb_spec (c * 10 ^ j) 0); [lia|].
  rewrite <- (Z2Nat.id j) at 2 by lia.
  rewrite strip_pow10; [by rewrite Z2Nat.id by lia|done|].
  apply Z2Nat.inj_le; [lia|apply Z.log2_nonneg|].
  etrans; [apply log2_pow10; lia|].
  apply Z.log2_le_mono. nia.
Qed.

Lemma make_canonical s c e :
  0 < c → c mod 10 ≠ 0 →
  BigJs.make s c e =
    {| BigJs.neg := s; BigJs.coef := Z.to_N c; BigJs.expo := e |}.
Proof.
  intros Hc Hm. pose proof (make_pow10 s c 0 e Hc Hm) as H.
  rewrite Z.mul_1_r, Z.add_0_r in H. by apply H.
Qed.

Lemma strip_spec fuel c e :
  0 < c →
  let '(c', e') := BigJs.strip fuel c e in
  c' * 10 ^ (e' - e) = c ∧ e <= e' ∧ 0 < c'
  ∧ (c < 2 ^ (Z.of_nat fuel + 1) → c' mod 10 ≠ 0).
Proof.
  revert c e. induction fuel as [|fuel IH]; intros c e Hc.
  - simpl. rewrite Z.sub_diag, Z.mul_1_r. repeat split; try lia.
    intros H. assert (c = 1) as -> by lia. done.
  - simpl BigJs.strip. destruct (Z.eqb_spec (c mod 10) 0) as [Hz|Hz].
    + assert (Hd : c = 10 * (c / 10)) by (apply Z.div_exact; lia).
      assert (Hq : 0 < c / 10) by lia.
      specialize (IH (c / 10) (e + 1) Hq).
      destruct (BigJs.strip fuel (c / 10) (e + 1)) as [c' e'].
      destruct IH as (H1 & H2 & H3 & H4).
      repeat split; try lia.
      * replace (e' - e) with (e' - (e + 1) + 1) by lia.
        rewrite Z.pow_add_r by lia. lia.
      * intros Hlt. apply H4.
        replace (Z.of_nat (S fuel) + 1) with (Z.succ (Z.of_nat fuel + 1)) in Hlt by lia.
        rewrite Z.pow_succ_r in Hlt by lia. lia.
    + rewrite Z.sub_diag, Z.mul_1_r. repeat split; lia.
Qed.

Lemma make_spec s c e :
  0 < c →
  BigJs.neg (BigJs.make s c e) = s
  ∧ BigSpec.canonical (BigJs.make s c e)
  ∧ Z.of_N (BigJs.coef (BigJs.make s c e))
      * 10 ^ (BigJs.expo (BigJs.make s c e) - e) = c
  ∧ e <= BigJs.expo (BigJs.make s c e).
Proof.
  intros Hc. unfold BigJs.make.
  destruct (Z.leb_spec c 0) as [Hle|Hlt]; [lia|].
  pose proof (strip_spec (Z.to_nat (Z.log2 c)) c e Hc) as Hs.
  destruct (BigJs.strip _ c e) as [c' e']. destruct Hs as (H1 & H2 & H3 & H4).
  unfold BigSpec.canonical. simpl. rewrite Z2N.id by lia.
  repeat split; try done. apply H4.
  rewrite Z2Nat.id by apply Z.log2_nonneg.
  replace (Z.log2 c + 1) with (Z.succ (Z.log2 c)) by lia.
  apply Z.log2_spec. lia.
Qed.

Lemma digit_not_minus c : Chars.is_digit c = true → (c =? "-")%char = false.
Proof.
  intros H. destruct (Ascii.eqb_spec c "-") as [->|]; [|done].
  by vm_compute in H.
Qed.

Lemma unsigned_chars_parse b :
  BigSpec.canonical b →
  ∃ m e', Chars.parse_decimal (BigJs.unsigned_chars b) = Some (m, e')
          ∧ (∀ sg, BigJs.make sg m e' =
                   {| BigJs.neg := sg; BigJs.coef := BigJs.coef b;
                      BigJs.expo := BigJs.expo b |})
          ∧ ∃ c0 rest, BigJs.unsigned_chars b = c0 :: rest
                       ∧ Chars.is_digit c0 = true.
Proof.
  intros [Hpos Hmod]. unfold BigJs.unsigned_chars.
  set (c := Z.of_N (BigJs.coef b)) in *.
  pose proof (digit_chars_digits c) as Hd.
  pose proof (digit_chars_val c ltac:(lia)) as Hv.
  pose proof (digit_chars_nonempty c) as Hne.
  set (ds := Chars.digit_chars c) in *. clearbody ds.
  set (n := Z.of_nat (length ds)).
  assert (Hn : 1 <= n) by (destruct ds; [done|simpl in n; lia]).
  set (E := n - 1 + BigJs.expo b).
  assert (Hmk : ∀ sg j e, 0 <= j → e + j = BigJs.expo b →
            BigJs.make sg (c * 10 ^ j) e =
            {| BigJs.neg := sg; BigJs.coef := BigJs.coef b;
               BigJs.expo := BigJs.expo b |}).
  { intros sg j e Hj He. rewrite make_pow10 by done.
    unfold c. by rewrite N2Z.id, He. }
  assert (Hmk0 : ∀ sg e, e = BigJs.expo b →
            BigJs.make sg c e =
            {| BigJs.neg := sg; BigJs.coef := BigJs.coef b;
               BigJs.expo := BigJs.expo b |}).
  { intros sg e He. rewrite <- (Z.mul_1_r c). apply (Hmk sg 0 e); lia. }
  assert (Hhd : ∃ c0 rest, ds = c0 :: rest ∧ Chars.is_digit c0 = true).
  { destruct ds as [|c0 rest]; [done|]. exists c0, rest. split; [done|].
    by apply Forall_cons in Hd as [? _]. }
  assert (Hsplit : ∀ k : nat, (1 <= k)%nat → (k < length ds)%nat →
    ∀ r E', Literal.ends_mantissa r → Chars.parse_exponent r = Some E' →
    Chars.parse_decimal (firstn k ds ++ "."%char :: skipn k ds ++ r)%list =
      Some (c, E' - (n - Z.of_nat k))).
  { intros k Hk1 Hk2 r E' Hr HE'.
    rewrite (parse_decimal_frac _ _ r E');
      [ | by apply Forall_take | by apply Forall_drop | | done | done ].
    - rewrite take_drop, Hv. do 2 f_equal. rewrite length_drop. unfold n. lia.
    - destruct ds; [done|]. destruct k; [lia|done]. }
  assert (Hhd' : ∀ k : nat, (1 <= k)%nat → ∀ r,
    ∃ c0 rest, (firstn k ds ++ r)%list = c0 :: rest ∧ Chars.is_digit c0 = true).
  { intros k Hk r. destruct Hhd as (c0 & rest & -> & Hc0).
    destruct k; [lia|]. simpl. eauto. }
  destruct ((E <=? BigJs.NE) || (BigJs.PE <=? E)) eqn:Hexp.
  { (* exponential notation *)
    pose proof (parse_exponent_render E) as HE.
    pose proof (ends_mantissa_render E) as Hr.
    destruct (Z.ltb_spec 1 n) as [H1|H1].
    - eexists _, _. split; [|split].
      + simpl app. apply (Hsplit 1%nat); try done. unfold n in H1. lia.
      + intros sg. apply Hmk0. unfold E. lia.
      + apply (Hhd' 1%nat). lia.
    - assert (Hlen : length ds = 1%nat) by (unfold n in *; lia).
      rewrite firstn_all2 by lia. simpl app.
      eexists _, _. split; [|split].
      + apply parse_decimal_int; try done.
      + rewrite Hv. intros sg. apply Hmk0. unfold E. lia.
      + destruct Hhd as (c0 & rest & -> & Hc0). simpl. eauto. }
  destruct (Z.ltb_spec E 0) as [HE0|HE0].
  { (* 0.000ddd *)
    eexists _, _. split; [|split].
    - rewrite <- (app_nil_r (Chars.zero_chars (- E - 1) ++ ds)%list).
      apply (parse_decimal_frac ["0"%char] _ [] 0); try done.
      + by repeat constructor.
      + apply Forall_app. split; [apply zero_chars_digits|done].
    - intros sg. rewrite !digits_val_app, zero_chars_val, Hv.
      replace (Chars.digits_val ["0"%char]) with 0 by done.
      rewrite !Z.mul_0_l, !Z.add_0_l. apply Hmk0.
      rewrite length_app, Nat2Z.inj_add, zero_chars_length by lia.
      unfold E, n in *. lia.
    - exists "0"%char, ("."%char :: Chars.zero_chars (- E - 1) ++ ds)%list.
      by split. }
  destruct (Z.ltb_spec 0 E) as [HE1|HE1].
  { destruct (Z.ltb_spec n (E + 1)) as [Hn1|Hn1].
    - (* ddd000 *)
      eexists _, _. split; [|split].
      + rewrite <- (app_nil_r (ds ++ Chars.zero_chars (E + 1 - n))%list).
        apply parse_decimal_int; try done.
        * apply Forall_app. split; [done|apply zero_chars_digits].
        * destruct ds; [done|discriminate].
      + intros sg. rewrite digits_val_app, zero_chars_val, Hv, Z.add_0_r.
        rewrite zero_chars_length by lia. apply Hmk; unfold E in *; lia.
      + destruct Hhd as (c0 & rest & -> & Hc0). simpl. eauto.
    - destruct (Z.ltb_spec (E + 1) n) as [Hn2|Hn2].
      + (* dd.ddd *)
        eexists _, _. split; [|split].
        * rewrite <- (app_nil_r (skipn _ ds)).
          apply (Hsplit (Z.to_nat (E + 1))); try done; unfold n in *; lia.
        * intros sg. apply Hmk0. unfold E in *. lia.
        * rewrite <- (app_nil_r (skipn _ ds)).
          apply (Hhd' (Z.to_nat (E + 1))). lia.
      + (* ddd *)
        exists c, 0. split; [|split].
        * rewrite <- Hv. rewrite <- (parse_decimal_int ds [] 0); try done.
          by rewrite app_nil_r.
        * intros sg. apply Hmk0. unfold E in *. lia.
        * destruct Hhd as (c0 & rest & -> & Hc0). eauto. }
  destruct (Z.ltb_spec 1 n) as [H1|H1].
  - (* d.ddd *)
    eexists _, _. split; [|split].
    + rewrite <- (app_nil_r (skipn _ ds)).
      apply (Hsplit 1%nat); try done. unfold n in *. lia.
    + intros sg. apply Hmk0. unfold E in *. lia.
    + rewrite <- (app_nil_r (skipn _ ds)). apply (Hhd' 1%nat). lia.
  - (* d *)
    exists c, 0. split; [|split].
    + rewrite <- Hv. rewrite <- (parse_decimal_int ds [] 0); try done.
      by rewrite app_nil_r.
    + intros sg. apply Hmk0. unfold E in *. lia.
    + destruct Hhd as (c0 & rest & -> & Hc0). eauto.
Qed.

(** big.js reads back what it prints. *)
Lemma parse_toString b :
  BigSpec.canonical b → BigJs.parse (BigJs.toString b) = Ok b.
Proof.
  intros Hb. destruct (unsigned_chars_parse b Hb)
    as (m & e' & Hp & Hmk & c0 & rest & Hs & Hc0).
  unfold BigJs.toString, BigJs.parse, BigJs.render.
  rewrite list_ascii_of_string_of_list_ascii.
  assert (Hz : BigJs.is_zero b = false).
  { unfold BigJs.is_zero. destruct Hb as [Hb _]. apply N.eqb_neq. lia. }
  rewrite Hz. simpl negb. rewrite orb_true_l, andb_true_r.
  destruct (BigJs.neg b) eqn:Hneg.
  - replace ("-"%char =? "-")%char with true by done.
    rewrite Hp, Hmk. destruct b. simpl in *. by rewrite Hneg.
  - rewrite Hs, (digit_not_minus _ Hc0), <- Hs, Hp, Hmk.
    destruct b. simpl in *. by rewrite Hneg.
Qed.

Lemma canonical_nonzero b : BigSpec.canonical b → BigJs.is_zero b = false.
Proof. intros [H _]. unfold BigJs.is_zero. apply N.eqb_neq. lia. Qed.

Lemma canonical_eta b :
  BigSpec.canonical b →
  b = {| BigJs.neg := BigJs.neg b;
         BigJs.coef := Z.to_N (Z.of_N (BigJs.coef b));
         BigJs.expo := BigJs.expo b |}.
Proof. intros _. destruct b. simpl. by rewrite N2Z.id. Qed.

Lemma times_self b : BigSpec.canonical b → BigJs.times b b = BigSpec.square b.
Proof.
  intros Hb. unfold BigJs.times, BigSpec.square.
  by rewrite (canonical_nonzero b Hb), xorb_nilpotent.
Qed.

Lemma times_zero_self b :
  BigJs.is_zero b = true → BigJs.times b b = BigJs.zero false.
Proof. intros Hb. unfold BigJs.times. by rewrite Hb, xorb_nilpotent. Qed.

Lemma square_spec b :
  BigSpec.canonical b →
  BigJs.neg (BigSpec.square b) = false ∧ BigSpec.canonical (BigSpec.square b)
  ∧ Z.of_N (BigJs.coef (BigSpec.square b))
      * 10 ^ (BigJs.expo (BigSpec.square b) - (BigJs.expo b + BigJs.expo b))
    = Z.of_N (BigJs.coef b) * Z.of_N (BigJs.coef b)
  ∧ BigJs.expo b + BigJs.expo b <= BigJs.expo (BigSpec.square b).
Proof. intros [Hb _]. apply make_spec. nia. Qed.

(** The sum of squares when one coordinate is zero. *)
Lemma plus_square_zero b :
  BigSpec.canonical b → BigJs.plus (BigSpec.square b) (BigJs.zero false) = BigSpec.square b.
Proof.
  intros Hb. destruct (square_spec b Hb) as (Hs & Hc & _).
  unfold BigJs.plus, BigJs.plus_same. rewrite Hs. simpl.
  by rewrite (canonical_nonzero _ Hc), orb_true_r.
Qed.

Lemma plus_zero_square b :
  BigSpec.canonical b → BigJs.plus (BigJs.zero false) (BigSpec.square b) = BigSpec.square b.
Proof.
  intros Hb. destruct (square_spec b Hb) as (Hs & Hc & _).
  unfold BigJs.plus, BigJs.plus_same. rewrite Hs. simpl.
  by rewrite (canonical_nonzero _ Hc).
Qed.

(** The BigSpec.square root of the BigSpec.square of a Big with at most [DP] decimal
    places is its absolute value. *)
Lemma sqrt_square b :
  BigSpec.canonical b → - BigJs.DP <= BigJs.expo b →
  BigJs.sqrt (BigSpec.square b) = Ok (BigJs.abs b).
Proof.
  intros Hb He. destruct (square_spec b Hb) as (Hs & Hc & Hv & Hle).
  unfold BigJs.sqrt. rewrite (canonical_nonzero _ Hc), Hs.
  unfold BigJs.DP in *.
  set (c := Z.of_N (BigJs.coef b)) in *. set (e := BigJs.expo b) in *.
  set (c' := Z.of_N (BigJs.coef (BigSpec.square b))) in *.
  set (e' := BigJs.expo (BigSpec.square b)) in *.
  destruct (Z.leb_spec 0 (e' + 2 * 20)) as [_|]; [|lia].
  assert (Hc0 : 0 < c) by apply Hb.
  assert (Ht : 4 * c' * 10 ^ (e' + 2 * 20) =
               (2 * (c * 10 ^ (e + 20))) * (2 * (c * 10 ^ (e + 20)))).
  { replace (e' + 2 * 20) with ((e' - (e + e)) + ((e + 20) + (e + 20))) by lia.
    rewrite !Z.pow_add_r by lia.
    transitivity (4 * (c' * 10 ^ (e' - (e + e))) * (10 ^ (e + 20) * 10 ^ (e + 20))).
    { ring. }
    rewrite Hv. ring. }
  rewrite Ht, Z.sqrt_square by (assert (0 < 10 ^ (e + 20)) by (apply Z.pow_pos_nonneg; lia); nia).
  replace ((2 * (c * 10 ^ (e + 20)) + 1) / 2) with (c * 10 ^ (e + 20))
    by (apply Z.div_unique with 1; lia).
  f_equal. rewrite make_pow10; [|done|apply Hb|lia].
  unfold BigJs.abs. f_equal; [unfold c; by rewrite N2Z.id|lia].
Qed.

Lemma abs_canonical b : BigSpec.canonical b → BigSpec.canonical (BigJs.abs b).
Proof. done. Qed.

(** A BigSpec.canonical Big divided by its absolute value is [1] or [-1]. *)
Lemma div_abs b :
  BigSpec.canonical b →
  BigJs.div b (BigJs.abs b) =
    Ok {| BigJs.neg := BigJs.neg b; BigJs.coef := 1; BigJs.expo := 0 |}.
Proof.
  intros Hb. unfold BigJs.div.
  rewrite (canonical_nonzero _ (abs_canonical b Hb)), (canonical_nonzero b Hb).
  simpl BigJs.neg. simpl BigJs.coef. simpl BigJs.expo.
  rewrite xorb_false_r, Z.sub_diag. change (0 + BigJs.DP) with 20.
  change (- BigJs.DP) with (-20).
  destruct Hb as [Hc _]. set (c := Z.of_N (BigJs.coef b)) in *.
  change (0 <=? 20) with true. cbv iota.
  replace ((2 * (c * 10 ^ 20) + c) / (2 * c)) with (1 * 10 ^ 20)
    by (apply Z.div_unique with c; lia).
  by f_equal.
Qed.

(** Zero divided by a nonzero Big is a zero. *)
Lemma div_zero b l :
  BigJs.is_zero b = true → BigSpec.canonical l →
  BigJs.div b l = Ok (BigJs.zero (xorb (BigJs.neg b) (BigJs.neg l))).
Proof.
  intros Hb Hl. unfold BigJs.div. by rewrite (canonical_nonzero l Hl), Hb.
Qed.

Lemma lift_bind {A B} (r : res A) (k : A → M B) σ :
  (lift r ≫= k) σ = match r with Ok a => k a σ | Throw e => Throw e end.
Proof. unfold mbind, M_bind, lift. by destruct r. Qed.

Lemma res_bind_Ok {A B} (a : A) (k : A → res B) : (Ok a ≫= k) = k a.
Proof. done. Qed.

Lemma res_bind_Throw {A B} e (k : A → res B) : (Throw e ≫= k) = Throw e.
Proof. done. Qed.

Lemma lengthSq_lookup σ v o sx sy :
  heap σ !! v = Some o →
  JS.toString (_x o) = Ok sx → JS.toString (_y o) = Ok sy →
  Vec.lengthSq v σ = lift (C5.lengthSq_of (operatorSystem o) sx sy) σ.
Proof.
  intros Ho Hx Hy. unfold Vec.lengthSq, C5.lengthSq_of.
  rewrite (bind_run _ _ _ _ _ (system_of_lookup _ _ _ Ho)).
  assert (HX : Vec.x v σ = Ok (sx, σ)) by (by rewrite (x_lookup _ _ _ Ho), Hx).
  assert (HY : Vec.y v σ = Ok (sy, σ)) by (by rewrite (y_lookup _ _ _ Ho), Hy).
  rewrite !(bind_run _ _ _ _ _ HX), lift_bind.
  destruct (sys_multiply _ _ _) as [xx|]; [|done].
  rewrite res_bind_Ok, !(bind_run _ _ _ _ _ HY), lift_bind.
  destruct (sys_multiply _ _ _) as [yy|]; [|done].
  rewrite res_bind_Ok, lift_bind.
  by destruct (sys_plus _ _ _).
Qed.

Lemma length_lookup σ v o sx sy :
  heap σ !! v = Some o →
  JS.toString (_x o) = Ok sx → JS.toString (_y o) = Ok sy →
  Vec.length v σ = lift (C5.length_of (operatorSystem o) sx sy) σ.
Proof.
  intros Ho Hx Hy. unfold Vec.length, C5.length_of.
  rewrite (bind_run _ _ _ _ _ (system_of_lookup _ _ _ Ho)).
  unfold mbind at 1, M_bind at 1.
  rewrite (lengthSq_lookup _ _ _ _ _ Ho Hx Hy).
  destruct (C5.lengthSq_of _ _ _) as [sq|]; simpl lift; [|done].
  cbv iota beta. rewrite lift_bind.
  by destruct (sys_sqrt _ _).
Qed.

Lemma divideX_scalar σ v o sx sy a q :
  heap σ !! v = Some o →
  JS.toString (_x o) = Ok sx → JS.toString (_y o) = Ok sy →
  sys_divide (operatorSystem o) (VStr sx) a = Ok q →
  Vec.divideX v (Scalar a) σ = Vec.new q (VStr sy) σ.
Proof.
  intros Ho Hx Hy Hq. unfold Vec.divideX.
  rewrite (bind_run _ _ _ _ _ (system_of_lookup _ _ _ Ho)).
  assert (HX : Vec.x v σ = Ok (sx, σ)) by (by rewrite (x_lookup _ _ _ Ho), Hx).
  assert (HY : Vec.y v σ = Ok (sy, σ)) by (by rewrite (y_lookup _ _ _ Ho), Hy).
  rewrite (bind_run _ _ _ _ _ HX). simpl Vec.x_or_scalar.
  rewrite (bind_run _ _ σ a σ) by done.
  rewrite lift_bind, Hq. by rewrite (bind_run _ _ _ _ _ HY).
Qed.

Lemma divideY_scalar σ v o sx sy a q :
  heap σ !! v = Some o →
  JS.toString (_x o) = Ok sx → JS.toString (_y o) = Ok sy →
  sys_divide (operatorSystem o) (VStr sy) a = Ok q →
  Vec.divideY v (Scalar a) σ = Vec.new (VStr sx) q σ.
Proof.
  intros Ho Hx Hy Hq. unfold Vec.divideY.
  rewrite (bind_run _ _ _ _ _ (system_of_lookup _ _ _ Ho)).
  assert (HX : Vec.x v σ = Ok (sx, σ)) by (by rewrite (x_lookup _ _ _ Ho), Hx).
  assert (HY : Vec.y v σ = Ok (sy, σ)) by (by rewrite (y_lookup _ _ _ Ho), Hy).
  rewrite (bind_run _ _ _ _ _ HY). simpl Vec.y_or_scalar.
  rewrite (bind_run _ _ σ a σ) by done.
  rewrite lift_bind, Hq. by rewrite (bind_run _ _ _ _ _ HX).
Qed.

Lemma parse_nonempty s b : BigJs.parse s = Ok b → s ≠ "".
Proof. by intros H ->. Qed.

Lemma Big_length_x_axis sx sy X Y :
  BigJs.parse sx = Ok X → BigJs.parse sy = Ok Y →
  BigSpec.canonical X → - BigJs.DP <= BigJs.expo X → BigJs.is_zero Y = true →
  C5.length_of (OS BigOperatorSystem) sx sy = Ok (BigJs.toString (BigJs.abs X))
  ∧ sys_divide (OS BigOperatorSystem) (VStr sx)
      (VStr (BigJs.toString (BigJs.abs X))) = Ok (VBig (BigSpec.unit (BigJs.neg X)))
  ∧ sys_divide (OS BigOperatorSystem) (VStr sy)
      (VStr (BigJs.toString (BigJs.abs X))) = Ok (VBig (BigJs.zero (BigJs.neg Y))).
Proof.
  intros Hx Hy HX He HY.
  pose proof (abs_canonical X HX) as HL.
  destruct (square_spec X HX) as (_ & HS & _).
  split; [|split].
  - unfold C5.length_of, C5.lengthSq_of. simpl.
    rewrite Hx, Hy. simpl.
    rewrite (times_self X HX), (times_zero_self Y HY), (plus_square_zero X HX).
    rewrite (parse_toString _ HS). simpl.
    by rewrite (sqrt_square X HX He).
  - simpl. rewrite Hx, (parse_toString _ HL). simpl.
    by rewrite (div_abs X HX).
  - simpl. rewrite Hy, (parse_toString _ HL). simpl.
    rewrite (div_zero Y _ HY HL). simpl. by rewrite xorb_false_r.
Qed.

Lemma Big_length_y_axis sx sy X Y :
  BigJs.parse sx = Ok X → BigJs.parse sy = Ok Y →
  BigJs.is_zero X = true → BigSpec.canonical Y → - BigJs.DP <= BigJs.expo Y →
  C5.length_of (OS BigOperatorSystem) sx sy = Ok (BigJs.toString (BigJs.abs Y))
  ∧ sys_divide (OS BigOperatorSystem) (VStr sx)
      (VStr (BigJs.toString (BigJs.abs Y))) = Ok (VBig (BigJs.zero (BigJs.neg X)))
  ∧ sys_divide (OS BigOperatorSystem) (VStr sy)
      (VStr (BigJs.toString (BigJs.abs Y))) = Ok (VBig (BigSpec.unit (BigJs.neg Y))).
Proof.
  intros Hx Hy HX HY He.
  pose proof (abs_canonical Y HY) as HL.
  destruct (square_spec Y HY) as (_ & HS & _).
  split; [|split].
  - unfold C5.length_of, C5.lengthSq_of. simpl.
    rewrite Hx, Hy. simpl.
    rewrite (times_self Y HY), (times_zero_self X HX), (plus_zero_square Y HY).
    rewrite (parse_toString _ HS). simpl.
    by rewrite (sqrt_square Y HY He).
  - simpl. rewrite Hx, (parse_toString _ HL). simpl.
    rewrite (div_zero X _ HX HL). simpl. by rewrite xorb_false_r.
  - simpl. rewrite Hy, (parse_toString _ HL). simpl.
    by rewrite (div_abs Y HY).
Qed.

Lemma Big_length_unit s s' :
  C5.length_of (OS BigOperatorSystem) (BigJs.toString (BigSpec.unit s))
    (BigJs.toString (BigJs.zero s')) = Ok "1"
  ∧ C5.length_of (OS BigOperatorSystem) (BigJs.toString (BigJs.zero s))
      (BigJs.toString (BigSpec.unit s')) = Ok "1".
Proof. destruct s, s'; split; vm_compute; reflexivity. Qed.

(** [v.normalize().length] when the default system is the Big one, the
    length of [v] is [len], and the coordinates divided by [len] are the
    Bigs [qx] and [qy]. *)
Lemma normalize_length_eval σ v o sx sy len qx qy :
  SYSTEM σ = BigOperatorSystem →
  heap σ !! v = Some o → operatorSystem o = OS BigOperatorSystem →
  JS.toString (_x o) = Ok sx → JS.toString (_y o) = Ok sy → sy ≠ "" →
  C5.length_of (OS BigOperatorSystem) sx sy = Ok len →
  sys_divide (OS BigOperatorSystem) (VStr sx) (VStr len) = Ok (VBig qx) →
  sys_divide (OS BigOperatorSystem) (VStr sy) (VStr len) = Ok (VBig qy) →
  eval (C5.normalized_length v) σ =
    C5.length_of (OS BigOperatorSystem) (BigJs.toString qx) (BigJs.toString qy).
Proof.
  intros HS Ho Hos Hx Hy Hsy Hlen Hqx Hqy.
  assert (Hl : Vec.length v σ = Ok (len, σ))
    by (by rewrite (length_lookup _ _ _ _ _ Ho Hx Hy), Hos, Hlen).
  (* divideX *)
  destruct (new_lookup (VBig qx) (VStr sy) σ) as (σ1 & Hn1 & HS1 & Hl1).
  rewrite or_else_nonempty in Hl1 by done.
  change (JS.or_else (VBig qx) (VNum 0)) with (VBig qx) in Hl1.
  assert (Hd1 : Vec.divideX v (Scalar (VStr len)) σ = Ok (length (heap σ), σ1)).
  { rewrite (divideX_scalar _ _ _ _ _ _ (VBig qx) Ho Hx Hy); [done|].
    by rewrite Hos. }
  (* divideY *)
  destruct (new_lookup (VStr (BigJs.toString qx)) (VBig qy) σ1)
    as (σ2 & Hn2 & HS2 & Hl2).
  rewrite or_else_nonempty in Hl2 by apply Big_toString_nonempty.
  change (JS.or_else (VBig qy) (VNum 0)) with (VBig qy) in Hl2.
  assert (Hd2 : Vec.divideY (length (heap σ)) (Scalar (VStr len)) σ1
                = Ok (length (heap σ1), σ2)).
  { rewrite (divideY_scalar _ _ _ (BigJs.toString qx) sy _ (VBig qy) Hl1);
      [done..|]. simpl. by rewrite HS. }
  assert (Hnorm : Vec.normalize v σ = Ok (length (heap σ1), σ2)).
  { unfold Vec.normalize. rewrite (bind_run _ _ _ _ _ Hl).
    unfold Vec.divide. by rewrite (bind_run _ _ _ _ _ Hd1). }
  unfold eval, C5.normalized_length. rewrite (bind_run _ _ _ _ _ Hnorm).
  rewrite (length_lookup _ _ _ (BigJs.toString qx) (BigJs.toString qy) Hl2)
    by done.
  simpl operatorSystem. rewrite HS1, HS. unfold lift.
  generalize (C5.length_of (OS BigOperatorSystem) (BigJs.toString qx)
                (BigJs.toString qy)).
  by intros [a|e].
Qed.

(** ** C5: the length of a normalized vector *)

(** C5, as stated, fails under both operator systems: [(1, 1)] has a
    nonzero length and its normalization has length [0.9999999999999999]
    natively; [(10, 11)] normalizes to length [1.00000000000000000001] in
    arbitrary precision; neither equals [1]. *)
Lemma C5_counterexample :
  eval (C5.program (VNum 1) (VNum 1)) native
    = Ok (false, "0.9999999999999999", false)
  ∧ eval (C5.program (VNum 10) (VNum 11)) initial
    = Ok (false, "1.00000000000000000001", false).
Proof. split; vm_compute; reflexivity. Qed.

(** The amended claim, for the Vectors on a coordinate axis under either
    operator system, is proved in the last part of the file, after the
    facts about doubles that its native half rests on. *)

(** Off the axes the length of the normalization can still be exactly [1]:
    it is for [(3, 4)] under both operator systems. *)
Lemma normalize_length_3_4 :
  eval (C5.program (VNum 3) (VNum 4)) native = Ok (false, "1", true)
  ∧ eval (C5.program (VNum 3) (VNum 4)) initial = Ok (false, "1", true).
Proof. split; vm_compute; reflexivity. Qed.

(** * Further properties of the Vector class *)

(** ** Queries and the state *)

Section Queries.
Variable Math_atan2 : float → float → float.
Variable radian2degree : value → (value → value → res value) → res value.

Lemma read_only_toString this : read_only (Vec.toString this).
Proof. unfold Vec.toString. read_only_steps. Qed.
Lemma read_only_angle this : read_only (Vec.angle Math_atan2 this).
Proof. unfold Vec.angle. read_only_steps. Qed.
Lemma read_only_verticalAngle this :
  read_only (Vec.verticalAngle Math_atan2 this).
Proof. unfold Vec.verticalAngle. read_only_steps. Qed.
Lemma read_only_angleDegree this :
  read_only (Vec.angleDegree Math_atan2 radian2degree this).
Proof.
  unfold Vec.angleDegree. pose proof read_only_angle. read_only_steps.
Qed.
Lemma read_only_verticalAngleDegree this :
  read_only (Vec.verticalAngleDegree Math_atan2 radian2degree this).
Proof.
  unfold Vec.verticalAngleDegree. pose proof read_only_verticalAngle.
  read_only_steps.
Qed.
Lemma read_only_distanceX this vec : read_only (Vec.distanceX this vec).
Proof. unfold Vec.distanceX. read_only_steps. Qed.
Lemma read_only_distanceY this vec : read_only (Vec.distanceY this vec).
Proof. unfold Vec.distanceY. read_only_steps. Qed.
Lemma read_only_absDistanceX this vec : read_only (Vec.absDistanceX this vec).
Proof.
  unfold Vec.absDistanceX. pose proof read_only_distanceX. read_only_steps.
Qed.
Lemma read_only_absDistanceY this vec : read_only (Vec.absDistanceY this vec).
Proof.
  unfold Vec.absDistanceY. pose proof read_only_distanceY. read_only_steps.
Qed.
Lemma read_only_distanceSq this vec : read_only (Vec.distanceSq this vec).
Proof.
  unfold Vec.distanceSq. pose proof read_only_distanceX.
  pose proof read_only_distanceY. read_only_steps.
Qed.
Lemma read_only_distance this vec : read_only (Vec.distance this vec).
Proof.
  unfold Vec.distance. pose proof read_only_distanceSq. read_only_steps.
Qed.
End Queries.

(** X1: the getters and the methods that return a string, a boolean, an
    array or an object, [cosAngleBetween] and [angleBetween] apart, leave
    the state as they found it: no Vector is created or changed, and
    [Vector.SYSTEM] is not assigned ([radian2degree] of [src/util.ts]
    being a function of its arguments). *)
Theorem queries_leave_the_state_unchanged
    (Math_atan2 : float → float → float)
    (radian2degree : value → (value → value → res value) → res value)
    (this vec : loc) :
  read_only (Vec.x this) ∧ read_only (Vec.y this)
  ∧ read_only (Vec.length this) ∧ read_only (Vec.lengthSq this)
  ∧ read_only (Vec.angle Math_atan2 this)
  ∧ read_only (Vec.angleDegree Math_atan2 radian2degree this)
  ∧ read_only (Vec.verticalAngle Math_atan2 this)
  ∧ read_only (Vec.verticalAngleDegree Math_atan2 radian2degree this)
  ∧ read_only (Vec.dot this vec) ∧ read_only (Vec.cross this vec)
  ∧ read_only (Vec.distanceX this vec) ∧ read_only (Vec.absDistanceX this vec)
  ∧ read_only (Vec.distanceY this vec) ∧ read_only (Vec.absDistanceY this vec)
  ∧ read_only (Vec.distanceSq this vec) ∧ read_only (Vec.distance this vec)
  ∧ read_only (Vec.isZero this) ∧ read_only (Vec.isEqualTo this vec)
  ∧ read_only (Vec.toString this) ∧ read_only (Vec.toArray this)
  ∧ read_only (Vec.toObject this).
Proof.
  repeat split;
    eauto using read_only_toString, read_only_angle, read_only_angleDegree,
      read_only_verticalAngle, read_only_verticalAngleDegree,
      read_only_distanceX, read_only_absDistanceX, read_only_distanceY,
      read_only_absDistanceY, read_only_distanceSq, read_only_distance
      with vec.
Qed.

(** ** Methods that create Vectors *)

Lemma preserves_read_only {A} (m : M A) : read_only m → preserves m.
Proof.
  intros Hm σ a σ' H. apply Hm in H as ->. split; [done|].
  exists []. by rewrite app_nil_r.
Qed.

Lemma preserves_allocates (m : M loc) : allocates m → preserves m.
Proof.
  intros Hm σ a σ' H. apply Hm in H as (HS & mid & o & Hh & _).
  split; [done|]. by exists (mid ++ [o])%list.
Qed.

Lemma preserves_bind {A B} (m : M A) (k : A → M B) :
  preserves m → (∀ a, preserves (k a)) → preserves (m ≫= k).
Proof.
  intros Hm Hk σ b σ' H. apply bind_Ok in H as (a & σ1 & H1 & H2).
  apply Hm in H1 as (HS1 & mid1 & Hh1). apply Hk in H2 as (HS2 & mid2 & Hh2).
  split; [congruence|]. exists (mid1 ++ mid2)%list.
  by rewrite Hh2, Hh1, app_assoc.
Qed.

Lemma preserves_lookup {A} (m : M A) σ a σ' :
  preserves m → m σ = Ok (a, σ') →
  SYSTEM σ' = SYSTEM σ
  ∧ ∀ l o, heap σ !! l = Some o → heap σ' !! l = Some o.
Proof.
  intros Hm H. apply Hm in H as (HS & mid & Hh). split; [done|].
  intros l o Hl. rewrite Hh. by apply lookup_app_l_Some.
Qed.

Lemma preserves_cosAngleBetween this vec2 :
  preserves (Vec.cosAngleBetween this vec2).
Proof.
  unfold Vec.cosAngleBetween.
  apply preserves_bind; [apply preserves_read_only; eauto with vec|intros len1].
  apply preserves_bind;
    [apply preserves_allocates, (allocates_binary Vec.Divide)|intros v1].
  apply preserves_bind; [apply preserves_read_only; eauto with vec|intros len2].
  apply preserves_bind;
    [apply preserves_allocates, (allocates_binary Vec.Divide)|intros v2].
  apply preserves_read_only; eauto with vec.
Qed.

(** X2: Each of the nineteen methods that return a Vector, when it returns,
    returns a Vector at a location that was not in use, and leaves every
    Vector that existed, the receiver and an argument among them, with the
    coordinates and the operator system it had. *)
Theorem manipulation_leaves_existing_vectors_unchanged
    (Math_cos Math_sin : float → float)
    (degree2radian : value → (value → value → res value) → res value)
    (m : Vec.manipulation) (this : loc) (σ : state) (r : loc) (σ' : state) :
  Vec.manipulate Math_cos Math_sin degree2radian m this σ = Ok (r, σ') →
  (∀ l o, heap σ !! l = Some o → heap σ' !! l = Some o)
  ∧ (length (heap σ) <= r)%nat
  ∧ is_Some (heap σ' !! r).
Proof.
  intros H. apply allocates_manipulate in H.
  pose proof (grows_lookup _ _ _ H) as (Hold & Hfresh & o & Hr & _).
  split; [exact Hold|]. split; [by apply lookup_ge_None|by exists o].
Qed.

Lemma manipulation_leaves_existing_vectors_unchanged_witness :
  ∃ r σ',
    Vec.normalize 0%nat two_vectors = Ok (r, σ')
    ∧ heap σ' !! 0%nat = heap two_vectors !! 0%nat
    ∧ heap σ' !! 1%nat = heap two_vectors !! 1%nat
    ∧ (2 <= r)%nat.
Proof.
  destruct (returns (Vec.normalize 0%nat) two_vectors)
    as (r & σ' & E); [vm_compute; reflexivity|].
  exists r, σ'. split; [exact E|].
  destruct (manipulation_leaves_existing_vectors_unchanged
              (fun a => a) (fun a => a) (fun d _ => Ok d)
              Vec.Normalize 0%nat two_vectors r σ' E) as (Hold & Hfresh & _).
  split; [exact (Hold 0%nat _ eq_refl)|].
  split; [exact (Hold 1%nat _ eq_refl)|exact Hfresh].
Defined.

(** X3: [cosAngleBetween] and [angleBetween] create intermediate Vectors, but
    when they return, [Vector.SYSTEM] is what it was and every Vector that
    existed has the coordinates and the operator system it had. *)
Theorem cosAngleBetween_leaves_existing_vectors_unchanged
    (Math_acos : float → float) (this vec2 : loc) (σ : state)
    (c : string) (σ' : state) :
  Vec.cosAngleBetween this vec2 σ = Ok (c, σ')
  ∨ Vec.angleBetween Math_acos this vec2 σ = Ok (c, σ') →
  SYSTEM σ' = SYSTEM σ
  ∧ ∀ l o, heap σ !! l = Some o → heap σ' !! l = Some o.
Proof.
  intros [H|H].
  - by apply (preserves_lookup _ _ _ _ (preserves_cosAngleBetween this vec2)) in H.
  - eapply preserves_lookup; [|exact H]. unfold Vec.angleBetween.
    apply preserves_bind; [apply preserves_cosAngleBetween|intros ?].
    apply preserves_read_only. eauto with vec.
Qed.

Lemma cosAngleBetween_leaves_existing_vectors_unchanged_witness :
  ∃ c σ',
    Vec.cosAngleBetween 0%nat 1%nat two_vectors = Ok (c, σ')
    ∧ SYSTEM σ' = BigOperatorSystem
    ∧ heap σ' !! 0%nat = heap two_vectors !! 0%nat
    ∧ heap σ' !! 1%nat = heap two_vectors !! 1%nat.
Proof.
  destruct (returns (Vec.cosAngleBetween 0%nat 1%nat) two_vectors)
    as (c & σ' & E); [vm_compute; reflexivity|].
  exists c, σ'. split; [exact E|].
  destruct (cosAngleBetween_leaves_existing_vectors_unchanged
              (fun a => a) 0%nat 1%nat two_vectors c σ' (or_introl E))
    as (HS & Hold).
  split; [exact HS|].
  split; [exact (Hold 0%nat _ eq_refl)|exact (Hold 1%nat _ eq_refl)].
Defined.
(** ** Configuration *)

(** X4: [config] never fails and changes nothing but the receiver's operator
    system: the coordinates of the receiver read as before, every other
    Vector and [Vector.SYSTEM] are untouched.  The system it sets is the
    one given, or the registry entry of the given name with
    [Vector.SYSTEM] as fallback; when [system] is left out it is the
    arbitrary-precision system, whatever [Vector.SYSTEM] is. *)
Theorem config_changes_only_the_operator_system
    (σ : state) (this : loc) (o : Vector) (system : option system_option) :
  heap σ !! this = Some o →
  ∃ s σ',
    Vec.config this system σ = Ok (tt, σ')
    ∧ SYSTEM σ' = SYSTEM σ
    ∧ heap σ' !! this = Some {| _x := _x o; _y := _y o; operatorSystem := s |}
    ∧ (∀ l, l ≠ this → heap σ' !! l = heap σ !! l)
    ∧ eval (Vec.x this) σ' = eval (Vec.x this) σ
    ∧ eval (Vec.y this) σ' = eval (Vec.y this) σ
    ∧ s = match system with
          | None => OS BigOperatorSystem
          | Some (SystemInstance os) => OS os
          | Some (SystemName k) => default (OS (SYSTEM σ)) (registry_get k)
          end.
Proof.
  intros Ho.
  assert (Hlt : (this < length (heap σ))%nat) by by eapply lookup_lt_Some.
  set (s := match system with
            | None => OS BigOperatorSystem
            | Some (SystemInstance os) => OS os
            | Some (SystemName k) => default (OS (SYSTEM σ)) (registry_get k)
            end).
  set (o' := {| _x := _x o; _y := _y o; operatorSystem := s |}).
  exists s, {| SYSTEM := SYSTEM σ; heap := <[this := o']> (heap σ) |}.
  assert (Hl : heap {| SYSTEM := SYSTEM σ; heap := <[this := o']> (heap σ) |}
               !! this = Some o') by (simpl; by apply list_lookup_insert_eq).
  split; [|split; [done|split; [exact Hl|split; [|split; [|split; [|done]]]]]].
  - unfold Vec.config, mbind, M_bind, deref. rewrite Ho.
    destruct system as [[k|os]|]; reflexivity.
  - intros l Hne. simpl. by apply list_lookup_insert_ne.
  - unfold eval. rewrite (x_lookup _ _ _ Hl), (x_lookup _ _ _ Ho).
    simpl. by destruct (JS.toString (_x o)).
  - unfold eval. rewrite (y_lookup _ _ _ Hl), (y_lookup _ _ _ Ho).
    simpl. by destruct (JS.toString (_y o)).
Qed.

Lemma config_changes_only_the_operator_system_witness :
  ∃ s σ',
    Vec.config 1%nat None native_vectors = Ok (tt, σ')
    ∧ SYSTEM σ' = BaseOperatorSystem
    ∧ heap σ' !! 1%nat =
        Some {| _x := VStr "1.5"; _y := VNum (-2); operatorSystem := s |}
    ∧ heap σ' !! 0%nat = heap native_vectors !! 0%nat
    ∧ s = OS BigOperatorSystem.
Proof.
  destruct (config_changes_only_the_operator_system native_vectors 1%nat
              {| _x := VStr "1.5"; _y := VNum (-2);
                 operatorSystem := OS BaseOperatorSystem |} None eq_refl)
    as (s & σ' & Hc & HS & Hl & Hother & _ & _ & Hs).
  exists s, σ'. split; [exact Hc|]. split; [exact HS|]. split; [exact Hl|].
  split; [apply Hother; discriminate|exact Hs].
Defined.
(** ** The two operator systems *)

(** More facts of IEEE-754 arithmetic. *)

Lemma SFadd_comm prec emax x y : SFadd prec emax x y = SFadd prec emax y x.
Proof.
  destruct x as [sx|sx| |sx mx ex], y as [sy|sy| |sy my ey]; simpl;
    try reflexivity; try (by destruct sx, sy).
  by rewrite Z.min_comm, Z.add_comm.
Qed.

Lemma float_add_comm (x y : float) : (x + y)%float = (y + x)%float.
Proof. apply Prim2SF_inj. rewrite !add_spec. apply SFadd_comm. Qed.

Lemma SFeqb_sym x y : SFeqb x y = SFeqb y x.
Proof.
  unfold SFeqb.
  destruct x as [sx|sx| |sx mx ex], y as [sy|sy| |sy my ey]; simpl;
    try reflexivity; try (by destruct sx); try (by destruct sy);
    try (by destruct sx, sy).
  all: change (Pos.compare_cont Eq mx my) with (Pos.compare mx my);
    change (Pos.compare_cont Eq my mx) with (Pos.compare my mx);
    rewrite (Z.compare_antisym ey ex), (Pos.compare_antisym my mx);
    destruct sx, sy; try reflexivity;
    destruct (ey ?= ex); simpl; try reflexivity;
    by destruct (my ?= mx)%positive.
Qed.

Lemma float_eqb_sym (x y : float) : PrimFloat.eqb x y = PrimFloat.eqb y x.
Proof. rewrite !FloatAxioms.eqb_spec. apply SFeqb_sym. Qed.

(** More facts of the decimal arithmetic. *)

Lemma Big_plus_same_comm x y :
  BigJs.neg x = BigJs.neg y → BigJs.plus_same x y = BigJs.plus_same y x.
Proof.
  intros Hs. unfold BigJs.plus_same. rewrite (orb_comm (BigJs.is_zero y)).
  destruct (BigJs.is_zero x) eqn:Zx, (BigJs.is_zero y) eqn:Zy; simpl;
    try reflexivity.
  - by rewrite Hs.
  - by rewrite Hs, Z.min_comm, Z.add_comm.
Qed.

Lemma Big_minus_same_comm x y :
  BigJs.neg x = negb (BigJs.neg y) →
  BigJs.minus_same x (BigJs.negate y) = BigJs.minus_same y (BigJs.negate x).
Proof.
  intros Hs. unfold BigJs.minus_same.
  change (BigJs.is_zero (BigJs.negate x)) with (BigJs.is_zero x).
  change (BigJs.is_zero (BigJs.negate y)) with (BigJs.is_zero y).
  rewrite (orb_comm (BigJs.is_zero y)).
  destruct (BigJs.is_zero x) eqn:Zx, (BigJs.is_zero y) eqn:Zy; simpl;
    try reflexivity.
  - by rewrite Big_negate_negate.
  - by rewrite Big_negate_negate.
  - rewrite (Z.min_comm (BigJs.expo y)). f_equal.
    unfold BigJs.signed, BigJs.negate, BigJs.mag. simpl. rewrite Hs.
    destruct (BigJs.neg y); simpl; lia.
Qed.

Lemma Big_plus_comm x y : BigJs.plus x y = BigJs.plus y x.
Proof.
  unfold BigJs.plus.
  destruct (Bool.eqb (BigJs.neg x) (BigJs.neg y)) eqn:E.
  - rewrite (eqb_true_iff _ _) in E. rewrite <- E, eqb_reflx.
    by apply Big_plus_same_comm.
  - rewrite (eqb_false_iff _ _) in E.
    replace (Bool.eqb (BigJs.neg y) (BigJs.neg x)) with false
      by (by destruct (BigJs.neg x), (BigJs.neg y)).
    apply Big_minus_same_comm. by destruct (BigJs.neg x), (BigJs.neg y).
Qed.

Lemma Big_eq_sym x y : BigJs.eq x y = BigJs.eq y x.
Proof.
  unfold BigJs.eq.
  rewrite (orb_comm (BigJs.is_zero y)), (andb_comm (BigJs.is_zero y)).
  destruct (BigJs.is_zero x || BigJs.is_zero y); [done|].
  rewrite (N.eqb_sym (BigJs.coef y)), (Z.eqb_sym (BigJs.expo y)).
  by destruct (BigJs.neg x), (BigJs.neg y).
Qed.

(** [new Big(v)] throws nothing but big.js's invalid-number error. *)
Lemma new_Big_Throw v e : JS.new_Big v = Throw e → e = BigJs.INVALID.
Proof.
  assert (H : ∀ s, BigJs.parse s = Throw e → e = BigJs.INVALID).
  { intros s. unfold BigJs.parse.
    destruct (list_ascii_of_string s) as [|c l]; [|destruct (c =? "-")%char];
      destruct (Chars.parse_decimal _) as [[m e']|]; congruence. }
  destruct v as [|n|s|b]; simpl; [apply H| |apply H|done].
  destruct (JS.is_minus_zero n); apply H.
Qed.

Lemma builtin_commute os v w :
  builtin os →
  plus os v w = plus os w v
  ∧ multiply os v w = multiply os w v
  ∧ equal os v w = equal os w v.
Proof.
  intros [-> | ->]; simpl.
  - by rewrite (float_add_comm (JS.ToNumber v)), (float_mul_comm (JS.ToNumber v)),
      (float_eqb_sym (JS.ToNumber v)).
  - unfold mbind, res_bind.
    destruct (JS.new_Big v) as [bv|e1] eqn:Hv, (JS.new_Big w) as [bw|e2] eqn:Hw;
      try done.
    + by rewrite (Big_plus_comm bv), (Big_times_comm bv), (Big_eq_sym bv).
    + apply new_Big_Throw in Hv as ->. by apply new_Big_Throw in Hw as ->.
Qed.

(** X5: Under either operator system of the package, [plus] and [multiply] do
    not depend on the order of their operands, and [equal] is symmetric;
    this holds for all operands, those included for which the operation
    throws. *)
Theorem operator_system_operations_commute
    (os : IOperatorSystem) (v w : value) :
  builtin os →
  plus os v w = plus os w v
  ∧ multiply os v w = multiply os w v
  ∧ equal os v w = equal os w v.
Proof. apply builtin_commute. Qed.

Lemma operator_system_operations_commute_witness :
  plus BigOperatorSystem (VStr "0.1") (VNum 2) =
    plus BigOperatorSystem (VNum 2) (VStr "0.1")
  ∧ multiply BigOperatorSystem (VStr "0.1") (VNum 2) =
      multiply BigOperatorSystem (VNum 2) (VStr "0.1")
  ∧ equal BigOperatorSystem (VStr "0.1") (VNum 2) =
      equal BigOperatorSystem (VNum 2) (VStr "0.1").
Proof.
  apply (operator_system_operations_commute BigOperatorSystem).
  right. reflexivity.
Defined.
(** ** Evaluation of the queries *)

Lemma eval_bind {A B} (m : M A) (k : A → M B) σ :
  read_only m → eval (m ≫= k) σ = (eval m σ ≫= λ a, eval (k a) σ).
Proof.
  intros Hm. unfold eval, mbind, M_bind, res_bind.
  destruct (m σ) as [[a σ1]|e] eqn:E; [|done]. by apply Hm in E as ->.
Qed.

Lemma eval_lift {A} (r : res A) σ : eval (lift r) σ = r.
Proof. by destruct r. Qed.

Lemma eval_x σ this o :
  heap σ !! this = Some o → eval (Vec.x this) σ = JS.toString (_x o).
Proof. intros H. unfold eval. rewrite (x_lookup _ _ _ H). apply eval_lift. Qed.

Lemma eval_y σ this o :
  heap σ !! this = Some o → eval (Vec.y this) σ = JS.toString (_y o).
Proof. intros H. unfold eval. rewrite (y_lookup _ _ _ H). apply eval_lift. Qed.

Lemma eval_system_of σ this o :
  heap σ !! this = Some o → eval (Vec.system_of this) σ = Ok (operatorSystem o).
Proof. intros H. unfold eval. by rewrite (system_of_lookup _ _ _ H). Qed.

(** One step of a query: a getter, the operator system, or an operation
    of the operator system. *)
Ltac eval_step :=
  first
    [ rewrite eval_lift
    | rewrite eval_bind by eauto with vec
    | erewrite eval_system_of by eassumption
    | erewrite eval_x by eassumption
    | erewrite eval_y by eassumption
    | rewrite res_bind_Ok
    | rewrite res_bind_Throw ].

Ltac eval_case :=
  match goal with
  | |- context [mbind _ (JS.toString ?v)] =>
      destruct (JS.toString v); [|by rewrite ?res_bind_Throw]
  | |- context [mbind _ (sys_binary ?f ?n ?s ?v ?w)] =>
      destruct (sys_binary f n s v w); [|by rewrite ?res_bind_Throw]
  | |- context [mbind _ (sys_unary ?f ?n ?s ?v)] =>
      destruct (sys_unary f n s v); [|by rewrite ?res_bind_Throw]
  end.

Ltac eval_steps := repeat first [ eval_step | eval_case ].

Lemma dot_eval σ a b oa ob :
  heap σ !! a = Some oa → heap σ !! b = Some ob →
  eval (Vec.dot a b) σ =
    (ax ← JS.toString (_x oa);
     bx ← JS.toString (_x ob);
     p ← sys_multiply (operatorSystem oa) (VStr ax) (VStr bx);
     ay ← JS.toString (_y oa);
     by' ← JS.toString (_y ob);
     q ← sys_multiply (operatorSystem oa) (VStr ay) (VStr by');
     s ← sys_plus (operatorSystem oa) p q;
     JS.toString s).
Proof.
  intros Ha Hb. unfold Vec.dot, sys_multiply, sys_plus. eval_steps. done.
Qed.
Lemma isEqualTo_eval_gen σ a b oa ob :
  heap σ !! a = Some oa → heap σ !! b = Some ob →
  eval (Vec.isEqualTo a b) σ =
    (ax ← JS.toString (_x oa);
     bx ← JS.toString (_x ob);
     ex ← sys_equal (operatorSystem oa) (VStr ax) (VStr bx);
     if ex : bool then
       ay ← JS.toString (_y oa);
       by' ← JS.toString (_y ob);
       sys_equal (operatorSystem oa) (VStr ay) (VStr by')
     else Ok false).
Proof.
  intros Ha Hb. unfold Vec.isEqualTo, sys_equal. eval_steps.
  match goal with ex : bool |- _ => destruct ex end; eval_steps; done.
Qed.

Lemma isZero_eval σ a oa :
  heap σ !! a = Some oa →
  eval (Vec.isZero a) σ =
    (ax ← JS.toString (_x oa);
     ex ← sys_equal (operatorSystem oa) (VStr ax) (VNum 0);
     if ex : bool then
       ay ← JS.toString (_y oa);
       sys_equal (operatorSystem oa) (VStr ay) (VNum 0)
     else Ok false).
Proof.
  intros Ha. unfold Vec.isZero, sys_equal. eval_steps.
  match goal with ex : bool |- _ => destruct ex end; eval_steps; done.
Qed.

Lemma distanceX_eval σ a b oa ob :
  heap σ !! a = Some oa → heap σ !! b = Some ob →
  eval (Vec.distanceX a b) σ =
    (ax ← JS.toString (_x oa);
     bx ← JS.toString (_x ob);
     d ← sys_minus (operatorSystem oa) (VStr ax) (VStr bx);
     JS.toString d).
Proof.
  intros Ha Hb. unfold Vec.distanceX, sys_minus. eval_steps. done.
Qed.

Lemma distanceY_eval σ a b oa ob :
  heap σ !! a = Some oa → heap σ !! b = Some ob →
  eval (Vec.distanceY a b) σ =
    (ay ← JS.toString (_y oa);
     by' ← JS.toString (_y ob);
     d ← sys_minus (operatorSystem oa) (VStr ay) (VStr by');
     JS.toString d).
Proof.
  intros Ha Hb. unfold Vec.distanceY, sys_minus. eval_steps. done.
Qed.

Lemma absDistanceX_eval σ a b oa :
  heap σ !! a = Some oa →
  eval (Vec.absDistanceX a b) σ =
    (d ← eval (Vec.distanceX a b) σ;
     r ← sys_abs (operatorSystem oa) (VStr d);
     JS.toString r).
Proof.
  intros Ha. unfold Vec.absDistanceX, sys_abs.
  pose proof read_only_distanceX. eval_steps.
  destruct (eval (Vec.distanceX a b) σ); eval_steps; done.
Qed.

Lemma absDistanceY_eval σ a b oa :
  heap σ !! a = Some oa →
  eval (Vec.absDistanceY a b) σ =
    (d ← eval (Vec.distanceY a b) σ;
     r ← sys_abs (operatorSystem oa) (VStr d);
     JS.toString r).
Proof.
  intros Ha. unfold Vec.absDistanceY, sys_abs.
  pose proof read_only_distanceY. eval_steps.
  destruct (eval (Vec.distanceY a b) σ); eval_steps; done.
Qed.

Lemma distanceSq_eval σ a b oa :
  heap σ !! a = Some oa →
  eval (Vec.distanceSq a b) σ =
    (dx ← eval (Vec.distanceX a b) σ;
     dy ← eval (Vec.distanceY a b) σ;
     xx ← sys_multiply (operatorSystem oa) (VStr dx) (VStr dx);
     yy ← sys_multiply (operatorSystem oa) (VStr dy) (VStr dy);
     s ← sys_plus (operatorSystem oa) xx yy;
     JS.toString s).
Proof.
  intros Ha. unfold Vec.distanceSq, sys_multiply, sys_plus.
  pose proof read_only_distanceX. pose proof read_only_distanceY. eval_steps.
  destruct (eval (Vec.distanceX a b) σ); eval_steps; [|done].
  destruct (eval (Vec.distanceY a b) σ); eval_steps; done.
Qed.

Lemma distance_eval σ a b oa :
  heap σ !! a = Some oa →
  eval (Vec.distance a b) σ =
    (sq ← eval (Vec.distanceSq a b) σ;
     r ← sys_sqrt (operatorSystem oa) (VStr sq);
     JS.toString r).
Proof.
  intros Ha. unfold Vec.distance, sys_sqrt.
  pose proof read_only_distanceSq. eval_steps.
  destruct (eval (Vec.distanceSq a b) σ); eval_steps; done.
Qed.

(** A getter throws nothing but the error of reading a missing operand. *)
Lemma toString_Throw v e :
  JS.toString v = Throw e →
  e = TypeError "Cannot read properties of undefined".
Proof. destruct v; simpl; congruence. Qed.

(** Two getters may be read in either order. *)
Lemma toString_swap {A} (v w : value) (f : string → string → res A) :
  (a ← JS.toString v; b ← JS.toString w; f a b) =
  (b ← JS.toString w; a ← JS.toString v; f a b).
Proof.
  destruct (JS.toString v) as [a|e1] eqn:Hv, (JS.toString w) as [b|e2] eqn:Hw;
    try done.
  apply toString_Throw in Hv as ->. by apply toString_Throw in Hw as ->.
Qed.

(** ** Symmetry of the dot product and of the comparison *)

(** X6: For Vectors [a] and [b] of one common operator system of the package,
    [a.dot(b)] and [b.dot(a)] are the same: they return the same string,
    or throw the same error. *)
Theorem dot_symmetric
    (os : IOperatorSystem) (σ : state) (a b : loc) (oa ob : Vector) :
  builtin os →
  heap σ !! a = Some oa → heap σ !! b = Some ob →
  operatorSystem oa = OS os → operatorSystem ob = OS os →
  eval (Vec.dot a b) σ = eval (Vec.dot b a) σ.
Proof.
  intros Hos Ha Hb Hoa Hob.
  rewrite (dot_eval _ _ _ _ _ Ha Hb), (dot_eval _ _ _ _ _ Hb Ha), Hoa, Hob.
  rewrite toString_swap. unfold sys_multiply, sys_plus, sys_binary.
  destruct (JS.toString (_x ob)) as [bx|]; [|done].
  destruct (JS.toString (_x oa)) as [ax|]; [|done]. rewrite !res_bind_Ok.
  rewrite (proj1 (proj2 (builtin_commute os (VStr ax) (VStr bx) Hos))).
  destruct (multiply os (VStr bx) (VStr ax)) as [p|]; [|done].
  rewrite !res_bind_Ok, toString_swap.
  destruct (JS.toString (_y ob)) as [by'|]; [|done].
  destruct (JS.toString (_y oa)) as [ay|]; [|done]. rewrite !res_bind_Ok.
  by rewrite (proj1 (proj2 (builtin_commute os (VStr ay) (VStr by') Hos))).
Qed.

Lemma dot_symmetric_witness :
  eval (Vec.dot 0%nat 1%nat) native_vectors =
  eval (Vec.dot 1%nat 0%nat) native_vectors.
Proof.
  apply (dot_symmetric BaseOperatorSystem native_vectors 0%nat 1%nat
           {| _x := VNum 3; _y := VNum 4;
              operatorSystem := OS BaseOperatorSystem |}
           {| _x := VStr "1.5"; _y := VNum (-2);
              operatorSystem := OS BaseOperatorSystem |}).
  - left. reflexivity.
  - reflexivity.
  - reflexivity.
  - reflexivity.
  - reflexivity.
Defined.

(** X7: For Vectors [a] and [b] of one common operator system of the package,
    [a.isEqualTo(b)] and [b.isEqualTo(a)] are the same: they return the
    same boolean, or throw the same error. *)
Theorem isEqualTo_symmetric
    (os : IOperatorSystem) (σ : state) (a b : loc) (oa ob : Vector) :
  builtin os →
  heap σ !! a = Some oa → heap σ !! b = Some ob →
  operatorSystem oa = OS os → operatorSystem ob = OS os →
  eval (Vec.isEqualTo a b) σ = eval (Vec.isEqualTo b a) σ.
Proof.
  intros Hos Ha Hb Hoa Hob.
  rewrite (isEqualTo_eval_gen _ _ _ _ _ Ha Hb),
    (isEqualTo_eval_gen _ _ _ _ _ Hb Ha), Hoa, Hob.
  rewrite toString_swap. unfold sys_equal, sys_binary.
  destruct (JS.toString (_x ob)) as [bx|]; [|done].
  destruct (JS.toString (_x oa)) as [ax|]; [|done]. rewrite !res_bind_Ok.
  rewrite (proj2 (proj2 (builtin_commute os (VStr ax) (VStr bx) Hos))).
  destruct (equal os (VStr bx) (VStr ax)) as [[|]|]; [|done|done].
  rewrite !res_bind_Ok, toString_swap.
  destruct (JS.toString (_y ob)) as [by'|]; [|done].
  destruct (JS.toString (_y oa)) as [ay|]; [|done]. rewrite !res_bind_Ok.
  by rewrite (proj2 (proj2 (builtin_commute os (VStr ay) (VStr by') Hos))).
Qed.

Lemma isEqualTo_symmetric_witness :
  eval (Vec.isEqualTo 0%nat 1%nat) two_vectors =
  eval (Vec.isEqualTo 1%nat 0%nat) two_vectors.
Proof.
  apply (isEqualTo_symmetric BigOperatorSystem two_vectors 0%nat 1%nat
           {| _x := VNum 100; _y := VNum 50;
              operatorSystem := OS BigOperatorSystem |}
           {| _x := VNum 20; _y := VNum 30;
              operatorSystem := OS BigOperatorSystem |}).
  - right. reflexivity.
  - reflexivity.
  - reflexivity.
  - reflexivity.
  - reflexivity.
Defined.
(** ** The forms of a Big *)

Lemma zero_normal s : BigSpec.normal (BigJs.zero s).
Proof. by left. Qed.

Lemma make_normal s c e : BigSpec.normal (BigJs.make s c e).
Proof.
  destruct (Z.leb_spec c 0) as [H|H].
  - unfold BigJs.make. rewrite (proj2 (Z.leb_le c 0) H). apply zero_normal.
  - right. by apply make_spec.
Qed.

Lemma parse_normal s b : BigJs.parse s = Ok b → BigSpec.normal b.
Proof.
  unfold BigJs.parse.
  destruct (list_ascii_of_string s) as [|c l]; [|destruct (c =? "-")%char];
    destruct (Chars.parse_decimal _) as [[m e]|]; intros [= <-];
    apply make_normal.
Qed.

Lemma new_Big_normal v b :
  (∀ b', v = VBig b' → BigSpec.normal b') →
  JS.new_Big v = Ok b → BigSpec.normal b.
Proof.
  intros Hv. destruct v as [|n|s|b']; simpl.
  - apply parse_normal.
  - destruct (JS.is_minus_zero n); apply parse_normal.
  - apply parse_normal.
  - intros [= <-]. by apply Hv.
Qed.

Lemma negate_normal b : BigSpec.normal b → BigSpec.normal (BigJs.negate b).
Proof.
  intros [H|H]; [left|right; exact H]. rewrite H. reflexivity.
Qed.

Lemma plus_same_normal x y :
  BigSpec.normal x → BigSpec.normal y → BigSpec.normal (BigJs.plus_same x y).
Proof.
  intros Hx Hy. unfold BigJs.plus_same.
  destruct (BigJs.is_zero x || BigJs.is_zero y).
  - destruct (BigJs.is_zero y); simpl; [|done].
    destruct (BigJs.is_zero x); simpl; [apply zero_normal|done].
  - apply make_normal.
Qed.

Lemma minus_same_normal x y :
  BigSpec.normal x → BigSpec.normal y → BigSpec.normal (BigJs.minus_same x y).
Proof.
  intros Hx Hy. unfold BigJs.minus_same.
  destruct (BigJs.is_zero x || BigJs.is_zero y).
  - destruct (BigJs.is_zero y); simpl; [|by apply negate_normal].
    destruct (BigJs.is_zero x); simpl; [apply zero_normal|done].
  - apply make_normal.
Qed.

Lemma plus_normal x y :
  BigSpec.normal x → BigSpec.normal y → BigSpec.normal (BigJs.plus x y).
Proof.
  intros Hx Hy. unfold BigJs.plus. destruct (Bool.eqb _ _).
  - by apply plus_same_normal.
  - apply minus_same_normal; [done|by apply negate_normal].
Qed.

Lemma minus_normal x y :
  BigSpec.normal x → BigSpec.normal y → BigSpec.normal (BigJs.minus x y).
Proof.
  intros Hx Hy. unfold BigJs.minus. destruct (Bool.eqb _ _).
  - by apply minus_same_normal.
  - apply plus_same_normal; [done|by apply negate_normal].
Qed.

Lemma times_normal x y : BigSpec.normal (BigJs.times x y).
Proof.
  unfold BigJs.times. destruct (_ || _); [apply zero_normal|apply make_normal].
Qed.

Lemma div_normal x y q : BigJs.div x y = Ok q → BigSpec.normal q.
Proof.
  unfold BigJs.div. destruct (BigJs.is_zero y); [done|].
  destruct (BigJs.is_zero x); intros [= <-];
    [apply zero_normal|apply make_normal].
Qed.

Lemma sqrt_normal x r :
  BigSpec.normal x → BigJs.sqrt x = Ok r → BigSpec.normal r.
Proof.
  intros Hx. unfold BigJs.sqrt. destruct (BigJs.is_zero x); [by intros [= <-]|].
  destruct (BigJs.neg x); [done|]. intros [= <-]. apply make_normal.
Qed.

Lemma abs_normal x : BigSpec.normal x → BigSpec.normal (BigJs.abs x).
Proof. intros [H|H]; [left|right; exact H]. rewrite H. reflexivity. Qed.

Lemma normal_zero b :
  BigSpec.normal b → BigJs.is_zero b = true → b = BigJs.zero (BigJs.neg b).
Proof.
  intros [H|H] Hz; [done|]. by rewrite (canonical_nonzero _ H) in Hz.
Qed.

Lemma normal_canonical b :
  BigSpec.normal b → BigJs.is_zero b = false → BigSpec.canonical b.
Proof. intros [H|H] Hz; [|done]. by rewrite H in Hz. Qed.

(** Reading back the rendering of a Big gives that Big, or zero for a
    minus zero. *)
Lemma parse_toString_normal b :
  BigSpec.normal b → BigJs.parse (BigJs.toString b) = Ok (BigSpec.reread b).
Proof.
  intros Hb. unfold BigSpec.reread. destruct (BigJs.is_zero b) eqn:Hz.
  - rewrite (normal_zero _ Hb Hz). by destruct (BigJs.neg b).
  - apply parse_toString. by apply normal_canonical.
Qed.

Lemma reread_normal b : BigSpec.normal b → BigSpec.normal (BigSpec.reread b).
Proof.
  intros Hb. unfold BigSpec.reread.
  destruct (BigJs.is_zero b); [apply zero_normal|done].
Qed.

Lemma toString_reread b :
  BigSpec.normal b → BigJs.toString (BigSpec.reread b) = BigJs.toString b.
Proof.
  intros Hb. unfold BigSpec.reread. destruct (BigJs.is_zero b) eqn:Hz; [|done].
  rewrite (normal_zero _ Hb Hz). by destruct (BigJs.neg b).
Qed.

Lemma reread_negate b :
  BigSpec.reread (BigJs.negate b) =
  if BigJs.is_zero b then BigJs.zero false
  else BigJs.negate (BigSpec.reread b).
Proof.
  unfold BigSpec.reread.
  change (BigJs.is_zero (BigJs.negate b)) with (BigJs.is_zero b).
  by destruct (BigJs.is_zero b).
Qed.

Lemma times_negate_negate x :
  BigJs.times (BigJs.negate x) (BigJs.negate x) = BigJs.times x x.
Proof.
  unfold BigJs.times.
  change (BigJs.is_zero (BigJs.negate x)) with (BigJs.is_zero x).
  simpl. by rewrite !xorb_nilpotent.
Qed.
(** ** The sign of a number and its rendering *)

Lemma list_ascii_app (s t : string) :
  list_ascii_of_string (s ++ t) =
  (list_ascii_of_string s ++ list_ascii_of_string t)%list.
Proof. induction s as [|c s IH]; simpl; [done|by rewrite IH]. Qed.

Lemma Forall_substring (P : ascii → Prop) (s : string) n m :
  Forall P (list_ascii_of_string s) →
  Forall P (list_ascii_of_string (substring n m s)).
Proof.
  revert n m. induction s as [|c s IH]; intros n m H; simpl.
  - destruct n, m; constructor.
  - inversion_clear H as [|? ? Hc Hs].
    destruct n as [|n]; [destruct m as [|m]|]; simpl; auto.
Qed.

Lemma digit_numeral_char c :
  Chars.is_digit c = true → Literal.numeral_char c = true.
Proof. intros H. unfold Literal.numeral_char. by rewrite H. Qed.

Lemma digits_numeral_chars z :
  Forall (λ c, Literal.numeral_char c = true)
    (list_ascii_of_string (Chars.digits z)).
Proof.
  eapply Forall_impl; [apply (digit_chars_digits z)|]. apply digit_numeral_char.
Qed.

Lemma zeros_numeral_chars k :
  Forall (λ c, Literal.numeral_char c = true)
    (list_ascii_of_string (Chars.zeros k)).
Proof.
  unfold Chars.zeros. rewrite list_ascii_of_string_of_list_ascii.
  eapply Forall_impl; [apply zero_chars_digits|]. apply digit_numeral_char.
Qed.

Lemma format_digits_chars s k n :
  Forall (λ c, Literal.numeral_char c = true)
    (list_ascii_of_string (Num.format_digits s k n)).
Proof.
  pose proof (digits_numeral_chars s) as Hd.
  pose proof (λ a b, Forall_substring _ _ a b Hd) as Hsub.
  unfold Num.format_digits, Chars.take, Chars.drop.
  repeat case_match; rewrite ?list_ascii_app;
    repeat first
      [ apply Forall_app; split
      | apply Hd | apply Hsub | apply zeros_numeral_chars
      | apply digits_numeral_chars
      | (simpl; by repeat constructor) ].
Qed.

Lemma digits_head z :
  ∃ c l, list_ascii_of_string (Chars.digits z) = c :: l
         ∧ Chars.is_digit c = true.
Proof.
  pose proof (digit_chars_digits z) as H.
  pose proof (digit_chars_nonempty z) as Hne. unfold Chars.digit_chars in *.
  destruct (list_ascii_of_string (Chars.digits z)) as [|c l]; [done|].
  exists c, l. split; [done|]. by inversion H.
Qed.

Lemma take_head n s c l :
  (0 < n)%nat → list_ascii_of_string s = c :: l →
  ∃ l', list_ascii_of_string (substring 0 n s) = c :: l'.
Proof.
  intros Hn Hs. destruct s as [|c' s]; [done|]. simpl in Hs.
  injection Hs as -> <-. destruct n as [|n]; [lia|]. simpl. eauto.
Qed.

Lemma format_digits_head s k n :
  ∃ c l, list_ascii_of_string (Num.format_digits s k n) = c :: l
         ∧ Chars.is_digit c = true.
Proof.
  destruct (digits_head s) as (c & l & Hs & Hc).
  unfold Num.format_digits, Chars.take.
  destruct ((k <=? n) && (n <=? 21)) eqn:E1.
  { exists c. rewrite list_ascii_app, Hs. simpl. eauto. }
  destruct ((0 <? n) && (n <=? 21)) eqn:E2.
  { apply andb_true_iff in E2 as [E2 _]. apply Z.ltb_lt in E2.
    destruct (take_head (Z.to_nat n) _ c l ltac:(lia) Hs) as (l' & Hl').
    exists c. rewrite list_ascii_app, Hl'. simpl. eauto. }
  destruct ((-6 <? n) && (n <=? 0)) eqn:E3.
  { exists "0"%char. simpl. eauto. }
  destruct (k =? 1).
  { exists c. rewrite list_ascii_app, Hs. simpl. eauto. }
  destruct (take_head (Z.to_nat 1) _ c l ltac:(lia) Hs) as (l' & Hl').
  exists c. rewrite list_ascii_app, Hl'. simpl. eauto.
Qed.

Lemma format_digits_numeral s k n :
  Literal.numeral (list_ascii_of_string (Num.format_digits s k n)).
Proof.
  split; [apply format_digits_chars|].
  destruct (format_digits_head s k n) as (c & l & H1 & H2). eauto.
Qed.

Lemma numeral_char_not_space c :
  Literal.numeral_char c = true → Num.is_space c = false.
Proof.
  destruct c as [[] [] [] [] [] [] [] []]; vm_compute; congruence.
Qed.

Lemma numeral_char_not_radix c :
  Literal.numeral_char c = true →
  (c =? "x")%char || (c =? "X")%char = false
  ∧ (c =? "o")%char || (c =? "O")%char = false
  ∧ (c =? "b")%char || (c =? "B")%char = false.
Proof.
  destruct c as [[] [] [] [] [] [] [] []]; vm_compute; intuition congruence.
Qed.

Lemma digit_not_sign c :
  Chars.is_digit c = true → (c =? "-")%char = false ∧ (c =? "+")%char = false.
Proof.
  destruct c as [[] [] [] [] [] [] [] []]; vm_compute; intuition congruence.
Qed.

Lemma trim_left_numeral l :
  match l with [] => True | c :: _ => Literal.numeral_char c = true end →
  Num.trim_left l = l.
Proof.
  destruct l as [|c l]; [done|]. intros H. simpl.
  by rewrite (numeral_char_not_space _ H).
Qed.

Lemma trim_numeral l :
  Forall (λ c, Literal.numeral_char c = true) l → Num.trim l = l.
Proof.
  intros H. unfold Num.trim.
  rewrite (trim_left_numeral l) by (by destruct H).
  rewrite trim_left_numeral; [apply rev_involutive|].
  apply Forall_rev in H. by destruct H.
Qed.

Lemma non_decimal_numeral l :
  Forall (λ c, Literal.numeral_char c = true) l → Num.non_decimal l = None.
Proof.
  intros H. destruct l as [|z [|p [|d ds]]]; try done. simpl.
  destruct (z =? "0")%char; [|done].
  inversion_clear H as [|? ? _ H']. inversion_clear H' as [|? ? Hp _].
  destruct (numeral_char_not_radix _ Hp) as (-> & -> & ->). done.
Qed.

(** A literal read with a sign [-] is the opposite of the literal. *)
Lemma SF2Prim_unsigned_literal l :
  SF2Prim (Num.unsigned_literal true l) =
  (- SF2Prim (Num.unsigned_literal false l))%float.
Proof.
  unfold Num.unsigned_literal.
  destruct (String.eqb _ _); [done|].
  destruct (Chars.parse_decimal l) as [[m e]|]; [|done].
  unfold Num.of_magnitude. destruct (m =? 0); [done|].
  by destruct (Num.round_dec m e) as [s|s| |s m' e'].
Qed.

Lemma ofString_minus (F : string) :
  Literal.numeral (list_ascii_of_string F) →
  Num.ofString ("-" ++ F) = (- Num.ofString F)%float.
Proof.
  intros (Hall & c & l & Hl & Hc).
  unfold Num.ofString, Num.SF_ofString.
  change (list_ascii_of_string ("-" ++ F))
    with ("-"%char :: list_ascii_of_string F).
  rewrite (trim_numeral _ Hall).
  rewrite (trim_numeral ("-"%char :: list_ascii_of_string F))
    by (constructor; [done|exact Hall]).
  rewrite Hl in Hall |- *. cbv iota beta.
  rewrite (non_decimal_numeral _ Hall).
  replace (Num.non_decimal ("-"%char :: c :: l)) with (@None spec_float)
    by (by destruct l).
  destruct (digit_not_sign _ Hc) as [-> ->].
  change ("-" =? "-")%char with true. cbv iota.
  apply SF2Prim_unsigned_literal.
Qed.

Lemma float_opp_involutive (x : float) : (- - x)%float = x.
Proof.
  apply Prim2SF_inj. rewrite !opp_spec.
  destruct (Prim2SF x) as [s|s| |s m e]; simpl; by rewrite ?negb_involutive.
Qed.

(** The number read back from the rendering of [-r] is the number read
    back from the rendering of [r], or its opposite. *)
Lemma ofString_toString_opp (r : float) :
  Num.ofString (Num.toString (- r)) = (- Num.ofString (Num.toString r))%float
  ∨ Num.ofString (Num.toString (- r)) = Num.ofString (Num.toString r).
Proof.
  unfold Num.toString. rewrite opp_spec.
  destruct (Prim2SF r) as [s|s| |s m e]; simpl SFopp.
  - by right.
  - left. by destruct s.
  - by right.
  - left. simpl. destruct (Num.shortest m e) as [[s' k] n].
    pose proof (ofString_minus _ (format_digits_numeral s' k n)) as H.
    destruct s; simpl negb; cbv iota.
    + change ("" ++ ?x) with x. rewrite H. by rewrite float_opp_involutive.
    + change ("" ++ ?x) with x. exact H.
Qed.

Lemma float_mul_opp_opp (x : float) : (- x * - x)%float = (x * x)%float.
Proof.
  apply Prim2SF_inj. rewrite !mul_spec, !opp_spec.
  destruct (Prim2SF x) as [s|s| |s m e]; simpl; try done.
  all: by rewrite xorb_nilpotent, ?xorb_nilpotent.
Qed.

Lemma float_abs_opp (x : float) : PrimFloat.abs (- x)%float = PrimFloat.abs x.
Proof.
  apply Prim2SF_inj. rewrite !abs_spec, !opp_spec.
  by destruct (Prim2SF x).
Qed.
(** ** The distance methods *)

(** The renderings [d] of [u - v] and [d'] of [v - u] under an operator
    system of the package: both operations throw the same error, or both
    return, and then [d] and [d'] have the same square and the same
    absolute value. *)
Lemma difference_pair os u v :
  builtin os →
  match (d ← minus os (VStr u) (VStr v); JS.toString d),
        (d ← minus os (VStr v) (VStr u); JS.toString d) with
  | Ok d, Ok d' =>
      multiply os (VStr d) (VStr d) = multiply os (VStr d') (VStr d')
      ∧ (r ← abs os (VStr d); JS.toString r) =
        (r ← abs os (VStr d'); JS.toString r)
  | Throw e, Throw e' => e = e'
  | _, _ => False
  end.
Proof.
  intros [-> | ->]; simpl.
  - set (p := Num.ofString u). set (q := Num.ofString v).
    rewrite <- (Num_toString_sub_opp p q).
    destruct (ofString_toString_opp (q - p)) as [-> | ->]; [|done].
    by rewrite float_mul_opp_opp, float_abs_opp.
  - unfold mbind, res_bind.
    destruct (BigJs.parse u) as [U|e1] eqn:HU, (BigJs.parse v) as [V|e2] eqn:HV;
      cbv beta iota; try done.
    + cbn [JS.toString]. cbv beta iota.
      rewrite <- (Big_toString_minus_negate U V).
      assert (HW : BigSpec.normal (BigJs.minus V U))
        by (apply minus_normal; eapply parse_normal; eassumption).
      set (W := BigJs.minus V U) in *.
      rewrite (parse_toString_normal _ (negate_normal _ HW)),
        (parse_toString_normal _ HW), reread_negate.
      destruct (BigJs.is_zero W) eqn:HZ.
      * unfold BigSpec.reread. by rewrite HZ.
      * by rewrite times_negate_negate.
    + apply (new_Big_Throw (VStr u)) in HU as ->.
      by apply (new_Big_Throw (VStr v)) in HV as ->.
Qed.

Lemma distanceX_pair os σ a b oa ob :
  builtin os →
  heap σ !! a = Some oa → heap σ !! b = Some ob →
  operatorSystem oa = OS os → operatorSystem ob = OS os →
  match eval (Vec.distanceX a b) σ, eval (Vec.distanceX b a) σ with
  | Ok d, Ok d' =>
      multiply os (VStr d) (VStr d) = multiply os (VStr d') (VStr d')
      ∧ (r ← abs os (VStr d); JS.toString r) =
        (r ← abs os (VStr d'); JS.toString r)
  | Throw e, Throw e' => e = e'
  | _, _ => False
  end.
Proof.
  intros Hos Ha Hb Hoa Hob.
  rewrite (distanceX_eval _ _ _ _ _ Ha Hb), (distanceX_eval _ _ _ _ _ Hb Ha).
  rewrite Hoa, Hob, (toString_swap (_x ob)). unfold sys_minus, sys_binary.
  destruct (JS.toString (_x oa)) as [ax|]; [|done].
  destruct (JS.toString (_x ob)) as [bx|]; [|done].
  by apply difference_pair.
Qed.

Lemma distanceY_pair os σ a b oa ob :
  builtin os →
  heap σ !! a = Some oa → heap σ !! b = Some ob →
  operatorSystem oa = OS os → operatorSystem ob = OS os →
  match eval (Vec.distanceY a b) σ, eval (Vec.distanceY b a) σ with
  | Ok d, Ok d' =>
      multiply os (VStr d) (VStr d) = multiply os (VStr d') (VStr d')
      ∧ (r ← abs os (VStr d); JS.toString r) =
        (r ← abs os (VStr d'); JS.toString r)
  | Throw e, Throw e' => e = e'
  | _, _ => False
  end.
Proof.
  intros Hos Ha Hb Hoa Hob.
  rewrite (distanceY_eval _ _ _ _ _ Ha Hb), (distanceY_eval _ _ _ _ _ Hb Ha).
  rewrite Hoa, Hob, (toString_swap (_y ob)). unfold sys_minus, sys_binary.
  destruct (JS.toString (_y oa)) as [ay|]; [|done].
  destruct (JS.toString (_y ob)) as [by'|]; [|done].
  by apply difference_pair.
Qed.

Lemma difference_negation os u v s1 :
  builtin os →
  (d ← minus os (VStr u) (VStr v); JS.toString d) = Ok s1 →
  ∃ r r', (d ← minus os (VStr v) (VStr u); JS.toString d) = JS.toString r
          ∧ C7.negation r = Some r'
          ∧ JS.toString r' = Ok s1.
Proof.
  intros [-> | ->]; simpl.
  - intros [= <-]. eexists (VNum _), _.
    split; [reflexivity|]. split; [reflexivity|]. simpl. f_equal.
    apply Num_toString_sub_opp.
  - unfold mbind, res_bind.
    destruct (BigJs.parse u) as [U|]; [|done].
    destruct (BigJs.parse v) as [V|]; [|done]. intros [= <-].
    eexists (VBig _), _. split; [reflexivity|]. split; [reflexivity|].
    simpl. f_equal. apply Big_toString_minus_negate.
Qed.

(** X8: For Vectors [a] and [b] of one common operator system of the package,
    whenever [a.distanceX(b)] returns, [b.distanceX(a)] returns the
    rendering of a value [r] of that system, and [a.distanceX(b)] is the
    rendering of the negation of [r]; the same holds of [distanceY]. *)
Theorem distance_per_axis_antisymmetric
    (os : IOperatorSystem) (σ : state) (a b : loc) (oa ob : Vector) :
  builtin os →
  heap σ !! a = Some oa → heap σ !! b = Some ob →
  operatorSystem oa = OS os → operatorSystem ob = OS os →
  (∀ s1, eval (Vec.distanceX a b) σ = Ok s1 →
     ∃ r r', eval (Vec.distanceX b a) σ = JS.toString r
             ∧ C7.negation r = Some r' ∧ JS.toString r' = Ok s1)
  ∧ (∀ s1, eval (Vec.distanceY a b) σ = Ok s1 →
     ∃ r r', eval (Vec.distanceY b a) σ = JS.toString r
             ∧ C7.negation r = Some r' ∧ JS.toString r' = Ok s1).
Proof.
  intros Hos Ha Hb Hoa Hob. split; intros s1.
  - rewrite (distanceX_eval _ _ _ _ _ Ha Hb), (distanceX_eval _ _ _ _ _ Hb Ha).
    rewrite Hoa, Hob. unfold sys_minus, sys_binary.
    destruct (JS.toString (_x oa)) as [ax|]; [|done].
    destruct (JS.toString (_x ob)) as [bx|]; [|done].
    rewrite !res_bind_Ok. by apply difference_negation.
  - rewrite (distanceY_eval _ _ _ _ _ Ha Hb), (distanceY_eval _ _ _ _ _ Hb Ha).
    rewrite Hoa, Hob. unfold sys_minus, sys_binary.
    destruct (JS.toString (_y oa)) as [ay|]; [|done].
    destruct (JS.toString (_y ob)) as [by'|]; [|done].
    rewrite !res_bind_Ok. by apply difference_negation.
Qed.

Lemma distance_per_axis_antisymmetric_witness :
  ∃ r r', eval (Vec.distanceX 1%nat 0%nat) two_vectors = JS.toString r
          ∧ C7.negation r = Some r' ∧ JS.toString r' = Ok "80".
Proof.
  apply (distance_per_axis_antisymmetric BigOperatorSystem two_vectors
           0%nat 1%nat
           {| _x := VNum 100; _y := VNum 50;
              operatorSystem := OS BigOperatorSystem |}
           {| _x := VNum 20; _y := VNum 30;
              operatorSystem := OS BigOperatorSystem |}).
  - right. reflexivity.
  - reflexivity.
  - reflexivity.
  - reflexivity.
  - reflexivity.
  - vm_compute. reflexivity.
Defined.

(** X9: For Vectors [a] and [b] of one common operator system of the package,
    [a.absDistanceX(b)] and [b.absDistanceX(a)] are the same, and so are
    [a.absDistanceY(b)] and [b.absDistanceY(a)]: they return the same
    string, or throw the same error. *)
Theorem absolute_distance_symmetric
    (os : IOperatorSystem) (σ : state) (a b : loc) (oa ob : Vector) :
  builtin os →
  heap σ !! a = Some oa → heap σ !! b = Some ob →
  operatorSystem oa = OS os → operatorSystem ob = OS os →
  eval (Vec.absDistanceX a b) σ = eval (Vec.absDistanceX b a) σ
  ∧ eval (Vec.absDistanceY a b) σ = eval (Vec.absDistanceY b a) σ.
Proof.
  intros Hos Ha Hb Hoa Hob. split.
  - rewrite (absDistanceX_eval _ _ _ _ Ha), (absDistanceX_eval _ _ _ _ Hb).
    rewrite Hoa, Hob. unfold sys_abs, sys_unary.
    pose proof (distanceX_pair os σ a b oa ob Hos Ha Hb Hoa Hob) as H.
    destruct (eval (Vec.distanceX a b) σ) as [d|e],
      (eval (Vec.distanceX b a) σ) as [d'|e']; try done.
    + by destruct H.
    + by rewrite H.
  - rewrite (absDistanceY_eval _ _ _ _ Ha), (absDistanceY_eval _ _ _ _ Hb).
    rewrite Hoa, Hob. unfold sys_abs, sys_unary.
    pose proof (distanceY_pair os σ a b oa ob Hos Ha Hb Hoa Hob) as H.
    destruct (eval (Vec.distanceY a b) σ) as [d|e],
      (eval (Vec.distanceY b a) σ) as [d'|e']; try done.
    + by destruct H.
    + by rewrite H.
Qed.

Lemma absolute_distance_symmetric_witness :
  eval (Vec.absDistanceX 0%nat 1%nat) native_vectors =
    eval (Vec.absDistanceX 1%nat 0%nat) native_vectors
  ∧ eval (Vec.absDistanceY 0%nat 1%nat) native_vectors =
      eval (Vec.absDistanceY 1%nat 0%nat) native_vectors.
Proof.
  apply (absolute_distance_symmetric BaseOperatorSystem native_vectors
           0%nat 1%nat
           {| _x := VNum 3; _y := VNum 4;
              operatorSystem := OS BaseOperatorSystem |}
           {| _x := VStr "1.5"; _y := VNum (-2);
              operatorSystem := OS BaseOperatorSystem |}).
  - left. reflexivity.
  - reflexivity.
  - reflexivity.
  - reflexivity.
  - reflexivity.
Defined.

Lemma distanceSq_symmetric_eval os σ a b oa ob :
  builtin os →
  heap σ !! a = Some oa → heap σ !! b = Some ob →
  operatorSystem oa = OS os → operatorSystem ob = OS os →
  eval (Vec.distanceSq a b) σ = eval (Vec.distanceSq b a) σ.
Proof.
  intros Hos Ha Hb Hoa Hob.
  rewrite (distanceSq_eval _ _ _ _ Ha), (distanceSq_eval _ _ _ _ Hb).
  rewrite Hoa, Hob. unfold sys_multiply, sys_plus, sys_binary.
  pose proof (distanceX_pair os σ a b oa ob Hos Ha Hb Hoa Hob) as HX.
  pose proof (distanceY_pair os σ a b oa ob Hos Ha Hb Hoa Hob) as HY.
  destruct (eval (Vec.distanceX a b) σ) as [dx|e],
    (eval (Vec.distanceX b a) σ) as [dx'|e']; try done; [|by rewrite HX].
  destruct (eval (Vec.distanceY a b) σ) as [dy|e],
    (eval (Vec.distanceY b a) σ) as [dy'|e']; try done; [|by rewrite HY].
  rewrite !res_bind_Ok. destruct HX as [-> _]. by destruct HY as [-> _].
Qed.

(** X10: For Vectors [a] and [b] of one common operator system of the package,
    [a.distanceSq(b)] and [b.distanceSq(a)] are the same, and so are
    [a.distance(b)] and [b.distance(a)]: they return the same string, or
    throw the same error. *)
Theorem distance_symmetric
    (os : IOperatorSystem) (σ : state) (a b : loc) (oa ob : Vector) :
  builtin os →
  heap σ !! a = Some oa → heap σ !! b = Some ob →
  operatorSystem oa = OS os → operatorSystem ob = OS os →
  eval (Vec.distanceSq a b) σ = eval (Vec.distanceSq b a) σ
  ∧ eval (Vec.distance a b) σ = eval (Vec.distance b a) σ.
Proof.
  intros Hos Ha Hb Hoa Hob.
  pose proof (distanceSq_symmetric_eval os σ a b oa ob Hos Ha Hb Hoa Hob) as H.
  split; [exact H|].
  by rewrite (distance_eval _ _ _ _ Ha), (distance_eval _ _ _ _ Hb), H, Hoa, Hob.
Qed.

Lemma distance_symmetric_witness :
  eval (Vec.distanceSq 0%nat 1%nat) two_vectors =
    eval (Vec.distanceSq 1%nat 0%nat) two_vectors
  ∧ eval (Vec.distance 0%nat 1%nat) two_vectors =
      eval (Vec.distance 1%nat 0%nat) two_vectors.
Proof.
  apply (distance_symmetric BigOperatorSystem two_vectors 0%nat 1%nat
           {| _x := VNum 100; _y := VNum 50;
              operatorSystem := OS BigOperatorSystem |}
           {| _x := VNum 20; _y := VNum 30;
              operatorSystem := OS BigOperatorSystem |}).
  - right. reflexivity.
  - reflexivity.
  - reflexivity.
  - reflexivity.
  - reflexivity.
Defined.
(** ** Evaluation of the binary manipulation methods *)

Lemma read_only_run {A B} (m : M A) (k : A → M B) σ :
  read_only m →
  (m ≫= k) σ = match eval m σ with Ok a => k a σ | Throw e => Throw e end.
Proof.
  intros Hm. unfold eval, mbind, M_bind.
  destruct (m σ) as [[a σ1]|e] eqn:E; [|done]. by apply Hm in E as ->.
Qed.

Lemma eval_run {A} (m : M A) σ a σ' : m σ = Ok (a, σ') → eval m σ = Ok a.
Proof. intros H. unfold eval. by rewrite H. Qed.

(** The coordinates of a new Vector read as the renderings of the stored
    operands. *)
Lemma coordinates_at (m : M loc) σ r σ' o :
  m σ = Ok (r, σ') → heap σ' !! r = Some o →
  eval (coordinates m) σ =
    (sx ← JS.toString (_x o); sy ← JS.toString (_y o); Ok (sx, sy)).
Proof.
  intros Hm Hr. unfold coordinates, eval at 1.
  rewrite (bind_run _ _ _ _ _ Hm).
  change (eval (sx ← Vec.x r; sy ← Vec.y r; mret (sx, sy)) σ' =
          (sx ← JS.toString (_x o); sy ← JS.toString (_y o); Ok (sx, sy))).
  rewrite eval_bind, (eval_x _ _ _ Hr) by eauto with vec.
  destruct (JS.toString (_x o)); [|done]. rewrite !res_bind_Ok.
  rewrite eval_bind, (eval_y _ _ _ Hr) by eauto with vec.
  by destruct (JS.toString (_y o)).
Qed.

Lemma coordinates_Throw (m : M loc) σ e :
  m σ = Throw e → eval (coordinates m) σ = Throw e.
Proof. intros Hm. unfold coordinates, eval, mbind, M_bind. by rewrite Hm. Qed.

Lemma binary_shape :
  Vec.addX = methodX sys_plus ∧ Vec.addY = methodY sys_plus
  ∧ Vec.subtractX = methodX sys_minus ∧ Vec.subtractY = methodY sys_minus
  ∧ Vec.divideX = methodX sys_divide ∧ Vec.divideY = methodY sys_divide
  ∧ Vec.multiplyX = methodX sys_multiply ∧ Vec.multiplyY = methodY sys_multiply.
Proof. by repeat split. Qed.

Section Binary.
Variable f : sysref → value → value → res value.

Lemma methodX_run σ this vec o :
  heap σ !! this = Some o →
  methodX f this vec σ =
    match (sx ← JS.toString (_x o);
           a ← eval (Vec.x_or_scalar vec) σ;
           t ← f (operatorSystem o) (VStr sx) a;
           sy ← JS.toString (_y o);
           Ok (t, sy)) with
    | Ok (t, sy) => Vec.new t (VStr sy) σ
    | Throw e => Throw e
    end.
Proof.
  intros Ho. unfold methodX.
  rewrite read_only_run, (eval_system_of _ _ _ Ho) by eauto with vec.
  rewrite read_only_run, (eval_x _ _ _ Ho) by eauto with vec.
  destruct (JS.toString (_x o)) as [sx|]; [|done]. rewrite res_bind_Ok.
  rewrite read_only_run by eauto with vec.
  destruct (eval (Vec.x_or_scalar vec) σ) as [a|]; [|done]. rewrite res_bind_Ok.
  rewrite lift_bind.
  destruct (f (operatorSystem o) (VStr sx) a) as [t|]; [|done].
  rewrite res_bind_Ok.
  rewrite read_only_run, (eval_y _ _ _ Ho) by eauto with vec.
  by destruct (JS.toString (_y o)) as [sy|].
Qed.

Lemma methodY_run σ this vec o :
  heap σ !! this = Some o →
  methodY f this vec σ =
    match (sy ← JS.toString (_y o);
           a ← eval (Vec.y_or_scalar vec) σ;
           t ← f (operatorSystem o) (VStr sy) a;
           sx ← JS.toString (_x o);
           Ok (sx, t)) with
    | Ok (sx, t) => Vec.new (VStr sx) t σ
    | Throw e => Throw e
    end.
Proof.
  intros Ho. unfold methodY.
  rewrite read_only_run, (eval_system_of _ _ _ Ho) by eauto with vec.
  rewrite read_only_run, (eval_y _ _ _ Ho) by eauto with vec.
  destruct (JS.toString (_y o)) as [sy|]; [|done]. rewrite res_bind_Ok.
  rewrite read_only_run by eauto with vec.
  destruct (eval (Vec.y_or_scalar vec) σ) as [a|]; [|done]. rewrite res_bind_Ok.
  rewrite lift_bind.
  destruct (f (operatorSystem o) (VStr sy) a) as [t|]; [|done].
  rewrite res_bind_Ok.
  rewrite read_only_run, (eval_x _ _ _ Ho) by eauto with vec.
  by destruct (JS.toString (_x o)) as [sx|].
Qed.

(** The coordinates of the result of an X-only method. *)
Lemma methodX_coordinates σ this vec o :
  heap σ !! this = Some o →
  eval (coordinates (methodX f this vec)) σ =
    (sx ← JS.toString (_x o);
     a ← eval (Vec.x_or_scalar vec) σ;
     t ← f (operatorSystem o) (VStr sx) a;
     sy ← JS.toString (_y o);
     rx ← JS.toString (JS.or_else t (VNum 0));
     ry ← JS.toString (JS.or_else (VStr sy) (VNum 0));
     Ok (rx, ry)).
Proof.
  intros Ho. pose proof (methodX_run σ this vec o Ho) as Hrun.
  destruct (JS.toString (_x o)) as [sx|]; [|apply coordinates_Throw; exact Hrun].
  rewrite res_bind_Ok in Hrun. rewrite res_bind_Ok.
  destruct (eval (Vec.x_or_scalar vec) σ) as [a|];
    [|apply coordinates_Throw; exact Hrun].
  rewrite res_bind_Ok in Hrun. rewrite res_bind_Ok.
  destruct (f (operatorSystem o) (VStr sx) a) as [t|];
    [|apply coordinates_Throw; exact Hrun].
  rewrite res_bind_Ok in Hrun. rewrite res_bind_Ok.
  destruct (JS.toString (_y o)) as [sy|]; [|apply coordinates_Throw; exact Hrun].
  rewrite res_bind_Ok in Hrun. rewrite res_bind_Ok.
  destruct (new_lookup t (VStr sy) σ) as (σ' & Hn & _ & Hl).
  rewrite Hn in Hrun. by rewrite (coordinates_at _ _ _ _ _ Hrun Hl).
Qed.

Lemma methodY_coordinates σ this vec o :
  heap σ !! this = Some o →
  eval (coordinates (methodY f this vec)) σ =
    (sy ← JS.toString (_y o);
     a ← eval (Vec.y_or_scalar vec) σ;
     t ← f (operatorSystem o) (VStr sy) a;
     sx ← JS.toString (_x o);
     rx ← JS.toString (JS.or_else (VStr sx) (VNum 0));
     ry ← JS.toString (JS.or_else t (VNum 0));
     Ok (rx, ry)).
Proof.
  intros Ho. pose proof (methodY_run σ this vec o Ho) as Hrun.
  destruct (JS.toString (_y o)) as [sy|]; [|apply coordinates_Throw; exact Hrun].
  rewrite res_bind_Ok in Hrun. rewrite res_bind_Ok.
  destruct (eval (Vec.y_or_scalar vec) σ) as [a|];
    [|apply coordinates_Throw; exact Hrun].
  rewrite res_bind_Ok in Hrun. rewrite res_bind_Ok.
  destruct (f (operatorSystem o) (VStr sy) a) as [t|];
    [|apply coordinates_Throw; exact Hrun].
  rewrite res_bind_Ok in Hrun. rewrite res_bind_Ok.
  destruct (JS.toString (_x o)) as [sx|]; [|apply coordinates_Throw; exact Hrun].
  rewrite res_bind_Ok in Hrun. rewrite res_bind_Ok.
  destruct (new_lookup (VStr sx) t σ) as (σ' & Hn & _ & Hl).
  rewrite Hn in Hrun. by rewrite (coordinates_at _ _ _ _ _ Hrun Hl).
Qed.
End Binary.
Lemma coordinates_bind (m : M loc) (k : loc → M loc) σ w σ1 :
  m σ = Ok (w, σ1) →
  eval (coordinates (m ≫= k)) σ = eval (coordinates (k w)) σ1.
Proof.
  intros Hm. unfold coordinates, eval, mbind, M_bind. by rewrite Hm.
Qed.

Lemma coordinates_bind_Throw (m : M loc) (k : loc → M loc) σ e :
  m σ = Throw e → eval (coordinates (m ≫= k)) σ = Throw e.
Proof.
  intros Hm. unfold coordinates, eval, mbind, M_bind. by rewrite Hm.
Qed.

(** An operand that is a Vector of the heap reads the same after Vectors
    have been created. *)
Lemma operand_stable vec σ σ1 :
  (∀ l, vec = Vec l → is_Some (heap σ !! l)) →
  (∀ l o, heap σ !! l = Some o → heap σ1 !! l = Some o) →
  eval (Vec.x_or_scalar vec) σ1 = eval (Vec.x_or_scalar vec) σ
  ∧ eval (Vec.y_or_scalar vec) σ1 = eval (Vec.y_or_scalar vec) σ.
Proof.
  intros Hv Hext. destruct vec as [l|v]; [|done].
  destruct (Hv l eq_refl) as [o Ho]. pose proof (Hext _ _ Ho) as Ho1. simpl.
  by rewrite !eval_bind, (eval_x _ _ _ Ho), (eval_x _ _ _ Ho1),
    (eval_y _ _ _ Ho), (eval_y _ _ _ Ho1) by eauto with vec.
Qed.

(** The coordinates of the result of a combined method: the X-only method,
    under the receiver's operator system, then the Y-only method on the
    intermediate Vector, under [Vector.SYSTEM]. *)
Lemma combined_coordinates f σ this vec o :
  heap σ !! this = Some o →
  (∀ l, vec = Vec l → is_Some (heap σ !! l)) →
  eval (coordinates (v ← methodX f this vec; methodY f v vec)) σ =
    (sx ← JS.toString (_x o);
     ax ← eval (Vec.x_or_scalar vec) σ;
     tX ← f (operatorSystem o) (VStr sx) ax;
     sy ← JS.toString (_y o);
     sy1 ← JS.toString (JS.or_else (VStr sy) (VNum 0));
     ay ← eval (Vec.y_or_scalar vec) σ;
     tY ← f (OS (SYSTEM σ)) (VStr sy1) ay;
     sx1 ← JS.toString (JS.or_else tX (VNum 0));
     rx ← JS.toString (JS.or_else (VStr sx1) (VNum 0));
     ry ← JS.toString (JS.or_else tY (VNum 0));
     Ok (rx, ry)).
Proof.
  intros Ho Hv. pose proof (methodX_run f σ this vec o Ho) as Hrun.
  destruct (JS.toString (_x o)) as [sx|];
    [|apply coordinates_bind_Throw; exact Hrun].
  rewrite res_bind_Ok in Hrun. rewrite res_bind_Ok.
  destruct (eval (Vec.x_or_scalar vec) σ) as [ax|];
    [|apply coordinates_bind_Throw; exact Hrun].
  rewrite res_bind_Ok in Hrun. rewrite res_bind_Ok.
  destruct (f (operatorSystem o) (VStr sx) ax) as [tX|];
    [|apply coordinates_bind_Throw; exact Hrun].
  rewrite res_bind_Ok in Hrun. rewrite res_bind_Ok.
  destruct (JS.toString (_y o)) as [sy|];
    [|apply coordinates_bind_Throw; exact Hrun].
  rewrite res_bind_Ok in Hrun. rewrite res_bind_Ok.
  destruct (new_lookup tX (VStr sy) σ) as (σ1 & Hn & HS & Hl).
  rewrite Hn in Hrun. rewrite (coordinates_bind _ _ _ _ _ Hrun).
  rewrite (methodY_coordinates f σ1 _ vec _ Hl). simpl _x. simpl _y.
  assert (Hext : ∀ l o', heap σ !! l = Some o' → heap σ1 !! l = Some o').
  { intros l o' Hl'. apply new_Ok in Hn as [_ ->]. simpl.
    by apply lookup_app_l_Some. }
  by destruct (operand_stable vec σ σ1 Hv Hext) as [_ ->].
Qed.
Lemma toString_or_else_nonempty s :
  s ≠ "" → JS.toString (JS.or_else (VStr s) (VNum 0)) = Ok s.
Proof. intros H. by rewrite (or_else_nonempty _ H). Qed.

Lemma eval_operand_Vec σ l o sx sy :
  heap σ !! l = Some o →
  JS.toString (_x o) = Ok sx → JS.toString (_y o) = Ok sy →
  eval (Vec.x_or_scalar (Vec l)) σ = Ok (VStr sx)
  ∧ eval (Vec.y_or_scalar (Vec l)) σ = Ok (VStr sy).
Proof.
  intros Ho Hx Hy. simpl.
  by rewrite !eval_bind, (eval_x _ _ _ Ho), (eval_y _ _ _ Ho), Hx, Hy
    by eauto with vec.
Qed.

(** The values an operator system of the package returns are rendered by
    a non-empty string. *)
Lemma builtin_result_rendering os
    (f : IOperatorSystem → value → value → res value) v w t :
  builtin os →
  f = plus ∨ f = minus ∨ f = divide ∨ f = multiply →
  f os v w = Ok t →
  ∃ s, JS.toString (JS.or_else t (VNum 0)) = Ok s ∧ s ≠ "".
Proof.
  intros Hos Hf Ht.
  assert (Hk : (∃ n, t = VNum n) ∨ (∃ b, t = VBig b)).
  { destruct Hos as [-> | ->];
      destruct Hf as [-> | [-> | [-> | ->]]]; simpl in Ht;
      try (injection Ht as <-; left; eauto; fail).
    all: unfold mbind, res_bind in Ht.
    all: destruct (JS.new_Big v); [|done]; destruct (JS.new_Big w); [|done].
    all: try (injection Ht as <-; right; eauto; fail).
    destruct (BigJs.div _ _); [|done]. injection Ht as <-. right. eauto. }
  destruct Hk as [[n ->] | [b ->]].
  - unfold JS.or_else. destruct (JS.truthy (VNum n)); simpl;
      eexists; (split; [reflexivity|]); apply Num_toString_nonempty.
  - simpl. eexists. split; [reflexivity|]. apply Big_toString_nonempty.
Qed.

(** The coordinates of [a.add(b)], [a.subtract(b)], [a.divide(b)] and
    [a.multiply(b)] for Vectors of storable coordinates, all under one
    operator system of the package. *)
Lemma combined_coordinates_storable os f σ a b oa ob ax ay bx by' :
  builtin os →
  f = plus ∨ f = minus ∨ f = divide ∨ f = multiply →
  SYSTEM σ = os →
  heap σ !! a = Some oa → heap σ !! b = Some ob →
  operatorSystem oa = OS os →
  JS.toString (_x oa) = Ok ax → JS.toString (_y oa) = Ok ay → ay ≠ "" →
  JS.toString (_x ob) = Ok bx → JS.toString (_y ob) = Ok by' →
  ∀ name,
  eval (coordinates (v ← methodX (sys_binary f name) a (Vec b);
                     methodY (sys_binary f name) v (Vec b))) σ =
    (tX ← f os (VStr ax) (VStr bx);
     tY ← f os (VStr ay) (VStr by');
     rx ← JS.toString (JS.or_else tX (VNum 0));
     ry ← JS.toString (JS.or_else tY (VNum 0));
     Ok (rx, ry)).
Proof.
  intros Hos Hf HS Ha Hb Hoa Hax Hay Hne Hbx Hby name.
  rewrite (combined_coordinates _ σ a (Vec b) oa Ha)
    by (intros l [= <-]; eauto).
  destruct (eval_operand_Vec σ b ob bx by' Hb Hbx Hby) as [-> ->].
  rewrite Hax, Hay, Hoa, HS, !res_bind_Ok. unfold sys_binary.
  destruct (f os (VStr ax) (VStr bx)) as [tX|] eqn:HX; [|done].
  rewrite !res_bind_Ok, (toString_or_else_nonempty _ Hne), !res_bind_Ok.
  destruct (f os (VStr ay) (VStr by')) as [tY|] eqn:HY; [|done].
  rewrite !res_bind_Ok.
  destruct (builtin_result_rendering os f _ _ _ Hos Hf HX) as (sx1 & -> & Hsx1).
  by rewrite !res_bind_Ok, (toString_or_else_nonempty _ Hsx1).
Qed.

(** ** Commutativity of [add] and [multiply] *)

(** X11: For Vectors [a] and [b] of storable coordinates, under one operator
    system of the package that is also [Vector.SYSTEM], [a.add(b)] and
    [b.add(a)] have the same coordinates, and so have [a.multiply(b)] and
    [b.multiply(a)]; where one throws, the other throws the same error. *)
Theorem add_and_multiply_commute
    (os : IOperatorSystem) (σ : state) (a b : loc) (oa ob : Vector) :
  builtin os → SYSTEM σ = os →
  heap σ !! a = Some oa → heap σ !! b = Some ob →
  operatorSystem oa = OS os → operatorSystem ob = OS os →
  C8.storable (_x oa) → C8.storable (_y oa) →
  C8.storable (_x ob) → C8.storable (_y ob) →
  eval (coordinates (Vec.add a (Vec b))) σ =
    eval (coordinates (Vec.add b (Vec a))) σ
  ∧ eval (coordinates (Vec.multiply a (Vec b))) σ =
      eval (coordinates (Vec.multiply b (Vec a))) σ.
Proof.
  intros Hos HS Ha Hb Hoa Hob Sax Say Sbx Sby.
  apply toString_storable in Sax as (ax & Hax & _).
  apply toString_storable in Say as (ay & Hay & Hay').
  apply toString_storable in Sbx as (bx & Hbx & _).
  apply toString_storable in Sby as (by' & Hby & Hby').
  split.
  - change (Vec.add a (Vec b)) with
      (v ← methodX (sys_binary plus "plus") a (Vec b);
       methodY (sys_binary plus "plus") v (Vec b)).
    change (Vec.add b (Vec a)) with
      (v ← methodX (sys_binary plus "plus") b (Vec a);
       methodY (sys_binary plus "plus") v (Vec a)).
    rewrite (combined_coordinates_storable os plus σ a b oa ob ax ay bx by')
      by auto.
    rewrite (combined_coordinates_storable os plus σ b a ob oa bx by' ax ay)
      by auto.
    by rewrite (proj1 (builtin_commute os (VStr ax) (VStr bx) Hos)),
      (proj1 (builtin_commute os (VStr ay) (VStr by') Hos)).
  - change (Vec.multiply a (Vec b)) with
      (v ← methodX (sys_binary multiply "multiply") a (Vec b);
       methodY (sys_binary multiply "multiply") v (Vec b)).
    change (Vec.multiply b (Vec a)) with
      (v ← methodX (sys_binary multiply "multiply") b (Vec a);
       methodY (sys_binary multiply "multiply") v (Vec a)).
    rewrite (combined_coordinates_storable os multiply σ a b oa ob ax ay bx by')
      by auto.
    rewrite (combined_coordinates_storable os multiply σ b a ob oa bx by' ax ay)
      by auto.
    by rewrite (proj1 (proj2 (builtin_commute os (VStr ax) (VStr bx) Hos))),
      (proj1 (proj2 (builtin_commute os (VStr ay) (VStr by') Hos))).
Qed.

Lemma add_and_multiply_commute_witness :
  eval (coordinates (Vec.add 0%nat (Vec 1%nat))) two_vectors =
    eval (coordinates (Vec.add 1%nat (Vec 0%nat))) two_vectors
  ∧ eval (coordinates (Vec.multiply 0%nat (Vec 1%nat))) two_vectors =
      eval (coordinates (Vec.multiply 1%nat (Vec 0%nat))) two_vectors.
Proof.
  apply (add_and_multiply_commute BigOperatorSystem two_vectors 0%nat 1%nat
           {| _x := VNum 100; _y := VNum 50;
              operatorSystem := OS BigOperatorSystem |}
           {| _x := VNum 20; _y := VNum 30;
              operatorSystem := OS BigOperatorSystem |}).
  - right. reflexivity.
  - reflexivity.
  - reflexivity.
  - reflexivity.
  - reflexivity.
  - reflexivity.
  - exact I.
  - exact I.
  - exact I.
  - exact I.
Defined.
(** ** Results that are not a number *)

Lemma Prim2SF_zero (n : float) : Prim2SF n = S754_zero false → n = 0%float.
Proof. intros H. by apply Prim2SF_inj. Qed.

Lemma Prim2SF_nan (n : float) : Prim2SF n = S754_nan → n = nan.
Proof. intros H. by apply Prim2SF_inj. Qed.

Lemma SFsub_self prec emax x :
  SFsub prec emax x x = S754_zero false ∨ SFsub prec emax x x = S754_nan.
Proof.
  destruct x as [s|s| |s m e]; simpl.
  - left. by destruct s.
  - right. by destruct s.
  - by right.
  - left. by rewrite Z.sub_diag.
Qed.

(** [p - p] is zero or not a number: a falsy value. *)
Lemma float_sub_self_falsy (p : float) : JS.truthy (VNum (p - p)) = false.
Proof.
  destruct (SFsub_self prec emax (Prim2SF p)) as [H|H];
    rewrite <- sub_spec in H.
  - by rewrite (Prim2SF_zero _ H).
  - by rewrite (Prim2SF_nan _ H).
Qed.

Lemma toString_NaN (n : float) : Num.toString n = "NaN" → JS.is_nan n = true.
Proof.
  unfold Num.toString, JS.is_nan. rewrite FloatAxioms.eqb_spec.
  destruct (Prim2SF n) as [s|s| |s m e]; simpl; try done.
  - by destruct s.
  - destruct (Num.shortest m e) as [[s' k] n'].
    destruct s; [done|]. change ("" ++ ?x) with x.
    destruct (format_digits_head s' k n') as (c & l & Hl & Hc). intros HF.
    rewrite HF in Hl. injection Hl as <- _. done.
Qed.

(** A number given to the constructor never reads ["NaN"]. *)
Lemma stored_number_not_NaN (n : float) s :
  JS.toString (JS.or_else (VNum n) (VNum 0)) = Ok s → s ≠ "NaN".
Proof.
  unfold JS.or_else. destruct (JS.truthy (VNum n)) eqn:Ht; simpl.
  - intros [= <-] HN. apply toString_NaN in HN. simpl in Ht.
    rewrite HN, orb_true_r in Ht. done.
  - by intros [= <-].
Qed.

Lemma native_result f v w t :
  f = plus ∨ f = minus ∨ f = divide ∨ f = multiply →
  f BaseOperatorSystem v w = Ok t → ∃ n, t = VNum n.
Proof. intros [-> | [-> | [-> | ->]]] [= <-]; eauto. Qed.

Lemma native_methodX f name σ this vec o rx ry :
  f = plus ∨ f = minus ∨ f = divide ∨ f = multiply →
  heap σ !! this = Some o → operatorSystem o = OS BaseOperatorSystem →
  eval (coordinates (methodX (sys_binary f name) this vec)) σ = Ok (rx, ry) →
  rx ≠ "NaN".
Proof.
  intros Hf Ho Hos. rewrite (methodX_coordinates _ _ _ _ _ Ho), Hos.
  destruct (JS.toString (_x o)) as [sx|]; [|done]. rewrite res_bind_Ok.
  destruct (eval (Vec.x_or_scalar vec) σ) as [a|]; [|done]. rewrite res_bind_Ok.
  unfold sys_binary.
  destruct (f BaseOperatorSystem (VStr sx) a) as [t|] eqn:Ht; [|done].
  destruct (native_result f _ _ _ Hf Ht) as [n ->]. rewrite res_bind_Ok.
  destruct (JS.toString (_y o)) as [sy|]; [|done]. rewrite res_bind_Ok.
  destruct (JS.toString (JS.or_else (VNum n) (VNum 0))) as [s|] eqn:Hs; [|done].
  rewrite res_bind_Ok.
  destruct (JS.toString (JS.or_else (VStr sy) (VNum 0))); [|done].
  intros [= <- _]. by eapply stored_number_not_NaN.
Qed.

Lemma native_methodY f name σ this vec o rx ry :
  f = plus ∨ f = minus ∨ f = divide ∨ f = multiply →
  heap σ !! this = Some o → operatorSystem o = OS BaseOperatorSystem →
  eval (coordinates (methodY (sys_binary f name) this vec)) σ = Ok (rx, ry) →
  ry ≠ "NaN".
Proof.
  intros Hf Ho Hos. rewrite (methodY_coordinates _ _ _ _ _ Ho), Hos.
  destruct (JS.toString (_y o)) as [sy|]; [|done]. rewrite res_bind_Ok.
  destruct (eval (Vec.y_or_scalar vec) σ) as [a|]; [|done]. rewrite res_bind_Ok.
  unfold sys_binary.
  destruct (f BaseOperatorSystem (VStr sy) a) as [t|] eqn:Ht; [|done].
  destruct (native_result f _ _ _ Hf Ht) as [n ->]. rewrite res_bind_Ok.
  destruct (JS.toString (_x o)) as [sx|]; [|done]. rewrite res_bind_Ok.
  destruct (JS.toString (JS.or_else (VStr sx) (VNum 0))); [|done].
  rewrite res_bind_Ok.
  destruct (JS.toString (JS.or_else (VNum n) (VNum 0))) as [s|] eqn:Hs; [|done].
  intros [= _ <-]. by eapply stored_number_not_NaN.
Qed.

Lemma native_combined f name σ this vec o rx ry :
  f = plus ∨ f = minus ∨ f = divide ∨ f = multiply →
  SYSTEM σ = BaseOperatorSystem →
  heap σ !! this = Some o → operatorSystem o = OS BaseOperatorSystem →
  (∀ l, vec = Vec l → is_Some (heap σ !! l)) →
  eval (coordinates (v ← methodX (sys_binary f name) this vec;
                     methodY (sys_binary f name) v vec)) σ = Ok (rx, ry) →
  rx ≠ "NaN" ∧ ry ≠ "NaN".
Proof.
  intros Hf HS Ho Hos Hv. rewrite (combined_coordinates _ _ _ _ _ Ho Hv), Hos, HS.
  destruct (JS.toString (_x o)) as [sx|]; [|done]. rewrite res_bind_Ok.
  destruct (eval (Vec.x_or_scalar vec) σ) as [ax|]; [|done]. rewrite res_bind_Ok.
  unfold sys_binary.
  destruct (f BaseOperatorSystem (VStr sx) ax) as [tX|] eqn:HX; [|done].
  destruct (native_result f _ _ _ Hf HX) as [nx ->]. rewrite res_bind_Ok.
  destruct (JS.toString (_y o)) as [sy|]; [|done]. rewrite res_bind_Ok.
  destruct (JS.toString (JS.or_else (VStr sy) (VNum 0))) as [sy1|]; [|done].
  rewrite res_bind_Ok.
  destruct (eval (Vec.y_or_scalar vec) σ) as [ay|]; [|done]. rewrite res_bind_Ok.
  destruct (f BaseOperatorSystem (VStr sy1) ay) as [tY|] eqn:HY; [|done].
  destruct (native_result f _ _ _ Hf HY) as [ny ->]. rewrite res_bind_Ok.
  destruct (JS.toString (JS.or_else (VNum nx) (VNum 0))) as [sx1|] eqn:Hsx1;
    [|done].
  rewrite res_bind_Ok.
  assert (Hne : sx1 ≠ "").
  { unfold JS.or_else in Hsx1. destruct (JS.truthy (VNum nx));
      injection Hsx1 as <-; [apply Num_toString_nonempty|done]. }
  rewrite (toString_or_else_nonempty _ Hne), res_bind_Ok.
  destruct (JS.toString (JS.or_else (VNum ny) (VNum 0))) as [sy2|] eqn:Hsy2;
    [|done].
  intros [= <- <-].
  split; by eapply stored_number_not_NaN.
Qed.

(** X12: Under the native operator system, a coordinate computed by a binary
    manipulation method never reads ["NaN"]: the constructor stores the
    number [0] for a result that is not a number, so that, for instance,
    [new Vector(0, 0).divide(0)] is the zero Vector. *)
Theorem native_results_never_read_NaN
    (m : Vec.binary_method) (σ : state) (this : loc) (vec : VectorOperand)
    (o : Vector) (rx ry : string) :
  SYSTEM σ = BaseOperatorSystem →
  heap σ !! this = Some o → operatorSystem o = OS BaseOperatorSystem →
  (∀ l, vec = Vec l → is_Some (heap σ !! l)) →
  eval (coordinates (Vec.binary m this vec)) σ = Ok (rx, ry) →
  (computes_x m = true → rx ≠ "NaN") ∧ (computes_y m = true → ry ≠ "NaN").
Proof.
  intros HS Ho Hos Hv H.
  destruct m; simpl in H; simpl computes_x; simpl computes_y.
  - split; [intros _|done].
    apply (native_methodX plus "plus" σ this vec o rx ry); auto.
  - split; [done|intros _].
    apply (native_methodY plus "plus" σ this vec o rx ry); auto.
  - destruct (native_combined plus "plus" σ this vec o rx ry); auto.
  - split; [intros _|done].
    apply (native_methodX minus "minus" σ this vec o rx ry); auto.
  - split; [done|intros _].
    apply (native_methodY minus "minus" σ this vec o rx ry); auto.
  - destruct (native_combined minus "minus" σ this vec o rx ry); auto.
  - split; [intros _|done].
    apply (native_methodX divide "divide" σ this vec o rx ry); auto.
  - split; [done|intros _].
    apply (native_methodY divide "divide" σ this vec o rx ry); auto.
  - destruct (native_combined divide "divide" σ this vec o rx ry); auto.
  - split; [intros _|done].
    apply (native_methodX multiply "multiply" σ this vec o rx ry); auto 6.
  - split; [done|intros _].
    apply (native_methodY multiply "multiply" σ this vec o rx ry); auto 6.
  - destruct (native_combined multiply "multiply" σ this vec o rx ry); auto 6.
Qed.
Lemma native_results_never_read_NaN_witness :
  eval (coordinates (Vec.multiply 0%nat (Scalar (VNum nan)))) native_vectors
    = Ok ("0", "0")
  ∧ "0" ≠ "NaN".
Proof.
  assert (H : eval (coordinates (Vec.multiply 0%nat (Scalar (VNum nan))))
                native_vectors = Ok ("0", "0")) by (vm_compute; reflexivity).
  split; [exact H|].
  apply (native_results_never_read_NaN Vec.Multiply native_vectors 0%nat
           (Scalar (VNum nan))
           {| _x := VNum 3; _y := VNum 4;
              operatorSystem := OS BaseOperatorSystem |} "0" "0").
  - reflexivity.
  - reflexivity.
  - reflexivity.
  - discriminate.
  - exact H.
  - reflexivity.
Defined.

(** ** A Vector minus itself *)

Lemma Big_minus_self X : BigJs.minus X X = BigJs.zero false.
Proof.
  unfold BigJs.minus, BigJs.minus_same. rewrite eqb_reflx, orb_diag.
  destruct (BigJs.is_zero X) eqn:HZ; simpl; [done|].
  by rewrite Z.min_id, Z.sub_diag.
Qed.

(** Under an operator system of the package, the difference of a valid
    operand and itself is stored as a zero. *)
Lemma difference_self os s c :
  builtin os → create os (VStr s) = Ok c →
  ∃ t, minus os (VStr s) (VStr s) = Ok t
       ∧ JS.toString (JS.or_else t (VNum 0)) = Ok "0".
Proof.
  intros [-> | ->]; simpl.
  - intros _. eexists. split; [reflexivity|].
    unfold JS.or_else. by rewrite float_sub_self_falsy.
  - unfold mbind, res_bind. destruct (BigJs.parse s) as [X|]; [|done].
    intros _. eexists. split; [reflexivity|]. by rewrite Big_minus_self.
Qed.

(** X13: For a Vector [a] of storable coordinates that are valid operands of
    its operator system, a system of the package that is also
    [Vector.SYSTEM], [a.subtract(a)] is the zero Vector: both coordinates
    read ["0"].  Under the native system this holds of infinite
    coordinates too. *)
Theorem subtract_self_is_zero
    (os : IOperatorSystem) (σ : state) (a : loc) (oa : Vector)
    (sx sy : string) (cx cy : value) :
  builtin os → SYSTEM σ = os →
  heap σ !! a = Some oa → operatorSystem oa = OS os →
  JS.toString (_x oa) = Ok sx → JS.toString (_y oa) = Ok sy → sy ≠ "" →
  create os (VStr sx) = Ok cx → create os (VStr sy) = Ok cy →
  eval (coordinates (Vec.subtract a (Vec a))) σ = Ok ("0", "0").
Proof.
  intros Hos HS Ha Hoa Hx Hy Hne Hcx Hcy.
  change (Vec.subtract a (Vec a)) with
    (v ← methodX (sys_binary minus "minus") a (Vec a);
     methodY (sys_binary minus "minus") v (Vec a)).
  rewrite (combined_coordinates_storable os minus σ a a oa oa sx sy sx sy)
    by auto.
  destruct (difference_self os sx cx Hos Hcx) as (tX & -> & HX).
  destruct (difference_self os sy cy Hos Hcy) as (tY & -> & HY).
  by rewrite !res_bind_Ok, HX, HY.
Qed.

Lemma subtract_self_is_zero_witness :
  eval (coordinates (Vec.subtract 1%nat (Vec 1%nat))) native_vectors
    = Ok ("0", "0").
Proof.
  apply (subtract_self_is_zero BaseOperatorSystem native_vectors 1%nat
           {| _x := VStr "1.5"; _y := VNum (-2);
              operatorSystem := OS BaseOperatorSystem |}
           "1.5" "-2" (VNum (Num.ofString "1.5")) (VNum (Num.ofString "-2"))).
  - left. reflexivity.
  - reflexivity.
  - reflexivity.
  - reflexivity.
  - reflexivity.
  - vm_compute. reflexivity.
  - discriminate.
  - reflexivity.
  - reflexivity.
Defined.
(** ** Running a combined method *)

(** The Vector a combined method returns, when both operations return:
    it is the second Vector created, its [x] is the rendering of the first
    result, its [y] the second result. *)
Lemma combined_run f σ this vec o sx sy ax ay tX tY sx1 :
  heap σ !! this = Some o →
  (∀ l, vec = Vec l → is_Some (heap σ !! l)) →
  JS.toString (_x o) = Ok sx → JS.toString (_y o) = Ok sy → sy ≠ "" →
  eval (Vec.x_or_scalar vec) σ = Ok ax →
  eval (Vec.y_or_scalar vec) σ = Ok ay →
  f (operatorSystem o) (VStr sx) ax = Ok tX →
  f (OS (SYSTEM σ)) (VStr sy) ay = Ok tY →
  JS.toString (JS.or_else tX (VNum 0)) = Ok sx1 → sx1 ≠ "" →
  ∃ r σ',
    (v ← methodX f this vec; methodY f v vec) σ = Ok (r, σ')
    ∧ SYSTEM σ' = SYSTEM σ
    ∧ heap σ' !! r = Some {| _x := VStr sx1; _y := JS.or_else tY (VNum 0);
                             operatorSystem := OS (SYSTEM σ) |}
    ∧ (∀ l o', heap σ !! l = Some o' → heap σ' !! l = Some o').
Proof.
  intros Ho Hv Hx Hy Hne Hax Hay HX HY Hsx1 Hne1.
  pose proof (methodX_run f σ this vec o Ho) as Hrun.
  rewrite Hx, res_bind_Ok, Hax, res_bind_Ok, HX, res_bind_Ok, Hy, res_bind_Ok
    in Hrun.
  destruct (new_lookup tX (VStr sy) σ) as (σ1 & Hn & HS1 & Hl1).
  rewrite Hn in Hrun. rewrite (or_else_nonempty _ Hne) in Hl1.
  assert (Hext1 : ∀ l o', heap σ !! l = Some o' → heap σ1 !! l = Some o').
  { intros l o' Hl'. apply new_Ok in Hn as [_ ->]. simpl.
    by apply lookup_app_l_Some. }
  destruct (operand_stable vec σ σ1 Hv Hext1) as [_ Hay1].
  pose proof (methodY_run f σ1 _ vec _ Hl1) as Hrun2.
  simpl _x in Hrun2. simpl _y in Hrun2. simpl operatorSystem in Hrun2.
  simpl JS.toString in Hrun2.
  rewrite res_bind_Ok, Hay1, Hay, res_bind_Ok, HY, res_bind_Ok, Hsx1,
    res_bind_Ok in Hrun2.
  destruct (new_lookup (VStr sx1) tY σ1) as (σ2 & Hn2 & HS2 & Hl2).
  rewrite Hn2 in Hrun2. rewrite (or_else_nonempty _ Hne1), HS1 in Hl2.
  exists (length (heap σ1)), σ2.
  split; [by rewrite (bind_run _ _ _ _ _ Hrun)|].
  split; [congruence|]. split; [exact Hl2|].
  intros l o' Hl'. apply new_Ok in Hn2 as [_ ->]. simpl.
  by apply lookup_app_l_Some, Hext1.
Qed.

(** ** Inverting twice *)

Lemma new_Big_minus_one : JS.new_Big (VNum (-1)) = Ok (BigSpec.unit true).
Proof. vm_compute. reflexivity. Qed.

Lemma times_minus_one X :
  BigSpec.normal X →
  BigJs.times X (BigSpec.unit true) =
  if BigJs.is_zero X then BigJs.zero (negb (BigJs.neg X)) else BigJs.negate X.
Proof.
  intros HX. unfold BigJs.times. simpl BigJs.is_zero at 2.
  rewrite orb_false_r. destruct (BigJs.is_zero X) eqn:HZ.
  - simpl. by rewrite xorb_true_r.
  - destruct (normal_canonical _ HX HZ) as [Hc Hm].
    simpl. rewrite Z.mul_1_r, Z.add_0_r, xorb_true_r.
    rewrite make_canonical by done. by rewrite N2Z.id.
Qed.

(** Negating the rendering of the negation of a Big gives its rendering. *)
Lemma negate_twice_rendering X :
  BigSpec.normal X →
  BigJs.toString
    (BigJs.times (BigSpec.reread (BigJs.times X (BigSpec.unit true)))
       (BigSpec.unit true)) = BigJs.toString X.
Proof.
  intros HX. rewrite (times_minus_one X HX).
  destruct (BigJs.is_zero X) eqn:HZ.
  - rewrite (normal_zero _ HX HZ). by destruct (BigJs.neg X).
  - assert (HN : BigJs.is_zero (BigJs.negate X) = false) by done.
    unfold BigSpec.reread. rewrite HN.
    rewrite (times_minus_one _ (negate_normal _ HX)), HN.
    by rewrite Big_negate_negate.
Qed.

Lemma multiply_minus_one s X :
  BigJs.parse s = Ok X →
  sys_multiply (OS BigOperatorSystem) (VStr s) (VNum (-1)) =
    Ok (VBig (BigJs.times X (BigSpec.unit true))).
Proof.
  intros HX. unfold sys_multiply, sys_binary. cbn [multiply BigOperatorSystem].
  change (JS.new_Big (VStr s)) with (BigJs.parse s).
  by rewrite HX, res_bind_Ok, new_Big_minus_one.
Qed.

(** X14: Under the arbitrary-precision system, for a Vector whose coordinates
    are valid decimal numerals, [v.invert().invert()] has the coordinates
    of [v], in the rendering of big.js. *)
Theorem invert_twice_is_identity
    (σ : state) (v : loc) (o : Vector) (sx sy : string) (X Y : BigJs.Big) :
  SYSTEM σ = BigOperatorSystem →
  heap σ !! v = Some o → operatorSystem o = OS BigOperatorSystem →
  JS.toString (_x o) = Ok sx → JS.toString (_y o) = Ok sy →
  BigJs.parse sx = Ok X → BigJs.parse sy = Ok Y →
  eval (coordinates (w ← Vec.invert v; Vec.invert w)) σ =
    Ok (BigJs.toString X, BigJs.toString Y).
Proof.
  intros HS Ho Hos Hx Hy HX HY.
  pose proof (parse_normal _ _ HX) as NX. pose proof (parse_normal _ _ HY) as NY.
  destruct (combined_run sys_multiply σ v (Scalar (VNum (-1))) o sx sy
              (VNum (-1)) (VNum (-1))
              (VBig (BigJs.times X (BigSpec.unit true)))
              (VBig (BigJs.times Y (BigSpec.unit true)))
              (BigJs.toString (BigJs.times X (BigSpec.unit true))))
    as (w & σ1 & Hw & HS1 & Hl1 & _); try done.
  { by eapply parse_nonempty. }
  { rewrite Hos. by apply multiply_minus_one. }
  { rewrite HS. by apply multiply_minus_one. }
  { apply Big_toString_nonempty. }
  rewrite HS in Hl1. simpl JS.or_else in Hl1.
  set (X1 := BigJs.times X (BigSpec.unit true)) in *.
  set (Y1 := BigJs.times Y (BigSpec.unit true)) in *.
  pose proof (times_normal X (BigSpec.unit true)) as NX1.
  pose proof (times_normal Y (BigSpec.unit true)) as NY1.
  destruct (combined_run sys_multiply σ1 w (Scalar (VNum (-1))) _
              (BigJs.toString X1) (BigJs.toString Y1)
              (VNum (-1)) (VNum (-1))
              (VBig (BigJs.times (BigSpec.reread X1) (BigSpec.unit true)))
              (VBig (BigJs.times (BigSpec.reread Y1) (BigSpec.unit true)))
              (BigJs.toString
                 (BigJs.times (BigSpec.reread X1) (BigSpec.unit true))) Hl1)
    as (u & σ2 & Hu & HS2 & Hl2 & _); try done.
  { apply Big_toString_nonempty. }
  { apply multiply_minus_one. by apply parse_toString_normal. }
  { rewrite HS1, HS. apply multiply_minus_one. by apply parse_toString_normal. }
  { apply Big_toString_nonempty. }
  assert (Hrun : (w ← Vec.invert v; Vec.invert w) σ = Ok (u, σ2)).
  { by rewrite (bind_run _ _ _ _ _ Hw). }
  rewrite (coordinates_at _ _ _ _ _ Hrun Hl2).
  cbn [_x _y JS.toString JS.or_else JS.truthy]. rewrite !res_bind_Ok.
  unfold X1, Y1. by rewrite !negate_twice_rendering.
Qed.

Lemma invert_twice_is_identity_witness :
  eval (coordinates (w ← Vec.invert 0%nat; Vec.invert w)) C5.on_x_axis =
    Ok ("-2.5", "0").
Proof.
  apply (invert_twice_is_identity C5.on_x_axis 0%nat
           {| _x := VStr "-2.5"; _y := VNum 0;
              operatorSystem := OS BigOperatorSystem |} "-2.5" "0"
           {| BigJs.neg := true; BigJs.coef := 25; BigJs.expo := -1 |}
           (BigJs.zero false)).
  - reflexivity.
  - reflexivity.
  - reflexivity.
  - reflexivity.
  - vm_compute. reflexivity.
  - vm_compute. reflexivity.
  - vm_compute. reflexivity.
Defined.
(** ** Division by zero under the arbitrary-precision system *)

Lemma big_divide_by_zero s X d Z :
  BigJs.parse s = Ok X → JS.new_Big d = Ok Z → BigJs.is_zero Z = true →
  sys_divide (OS BigOperatorSystem) (VStr s) d = Throw BigJs.DIV_BY_ZERO.
Proof.
  intros HX HZ Hz. unfold sys_divide, sys_binary. cbn [divide BigOperatorSystem].
  change (JS.new_Big (VStr s)) with (BigJs.parse s).
  rewrite HX, res_bind_Ok, HZ, res_bind_Ok. unfold BigJs.div. by rewrite Hz.
Qed.

(** X15: Under the arbitrary-precision system, dividing a Vector whose [x] is a
    valid decimal numeral by a zero, a scalar or the [x] of a Vector, throws
    big.js's division-by-zero error from [divideX] and from [divide]. *)
Theorem big_division_by_zero_throws
    (σ : state) (v : loc) (vec : VectorOperand) (o : Vector)
    (sx : string) (X : BigJs.Big) (d : value) (Z : BigJs.Big) :
  heap σ !! v = Some o → operatorSystem o = OS BigOperatorSystem →
  JS.toString (_x o) = Ok sx → BigJs.parse sx = Ok X →
  eval (Vec.x_or_scalar vec) σ = Ok d →
  JS.new_Big d = Ok Z → BigJs.is_zero Z = true →
  eval (Vec.divideX v vec) σ = Throw BigJs.DIV_BY_ZERO
  ∧ eval (Vec.divide v vec) σ = Throw BigJs.DIV_BY_ZERO.
Proof.
  intros Ho Hos Hx HX Hd HZ Hz.
  assert (H : Vec.divideX v vec σ = Throw BigJs.DIV_BY_ZERO).
  { change (Vec.divideX v vec) with (methodX sys_divide v vec).
    rewrite (methodX_run _ _ _ _ _ Ho), Hx, res_bind_Ok, Hd, res_bind_Ok, Hos.
    by rewrite (big_divide_by_zero _ _ _ _ HX HZ Hz). }
  split.
  - unfold eval. by rewrite H.
  - unfold eval, Vec.divide, mbind, M_bind. by rewrite H.
Qed.

Lemma big_division_by_zero_throws_witness :
  eval (Vec.divideX 0%nat (Scalar (VStr "0.0"))) two_vectors
    = Throw BigJs.DIV_BY_ZERO
  ∧ eval (Vec.divide 0%nat (Scalar (VStr "0.0"))) two_vectors
    = Throw BigJs.DIV_BY_ZERO.
Proof.
  apply (big_division_by_zero_throws two_vectors 0%nat (Scalar (VStr "0.0"))
           {| _x := VNum 100; _y := VNum 50;
              operatorSystem := OS BigOperatorSystem |} "100"
           {| BigJs.neg := false; BigJs.coef := 1; BigJs.expo := 2 |}
           (VStr "0.0") (BigJs.zero false)).
  - reflexivity.
  - reflexivity.
  - vm_compute. reflexivity.
  - vm_compute. reflexivity.
  - reflexivity.
  - vm_compute. reflexivity.
  - reflexivity.
Defined.

(** ** The squared length under the arbitrary-precision system *)

Lemma make_neg s c e : 0 < c → BigJs.neg (BigJs.make s c e) = s.
Proof. intros H. by apply make_spec. Qed.

Lemma make_neg_false c e : BigJs.neg (BigJs.make false c e) = false.
Proof.
  destruct (Z.leb_spec c 0) as [H|H]; [|by apply make_neg].
  unfold BigJs.make. by rewrite (proj2 (Z.leb_le c 0) H).
Qed.

Lemma times_self_neg X : BigJs.neg (BigJs.times X X) = false.
Proof.
  unfold BigJs.times. rewrite xorb_nilpotent.
  destruct (_ || _); [done|apply make_neg_false].
Qed.

Lemma plus_neg_false x y :
  BigJs.neg x = false → BigJs.neg y = false →
  BigJs.neg (BigJs.plus x y) = false.
Proof.
  intros Hx Hy. unfold BigJs.plus, BigJs.plus_same. rewrite Hx, Hy. simpl.
  destruct (BigJs.is_zero x || BigJs.is_zero y).
  - destruct (BigJs.is_zero y); simpl; [|done].
    by destruct (BigJs.is_zero x).
  - apply make_neg_false.
Qed.

Lemma reread_neg b : BigJs.neg b = false → BigJs.neg (BigSpec.reread b) = false.
Proof. intros H. unfold BigSpec.reread. by destruct (BigJs.is_zero b). Qed.

(** The squared length and the length of valid decimal coordinates: sums of
    squares are not negative, so that the square root is defined. *)
Lemma Big_length_of sx sy X Y :
  BigJs.parse sx = Ok X → BigJs.parse sy = Ok Y →
  ∃ L,
    C5.lengthSq_of (OS BigOperatorSystem) sx sy =
      Ok (BigJs.toString (BigJs.plus (BigJs.times X X) (BigJs.times Y Y)))
    ∧ C5.length_of (OS BigOperatorSystem) sx sy = Ok (BigJs.toString L)
    ∧ BigJs.sqrt (BigSpec.reread (BigJs.plus (BigJs.times X X) (BigJs.times Y Y)))
        = Ok L
    ∧ BigJs.neg L = false ∧ BigSpec.normal L.
Proof.
  intros HX HY.
  set (B := BigJs.plus (BigJs.times X X) (BigJs.times Y Y)).
  assert (HB : BigSpec.normal B) by (apply plus_normal; apply times_normal).
  assert (HBn : BigJs.neg B = false) by (apply plus_neg_false; apply times_self_neg).
  assert (Hsq : C5.lengthSq_of (OS BigOperatorSystem) sx sy = Ok (BigJs.toString B)).
  { unfold C5.lengthSq_of, sys_multiply, sys_plus, sys_binary.
    cbn [multiply plus BigOperatorSystem].
    change (JS.new_Big (VStr sx)) with (BigJs.parse sx).
    change (JS.new_Big (VStr sy)) with (BigJs.parse sy).
    by rewrite HX, HY, !res_bind_Ok. }
  assert (HS : ∃ L, BigJs.sqrt (BigSpec.reread B) = Ok L ∧ BigJs.neg L = false).
  { unfold BigJs.sqrt. destruct (BigJs.is_zero (BigSpec.reread B)).
    - eexists. split; [reflexivity|]. by apply reread_neg.
    - rewrite (reread_neg _ HBn). eexists. split; [reflexivity|].
      apply make_neg_false. }
  destruct HS as (L & HL & HLn). exists L.
  split; [exact Hsq|]. split; [|split; [exact HL|split; [exact HLn|]]].
  - unfold C5.length_of. rewrite Hsq, res_bind_Ok.
    unfold sys_sqrt, sys_unary. cbn [sqrt BigOperatorSystem].
    change (JS.new_Big (VStr (BigJs.toString B)))
      with (BigJs.parse (BigJs.toString B)).
    by rewrite (parse_toString_normal _ HB), res_bind_Ok, HL.
  - eapply sqrt_normal; [|exact HL]. by apply reread_normal.
Qed.

Lemma length_eval σ v o sx sy :
  heap σ !! v = Some o →
  JS.toString (_x o) = Ok sx → JS.toString (_y o) = Ok sy →
  eval (Vec.lengthSq v) σ = C5.lengthSq_of (operatorSystem o) sx sy
  ∧ eval (Vec.length v) σ = C5.length_of (operatorSystem o) sx sy.
Proof.
  intros Ho Hx Hy. unfold eval.
  rewrite (lengthSq_lookup _ _ _ _ _ Ho Hx Hy), (length_lookup _ _ _ _ _ Ho Hx Hy).
  split; apply eval_lift.
Qed.

(** X16: Under the arbitrary-precision system, [lengthSq] returns for every
    Vector whose coordinates are valid decimal numerals: it is the rendering
    of [x*x + y*y], which big.js reads back as a Big that is not negative,
    whatever the signs of the coordinates, a minus zero included.  That Big
    is the operand [length] hands to [sqrt], so [length] never throws
    big.js's square-root error. *)
Theorem big_lengthSq_is_not_negative
    (σ : state) (v : loc) (o : Vector) (sx sy : string) (X Y : BigJs.Big) :
  heap σ !! v = Some o → operatorSystem o = OS BigOperatorSystem →
  JS.toString (_x o) = Ok sx → JS.toString (_y o) = Ok sy →
  BigJs.parse sx = Ok X → BigJs.parse sy = Ok Y →
  ∃ B,
    B = BigJs.plus (BigJs.times X X) (BigJs.times Y Y)
    ∧ eval (Vec.lengthSq v) σ = Ok (BigJs.toString B)
    ∧ JS.new_Big (VStr (BigJs.toString B)) = Ok (BigSpec.reread B)
    ∧ BigJs.neg (BigSpec.reread B) = false
    ∧ eval (Vec.length v) σ ≠ Throw BigJs.NO_SQRT.
Proof.
  intros Ho Hos Hx Hy HX HY.
  destruct (length_eval σ v o sx sy Ho Hx Hy) as [-> ->]. rewrite Hos.
  destruct (Big_length_of sx sy X Y HX HY) as (L & Hsq & HL & _ & _ & _).
  eexists. split; [reflexivity|]. split; [exact Hsq|].
  split; [|split].
  - apply parse_toString_normal, plus_normal; apply times_normal.
  - apply reread_neg, plus_neg_false; apply times_self_neg.
  - by rewrite HL.
Qed.

Lemma big_lengthSq_is_not_negative_witness :
  ∃ B,
    B = BigJs.plus
          (BigJs.times {| BigJs.neg := true; BigJs.coef := 25; BigJs.expo := -1 |}
             {| BigJs.neg := true; BigJs.coef := 25; BigJs.expo := -1 |})
          (BigJs.times (BigJs.zero false) (BigJs.zero false))
    ∧ eval (Vec.lengthSq 0%nat) C5.on_x_axis = Ok (BigJs.toString B)
    ∧ JS.new_Big (VStr (BigJs.toString B)) = Ok (BigSpec.reread B)
    ∧ BigJs.neg (BigSpec.reread B) = false
    ∧ eval (Vec.length 0%nat) C5.on_x_axis ≠ Throw BigJs.NO_SQRT.
Proof.
  apply (big_lengthSq_is_not_negative C5.on_x_axis 0%nat
           {| _x := VStr "-2.5"; _y := VNum 0;
              operatorSystem := OS BigOperatorSystem |} "-2.5" "0"
           {| BigJs.neg := true; BigJs.coef := 25; BigJs.expo := -1 |}
           (BigJs.zero false)).
  - reflexivity.
  - reflexivity.
  - reflexivity.
  - vm_compute. reflexivity.
  - vm_compute. reflexivity.
  - vm_compute. reflexivity.
Defined.

(** ** The zero Vector *)

Lemma float_eqb_zero (p : float) :
  PrimFloat.eqb p 0 = true → p = 0%float ∨ p = (-0)%float.
Proof.
  rewrite FloatAxioms.eqb_spec. change (Prim2SF 0) with (S754_zero false).
  intros H.
  assert (Hs : ∃ s, Prim2SF p = S754_zero s).
  { destruct (Prim2SF p) as [s|s| |s m e]; [eauto|by destruct s|done|by destruct s]. }
  destruct Hs as [s Hs]. rewrite <- (SF2Prim_Prim2SF p), Hs.
  destruct s; [by right|by left].
Qed.

Lemma isZero_true os σ v o sx sy :
  builtin os →
  heap σ !! v = Some o → operatorSystem o = OS os →
  JS.toString (_x o) = Ok sx → JS.toString (_y o) = Ok sy →
  eval (Vec.isZero v) σ = Ok true →
  equal os (VStr sx) (VNum 0) = Ok true ∧ equal os (VStr sy) (VNum 0) = Ok true.
Proof.
  intros Hos Ho Hs Hx Hy. rewrite (isZero_eval _ _ _ Ho), Hs, Hx, Hy.
  rewrite !res_bind_Ok. unfold sys_equal, sys_binary.
  by destruct (equal os (VStr sx) (VNum 0)) as [[|]|].
Qed.

Lemma new_Big_zero : JS.new_Big (VNum 0) = Ok (BigJs.zero false).
Proof. vm_compute. reflexivity. Qed.

Lemma big_equal_zero s :
  equal BigOperatorSystem (VStr s) (VNum 0) = Ok true →
  ∃ X, BigJs.parse s = Ok X ∧ BigJs.is_zero X = true.
Proof.
  cbn [equal BigOperatorSystem]. change (JS.new_Big (VStr s)) with (BigJs.parse s).
  destruct (BigJs.parse s) as [X|]; [|done].
  rewrite res_bind_Ok, new_Big_zero, res_bind_Ok. unfold BigJs.eq.
  rewrite orb_true_r, andb_true_r. intros [= H]. eauto.
Qed.

Lemma big_divide_throws σ v vec o sx X d Z :
  heap σ !! v = Some o → operatorSystem o = OS BigOperatorSystem →
  JS.toString (_x o) = Ok sx → BigJs.parse sx = Ok X →
  eval (Vec.x_or_scalar vec) σ = Ok d →
  JS.new_Big d = Ok Z → BigJs.is_zero Z = true →
  Vec.divide v vec σ = Throw BigJs.DIV_BY_ZERO.
Proof.
  intros Ho Hos Hx HX Hd HZ Hz.
  assert (H : Vec.divideX v vec σ = Throw BigJs.DIV_BY_ZERO).
  { change (Vec.divideX v vec) with (methodX sys_divide v vec).
    rewrite (methodX_run _ _ _ _ _ Ho), Hx, res_bind_Ok, Hd, res_bind_Ok, Hos.
    by rewrite (big_divide_by_zero _ _ _ _ HX HZ Hz). }
  unfold Vec.divide, mbind, M_bind. by rewrite H.
Qed.

Lemma native_zero_length sx sy :
  PrimFloat.eqb (Num.ofString sx) 0 = true →
  PrimFloat.eqb (Num.ofString sy) 0 = true →
  C5.length_of (OS BaseOperatorSystem) sx sy = Ok "0"
  ∧ JS.truthy (VNum (Num.ofString sx / Num.ofString "0")) = false
  ∧ JS.truthy (VNum (Num.ofString sy / Num.ofString "0")) = false.
Proof.
  intros Hp Hq. unfold C5.length_of, C5.lengthSq_of, sys_multiply, sys_plus,
    sys_sqrt, sys_binary, sys_unary.
  cbn [multiply plus sqrt BaseOperatorSystem JS.ToNumber JS.toString].
  rewrite !res_bind_Ok. cbn [JS.ToNumber].
  destruct (float_eqb_zero _ Hp) as [-> | ->],
    (float_eqb_zero _ Hq) as [-> | ->]; by vm_compute.
Qed.

(** X17: For a Vector for which [isZero()] is true, with storable coordinates,
    under an operator system of the package that is also [Vector.SYSTEM]:
    [normalize()] throws big.js's division-by-zero error under the
    arbitrary-precision system, and returns the zero Vector, not a Vector
    of [NaN], under the native system. *)
Theorem normalize_of_the_zero_vector
    (os : IOperatorSystem) (σ : state) (v : loc) (o : Vector)
    (sx sy : string) :
  builtin os → SYSTEM σ = os →
  heap σ !! v = Some o → operatorSystem o = OS os →
  JS.toString (_x o) = Ok sx → JS.toString (_y o) = Ok sy → sy ≠ "" →
  eval (Vec.isZero v) σ = Ok true →
  (os = BigOperatorSystem →
     eval (Vec.normalize v) σ = Throw BigJs.DIV_BY_ZERO)
  ∧ (os = BaseOperatorSystem →
     eval (coordinates (Vec.normalize v)) σ = Ok ("0", "0")).
Proof.
  intros Hos HS Ho Hs Hx Hy Hne Hz.
  destruct (isZero_true os σ v o sx sy Hos Ho Hs Hx Hy Hz) as [Zx Zy].
  destruct (length_eval σ v o sx sy Ho Hx Hy) as [_ Hlen].
  split; intros ->.
  - destruct (big_equal_zero _ Zx) as (X & HX & HXz).
    destruct (big_equal_zero _ Zy) as (Y & HY & HYz).
    destruct (Big_length_of sx sy X Y HX HY) as (L & _ & HL & Hsqrt & _).
    rewrite (times_zero_self _ HXz), (times_zero_self _ HYz) in Hsqrt.
    injection Hsqrt as <-. rewrite Hs, HL in Hlen.
    unfold eval, Vec.normalize.
    rewrite read_only_run, Hlen by eauto with vec.
    by rewrite (big_divide_throws σ v _ o sx X (VStr "0") (BigJs.zero false)).
  - simpl in Zx, Zy. injection Zx as Zx. injection Zy as Zy.
    destruct (native_zero_length sx sy Zx Zy) as (HL & Fx & Fy).
    rewrite Hs, HL in Hlen.
    assert (Hrun : ∀ k : string → M loc,
              (Vec.length v ≫= k) σ = k "0" σ).
    { intros k. by rewrite read_only_run, Hlen by eauto with vec. }
    unfold coordinates, Vec.normalize, eval.
    unfold mbind at 1, M_bind at 1. rewrite Hrun.
    change (eval (coordinates (Vec.divide v (Scalar (VStr "0")))) σ
            = Ok ("0", "0")).
    change (Vec.divide v (Scalar (VStr "0"))) with
      (w ← methodX sys_divide v (Scalar (VStr "0"));
       methodY sys_divide w (Scalar (VStr "0"))).
    rewrite (combined_coordinates _ _ _ _ _ Ho) by done.
    rewrite Hx, Hy, Hs, HS.
    change (eval (Vec.x_or_scalar (Scalar (VStr "0"))) σ) with (Ok (VStr "0")).
    change (eval (Vec.y_or_scalar (Scalar (VStr "0"))) σ) with (Ok (VStr "0")).
    unfold sys_divide, sys_binary. cbn [divide BaseOperatorSystem JS.ToNumber].
    rewrite !res_bind_Ok, (toString_or_else_nonempty _ Hne), !res_bind_Ok.
    cbn [JS.ToNumber]. unfold JS.or_else. rewrite Fx, Fy. reflexivity.
Qed.

Lemma normalize_of_the_zero_vector_witness :
  (BigOperatorSystem = BigOperatorSystem →
     eval (Vec.normalize 0%nat) zero_vector = Throw BigJs.DIV_BY_ZERO)
  ∧ (BigOperatorSystem = BaseOperatorSystem →
     eval (coordinates (Vec.normalize 0%nat)) zero_vector = Ok ("0", "0")).
Proof.
  apply (normalize_of_the_zero_vector BigOperatorSystem zero_vector 0%nat
           {| _x := VStr "0.0"; _y := VNum 0;
              operatorSystem := OS BigOperatorSystem |} "0.0" "0").
  - right. reflexivity.
  - reflexivity.
  - reflexivity.
  - reflexivity.
  - reflexivity.
  - vm_compute. reflexivity.
  - discriminate.
  - vm_compute. reflexivity.
Defined.
(** ** The distance from a Vector to itself *)

Lemma isFinite_cases (p : float) :
  C2.isFinite p = true →
  (∃ s, Prim2SF p = S754_zero s) ∨ (∃ s m e, Prim2SF p = S754_finite s m e).
Proof.
  unfold C2.isFinite. rewrite ltb_spec, abs_spec.
  change (Prim2SF infinity) with (S754_infinity false).
  destruct (Prim2SF p) as [s|s| |s m e]; simpl; try done; eauto.
Qed.

Lemma float_sub_self_finite (p : float) :
  C2.isFinite p = true → (p - p)%float = 0%float.
Proof.
  intros H. apply Prim2SF_zero. rewrite sub_spec.
  destruct (isFinite_cases p H) as [[s ->] | (s & m & e & ->)]; simpl.
  - by destruct s.
  - by rewrite Z.sub_diag.
Qed.

(** The rendering of the difference of a finite operand and itself. *)
Lemma difference_self_rendering os s :
  (os = BaseOperatorSystem ∧ C2.isFinite (Num.ofString s) = true)
  ∨ (os = BigOperatorSystem ∧ is_Ok (BigJs.parse s) = true) →
  (d ← minus os (VStr s) (VStr s); JS.toString d) = Ok "0".
Proof.
  intros [[-> H] | [-> H]]; simpl.
  - by rewrite (float_sub_self_finite _ H).
  - unfold mbind, res_bind. destruct (BigJs.parse s) as [X|]; [|done].
    by rewrite Big_minus_self.
Qed.

Lemma hypot_zero os :
  builtin os →
  (xx ← multiply os (VStr "0") (VStr "0");
   yy ← multiply os (VStr "0") (VStr "0");
   s ← plus os xx yy; JS.toString s) = Ok "0"
  ∧ (r ← sqrt os (VStr "0"); JS.toString r) = Ok "0"
  ∧ (r ← abs os (VStr "0"); JS.toString r) = Ok "0".
Proof. intros [-> | ->]; by vm_compute. Qed.

(** X18: For a Vector [a] whose coordinates are finite under its operator
    system, a system of the package (finite numbers under the native
    system, valid decimal numerals under the arbitrary-precision one), the
    distances from [a] to [a] all read ["0"]. *)
Theorem distance_to_itself_is_zero
    (os : IOperatorSystem) (σ : state) (a : loc) (oa : Vector)
    (sx sy : string) :
  heap σ !! a = Some oa → operatorSystem oa = OS os →
  JS.toString (_x oa) = Ok sx → JS.toString (_y oa) = Ok sy →
  (os = BaseOperatorSystem ∧ C2.isFinite (Num.ofString sx) = true
     ∧ C2.isFinite (Num.ofString sy) = true)
  ∨ (os = BigOperatorSystem ∧ is_Ok (BigJs.parse sx) = true
     ∧ is_Ok (BigJs.parse sy) = true) →
  eval (Vec.distanceX a a) σ = Ok "0" ∧ eval (Vec.distanceY a a) σ = Ok "0"
  ∧ eval (Vec.absDistanceX a a) σ = Ok "0"
  ∧ eval (Vec.absDistanceY a a) σ = Ok "0"
  ∧ eval (Vec.distanceSq a a) σ = Ok "0" ∧ eval (Vec.distance a a) σ = Ok "0".
Proof.
  intros Ha Hs Hx Hy Hfin.
  assert (Hos : builtin os) by (destruct Hfin as [[-> _]|[-> _]]; [by left|by right]).
  assert (HX : eval (Vec.distanceX a a) σ = Ok "0").
  { rewrite (distanceX_eval _ _ _ _ _ Ha Ha), Hx, Hs, !res_bind_Ok.
    apply difference_self_rendering. tauto. }
  assert (HY : eval (Vec.distanceY a a) σ = Ok "0").
  { rewrite (distanceY_eval _ _ _ _ _ Ha Ha), Hy, Hs, !res_bind_Ok.
    apply difference_self_rendering. tauto. }
  destruct (hypot_zero os Hos) as (Hsq & Hsqrt & Habs).
  assert (HSq : eval (Vec.distanceSq a a) σ = Ok "0").
  { by rewrite (distanceSq_eval _ _ _ _ Ha), HX, HY, Hs, !res_bind_Ok. }
  split; [exact HX|]. split; [exact HY|].
  split; [by rewrite (absDistanceX_eval _ _ _ _ Ha), HX, Hs, res_bind_Ok|].
  split; [by rewrite (absDistanceY_eval _ _ _ _ Ha), HY, Hs, res_bind_Ok|].
  split; [exact HSq|].
  by rewrite (distance_eval _ _ _ _ Ha), HSq, Hs, res_bind_Ok.
Qed.

Lemma distance_to_itself_is_zero_witness :
  eval (Vec.distanceX 1%nat 1%nat) native_vectors = Ok "0"
  ∧ eval (Vec.distanceY 1%nat 1%nat) native_vectors = Ok "0"
  ∧ eval (Vec.absDistanceX 1%nat 1%nat) native_vectors = Ok "0"
  ∧ eval (Vec.absDistanceY 1%nat 1%nat) native_vectors = Ok "0"
  ∧ eval (Vec.distanceSq 1%nat 1%nat) native_vectors = Ok "0"
  ∧ eval (Vec.distance 1%nat 1%nat) native_vectors = Ok "0".
Proof.
  apply (distance_to_itself_is_zero BaseOperatorSystem native_vectors 1%nat
           {| _x := VStr "1.5"; _y := VNum (-2);
              operatorSystem := OS BaseOperatorSystem |} "1.5" "-2").
  - reflexivity.
  - reflexivity.
  - reflexivity.
  - vm_compute. reflexivity.
  - left. split; [reflexivity|]. split; vm_compute; reflexivity.
Defined.
(** ** Serialization *)

Lemma coordinates_after {A} (m : M A) (k : A → M loc) σ a σ1 :
  m σ = Ok (a, σ1) →
  eval (coordinates (m ≫= k)) σ = eval (coordinates (k a)) σ1.
Proof.
  intros Hm. unfold coordinates, eval, mbind, M_bind. by rewrite Hm.
Qed.

Lemma coordinates_new x y σ :
  eval (coordinates (Vec.new x y)) σ =
    (sx ← JS.toString (JS.or_else x (VNum 0));
     sy ← JS.toString (JS.or_else y (VNum 0)); Ok (sx, sy)).
Proof.
  destruct (new_lookup x y σ) as (σ' & Hn & _ & Hl).
  by rewrite (coordinates_at _ _ _ _ _ Hn Hl).
Qed.

(** X19: For a Vector [v] of storable coordinates, [v.toArray()] and
    [v.toObject()] hold the renderings of the coordinates, and
    [Vector.fromArray(v.toArray())] and [Vector.fromObject(v.toObject())]
    read the same coordinates as [v], whatever the operator systems are. *)
Theorem serialization_preserves_coordinates
    (σ : state) (v : loc) (o : Vector) (sx sy : string) :
  heap σ !! v = Some o →
  C8.storable (_x o) → C8.storable (_y o) →
  JS.toString (_x o) = Ok sx → JS.toString (_y o) = Ok sy →
  eval (Vec.toArray v) σ = Ok [VStr sx; VStr sy]
  ∧ eval (Vec.toObject v) σ = Ok {[ "x" := VStr sx; "y" := VStr sy ]}
  ∧ eval (coordinates (arr ← Vec.toArray v; Vec.fromArray arr)) σ = Ok (sx, sy)
  ∧ eval (coordinates (obj ← Vec.toObject v; Vec.fromObject obj)) σ
    = Ok (sx, sy).
Proof.
  intros Ho Sx Sy Hx Hy.
  apply toString_storable in Sx as (sx' & Hx' & Hsx).
  apply toString_storable in Sy as (sy' & Hy' & Hsy).
  assert (sx' = sx) as -> by congruence. assert (sy' = sy) as -> by congruence.
  pose proof (toArray_lookup _ _ _ _ _ Ho Hx Hy) as HA.
  pose proof (toObject_lookup _ _ _ _ _ Ho Hx Hy) as HO.
  assert (Hnew : eval (coordinates
                   (Vec.new (JS.or_else (VStr sx) (VNum 0))
                      (JS.or_else (VStr sy) (VNum 0)))) σ = Ok (sx, sy)).
  { rewrite coordinates_new, !or_else_idem.
    by rewrite !toString_or_else_nonempty. }
  split; [by rewrite (eval_run _ _ _ _ HA)|].
  split; [by rewrite (eval_run _ _ _ _ HO)|].
  split.
  - by rewrite (coordinates_after _ _ _ _ _ HA).
  - by rewrite (coordinates_after _ _ _ _ _ HO), fromObject_xy.
Qed.

Lemma serialization_preserves_coordinates_witness :
  eval (Vec.toArray 1%nat) native_vectors = Ok [VStr "1.5"; VStr "-2"]
  ∧ eval (Vec.toObject 1%nat) native_vectors
    = Ok {[ "x" := VStr "1.5"; "y" := VStr "-2" ]}
  ∧ eval (coordinates (arr ← Vec.toArray 1%nat; Vec.fromArray arr))
      native_vectors = Ok ("1.5", "-2")
  ∧ eval (coordinates (obj ← Vec.toObject 1%nat; Vec.fromObject obj))
      native_vectors = Ok ("1.5", "-2").
Proof.
  apply (serialization_preserves_coordinates native_vectors 1%nat
           {| _x := VStr "1.5"; _y := VNum (-2);
              operatorSystem := OS BaseOperatorSystem |} "1.5" "-2").
  - reflexivity.
  - discriminate.
  - exact I.
  - reflexivity.
  - vm_compute. reflexivity.
Defined.

(** ** The zero test under the arbitrary-precision system *)

(** X20: Under the arbitrary-precision system, for a Vector whose [x] is a
    valid decimal numeral, [isZero()] is false when [x] is not zero, without
    [y] being converted; when [x] is a zero, of either sign and with any
    number of decimals, it is whether [y] is a zero, and it throws big.js's
    invalid-number error when [y] is not a valid numeral. *)
Theorem big_isZero
    (σ : state) (v : loc) (o : Vector) (sx sy : string) (X : BigJs.Big) :
  heap σ !! v = Some o → operatorSystem o = OS BigOperatorSystem →
  JS.toString (_x o) = Ok sx → JS.toString (_y o) = Ok sy →
  BigJs.parse sx = Ok X →
  eval (Vec.isZero v) σ =
    if BigJs.is_zero X
    then match BigJs.parse sy with
         | Ok Y => Ok (BigJs.is_zero Y)
         | Throw _ => Throw BigJs.INVALID
         end
    else Ok false.
Proof.
  intros Ho Hos Hx Hy HX.
  rewrite (isZero_eval _ _ _ Ho), Hos, Hx, Hy, !res_bind_Ok.
  unfold sys_equal, sys_binary. cbn [equal BigOperatorSystem].
  change (JS.new_Big (VStr sx)) with (BigJs.parse sx).
  change (JS.new_Big (VStr sy)) with (BigJs.parse sy).
  rewrite HX, new_Big_zero, !res_bind_Ok. unfold BigJs.eq at 1.
  rewrite orb_true_r, andb_true_r.
  destruct (BigJs.is_zero X); [|done].
  destruct (BigJs.parse sy) as [Y|e] eqn:HY.
  - rewrite !res_bind_Ok. unfold BigJs.eq. by rewrite orb_true_r, andb_true_r.
  - by apply (new_Big_Throw (VStr sy)) in HY as ->.
Qed.

Lemma big_isZero_witness :
  eval (Vec.isZero 0%nat) zero_vector = Ok true.
Proof.
  apply (big_isZero zero_vector 0%nat
           {| _x := VStr "0.0"; _y := VNum 0;
              operatorSystem := OS BigOperatorSystem |} "0.0" "0"
           (BigJs.zero false)).
  - reflexivity.
  - reflexivity.
  - reflexivity.
  - vm_compute. reflexivity.
  - vm_compute. reflexivity.
Defined.
(** ** A system name inherited from [Object.prototype] *)

Lemma registry_get_inherited key :
  key ∈ Object_prototype_keys → registry_get key = Some (ProtoMember key).
Proof.
  intros H. unfold Object_prototype_keys in H.
  repeat (apply elem_of_cons in H as [-> | H]; [by vm_compute|]).
  by apply elem_of_nil in H.
Qed.

Lemma eval_operand_Throw vec σ e :
  eval (Vec.x_or_scalar vec) σ = Throw e ∨ eval (Vec.y_or_scalar vec) σ = Throw e →
  ∃ msg, e = TypeError msg.
Proof.
  destruct vec as [l|w]; [|by intros [|]].
  unfold eval. simpl. unfold Vec.x, Vec.y, mbind, M_bind, deref.
  destruct (heap σ !! l) as [o|]; simpl.
  - intros [H|H].
    + destruct (_x o); simpl in H; try done. injection H as <-. eauto.
    + destruct (_y o); simpl in H; try done. injection H as <-. eauto.
  - intros [H|H]; injection H as <-; eauto.
Qed.

Lemma inherited_methodX f name σ v vec o key :
  heap σ !! v = Some o → operatorSystem o = ProtoMember key →
  ∃ msg, methodX (sys_binary f name) v vec σ = Throw (TypeError msg).
Proof.
  intros Ho Hos. rewrite (methodX_run _ _ _ _ _ Ho), Hos.
  destruct (JS.toString (_x o)) as [sx|e] eqn:Hx.
  - rewrite res_bind_Ok.
    destruct (eval (Vec.x_or_scalar vec) σ) as [a|e] eqn:Ha.
    + rewrite res_bind_Ok. simpl. eauto.
    + destruct (eval_operand_Throw vec σ e (or_introl Ha)) as [msg ->]. eauto.
  - apply toString_Throw in Hx as ->. eauto.
Qed.

Lemma inherited_methodY f name σ v vec o key :
  heap σ !! v = Some o → operatorSystem o = ProtoMember key →
  ∃ msg, methodY (sys_binary f name) v vec σ = Throw (TypeError msg).
Proof.
  intros Ho Hos. rewrite (methodY_run _ _ _ _ _ Ho), Hos.
  destruct (JS.toString (_y o)) as [sy|e] eqn:Hy.
  - rewrite res_bind_Ok.
    destruct (eval (Vec.y_or_scalar vec) σ) as [a|e] eqn:Ha.
    + rewrite res_bind_Ok. simpl. eauto.
    + destruct (eval_operand_Throw vec σ e (or_intror Ha)) as [msg ->]. eauto.
  - apply toString_Throw in Hy as ->. eauto.
Qed.

Lemma eval_Throw {A} (m : M A) σ e : m σ = Throw e → eval m σ = Throw e.
Proof. intros H. unfold eval. by rewrite H. Qed.

Lemma eval_bind_Throw {A B} (m : M A) (k : A → M B) σ e :
  m σ = Throw e → eval (m ≫= k) σ = Throw e.
Proof. intros H. unfold eval, mbind, M_bind. by rewrite H. Qed.

(** X21: After [v.config({ system: key })] with a name [key] that the registry
    object inherits from [Object.prototype] (["constructor"],
    ["toString"], ...), the operator system of [v] is that inherited
    member, which has none of the operations: the getters read as before,
    and every binary manipulation method, [length] and [isZero] throw a
    [TypeError]. *)
Theorem inherited_name_has_no_operations
    (key : string) (σ : state) (v : loc) (o : Vector) (σ' : state) :
  key ∈ Object_prototype_keys →
  heap σ !! v = Some o →
  Vec.config v (Some (SystemName key)) σ = Ok (tt, σ') →
  heap σ' !! v = Some {| _x := _x o; _y := _y o;
                         operatorSystem := ProtoMember key |}
  ∧ eval (Vec.x v) σ' = eval (Vec.x v) σ
  ∧ eval (Vec.y v) σ' = eval (Vec.y v) σ
  ∧ (∀ m vec, ∃ msg, eval (Vec.binary m v vec) σ' = Throw (TypeError msg))
  ∧ (∃ msg, eval (Vec.length v) σ' = Throw (TypeError msg))
  ∧ (∃ msg, eval (Vec.isZero v) σ' = Throw (TypeError msg)).
Proof.
  intros Hkey Ho Hc.
  assert (Hlt : (v < length (heap σ))%nat) by by eapply lookup_lt_Some.
  set (o' := {| _x := _x o; _y := _y o; operatorSystem := ProtoMember key |}).
  assert (Hl : heap σ' !! v = Some o').
  { unfold Vec.config, mbind, M_bind, deref in Hc. rewrite Ho in Hc.
    simpl in Hc. rewrite (registry_get_inherited _ Hkey) in Hc.
    injection Hc as <-. simpl. by apply list_lookup_insert_eq. }
  split; [exact Hl|].
  split; [by rewrite (eval_x _ _ _ Hl), (eval_x _ _ _ Ho)|].
  split; [by rewrite (eval_y _ _ _ Hl), (eval_y _ _ _ Ho)|].
  split; [|split].
  - intros m vec.
    assert (HX : ∀ f name, ∃ msg,
              methodX (sys_binary f name) v vec σ' = Throw (TypeError msg))
      by (intros; by eapply inherited_methodX).
    assert (HY : ∀ f name, ∃ msg,
              methodY (sys_binary f name) v vec σ' = Throw (TypeError msg))
      by (intros; by eapply inherited_methodY).
    assert (HXY : ∀ f name, ∃ msg,
              eval (w ← methodX (sys_binary f name) v vec;
                    methodY (sys_binary f name) w vec) σ'
              = Throw (TypeError msg)).
    { intros f name. destruct (HX f name) as [msg H]. exists msg.
      by apply eval_bind_Throw. }
    destruct m; simpl.
    + destruct (HX plus "plus") as [msg H]. exists msg. by apply eval_Throw.
    + destruct (HY plus "plus") as [msg H]. exists msg. by apply eval_Throw.
    + apply (HXY plus "plus").
    + destruct (HX minus "minus") as [msg H]. exists msg. by apply eval_Throw.
    + destruct (HY minus "minus") as [msg H]. exists msg. by apply eval_Throw.
    + apply (HXY minus "minus").
    + destruct (HX divide "divide") as [msg H]. exists msg. by apply eval_Throw.
    + destruct (HY divide "divide") as [msg H]. exists msg. by apply eval_Throw.
    + apply (HXY divide "divide").
    + destruct (HX multiply "multiply") as [msg H]. exists msg.
      by apply eval_Throw.
    + destruct (HY multiply "multiply") as [msg H]. exists msg.
      by apply eval_Throw.
    + apply (HXY multiply "multiply").
  - destruct (JS.toString (_x o)) as [sx|e] eqn:Hx;
      [destruct (JS.toString (_y o)) as [sy|e] eqn:Hy|].
    + destruct (length_eval σ' v o' sx sy Hl Hx Hy) as [_ ->]. simpl. eauto.
    + unfold Vec.length, Vec.lengthSq.
      rewrite eval_bind, (eval_system_of _ _ _ Hl), res_bind_Ok by eauto with vec.
      rewrite eval_bind by eauto with vec.
      rewrite eval_bind, (eval_system_of _ _ _ Hl), res_bind_Ok by eauto with vec.
      rewrite eval_bind, (eval_x _ _ _ Hl) by eauto with vec. simpl _x.
      rewrite Hx, res_bind_Ok.
      rewrite eval_bind, (eval_x _ _ _ Hl) by eauto with vec. simpl _x.
      rewrite Hx, res_bind_Ok.
      rewrite eval_bind, eval_lift by eauto with vec. simpl. eauto.
    + apply toString_Throw in Hx as Hx'. subst e.
      unfold Vec.length, Vec.lengthSq.
      rewrite eval_bind, (eval_system_of _ _ _ Hl), res_bind_Ok by eauto with vec.
      rewrite eval_bind by eauto with vec.
      rewrite eval_bind, (eval_system_of _ _ _ Hl), res_bind_Ok by eauto with vec.
      rewrite eval_bind, (eval_x _ _ _ Hl) by eauto with vec. simpl _x.
      rewrite Hx. simpl. eauto.
  - rewrite (isZero_eval _ _ _ Hl). simpl _x.
    destruct (JS.toString (_x o)) as [sx|e] eqn:Hx.
    + simpl. eauto.
    + apply toString_Throw in Hx as ->. simpl. eauto.
Qed.

Lemma inherited_name_has_no_operations_witness :
  ∃ σ',
    Vec.config 0%nat (Some (SystemName "toString")) two_vectors = Ok (tt, σ')
    ∧ eval (Vec.x 0%nat) σ' = eval (Vec.x 0%nat) two_vectors
    ∧ ∃ msg, eval (Vec.add 0%nat (Vec 1%nat)) σ' = Throw (TypeError msg).
Proof.
  destruct (returns (Vec.config 0%nat (Some (SystemName "toString")))
              two_vectors) as ([] & σ' & E); [vm_compute; reflexivity|].
  exists σ'. split; [exact E|].
  destruct (inherited_name_has_no_operations "toString" two_vectors 0%nat
              {| _x := VNum 100; _y := VNum 50;
                 operatorSystem := OS BigOperatorSystem |} σ')
    as (_ & Hx & _ & Hm & _).
  - apply (bool_decide_eq_true_1 _). vm_compute. reflexivity.
  - reflexivity.
  - exact E.
  - split; [exact Hx|]. exact (Hm Vec.Add (Vec 1%nat)).
Defined.
(** ** Projecting a Vector onto itself *)

Lemma div_self b :
  BigSpec.canonical b → BigJs.div b b = Ok (BigSpec.unit false).
Proof.
  intros Hb. pose proof Hb as [Hc Hm]. unfold BigJs.div.
  rewrite (canonical_nonzero _ Hb), xorb_nilpotent.
  replace (BigJs.expo b - BigJs.expo b + BigJs.DP) with 20
    by (unfold BigJs.DP; lia).
  change (0 <=? 20) with true. cbv iota.
  set (c := Z.of_N (BigJs.coef b)) in *.
  replace ((2 * (c * 10 ^ 20) + c) / (2 * c)) with (1 * 10 ^ 20).
  - rewrite make_pow10 by done. reflexivity.
  - apply Z.div_unique with c; lia.
Qed.

Lemma times_unit X :
  BigSpec.normal X →
  BigJs.toString (BigJs.times (BigSpec.unit false) X) = BigJs.toString X.
Proof.
  intros HX. unfold BigJs.times. simpl BigJs.is_zero at 1. rewrite orb_false_l.
  destruct (BigJs.is_zero X) eqn:HZ.
  - rewrite (normal_zero _ HX HZ). by destruct (BigJs.neg X).
  - destruct (normal_canonical _ HX HZ) as [Hc Hm].
    cbn [BigJs.neg BigJs.coef BigJs.expo BigSpec.unit xorb].
    change (Z.of_N 1) with 1. rewrite Z.mul_1_l, Z.add_0_l.
    rewrite make_canonical by done. destruct X. simpl. by rewrite N2Z.id.
Qed.

Lemma mag_pos x e0 :
  BigSpec.canonical x → e0 <= BigJs.expo x → 0 < BigJs.mag x e0.
Proof.
  intros [Hc _] He. unfold BigJs.mag.
  apply Z.mul_pos_pos; [done|]. apply Z.pow_pos_nonneg; lia.
Qed.

Lemma sum_of_squares_nonzero X Y :
  BigSpec.normal X → BigSpec.normal Y →
  BigJs.is_zero X = false ∨ BigJs.is_zero Y = false →
  BigSpec.canonical (BigJs.plus (BigJs.times X X) (BigJs.times Y Y)).
Proof.
  intros HX HY Hnz.
  destruct (BigJs.is_zero X) eqn:ZX, (BigJs.is_zero Y) eqn:ZY.
  - by destruct Hnz.
  - pose proof (normal_canonical _ HY ZY) as CY.
    rewrite (times_zero_self _ ZX), (times_self _ CY), plus_zero_square by done.
    by apply square_spec.
  - pose proof (normal_canonical _ HX ZX) as CX.
    rewrite (times_zero_self _ ZY), (times_self _ CX), plus_square_zero by done.
    by apply square_spec.
  - pose proof (normal_canonical _ HX ZX) as CX.
    pose proof (normal_canonical _ HY ZY) as CY.
    rewrite (times_self _ CX), (times_self _ CY).
    destruct (square_spec _ CX) as (NX & SX & _).
    destruct (square_spec _ CY) as (NY & SY & _).
    unfold BigJs.plus, BigJs.plus_same. rewrite NX, NY. simpl Bool.eqb. cbv iota.
    rewrite (canonical_nonzero _ SX), (canonical_nonzero _ SY). simpl orb.
    cbv iota. apply make_spec.
    apply Z.add_pos_pos; apply mag_pos; auto; lia.
Qed.

Lemma projectOnto_run σ v o sx sy :
  heap σ !! v = Some o →
  JS.toString (_x o) = Ok sx → JS.toString (_y o) = Ok sy →
  Vec.projectOnto v v σ =
    match (sq ← C5.lengthSq_of (operatorSystem o) sx sy;
           coeff ← sys_divide (operatorSystem o) (VStr sq) (VStr sq);
           px ← sys_multiply (operatorSystem o) coeff (VStr sx);
           py ← sys_multiply (operatorSystem o) coeff (VStr sy);
           Ok (px, py)) with
    | Ok (px, py) => Vec.new px py σ
    | Throw e => Throw e
    end.
Proof.
  intros Ho Hx Hy. unfold Vec.projectOnto.
  destruct (length_eval σ v o sx sy Ho Hx Hy) as [Hsq _].
  rewrite read_only_run, (eval_system_of _ _ _ Ho) by eauto with vec.
  rewrite read_only_run by eauto with vec.
  change (Vec.dot v v) with (Vec.lengthSq v). rewrite Hsq.
  destruct (C5.lengthSq_of (operatorSystem o) sx sy) as [sq|]; [|done].
  rewrite res_bind_Ok, read_only_run, Hsq by eauto with vec.
  rewrite lift_bind.
  destruct (sys_divide (operatorSystem o) (VStr sq) (VStr sq)) as [coeff|];
    [|done].
  rewrite res_bind_Ok, read_only_run, (eval_x _ _ _ Ho), Hx by eauto with vec.
  rewrite lift_bind.
  destruct (sys_multiply (operatorSystem o) coeff (VStr sx)) as [px|]; [|done].
  rewrite res_bind_Ok, read_only_run, (eval_y _ _ _ Ho), Hy by eauto with vec.
  rewrite lift_bind.
  by destruct (sys_multiply (operatorSystem o) coeff (VStr sy)) as [py|].
Qed.

(** X22: Under the arbitrary-precision system, for a Vector [v] whose
    coordinates are valid decimal numerals, [v.projectOnto(v)] has the
    coordinates of [v], in the rendering of big.js, when [v] is not the
    zero Vector, and throws big.js's division-by-zero error when it is. *)
Theorem projectOnto_itself
    (σ : state) (v : loc) (o : Vector) (sx sy : string) (X Y : BigJs.Big) :
  heap σ !! v = Some o → operatorSystem o = OS BigOperatorSystem →
  JS.toString (_x o) = Ok sx → JS.toString (_y o) = Ok sy →
  BigJs.parse sx = Ok X → BigJs.parse sy = Ok Y →
  eval (coordinates (Vec.projectOnto v v)) σ =
    if BigJs.is_zero X && BigJs.is_zero Y then Throw BigJs.DIV_BY_ZERO
    else Ok (BigJs.toString X, BigJs.toString Y).
Proof.
  intros Ho Hos Hx Hy HX HY.
  pose proof (parse_normal _ _ HX) as NX. pose proof (parse_normal _ _ HY) as NY.
  pose proof (projectOnto_run σ v o sx sy Ho Hx Hy) as Hrun.
  destruct (Big_length_of sx sy X Y HX HY) as (_ & Hsq & _).
  rewrite Hos, Hsq, res_bind_Ok in Hrun.
  set (B := BigJs.plus (BigJs.times X X) (BigJs.times Y Y)) in *.
  assert (HB : BigSpec.normal B) by (apply plus_normal; apply times_normal).
  unfold sys_divide, sys_multiply, sys_binary in Hrun.
  cbn [divide multiply BigOperatorSystem] in Hrun.
  change (JS.new_Big (VStr (BigJs.toString B)))
    with (BigJs.parse (BigJs.toString B)) in Hrun.
  change (JS.new_Big (VStr sx)) with (BigJs.parse sx) in Hrun.
  change (JS.new_Big (VStr sy)) with (BigJs.parse sy) in Hrun.
  rewrite (parse_toString_normal _ HB), !res_bind_Ok in Hrun.
  destruct (BigJs.is_zero X && BigJs.is_zero Y) eqn:Hz.
  - apply andb_true_iff in Hz as [ZX ZY].
    assert (HB0 : B = BigJs.zero false).
    { unfold B. by rewrite (times_zero_self _ ZX), (times_zero_self _ ZY). }
    rewrite HB0 in Hrun. apply coordinates_Throw. exact Hrun.
  - assert (CB : BigSpec.canonical B).
    { apply sum_of_squares_nonzero; [done|done|].
      destruct (BigJs.is_zero X); [right|by left]. by destruct (BigJs.is_zero Y). }
    unfold BigSpec.reread in Hrun.
    rewrite (canonical_nonzero _ CB), (div_self _ CB), res_bind_Ok in Hrun.
    rewrite !res_bind_Ok in Hrun. cbn [JS.new_Big] in Hrun.
    rewrite !res_bind_Ok, HX, !res_bind_Ok, HY, !res_bind_Ok in Hrun.
    destruct (new_lookup (VBig (BigJs.times (BigSpec.unit false) X))
                (VBig (BigJs.times (BigSpec.unit false) Y)) σ)
      as (σ' & Hn & _ & Hl).
    rewrite Hn in Hrun. rewrite (coordinates_at _ _ _ _ _ Hrun Hl).
    cbn [_x _y JS.toString JS.or_else JS.truthy]. rewrite !res_bind_Ok.
    by rewrite !times_unit.
Qed.

Lemma projectOnto_itself_witness :
  eval (coordinates (Vec.projectOnto 0%nat 0%nat)) C5.on_x_axis
    = Ok ("-2.5", "0").
Proof.
  apply (projectOnto_itself C5.on_x_axis 0%nat
           {| _x := VStr "-2.5"; _y := VNum 0;
              operatorSystem := OS BigOperatorSystem |} "-2.5" "0"
           {| BigJs.neg := true; BigJs.coef := 25; BigJs.expo := -1 |}
           (BigJs.zero false)).
  - reflexivity.
  - reflexivity.
  - reflexivity.
  - vm_compute. reflexivity.
  - vm_compute. reflexivity.
  - vm_compute. reflexivity.
Defined.
(** ** The numbers the arbitrary-precision system accepts *)

Lemma digit_list_substring s n m :
  Literal.digit_list (list_ascii_of_string s) →
  Literal.digit_list (list_ascii_of_string (substring n m s)).
Proof. apply Forall_substring. Qed.

Lemma exponent_chars E :
  list_ascii_of_string
    ("e" ++ (if 0 <=? E then "+" else "-") ++ Chars.digits (Z.abs E)) =
  ((if E <? 0 then ["e"%char] else ["e"%char; "+"%char]) ++ Chars.int_chars E)%list.
Proof.
  unfold Chars.int_chars, Chars.digit_chars.
  destruct (Z.leb_spec 0 E) as [H|H], (Z.ltb_spec E 0) as [H'|H']; try lia.
  - simpl. by rewrite Z.abs_eq.
  - simpl. by rewrite Z.abs_neq by lia.
Qed.

(** The rendering of a finite number, its sign apart, is a decimal
    literal. *)
Lemma parse_decimal_format s k n :
  ∃ m e, Chars.parse_decimal (list_ascii_of_string (Num.format_digits s k n))
         = Some (m, e).
Proof.
  pose proof (digit_chars_digits s) as Hd.
  pose proof (digit_chars_nonempty s) as Hne.
  unfold Chars.digit_chars in Hd, Hne.
  destruct (digits_head s) as (c & l & Hs & Hc).
  unfold Num.format_digits, Chars.take, Chars.drop.
  destruct ((k <=? n) && (n <=? 21)).
  { rewrite list_ascii_app. unfold Chars.zeros.
    rewrite list_ascii_of_string_of_list_ascii.
    rewrite <- (app_nil_r (_ ++ _)%list). eexists _, _.
    apply parse_decimal_int; [|by rewrite Hs|done|done].
    apply Forall_app. split; [done|apply zero_chars_digits]. }
  destruct ((0 <? n) && (n <=? 21)) eqn:E2.
  { apply andb_true_iff in E2 as [E2 _]. apply Z.ltb_lt in E2.
    destruct (take_head (Z.to_nat n) _ c l ltac:(lia) Hs) as (l' & Hl').
    rewrite !list_ascii_app.
    change (list_ascii_of_string ".") with ["."%char].
    rewrite <- (app_nil_r (list_ascii_of_string (substring (Z.to_nat n) _ _))).
    eexists _, _.
    apply (parse_decimal_frac _ _ [] 0);
      [by apply digit_list_substring|by apply digit_list_substring
      |by rewrite Hl'|done|done]. }
  destruct ((-6 <? n) && (n <=? 0)).
  { rewrite !list_ascii_app. unfold Chars.zeros.
    rewrite list_ascii_of_string_of_list_ascii.
    change (list_ascii_of_string "0.") with (["0"%char] ++ ["."%char])%list.
    rewrite <- (app_nil_r (list_ascii_of_string (Chars.digits s))).
    rewrite <- !app_assoc. simpl app at 2. rewrite app_assoc.
    eexists _, _.
    apply (parse_decimal_frac ["0"%char] _ [] 0); try done.
    - by repeat constructor.
    - apply Forall_app. split; [apply zero_chars_digits|done]. }
  destruct (k =? 1).
  { rewrite list_ascii_app, exponent_chars. eexists _, _.
    apply parse_decimal_int; [done|by rewrite Hs|apply ends_mantissa_render
                             |apply parse_exponent_render]. }
  destruct (take_head (Z.to_nat 1) _ c l ltac:(lia) Hs) as (l' & Hl').
  do 3 rewrite list_ascii_app. change (list_ascii_of_string ".") with ["."%char].
  rewrite exponent_chars. eexists _, _.
  apply (parse_decimal_frac
           (list_ascii_of_string (substring 0 (Z.to_nat 1) (Chars.digits s)))
           (list_ascii_of_string
              (substring (Z.to_nat 1) _ (Chars.digits s))) _ (n - 1));
    [by apply digit_list_substring|by apply digit_list_substring
    |by rewrite Hl'|apply ends_mantissa_render|apply parse_exponent_render].
Qed.

Lemma parse_Ok_unsigned (F : string) m e :
  Literal.numeral (list_ascii_of_string F) →
  Chars.parse_decimal (list_ascii_of_string F) = Some (m, e) →
  BigJs.parse F = Ok (BigJs.make false m e)
  ∧ BigJs.parse ("-" ++ F) = Ok (BigJs.make true m e).
Proof.
  intros (_ & c & l & Hl & Hc) Hp. unfold BigJs.parse.
  change (list_ascii_of_string ("-" ++ F))
    with ("-"%char :: list_ascii_of_string F).
  split.
  - rewrite Hl in Hp |- *. cbv beta iota.
    destruct (digit_not_sign _ Hc) as [-> _].
    cbv beta iota zeta. by rewrite Hp.
  - cbv beta iota. rewrite Ascii.eqb_refl. cbv beta iota zeta. by rewrite Hp.
Qed.

Lemma not_finite_cases (n : float) :
  C2.isFinite n = false → n = nan ∨ n = infinity ∨ n = neg_infinity.
Proof.
  unfold C2.isFinite. rewrite ltb_spec, abs_spec.
  change (Prim2SF infinity) with (S754_infinity false).
  intros H. rewrite <- (SF2Prim_Prim2SF n).
  destruct (Prim2SF n) as [s|s| |s m e]; simpl in H; try done.
  - right. by destruct s; [right|left].
  - by left.
Qed.

Lemma finite_not_minus_zero (n : float) s m e :
  Prim2SF n = S754_finite s m e → JS.is_minus_zero n = false.
Proof.
  intros H. unfold JS.is_minus_zero. rewrite FloatAxioms.eqb_spec, H.
  change (Prim2SF 0) with (S754_zero false). by destruct s.
Qed.

(** X23: [BigOperatorSystem.create] accepts every finite number and rejects the
    others, [NaN], [Infinity] and [-Infinity], with big.js's invalid-number
    error. *)
Theorem big_create_accepts_the_finite_numbers (n : float) :
  if C2.isFinite n
  then ∃ b, create BigOperatorSystem (VNum n) = Ok (VBig b)
  else create BigOperatorSystem (VNum n) = Throw BigJs.INVALID.
Proof.
  destruct (C2.isFinite n) eqn:Hf.
  - cbn [create BigOperatorSystem JS.new_Big].
    destruct (isFinite_cases n Hf) as [[s Hs] | (s & m & e & Hs)].
    + rewrite <- (SF2Prim_Prim2SF n), Hs. destruct s; eexists; by vm_compute.
    + rewrite (finite_not_minus_zero _ _ _ _ Hs).
      unfold Num.toString. rewrite Hs. simpl Num.SF_toString.
      destruct (Num.shortest m e) as [[s' k] n'].
      destruct (parse_decimal_format s' k n') as (m' & e' & Hp).
      destruct (parse_Ok_unsigned _ m' e' (format_digits_numeral s' k n') Hp)
        as [H1 H2].
      destruct s.
      * rewrite H2. eexists. reflexivity.
      * change ("" ++ ?x) with x. rewrite H1. eexists. reflexivity.
  - destruct (not_finite_cases n Hf) as [-> | [-> | ->]]; by vm_compute.
Qed.
(** ** Rotation by an angle of cosine 1 and sine 0 *)

Section Rotation.
Variables Math_cos Math_sin : float → float.

Lemma rotate_run σ v o angle :
  heap σ !! v = Some o →
  Vec.rotate Math_cos Math_sin v angle σ =
    match (x1 ← JS.toString (_x o);
           a ← sys_multiply (operatorSystem o) (VStr x1)
                 (VNum (Math_cos (JS.ToNumber angle)));
           y1 ← JS.toString (_y o);
           b ← sys_multiply (operatorSystem o) (VStr y1)
                 (VNum (Math_sin (JS.ToNumber angle)));
           nx ← sys_minus (operatorSystem o) a b;
           c ← sys_multiply (operatorSystem o) (VStr x1)
                 (VNum (Math_sin (JS.ToNumber angle)));
           d ← sys_multiply (operatorSystem o) (VStr y1)
                 (VNum (Math_cos (JS.ToNumber angle)));
           ny ← sys_plus (operatorSystem o) c d;
           Ok (nx, ny)) with
    | Ok (nx, ny) => Vec.new nx ny σ
    | Throw e => Throw e
    end.
Proof.
  intros Ho. unfold Vec.rotate.
  rewrite read_only_run, (eval_system_of _ _ _ Ho) by eauto with vec.
  rewrite read_only_run, (eval_x _ _ _ Ho) by eauto with vec.
  destruct (JS.toString (_x o)) as [x1|] eqn:Hx; [|done].
  rewrite res_bind_Ok, lift_bind.
  destruct (sys_multiply _ (VStr x1) (VNum (Math_cos _))) as [a|]; [|done].
  rewrite res_bind_Ok, read_only_run, (eval_y _ _ _ Ho) by eauto with vec.
  destruct (JS.toString (_y o)) as [y1|] eqn:Hy; [|done].
  rewrite res_bind_Ok, lift_bind.
  destruct (sys_multiply _ (VStr y1) (VNum (Math_sin _))) as [b|]; [|done].
  rewrite res_bind_Ok, lift_bind.
  destruct (sys_minus _ a b) as [nx|]; [|done].
  rewrite res_bind_Ok, read_only_run, (eval_x _ _ _ Ho), Hx by eauto with vec.
  rewrite lift_bind.
  destruct (sys_multiply _ (VStr x1) (VNum (Math_sin _))) as [c|]; [|done].
  rewrite res_bind_Ok, read_only_run, (eval_y _ _ _ Ho), Hy by eauto with vec.
  rewrite lift_bind.
  destruct (sys_multiply _ (VStr y1) (VNum (Math_cos _))) as [d|]; [|done].
  rewrite res_bind_Ok, lift_bind. by destruct (sys_plus _ c d).
Qed.
End Rotation.

Lemma times_unit_r X :
  BigSpec.normal X → BigJs.times X (BigSpec.unit false) = X.
Proof.
  intros HX. unfold BigJs.times. simpl BigJs.is_zero at 2. rewrite orb_false_r.
  destruct (BigJs.is_zero X) eqn:HZ.
  - rewrite (normal_zero _ HX HZ) at 2. simpl. by rewrite xorb_false_r.
  - destruct (normal_canonical _ HX HZ) as [Hc Hm].
    cbn [BigJs.neg BigJs.coef BigJs.expo BigSpec.unit].
    change (Z.of_N 1) with 1. rewrite Z.mul_1_r, Z.add_0_r, xorb_false_r.
    rewrite make_canonical by done. destruct X. simpl. by rewrite N2Z.id.
Qed.

Lemma toString_normal_zero X s :
  BigSpec.normal X → BigJs.is_zero X = true →
  BigJs.toString X = BigJs.toString (BigJs.zero s).
Proof.
  intros HX HZ. rewrite (normal_zero _ HX HZ).
  by destruct (BigJs.neg X), s.
Qed.

Lemma minus_zero_rendering X s :
  BigSpec.normal X →
  BigJs.toString (BigJs.minus X (BigJs.zero s)) = BigJs.toString X.
Proof.
  intros HX. unfold BigJs.minus, BigJs.minus_same, BigJs.plus_same.
  change (BigJs.is_zero (BigJs.negate (BigJs.zero s))) with true.
  change (BigJs.is_zero (BigJs.zero s)) with true.
  rewrite orb_true_r. simpl negb at 1 3.
  destruct (Bool.eqb _ _); cbv iota;
    destruct (BigJs.is_zero X) eqn:HZ; simpl negb; cbv iota; try done;
    symmetry; by apply toString_normal_zero.
Qed.

Lemma zero_plus_rendering Y s :
  BigSpec.normal Y →
  BigJs.toString (BigJs.plus (BigJs.zero s) Y) = BigJs.toString Y.
Proof.
  intros HY. unfold BigJs.plus, BigJs.minus_same, BigJs.plus_same.
  change (BigJs.is_zero (BigJs.negate Y)) with (BigJs.is_zero Y).
  change (BigJs.is_zero (BigJs.zero s)) with true. simpl orb. cbv iota.
  destruct (Bool.eqb _ _);
    destruct (BigJs.is_zero Y) eqn:HZ; simpl negb; cbv iota;
    rewrite ?Big_negate_negate; try done;
    symmetry; by apply toString_normal_zero.
Qed.

Lemma new_Big_one : JS.new_Big (VNum 1) = Ok (BigSpec.unit false).
Proof. vm_compute. reflexivity. Qed.

(** X24: Under the arbitrary-precision system, for a Vector whose coordinates
    are valid decimal numerals, rotating by an angle whose cosine is [1]
    and whose sine is [0], as those of the angle [0] are, gives the
    coordinates of the Vector, in the rendering of big.js. *)
Theorem rotate_by_a_zero_angle
    (Math_cos Math_sin : float → float)
    (σ : state) (v : loc) (o : Vector) (angle : value)
    (sx sy : string) (X Y : BigJs.Big) :
  Math_cos (JS.ToNumber angle) = 1%float →
  Math_sin (JS.ToNumber angle) = 0%float →
  heap σ !! v = Some o → operatorSystem o = OS BigOperatorSystem →
  JS.toString (_x o) = Ok sx → JS.toString (_y o) = Ok sy →
  BigJs.parse sx = Ok X → BigJs.parse sy = Ok Y →
  eval (coordinates (Vec.rotate Math_cos Math_sin v angle)) σ =
    Ok (BigJs.toString X, BigJs.toString Y).
Proof.
  intros Hcos Hsin Ho Hos Hx Hy HX HY.
  pose proof (parse_normal _ _ HX) as NX. pose proof (parse_normal _ _ HY) as NY.
  pose proof (rotate_run Math_cos Math_sin σ v o angle Ho) as Hrun.
  rewrite Hcos, Hsin, Hos, Hx, Hy in Hrun.
  unfold sys_multiply, sys_minus, sys_plus, sys_binary in Hrun.
  cbn [multiply minus plus BigOperatorSystem] in Hrun.
  rewrite new_Big_one, new_Big_zero in Hrun.
  repeat first
    [ rewrite res_bind_Ok in Hrun
    | progress cbn [JS.new_Big] in Hrun
    | rewrite HX in Hrun
    | rewrite HY in Hrun ].
  rewrite !times_unit_r in Hrun by done.
  destruct (new_lookup
              (VBig (BigJs.minus X (BigJs.times Y (BigJs.zero false))))
              (VBig (BigJs.plus (BigJs.times X (BigJs.zero false)) Y)) σ)
    as (σ' & Hn & _ & Hl).
  rewrite Hn in Hrun. rewrite (coordinates_at _ _ _ _ _ Hrun Hl).
  cbn [_x _y JS.toString JS.or_else JS.truthy]. rewrite !res_bind_Ok.
  assert (HZ : ∀ B, BigJs.times B (BigJs.zero false)
                    = BigJs.zero (xorb (BigJs.neg B) false)).
  { intros B. unfold BigJs.times. simpl BigJs.is_zero at 2.
    by rewrite orb_true_r. }
  by rewrite !HZ, minus_zero_rendering, zero_plus_rendering.
Qed.

Lemma rotate_by_a_zero_angle_witness :
  eval (coordinates (Vec.rotate (λ a, 1 - a)%float (λ a, a) 0%nat (VNum 0)))
    C5.on_x_axis = Ok ("-2.5", "0").
Proof.
  apply (rotate_by_a_zero_angle (λ a, 1 - a)%float (λ a, a) C5.on_x_axis 0%nat
           {| _x := VStr "-2.5"; _y := VNum 0;
              operatorSystem := OS BigOperatorSystem |} (VNum 0) "-2.5" "0"
           {| BigJs.neg := true; BigJs.coef := 25; BigJs.expo := -1 |}
           (BigJs.zero false)).
  - vm_compute. reflexivity.
  - reflexivity.
  - reflexivity.
  - reflexivity.
  - reflexivity.
  - vm_compute. reflexivity.
  - vm_compute. reflexivity.
  - vm_compute. reflexivity.
Defined.

(** * Doubles, their rendering and the Vectors on an axis *)
(** * Rounding to the nearest double *)



Lemma shr_1_spec m r s :
  0 <= m →
  shr_1 {| shr_m := m; shr_r := r; shr_s := s |}
  = {| shr_m := m / 2; shr_r := Z.odd m; shr_s := r || s |}.
Proof.
  intros Hm. rewrite <- Z.div2_div.
  by destruct m as [|[p|p|]|p].
Qed.

Lemma iter_pos_nat {A} (f : A → A) p x :
  SpecFloat.iter_pos f p x = Nat.iter (Pos.to_nat p) f x.
Proof.
  revert x. induction p as [p IH|p IH|]; intros x; simpl SpecFloat.iter_pos.
  - rewrite !IH, Pos2Nat.inj_xI.
    change (S (2 * Pos.to_nat p)) with (1 + 2 * Pos.to_nat p)%nat.
    replace (1 + 2 * Pos.to_nat p)%nat
      with (Pos.to_nat p + (Pos.to_nat p + 1))%nat by lia.
    rewrite !Nat.iter_add. done.
  - rewrite !IH, Pos2Nat.inj_xO.
    replace (2 * Pos.to_nat p)%nat with (Pos.to_nat p + Pos.to_nat p)%nat by lia.
    by rewrite Nat.iter_add.
  - done.
Qed.

Lemma shr_iter M n :
  0 <= M →
  Nat.iter (S n) shr_1 {| shr_m := M; shr_r := false; shr_s := false |}
  = {| shr_m := M / 2 ^ (Z.of_nat n + 1);
       shr_r := Z.odd (M / 2 ^ Z.of_nat n);
       shr_s := negb (M mod 2 ^ Z.of_nat n =? 0) |}.
Proof.
  intros HM. induction n as [|n IH].
  - change (Nat.iter 1 shr_1 ?x) with (shr_1 x). rewrite shr_1_spec by done.
    change (2 ^ (Z.of_nat 0 + 1)) with 2. change (2 ^ Z.of_nat 0) with 1.
    by rewrite Z.div_1_r, Z.mod_1_r.
  - change (Nat.iter (S (S n)) shr_1 ?x) with (shr_1 (Nat.iter (S n) shr_1 x)).
    rewrite IH, shr_1_spec by (apply Z.div_pos; [done|apply Z.pow_pos_nonneg; lia]).
    assert (H2 : 0 < 2 ^ Z.of_nat n) by (apply Z.pow_pos_nonneg; lia).
    replace (Z.of_nat (S n)) with (Z.of_nat n + 1) by lia.
    rewrite Z.div_div by lia.
    replace (2 ^ (Z.of_nat n + 1) * 2) with (2 ^ (Z.of_nat n + 1 + 1))
      by (rewrite (Z.pow_add_r 2 (Z.of_nat n + 1) 1) by lia; done).
    f_equal.
    rewrite (Z.pow_add_r 2 (Z.of_nat n) 1) by lia. change (2 ^ 1) with 2.
    rewrite Z.rem_mul_r by lia.
    set (a := M mod 2 ^ Z.of_nat n). set (b := M / 2 ^ Z.of_nat n).
    assert (Ha : 0 <= a < 2 ^ Z.of_nat n) by (apply Z.mod_pos_bound; lia).
    rewrite Zmod_odd.
    destruct (Z.odd b); destruct (Z.eqb_spec a 0); simpl.
    all: match goal with |- _ = negb (?t =? 0) =>
           destruct (Z.eqb_spec t 0); simpl; [nia || done|nia || done] end.
Qed.

Lemma shr_spec M p :
  0 <= M →
  SpecFloat.iter_pos shr_1 p {| shr_m := M; shr_r := false; shr_s := false |}
  = {| shr_m := M / 2 ^ Z.pos p;
       shr_r := Z.odd (M / 2 ^ (Z.pos p - 1));
       shr_s := negb (M mod 2 ^ (Z.pos p - 1) =? 0) |}.
Proof.
  intros HM. rewrite iter_pos_nat.
  destruct (Pos2Nat.is_succ p) as [n Hn]. rewrite Hn, shr_iter by done.
  replace (Z.of_nat n) with (Z.pos p - 1) by lia.
  by replace (Z.pos p - 1 + 1) with (Z.pos p) by lia.
Qed.

Lemma round_shr M p :
  0 <= M →
  let mrs := SpecFloat.iter_pos shr_1 p {| shr_m := M; shr_r := false; shr_s := false |} in
  round_nearest_even (shr_m mrs) (loc_of_shr_record mrs) = Rnd.rne M (Z.pos p).
Proof.
  intros HM mrs. unfold mrs. rewrite shr_spec by done.
  unfold Rnd.rne.
  assert (H2 : 0 < 2 ^ (Z.pos p - 1)) by (apply Z.pow_pos_nonneg; lia).
  assert (Hp : 2 ^ Z.pos p = 2 ^ (Z.pos p - 1) * 2).
  { replace (Z.pos p) with (Z.pos p - 1 + 1) at 1 by lia.
    by rewrite Z.pow_add_r by lia. }
  rewrite Hp. rewrite Z.rem_mul_r by lia.
  set (a := M mod 2 ^ (Z.pos p - 1)). set (b := M / 2 ^ (Z.pos p - 1)).
  assert (Ha : 0 <= a < 2 ^ (Z.pos p - 1)) by (apply Z.mod_pos_bound; lia).
  assert (Hq : M / (2 ^ (Z.pos p - 1) * 2) = b / 2).
  { unfold b. by rewrite Z.div_div by lia. }
  rewrite <- Z.div_div by lia. fold b. rewrite Zmod_odd.
  cbn [shr_m]. 
  destruct (Z.odd b); destruct (Z.eqb_spec a 0); simpl negb; cbn [loc_of_shr_record round_nearest_even].
  - rewrite (proj2 (Z.ltb_ge _ _)) by nia. rewrite (proj2 (Z.ltb_ge _ _)) by nia. done.
  - rewrite (proj2 (Z.ltb_ge _ _)) by nia. rewrite (proj2 (Z.ltb_lt _ _)) by nia. done.
  - by rewrite (proj2 (Z.ltb_lt _ _)) by nia.
  - by rewrite (proj2 (Z.ltb_lt _ _)) by nia.
Qed.

Lemma digits2_bounds p :
  2 ^ (Z.pos (digits2_pos p) - 1) <= Z.pos p < 2 ^ Z.pos (digits2_pos p).
Proof.
  induction p as [p IH|p IH|]; [| |by compute].
  - change (digits2_pos p~1) with (Pos.succ (digits2_pos p)).
    rewrite Pos2Z.inj_succ.
    replace (Z.succ (Z.pos (digits2_pos p)) - 1)
      with (Z.succ (Z.pos (digits2_pos p) - 1)) by lia.
    rewrite !Z.pow_succ_r by lia. lia.
  - change (digits2_pos p~0) with (Pos.succ (digits2_pos p)).
    rewrite Pos2Z.inj_succ.
    replace (Z.succ (Z.pos (digits2_pos p)) - 1)
      with (Z.succ (Z.pos (digits2_pos p) - 1)) by lia.
    rewrite !Z.pow_succ_r by lia. lia.
Qed.

Lemma digits2_unique p k :
  2 ^ (k - 1) <= Z.pos p < 2 ^ k → Z.pos (digits2_pos p) = k.
Proof.
  intros [H1 H2]. destruct (digits2_bounds p) as [H3 H4].
  set (d := Z.pos (digits2_pos p)) in *.
  assert (Hd : 0 < d) by (unfold d; lia).
  assert (Hk : 0 < k).
  { destruct (Z.lt_trichotomy k 0) as [Hk|[->|Hk]]; [|change (2 ^ 0) with 1 in H2; lia|done].
    rewrite Z.pow_neg_r in H2 by done. lia. }
  assert (k - 1 < d) by (apply (Z.pow_lt_mono_r_iff 2); lia).
  assert (d - 1 < k) by (apply (Z.pow_lt_mono_r_iff 2); lia).
  lia.
Qed.

Lemma bra_exact sx p E n :
  n = fexp prec emax (Zdigits2 (Z.pos p) + E) - E → 0 < n →
  binary_round_aux prec emax sx (Z.pos p) E loc_Exact
  = Rnd.finish sx (Rnd.rne (Z.pos p) n) (E + n).
Proof.
  intros Hn Hpos. unfold binary_round_aux, shr_fexp at 1. rewrite <- Hn.
  destruct n as [|pn|pn]; try lia.
  unfold shr. cbv beta iota. cbn [shr_record_of_loc].
  rewrite (round_shr (Z.pos p) pn) by lia. reflexivity.
Qed.

Lemma bra_noshift sx q e l :
  fexp prec emax (Zdigits2 q + e) - e <= 0 →
  binary_round_aux prec emax sx q e l
  = Rnd.finish sx (round_nearest_even q l) e.
Proof.
  intros Hn. unfold binary_round_aux, shr_fexp at 1.
  destruct (fexp prec emax (Zdigits2 q + e) - e) as [|pn|pn]; try lia.
  - unfold shr. cbv beta iota. by destruct l as [|[]].
  - unfold shr. cbv beta iota. by destruct l as [|[]].
Qed.

Lemma fexp_eq k : fexp prec emax k = Z.max (k - 53) (-1074).
Proof. reflexivity. Qed.

Lemma finish_normal sx m e :
  2 ^ 52 <= m < 2 ^ 53 → -1074 <= e <= 971 →
  Rnd.finish sx m e = S754_finite sx (Z.to_pos m) e.
Proof.
  intros Hm He. destruct m as [|p|p]; try lia.
  unfold Rnd.finish, shr_fexp. cbn [Zdigits2].
  rewrite (digits2_unique p 53) by done. rewrite fexp_eq.
  replace (Z.max (53 + e - 53) (-1074) - e) with 0 by lia.
  cbn [shr shr_record_of_loc shr_m]. 
  change (emax - prec) with 971.
  by rewrite (proj2 (Z.leb_le e 971)) by lia.
Qed.

Lemma finish_carry sx e :
  -1075 <= e <= 970 →
  Rnd.finish sx (2 ^ 53) e = S754_finite sx (Z.to_pos (2 ^ 52)) (e + 1).
Proof.
  intros He. unfold Rnd.finish, shr_fexp.
  change (Zdigits2 (2 ^ 53)) with 54. rewrite fexp_eq.
  replace (Z.max (54 + e - 53) (-1074) - e) with 1 by lia.
  cbn [shr]. change (emax - prec) with 971.
  change (SpecFloat.iter_pos shr_1 1 (shr_record_of_loc (2 ^ 53) loc_Exact))
    with {| shr_m := 2 ^ 52; shr_r := false; shr_s := false |}.
  cbn [shr_m]. change (2 ^ 52) with (Z.pos (Z.to_pos (2 ^ 52))).
  cbv iota beta.
  by rewrite (proj2 (Z.leb_le (e + 1) 971)) by lia.
Qed.

Lemma rne_near M n m :
  0 <= n →
  (2 * m - 1) * 2 ^ n < 2 * M < (2 * m + 1) * 2 ^ n →
  Rnd.rne M n = m.
Proof.
  intros Hn [H1 H2]. unfold Rnd.rne.
  assert (HP : 0 < 2 ^ n) by (apply Z.pow_pos_nonneg; lia).
  pose proof (Z.div_mod M (2 ^ n) ltac:(lia)) as HM.
  pose proof (Z.mod_pos_bound M (2 ^ n) HP) as Hr.
  set (q := M / 2 ^ n) in *. set (r := M mod 2 ^ n) in *.
  set (P := 2 ^ n) in *.
  destruct (Z.ltb_spec (2 * r) P).
  - nia.
  - destruct (Z.ltb_spec P (2 * r)).
    + nia.
    + assert (Hr2 : 2 * r = P) by lia. exfalso.
      assert (H3 : (2 * m - 1) * P < (2 * q + 1) * P) by lia.
      assert (H4 : (2 * q + 1) * P < (2 * m + 1) * P) by lia.
      apply Z.mul_lt_mono_pos_r in H3; [|done].
      apply Z.mul_lt_mono_pos_r in H4; [|done]. lia.
Qed.

Lemma rne_error M n :
  0 <= n →
  - 2 ^ n <= 2 * (Rnd.rne M n * 2 ^ n - M) <= 2 ^ n.
Proof.
  intros Hn. unfold Rnd.rne.
  assert (HP : 0 < 2 ^ n) by (apply Z.pow_pos_nonneg; lia).
  pose proof (Z.div_mod M (2 ^ n) ltac:(lia)) as HM.
  pose proof (Z.mod_pos_bound M (2 ^ n) HP) as Hr.
  set (q := M / 2 ^ n) in *. set (r := M mod 2 ^ n) in *.
  set (P := 2 ^ n) in *.
  destruct (Z.ltb_spec (2 * r) P); [nia|].
  destruct (Z.ltb_spec P (2 * r)); [nia|].
  destruct (Z.even q); nia.
Qed.

Lemma rne_bounds M n a b :
  0 <= n → a * 2 ^ n <= M → M <= b * 2 ^ n →
  a <= Rnd.rne M n <= b.
Proof.
  intros Hn Ha Hb. unfold Rnd.rne.
  assert (HP : 0 < 2 ^ n) by (apply Z.pow_pos_nonneg; lia).
  pose proof (Z.div_mod M (2 ^ n) ltac:(lia)) as HM.
  pose proof (Z.mod_pos_bound M (2 ^ n) HP) as Hr.
  set (q := M / 2 ^ n) in *. set (r := M mod 2 ^ n) in *.
  set (P := 2 ^ n) in *.
  destruct (Z.ltb_spec (2 * r) P); [nia|].
  destruct (Z.ltb_spec P (2 * r)); [nia|].
  destruct (Z.even q); nia.
Qed.

(** ** The square root of a square *)

Lemma mul_square s mp e :
  2 ^ 52 <= Z.pos mp < 2 ^ 53 → -563 <= e <= 459 →
  ∃ M2 c,
    SFmul prec emax (S754_finite s mp e) (S754_finite s mp e)
      = S754_finite false (Z.to_pos M2) (2 * e + c)
    ∧ 2 ^ 52 <= M2 < 2 ^ 53 ∧ (c = 52 ∨ c = 53)
    ∧ Z.pos mp * Z.pos mp - Z.pos mp < M2 * 2 ^ c
        <= Z.pos mp * Z.pos mp + Z.pos mp.
Proof.
  intros HM He. cbn [SFmul]. rewrite xorb_nilpotent.
  rewrite Pos2Z.inj_mul. set (M := Z.pos mp) in *.
  change (Z.pos mp * Z.pos mp)%Z with (M * M).
  assert (HMM : 2 ^ 104 <= M * M <= (2 ^ 53 - 1) * (2 ^ 53 - 1)) by nia.
  destruct (Z.lt_ge_cases (M * M) (2 ^ 105)) as [Hlt|Hge].
  - (* 105 digits *)
    assert (Hd : Zdigits2 (M * M) = 105).
    { unfold M. rewrite <- Pos2Z.inj_mul. cbn [Zdigits2].
      apply digits2_unique. rewrite Pos2Z.inj_mul. fold M. 
      change (105 - 1) with 104. lia. }
    unfold M at 1 2. rewrite <- Pos2Z.inj_mul.
    rewrite (bra_exact false (mp * mp) (e + e) 52); [|
      rewrite Pos2Z.inj_mul; fold M; rewrite Hd, fexp_eq; lia|lia].
    rewrite Pos2Z.inj_mul. fold M.
    pose proof (rne_bounds (M * M) 52 (2 ^ 52) (2 ^ 53) ltac:(lia) ltac:(lia) ltac:(lia)) as Hb.
    pose proof (rne_error (M * M) 52 ltac:(lia)) as Herr.
    set (m1 := Rnd.rne (M * M) 52) in *.
    destruct (Z.eq_dec m1 (2 ^ 53)) as [Hc|Hc].
    + rewrite Hc, finish_carry by lia.
      exists (2 ^ 52), 53. split; [f_equal; lia|].
      split; [lia|]. split; [by right|].
      rewrite Hc in Herr. lia.
    + rewrite finish_normal by lia.
      exists m1, 52. split; [f_equal; lia|].
      split; [lia|]. split; [by left|]. lia.
  - (* 106 digits *)
    assert (Hd : Zdigits2 (M * M) = 106).
    { unfold M. rewrite <- Pos2Z.inj_mul. cbn [Zdigits2].
      apply digits2_unique. rewrite Pos2Z.inj_mul. fold M.
      change (106 - 1) with 105. lia. }
    unfold M at 1 2. rewrite <- Pos2Z.inj_mul.
    rewrite (bra_exact false (mp * mp) (e + e) 53); [|
      rewrite Pos2Z.inj_mul; fold M; rewrite Hd, fexp_eq; lia|lia].
    rewrite Pos2Z.inj_mul. fold M.
    pose proof (rne_bounds (M * M) 53 (2 ^ 52) (2 ^ 53 - 1) ltac:(lia) ltac:(lia) ltac:(lia)) as Hb.
    pose proof (rne_error (M * M) 53 ltac:(lia)) as Herr.
    set (m1 := Rnd.rne (M * M) 53) in *.
    rewrite finish_normal by lia.
    exists m1, 53. split; [f_equal; lia|].
    split; [lia|]. split; [by right|].
    assert (2 ^ 52 + 1 <= M) by nia. lia.
Qed.

Lemma sqrt_of_square mp e M2 c :
  2 ^ 52 <= Z.pos mp < 2 ^ 53 → -1074 <= e <= 971 →
  2 ^ 52 <= M2 < 2 ^ 53 → c = 52 ∨ c = 53 →
  Z.pos mp * Z.pos mp - Z.pos mp < M2 * 2 ^ c
    <= Z.pos mp * Z.pos mp + Z.pos mp →
  SFsqrt prec emax (S754_finite false (Z.to_pos M2) (2 * e + c))
  = S754_finite false mp e.
Proof.
  intros HM He HM2 Hc Hy. set (M := Z.pos mp) in *.
  cbn [SFsqrt]. unfold SFsqrt_core_binary.
  rewrite Z2Pos.id by lia.
  assert (Hd : Zdigits2 M2 = 53).
  { destruct M2 as [|p2|p2]; try lia. cbn [Zdigits2]. by apply digits2_unique. }
  rewrite Hd.
  assert (He' : Z.min (fexp prec emax (Z.div2 (53 + (2 * e + c) + 1)))
                  (Z.div2 (2 * e + c)) = e).
  { rewrite !Z.div2_div, fexp_eq.
    destruct Hc as [-> | ->].
    - replace (53 + (2 * e + 52) + 1) with ((e + 53) * 2) by lia.
      replace (2 * e + 52) with ((e + 26) * 2) by lia.
      rewrite !Z.div_mul by lia. lia.
    - replace (53 + (2 * e + 53) + 1) with (1 + (e + 53) * 2) by lia.
      replace (2 * e + 53) with (1 + (e + 26) * 2) by lia.
      rewrite !Z.div_add by lia. change (1 / 2) with 0. lia. }
  rewrite He'.
  replace (2 * e + c - 2 * e) with c by lia.
  assert (Hsh : match c with
                | 0 => M2 | Z.pos _ => Z.shiftl M2 c | Z.neg _ => 0
                end = M2 * 2 ^ c).
  { destruct Hc as [-> | ->]; by rewrite Z.shiftl_mul_pow2. }
  rewrite Hsh. set (y := M2 * 2 ^ c) in *.
  pose proof (Z.sqrtrem_spec y ltac:(lia)) as Hs.
  destruct (Z.sqrtrem y) as [q r]. destruct Hs as [Hs Hr].
  assert (Hq : (q = M ∧ r <= q) ∨ (q = M - 1 ∧ q < r)).
  { assert (H0 : 0 <= q) by nia.
    destruct (Z.le_gt_cases q (M - 2)) as [Hlo|Hlo].
    { assert ((q + 1) * (q + 1) <= (M - 1) * (M - 1))
        by (apply Z.mul_le_mono_nonneg; lia). lia. }
    destruct (Z.le_gt_cases (M + 1) q) as [Hhi|Hhi].
    { assert ((M + 1) * (M + 1) <= q * q)
        by (apply Z.mul_le_mono_nonneg; lia). lia. }
    assert (Hc' : q = M ∨ q = M - 1) by lia.
    destruct Hc' as [-> | ->]; [left|right]; split; lia. }
  assert (Hq53 : 0 < q < 2 ^ 53) by lia.
  rewrite bra_noshift.
  2:{ destruct q as [|pq|pq]; try lia. cbn [Zdigits2].
      pose proof (digits2_bounds pq) as [Hb _].
      assert (Z.pos (digits2_pos pq) - 1 < 53)
        by (apply (Z.pow_lt_mono_r_iff 2); lia).
      rewrite fexp_eq. lia. }
  assert (Hrn : round_nearest_even q
            (if r =? 0 then loc_Exact
             else loc_Inexact (if r <=? q then Lt else Gt)) = M).
  { destruct Hq as [[-> Hrq]|[-> Hrq]].
    - destruct (r =? 0); [done|].
      by rewrite (proj2 (Z.leb_le r M)) by done.
    - rewrite (proj2 (Z.eqb_neq r 0)) by lia.
      rewrite (proj2 (Z.leb_gt r (M - 1))) by done.
      cbn [round_nearest_even]. lia. }
  rewrite Hrn, finish_normal by lia. done.
Qed.

(** A valid double above the subnormal range has a mantissa of 53 bits. *)
Lemma valid_normal mp e :
  bounded prec emax mp e = true → -1074 < e →
  2 ^ 52 <= Z.pos mp < 2 ^ 53 ∧ e <= 971.
Proof.
  unfold bounded, canonical_mantissa. rewrite fexp_eq.
  intros [H1 H2]%andb_true_iff He.
  apply Z.eqb_eq in H1. apply Z.leb_le in H2. change (emax - prec) with 971 in H2.
  assert (Hd : Z.pos (digits2_pos mp) = 53) by lia.
  pose proof (digits2_bounds mp) as Hb. rewrite Hd in Hb.
  change (53 - 1) with 52 in Hb. lia.
Qed.

(** ** Rounding an integer mantissa that lies close to a double *)

Lemma pow2_pos n : 0 <= n → 0 < 2 ^ n.
Proof. intros. apply Z.pow_pos_nonneg; lia. Qed.

Lemma pow2_split n k : 0 <= k <= n → 2 ^ n = 2 ^ (n - k) * 2 ^ k.
Proof. intros. rewrite <- Z.pow_add_r by lia. f_equal. lia. Qed.

(** [M * 2 ^ E], at most a quarter of a unit in the last place below the
    normal double [m * 2 ^ e], rounds to it. *)
Lemma normalize_near (M E : Z) (mp : positive) (e : Z) :
  2 ^ 52 <= Z.pos mp < 2 ^ 53 → -1074 <= e <= 971 →
  3 <= e - E →
  Z.pos mp * 2 ^ (e - E) - 2 ^ (e - E - 2) < M <= Z.pos mp * 2 ^ (e - E) →
  binary_normalize prec emax M E false = S754_finite false mp e.
Proof.
  intros Hm He Hn HM. set (n := e - E) in *. set (m := Z.pos mp) in *.
  assert (HP : 0 < 2 ^ (n - 2)) by (apply pow2_pos; lia).
  assert (Hn2 : 2 ^ n = 2 ^ (n - 2) * 4) by (apply (pow2_split n 2); lia).
  assert (Hn1 : 2 ^ (n - 1) = 2 ^ (n - 2) * 2).
  { replace (n - 2) with (n - 1 - 1) by lia. apply (pow2_split (n - 1) 1). lia. }
  set (P := 2 ^ (n - 2)) in *.
  assert (HMpos : 0 < M) by nia.
  destruct M as [|pM|pM]; try lia.
  cbn [binary_normalize]. unfold binary_round.
  destruct (Z.lt_ge_cases (Z.pos pM) (2 ^ 52 * 2 ^ n)) as [Hlow|Hhigh].
  - (* just below the binade of [m] *)
    assert (Hm52 : m = 2 ^ 52) by nia.
    assert (Hd : Z.pos (digits2_pos pM) = 52 + n).
    { apply digits2_unique. replace (52 + n - 1) with (51 + n) by lia.
      rewrite !Z.pow_add_r by lia. rewrite Hn2. nia. }
    rewrite Hd, fexp_eq.
    destruct (Z.eq_dec e (-1074)) as [He1|He1].
    + replace (Z.max (52 + n + E - 53) (-1074)) with e by lia.
      unfold shl_align. replace (e - E) with n by done.
      destruct n as [|pn|pn] eqn:En; try lia. rewrite <- En in *.
      rewrite (bra_exact false pM E n);
        [|cbn [Zdigits2]; rewrite Hd, fexp_eq; lia|lia].
      rewrite (rne_near _ _ m); [|lia|rewrite Hn2; nia].
      replace (E + n) with e by lia.
      by rewrite finish_normal by lia.
    + replace (Z.max (52 + n + E - 53) (-1074)) with (e - 1) by lia.
      unfold shl_align. replace (e - 1 - E) with (n - 1) by lia.
      destruct (n - 1) as [|pn|pn] eqn:En; try lia. rewrite <- En in *.
      rewrite (bra_exact false pM E (n - 1));
        [|cbn [Zdigits2]; rewrite Hd, fexp_eq; lia|lia].
      rewrite (rne_near _ _ (2 ^ 53)); [|lia|rewrite Hn1; nia].
      replace (E + (n - 1)) with (e - 1) by lia.
      rewrite finish_carry by lia.
      f_equal; [|lia]. apply Pos2Z.inj. fold m. by rewrite Hm52.
  - assert (Hd : Z.pos (digits2_pos pM) = 53 + n).
    { apply digits2_unique. replace (53 + n - 1) with (52 + n) by lia.
      rewrite !Z.pow_add_r by lia. nia. }
    rewrite Hd, fexp_eq.
    replace (Z.max (53 + n + E - 53) (-1074)) with e by lia.
    unfold shl_align. replace (e - E) with n by done.
    destruct n as [|pn|pn] eqn:En; try lia. rewrite <- En in *.
    rewrite (bra_exact false pM E n);
      [|cbn [Zdigits2]; rewrite Hd, fexp_eq; lia|lia].
    rewrite (rne_near _ _ m); [|lia|rewrite Hn2; nia].
    replace (E + n) with e by lia.
    by rewrite finish_normal by lia.
Qed.

(** ** [round_ratio] near a double *)

Lemma round_ratio_bits a b :
  0 < a → 0 < b →
  let β := Z.max 0 (64 + Z.log2 b - Z.log2 a) in
  2 ^ 62 <= (a * 2 ^ β) / b.
Proof.
  intros Ha Hb β.
  destruct (Z.log2_spec a Ha) as [Ha1 Ha2].
  destruct (Z.log2_spec b Hb) as [Hb1 Hb2].
  pose proof (Z.log2_nonneg a) as Hla. pose proof (Z.log2_nonneg b) as Hlb.
  apply Z.div_le_lower_bound; [done|].
  assert (Hβ : 0 <= β) by (unfold β; lia).
  assert (H1 : 2 ^ (63 + Z.log2 b) <= 2 ^ (Z.log2 a + β))
    by (apply Z.pow_le_mono_r; unfold β; lia).
  rewrite Z.pow_add_r in H1 by lia.
  rewrite (Z.pow_add_r 2 (Z.log2 a) β) in H1 by lia.
  rewrite Z.pow_succ_r in Hb2 by lia.
  assert (0 < 2 ^ β) by (by apply pow2_pos).
  assert (0 < 2 ^ Z.log2 b) by (by apply pow2_pos).
  change (2 ^ 63) with (2 * 2 ^ 62) in H1.
  nia.
Qed.

Lemma dnum_pos mp e : 0 < Rnd.dnum mp e.
Proof.
  unfold Rnd.dnum. destruct (Z.leb_spec 0 e); [|lia].
  pose proof (pow2_pos e ltac:(lia)). nia.
Qed.

Lemma dden_pos e : 0 < Rnd.dden e.
Proof.
  unfold Rnd.dden. destruct (Z.leb_spec 0 e); [lia|]. apply pow2_pos. lia.
Qed.

(** For [0 <= e + j], the double times [2 ^ j] is an integer. *)
Lemma dnum_scale mp e j :
  0 <= j → 0 <= e + j →
  Rnd.dnum mp e * 2 ^ j = Z.pos mp * 2 ^ (e + j) * Rnd.dden e.
Proof.
  intros Hj Hej. unfold Rnd.dnum, Rnd.dden. destruct (Z.leb_spec 0 e).
  - rewrite Z.pow_add_r by lia. lia.
  - replace j with (e + j + - e) at 1 by lia.
    rewrite Z.pow_add_r by lia. lia.
Qed.

(** A quotient [a / b] below the normal double [mp * 2 ^ e] by less than
    [2 ^ -60] of itself rounds to it. *)
Lemma round_ratio_near a b mp e :
  2 ^ 52 <= Z.pos mp < 2 ^ 53 → -1074 <= e <= 971 →
  0 < a → 0 < b →
  a * Rnd.dden e <= Rnd.dnum mp e * b →
  (Rnd.dnum mp e * b - a * Rnd.dden e) * 2 ^ 60 < a * Rnd.dden e →
  Num.round_ratio a b = S754_finite false mp e.
Proof.
  intros Hm He Ha Hb Hle Hnear. unfold Num.round_ratio.
  pose proof (round_ratio_bits a b Ha Hb) as Hq62. cbv zeta in Hq62.
  set (β := Z.max 0 (64 + Z.log2 b - Z.log2 a)) in *.
  assert (Hβ : 0 <= β) by (unfold β; lia).
  assert (H2β : 0 < 2 ^ β) by (by apply pow2_pos).
  pose proof (Z.div_mod (a * 2 ^ β) b ltac:(lia)) as Hdiv.
  pose proof (Z.mod_pos_bound (a * 2 ^ β) b Hb) as Hr.
  set (q := a * 2 ^ β / b) in *. set (r := (a * 2 ^ β) mod b) in *.
  set (m := Z.pos mp) in *.
  pose proof (dden_pos e) as Hden. pose proof (dnum_pos mp e) as Hnum.
  (* the double times [2 ^ β] is an integer [X] *)
  assert (Ht : 10 <= e + β).
  { assert (Hqd : q * Rnd.dden e <= Rnd.dnum mp e * 2 ^ β) by nia.
    unfold Rnd.dnum, Rnd.dden in Hqd. fold m in Hqd.
    destruct (Z.leb_spec 0 e) as [He0|He0].
    - assert (H1 : 2 ^ 62 < 2 ^ (53 + (e + β))).
      { rewrite (Z.pow_add_r 2 53), (Z.pow_add_r 2 e β) by lia.
        assert (0 < 2 ^ e) by (by apply pow2_pos). nia. }
      apply (Z.pow_lt_mono_r_iff 2) in H1; lia.
    - assert (H1 : 2 ^ (62 + - e) < 2 ^ (53 + β)).
      { rewrite (Z.pow_add_r 2 62), (Z.pow_add_r 2 53) by lia.
        assert (0 < 2 ^ (- e)) by (apply pow2_pos; lia). nia. }
      apply (Z.pow_lt_mono_r_iff 2) in H1; lia. }
  pose proof (dnum_scale mp e β Hβ ltac:(lia)) as HX. fold m in HX.
  set (t := e + β) in *. set (X := m * 2 ^ t) in *.
  assert (N1 : a * 2 ^ β <= X * b) by nia.
  assert (N2 : (X * b - a * 2 ^ β) * 2 ^ 60 < a * 2 ^ β) by nia.
  assert (HT : 2 ^ t = 2 ^ (t - 7) * 128) by (apply (pow2_split t 7); lia).
  assert (HT1 : 2 ^ (t - 1) = 2 ^ (t - 7) * 64).
  { replace (t - 7) with (t - 1 - 6) by lia. apply (pow2_split (t - 1) 6). lia. }
  assert (HTp : 0 < 2 ^ (t - 7)) by (apply pow2_pos; lia).
  set (T := 2 ^ (t - 7)) in *.
  assert (HXT : X < 2 ^ 60 * T) by (unfold X; rewrite HT; nia).
  assert (HqX : q <= X) by nia.
  assert (HXq : X - q <= T + 1).
  { assert (H1 : X * b * 2 ^ 60 < (q + 1) * b * (2 ^ 60 + 1)) by nia.
    assert (H2 : X * 2 ^ 60 < (q + 1) * (2 ^ 60 + 1)) by nia.
    nia. }
  apply normalize_near; [done|done|lia|].
  replace (e - (- β - 1)) with (t + 1) by (unfold t; lia).
  replace (t + 1 - 2) with (t - 1) by lia.
  rewrite HT1. fold T. rewrite Z.pow_add_r by lia. change (2 ^ 1) with 2.
  fold m. rewrite HT. fold T.
  assert (HXe : X = m * (T * 128)) by (unfold X; by rewrite HT).
  destruct (Z.eqb_spec r 0) as [Hr0|Hr0].
  - nia.
  - assert (q < X) by nia. nia.
Qed.

(** ** [round_ratio] depends on the quotient alone *)

Lemma round_ratio_sticky a b :
  Num.round_ratio a b =
  let β := Z.max 0 (64 + Z.log2 b - Z.log2 a) in
  binary_normalize prec emax (Rnd.sticky a b β) (- β - 1) false.
Proof. reflexivity. Qed.

Lemma rne_sticky_step q st t' st' n :
  2 <= n → 0 <= q →
  0 <= st <= 1 → 0 <= t' <= 1 → 0 <= st' <= 1 →
  (st = 0 ↔ t' = 0 ∧ st' = 0) →
  Rnd.rne (2 * q + st) n = Rnd.rne (4 * q + 2 * t' + st') (n + 1).
Proof.
  intros Hn Hq Hst Ht Hst' Hrel.
  assert (HP : 0 < 2 ^ (n - 2)) by (apply pow2_pos; lia).
  assert (Hn1 : 2 ^ n = 2 ^ (n - 2) * 4) by (apply (pow2_split n 2); lia).
  assert (Hn2 : 2 ^ (n + 1) = 2 ^ (n - 2) * 8).
  { replace (n - 2) with (n + 1 - 3) by lia. apply (pow2_split (n + 1) 3). lia. }
  unfold Rnd.rne. rewrite Hn1, Hn2. set (P := 2 ^ (n - 2)) in *.
  pose proof (Z.div_mod q (2 * P) ltac:(lia)) as Hdiv.
  pose proof (Z.mod_pos_bound q (2 * P) ltac:(lia)) as Hu.
  set (Q := q / (2 * P)) in *. set (u := q mod (2 * P)) in *.
  assert (H1 : (2 * q + st) / (P * 4) = Q)
    by (symmetry; apply (Z.div_unique _ _ _ (2 * u + st)); lia).
  assert (H2 : (2 * q + st) mod (P * 4) = 2 * u + st)
    by (symmetry; apply (Z.mod_unique _ _ Q); lia).
  assert (H3 : (4 * q + 2 * t' + st') / (P * 8) = Q)
    by (symmetry; apply (Z.div_unique _ _ _ (4 * u + 2 * t' + st')); lia).
  assert (H4 : (4 * q + 2 * t' + st') mod (P * 8) = 4 * u + 2 * t' + st')
    by (symmetry; apply (Z.mod_unique _ _ Q); lia).
  rewrite H1, H2, H3, H4.
  destruct (Z.ltb_spec (2 * (2 * u + st)) (P * 4));
    destruct (Z.ltb_spec (2 * (4 * u + 2 * t' + st')) (P * 8)); try lia.
  destruct (Z.ltb_spec (P * 4) (2 * (2 * u + st)));
    destruct (Z.ltb_spec (P * 8) (2 * (4 * u + 2 * t' + st'))); try lia; done.
Qed.

Lemma sticky_next a b β :
  0 < a → 0 < b → 0 <= β →
  ∃ t' st' st,
    Rnd.sticky a b β = 2 * (a * 2 ^ β / b) + st
    ∧ Rnd.sticky a b (β + 1) = 4 * (a * 2 ^ β / b) + 2 * t' + st'
    ∧ 0 <= st <= 1 ∧ 0 <= t' <= 1 ∧ 0 <= st' <= 1
    ∧ (st = 0 ↔ t' = 0 ∧ st' = 0).
Proof.
  intros Ha Hb Hβ. unfold Rnd.sticky.
  rewrite (Z.pow_add_r 2 β 1) by lia. change (2 ^ 1) with 2.
  assert (H2β : 0 < 2 ^ β) by (by apply pow2_pos).
  pose proof (Z.div_mod (a * 2 ^ β) b ltac:(lia)) as Hdiv.
  pose proof (Z.mod_pos_bound (a * 2 ^ β) b Hb) as Hr.
  set (q := a * 2 ^ β / b) in *. set (r := (a * 2 ^ β) mod b) in *.
  set (t' := if 2 * r <? b then 0 else 1).
  assert (Ht : 0 <= t' <= 1 ∧ 0 <= 2 * r - t' * b < b).
  { unfold t'. destruct (Z.ltb_spec (2 * r) b); lia. }
  assert (H1 : a * (2 ^ β * 2) / b = 2 * q + t').
  { symmetry. apply (Z.div_unique _ _ _ (2 * r - t' * b)); lia. }
  assert (H2 : (a * (2 ^ β * 2)) mod b = 2 * r - t' * b).
  { symmetry. apply (Z.mod_unique _ _ (2 * q + t')); lia. }
  rewrite H1, H2.
  exists t', (if 2 * r - t' * b =? 0 then 0 else 1), (if r =? 0 then 0 else 1).
  split; [done|]. split; [lia|].
  destruct (Z.eqb_spec r 0); destruct (Z.eqb_spec (2 * r - t' * b) 0);
    repeat split; try lia.
Qed.

Lemma shl_align_id mx ex ex' : ex <= ex' → shl_align mx ex ex' = (mx, ex).
Proof.
  intros H. unfold shl_align. destruct (ex' - ex) eqn:E; try done. lia.
Qed.

Lemma sticky_step a b β :
  0 < a → 0 < b → 0 <= β → 2 ^ 55 <= a * 2 ^ β / b →
  binary_normalize prec emax (Rnd.sticky a b β) (- β - 1) false
  = binary_normalize prec emax (Rnd.sticky a b (β + 1)) (- (β + 1) - 1) false.
Proof.
  intros Ha Hb Hβ Hq.
  destruct (sticky_next a b β Ha Hb Hβ)
    as (t' & st' & st & -> & -> & Hst & Ht & Hst' & Hrel).
  set (q := a * 2 ^ β / b) in *.
  destruct q as [|pq|pq] eqn:Eq; try lia. rewrite <- Eq in *.
  pose proof (digits2_bounds pq) as Hdq. rewrite <- Eq in Hdq.
  set (dq := Z.pos (digits2_pos pq)) in *.
  assert (H56 : 56 <= dq).
  { assert (55 < dq); [|lia]. apply (Z.pow_lt_mono_r_iff 2); lia. }
  assert (Hpow : 2 ^ dq = 2 ^ (dq - 1) * 2) by (apply (pow2_split dq 1); lia).
  assert (Hpow1 : 2 ^ (dq + 1) = 2 ^ (dq - 1) * 4).
  { replace (dq - 1) with (dq + 1 - 2) by lia. apply (pow2_split (dq + 1) 2). lia. }
  assert (Hpow2 : 2 ^ (dq + 2) = 2 ^ (dq - 1) * 8).
  { replace (dq - 1) with (dq + 2 - 3) by lia. apply (pow2_split (dq + 2) 3). lia. }
  set (n := Z.max (dq - β - 53) (-1074) + β + 1).
  assert (Hn : 4 <= n) by (unfold n; lia).
  destruct (2 * q + st) as [|pM|pM] eqn:EM; try lia.
  destruct (4 * q + 2 * t' + st') as [|pM'|pM'] eqn:EM'; try lia.
  assert (HdM : Z.pos (digits2_pos pM) = dq + 1).
  { apply digits2_unique. rewrite <- EM.
    replace (dq + 1 - 1) with dq by lia. rewrite Hpow, Hpow1. lia. }
  assert (HdM' : Z.pos (digits2_pos pM') = dq + 2).
  { apply digits2_unique. rewrite <- EM'.
    replace (dq + 2 - 1) with (dq + 1) by lia. rewrite Hpow1, Hpow2. lia. }
  cbn [binary_normalize]. unfold binary_round.
  rewrite HdM, HdM', !fexp_eq.
  rewrite !shl_align_id by (unfold n in Hn; lia).
  rewrite (bra_exact false pM (- β - 1) n);
    [|cbn [Zdigits2]; rewrite HdM, fexp_eq; lia|lia].
  rewrite (bra_exact false pM' (- (β + 1) - 1) (n + 1));
    [|cbn [Zdigits2]; rewrite HdM', fexp_eq; lia|lia].
  rewrite <- EM, <- EM'.
  rewrite (rne_sticky_step q st t' st' n) by lia.
  f_equal. lia.
Qed.

Lemma sticky_more a b β (j : nat) :
  0 < a → 0 < b → 0 <= β → 2 ^ 55 <= a * 2 ^ β / b →
  binary_normalize prec emax (Rnd.sticky a b β) (- β - 1) false
  = binary_normalize prec emax (Rnd.sticky a b (β + Z.of_nat j))
      (- (β + Z.of_nat j) - 1) false.
Proof.
  intros Ha Hb. revert β. induction j as [|j IH]; intros β Hβ Hq.
  - by rewrite Z.add_0_r.
  - rewrite (sticky_step a b β) by done.
    rewrite (IH (β + 1)); [f_equal; [f_equal|]; lia|lia|].
    rewrite Z.pow_add_r by lia. change (2 ^ 1) with 2.
    apply Z.div_le_lower_bound; [done|].
    assert (0 < 2 ^ β) by (by apply pow2_pos).
    pose proof (Z.mul_div_le (a * 2 ^ β) b Hb). nia.
Qed.

(** [round_ratio] gives the same double for the same quotient. *)
Lemma round_ratio_scale c a b :
  0 < c → 0 < a → 0 < b →
  Num.round_ratio (c * a) (c * b) = Num.round_ratio a b.
Proof.
  intros Hc Ha Hb. rewrite !round_ratio_sticky. cbv zeta.
  pose proof (round_ratio_bits a b Ha Hb) as H0.
  pose proof (round_ratio_bits (c * a) (c * b) ltac:(lia) ltac:(lia)) as H1.
  cbv zeta in H0, H1.
  set (β0 := Z.max 0 (64 + Z.log2 b - Z.log2 a)) in *.
  set (β1 := Z.max 0 (64 + Z.log2 (c * b) - Z.log2 (c * a))) in *.
  assert (Hs : ∀ β, Rnd.sticky (c * a) (c * b) β = Rnd.sticky a b β).
  { intros β. unfold Rnd.sticky. rewrite <- !Z.mul_assoc.
    rewrite Z.div_mul_cancel_l, Z.mul_mod_distr_l by lia.
    destruct (Z.eqb_spec ((a * 2 ^ β) mod b) 0) as [->|Hne].
    - by rewrite Z.mul_0_r.
    - by rewrite (proj2 (Z.eqb_neq _ 0)) by nia. }
  rewrite Hs. unfold Rnd.sticky in H1. rewrite <- Z.mul_assoc in H1.
  rewrite Z.div_mul_cancel_l in H1 by lia.
  assert (H0' : 0 <= β0) by (unfold β0; lia).
  assert (H1' : 0 <= β1) by (unfold β1; lia).
  destruct (Z.le_ge_cases β0 β1) as [Hle|Hle].
  - rewrite (sticky_more a b β0 (Z.to_nat (β1 - β0))) by (done || lia).
    f_equal; [f_equal|]; lia.
  - rewrite (sticky_more a b β1 (Z.to_nat (β0 - β1))) by (done || lia).
    f_equal; [f_equal|]; lia.
Qed.

(** ** The decimal exponent of a double *)

Lemma bracket_all L : -1022 <= L <= 1023 → Rnd.bracket L = true.
Proof.
  intros HL.
  assert (H : forallb Rnd.bracket (map (λ i, Z.of_nat i - 1022) (seq 0 2046)) = true)
    by (vm_compute; reflexivity).
  rewrite forallb_forall in H. apply H.
  apply in_map_iff. exists (Z.to_nat (L + 1022)). split; [lia|].
  apply in_seq. lia.
Qed.

Lemma pow10_pos n : 0 < 10 ^ n ∨ n < 0.
Proof.
  destruct (Z.lt_ge_cases n 0); [by right|left]. apply Z.pow_pos_nonneg; lia.
Qed.

Lemma p10p_pos z : 0 < Rnd.p10p z.
Proof. apply Z.pow_pos_nonneg; lia. Qed.
Lemma p10n_pos z : 0 < Rnd.p10n z.
Proof. apply Z.pow_pos_nonneg; lia. Qed.
Lemma p2p_pos z : 0 < Rnd.p2p z.
Proof. apply Z.pow_pos_nonneg; lia. Qed.
Lemma p2n_pos z : 0 < Rnd.p2n z.
Proof. apply Z.pow_pos_nonneg; lia. Qed.

Lemma geq_pow10_eq num den n :
  Num.geq_pow10 num den n = (den * Rnd.p10p n <=? num * Rnd.p10n n).
Proof.
  unfold Num.geq_pow10, Rnd.p10p, Rnd.p10n. destruct (Z.leb_spec 0 n).
  - rewrite Z.max_l, Z.max_r by lia. by rewrite Z.mul_1_r.
  - rewrite Z.max_r, Z.max_l by lia. by rewrite Z.mul_1_r.
Qed.

(** The double lies in [[2 ^ L, 2 ^ (L + 1))] for [L = 52 + e]. *)
Lemma double_binade mp e :
  2 ^ 52 <= Z.pos mp < 2 ^ 53 →
  Rnd.p2p (52 + e) * Rnd.dden e <= Rnd.dnum mp e * Rnd.p2n (52 + e)
  ∧ Rnd.dnum mp e * Rnd.p2n (52 + e + 1) < Rnd.p2p (52 + e + 1) * Rnd.dden e.
Proof.
  intros Hm. unfold Rnd.p2p, Rnd.p2n, Rnd.dnum, Rnd.dden.
  destruct (Z.leb_spec 0 e) as [He|He].
  - replace (Z.max (52 + e) 0) with (52 + e) by lia.
    replace (Z.max (- (52 + e)) 0) with 0 by lia.
    replace (Z.max (52 + e + 1) 0) with (52 + e + 1) by lia.
    replace (Z.max (- (52 + e + 1)) 0) with 0 by lia.
    rewrite !Z.pow_add_r by lia.
    assert (0 < 2 ^ e) by (by apply pow2_pos). change (2 ^ 0) with 1.
    change (2 ^ 1) with 2. nia.
  - destruct (Z.le_gt_cases 0 (52 + e)) as [HL|HL].
    + replace (Z.max (52 + e) 0) with (52 + e) by lia.
      replace (Z.max (- (52 + e)) 0) with 0 by lia.
      replace (Z.max (52 + e + 1) 0) with (52 + e + 1) by lia.
      replace (Z.max (- (52 + e + 1)) 0) with 0 by lia.
      change (2 ^ 0) with 1.
      rewrite <- !Z.pow_add_r by lia.
      replace (52 + e + - e) with 52 by lia.
      replace (52 + e + 1 + - e) with 53 by lia. lia.
    + replace (Z.max (52 + e) 0) with 0 by lia.
      replace (Z.max (- (52 + e)) 0) with (- (52 + e)) by lia.
      replace (Z.max (52 + e + 1) 0) with 0 by lia.
      replace (Z.max (- (52 + e + 1)) 0) with (- (52 + e + 1)) by lia.
      change (2 ^ 0) with 1.
      replace (- e) with (52 + - (52 + e)) by lia.
      rewrite (Z.pow_add_r 2 52) by lia.
      replace (- (52 + e)) with (1 + - (52 + e + 1)) by lia.
      rewrite (Z.pow_add_r 2 1) by lia. change (2 ^ 1) with 2.
      assert (0 < 2 ^ (- (52 + e + 1))) by (apply pow2_pos; lia). nia.
Qed.

Lemma double_log2 mp e :
  2 ^ 52 <= Z.pos mp < 2 ^ 53 →
  Z.log2 (Rnd.dnum mp e) - Z.log2 (Rnd.dden e) = 52 + e.
Proof.
  intros Hm. unfold Rnd.dnum, Rnd.dden. destruct (Z.leb_spec 0 e) as [He|He].
  - change (Z.log2 1) with 0.
    rewrite (Z.log2_unique (Z.pos mp * 2 ^ e) (52 + e)); [lia|lia|].
    replace (Z.succ (52 + e)) with (53 + e) by lia.
    rewrite !Z.pow_add_r by lia.
    assert (0 < 2 ^ e) by (by apply pow2_pos). nia.
  - rewrite Z.log2_pow2 by lia.
    rewrite (Z.log2_unique (Z.pos mp) 52); [lia|lia|].
    change (Z.succ 52) with 53. lia.
Qed.

(** The decimal exponent [n0] of a normal double [x] is the one with
    [10 ^ (n0 - 1) <= x < 10 ^ n0]. *)
Lemma decimal_exponent_spec mp e :
  2 ^ 52 <= Z.pos mp < 2 ^ 53 → -1074 <= e <= 971 →
  let n0 := Num.decimal_exponent (Rnd.dnum mp e) (Rnd.dden e) in
  Num.geq_pow10 (Rnd.dnum mp e) (Rnd.dden e) (n0 - 1) = true
  ∧ Num.geq_pow10 (Rnd.dnum mp e) (Rnd.dden e) n0 = false.
Proof.
  intros Hm He. unfold Num.decimal_exponent.
  rewrite (double_log2 mp e Hm).
  pose proof (bracket_all (52 + e) ltac:(lia)) as Hb.
  unfold Rnd.bracket in Hb. apply andb_true_iff in Hb as [Hb1 Hb2].
  apply Z.leb_le in Hb1, Hb2.
  destruct (double_binade mp e Hm) as [Hd1 Hd2].
  pose proof (dden_pos e) as Hden. pose proof (dnum_pos mp e) as Hnum.
  set (num := Rnd.dnum mp e) in *. set (den := Rnd.dden e) in *.
  set (n1 := (52 + e) * 30103 / 100000) in *.
  assert (Hlow : Num.geq_pow10 num den (n1 - 2) = true).
  { rewrite geq_pow10_eq. apply Z.leb_le.
    pose proof (p10p_pos (n1 - 2)). pose proof (p10n_pos (n1 - 2)).
    pose proof (p2p_pos (52 + e)). pose proof (p2n_pos (52 + e)).
    apply (Z.mul_le_mono_pos_r _ _ (Rnd.p2n (52 + e))); [done|].
    transitivity (den * Rnd.p2p (52 + e) * Rnd.p10n (n1 - 2)); nia. }
  assert (Hhigh : Num.geq_pow10 num den (n1 + 4) = false).
  { rewrite geq_pow10_eq. apply Z.leb_gt.
    pose proof (p10p_pos (n1 + 4)). pose proof (p10n_pos (n1 + 4)).
    pose proof (p2p_pos (52 + e + 1)). pose proof (p2n_pos (52 + e + 1)).
    apply (Z.mul_lt_mono_pos_r (Rnd.p2n (52 + e + 1))); [done|].
    apply Z.lt_le_trans with (den * Rnd.p2p (52 + e + 1) * Rnd.p10n (n1 + 4)); nia. }
  cbn [find].
  replace (n1 - 2) with (n1 - 1 - 1) in Hlow by lia.
  destruct (Num.geq_pow10 num den (n1 - 1)) eqn:G1; cbn [negb]; [|done].
  destruct (Num.geq_pow10 num den n1) eqn:G2; cbn [negb]; [|done].
  destruct (Num.geq_pow10 num den (n1 + 1)) eqn:G3; cbn [negb];
    [|by replace (n1 + 1 - 1) with n1 by lia].
  destruct (Num.geq_pow10 num den (n1 + 2)) eqn:G4; cbn [negb];
    [|by replace (n1 + 2 - 1) with (n1 + 1) by lia].
  destruct (Num.geq_pow10 num den (n1 + 3)) eqn:G5; cbn [negb];
    [|by replace (n1 + 3 - 1) with (n1 + 2) by lia].
  by replace (n1 + 4 - 1) with (n1 + 3) by lia.
Qed.

(** ** The shortest digits round back *)

Lemma p10_add a b :
  Rnd.p10p (a + b) * Rnd.p10n a * Rnd.p10n b = Rnd.p10p a * Rnd.p10p b * Rnd.p10n (a + b).
Proof.
  unfold Rnd.p10p, Rnd.p10n. rewrite <- !Z.pow_add_r by lia. f_equal. lia.
Qed.

Lemma p10p_if z : Rnd.p10p z = if 0 <=? z then 10 ^ z else 1.
Proof.
  unfold Rnd.p10p. destruct (Z.leb_spec 0 z).
  - by rewrite Z.max_l by lia.
  - by rewrite Z.max_r by lia.
Qed.

Lemma p10n_if z : Rnd.p10n z = if 0 <=? z then 1 else 10 ^ (- z).
Proof.
  unfold Rnd.p10n. destruct (Z.leb_spec 0 z).
  - by rewrite Z.max_r by lia.
  - by rewrite Z.max_l by lia.
Qed.

Lemma p10p_opp z : Rnd.p10p (- z) = Rnd.p10n z.
Proof. reflexivity. Qed.
Lemma p10n_opp z : Rnd.p10n (- z) = Rnd.p10p z.
Proof. unfold Rnd.p10n, Rnd.p10p. by rewrite Z.opp_involutive. Qed.

Lemma p10p_nonneg z : 0 <= z → Rnd.p10p z = 10 ^ z ∧ Rnd.p10n z = 1.
Proof.
  intros H. unfold Rnd.p10p, Rnd.p10n. by rewrite Z.max_l, Z.max_r by lia.
Qed.

Lemma round_dec_eq s z :
  Num.round_dec s z = Num.round_ratio (s * Rnd.p10p z) (Rnd.p10n z).
Proof.
  unfold Num.round_dec. rewrite p10p_if, p10n_if.
  destruct (0 <=? z); [done|]. by rewrite Z.mul_1_r.
Qed.

Lemma round_dec_scale s z :
  0 < s → Num.round_dec (10 * s) z = Num.round_dec s (z + 1).
Proof.
  intros Hs. rewrite !round_dec_eq.
  pose proof (p10_add z 1) as H. 
  change (Rnd.p10p 1) with 10 in H. change (Rnd.p10n 1) with 1 in H.
  pose proof (p10p_pos z). pose proof (p10n_pos z).
  pose proof (p10p_pos (z + 1)). pose proof (p10n_pos (z + 1)).
  (* the two quotients are equal; both are multiples of a common one *)
  rewrite <- (round_ratio_scale (Rnd.p10n (z + 1)) (10 * s * Rnd.p10p z) (Rnd.p10n z))
    by nia.
  rewrite <- (round_ratio_scale (Rnd.p10n z) (s * Rnd.p10p (z + 1)) (Rnd.p10n (z + 1)))
    by nia.
  f_equal; nia.
Qed.

Section Double.
Variables (mp : positive) (e : Z).
Hypothesis Hm : 2 ^ 52 <= Z.pos mp < 2 ^ 53.
Hypothesis He : -1074 <= e <= 971.

Lemma cand_bounds k :
  1 <= k →
  10 ^ (k - 1) * (Rnd.dden e * Rnd.p10n (k - (Rnd.dexp mp e))) <= (Rnd.dnum mp e) * Rnd.p10p (k - (Rnd.dexp mp e))
  ∧ (Rnd.dnum mp e) * Rnd.p10p (k - (Rnd.dexp mp e)) < 10 ^ k * (Rnd.dden e * Rnd.p10n (k - (Rnd.dexp mp e))).
Proof.
  intros Hk.
  destruct (decimal_exponent_spec mp e Hm He) as [H1 H2].
  fold (Rnd.dexp mp e) in H1, H2. rewrite geq_pow10_eq in H1, H2.
  apply Z.leb_le in H1. apply Z.leb_gt in H2.
  pose proof (dden_pos e) as Hden. pose proof (dnum_pos mp e) as Hnum.
  pose proof (p10_add (k - (Rnd.dexp mp e)) (Rnd.dexp mp e - 1)) as I1.
  replace (k - (Rnd.dexp mp e) + (Rnd.dexp mp e - 1)) with (k - 1) in I1 by lia.
  destruct (p10p_nonneg (k - 1) ltac:(lia)) as [E1 E2]. rewrite E1, E2 in I1.
  pose proof (p10_add (k - (Rnd.dexp mp e)) (Rnd.dexp mp e)) as I2.
  replace (k - (Rnd.dexp mp e) + (Rnd.dexp mp e)) with k in I2 by lia.
  destruct (p10p_nonneg k ltac:(lia)) as [E3 E4]. rewrite E3, E4 in I2.
  pose proof (p10p_pos (k - (Rnd.dexp mp e))). pose proof (p10n_pos (k - (Rnd.dexp mp e))).
  pose proof (p10p_pos (Rnd.dexp mp e - 1)). pose proof (p10n_pos (Rnd.dexp mp e - 1)).
  pose proof (p10p_pos (Rnd.dexp mp e)). pose proof (p10n_pos (Rnd.dexp mp e)).
  split.
  - apply (Z.mul_le_mono_pos_r _ _ (Rnd.p10n (Rnd.dexp mp e - 1))); [done|].
    transitivity (Rnd.dden e * Rnd.p10p (Rnd.dexp mp e - 1) * Rnd.p10p (k - (Rnd.dexp mp e))); nia.
  - apply (Z.mul_lt_mono_pos_r (Rnd.p10n (Rnd.dexp mp e))); [done|].
    apply Z.lt_le_trans with (Rnd.dden e * Rnd.p10p (Rnd.dexp mp e) * Rnd.p10p (k - (Rnd.dexp mp e))); nia.
Qed.

Lemma lo_bounds k : 1 <= k → 10 ^ (k - 1) <= (Rnd.lo_of mp e k) < 10 ^ k.
Proof.
  intros Hk. destruct (cand_bounds k Hk) as [H1 H2]. unfold Rnd.lo_of.
  pose proof (dden_pos e) as Hden.
  pose proof (p10n_pos (k - (Rnd.dexp mp e))).
  split.
  - apply Z.div_le_lower_bound; nia.
  - apply Z.div_lt_upper_bound; nia.
Qed.

Lemma rounds_back_true s k :
  Num.round_dec s (Rnd.dexp mp e - k) = S754_finite false mp e →
  Num.rounds_back mp e s k = true.
Proof.
  unfold Num.rounds_back. fold (Rnd.dnum mp e) (Rnd.dden e). fold (Rnd.dexp mp e).
  intros ->. by rewrite !Z.eqb_refl.
Qed.

Lemma rounds_back_inv s k :
  Num.rounds_back mp e s k = true →
  Num.round_dec s (Rnd.dexp mp e - k) = S754_finite false mp e.
Proof.
  unfold Num.rounds_back. fold (Rnd.dnum mp e) (Rnd.dden e). fold (Rnd.dexp mp e).
  destruct (Num.round_dec s (Rnd.dexp mp e - k)) as [| | |[] m' e']; try done.
  intros [H1 H2]%andb_true_iff.
  apply Z.eqb_eq in H1, H2. by injection H1 as ->; subst.
Qed.

Lemma candidate_spec k s :
  Num.candidate mp e k = Some s →
  (s = (Rnd.lo_of mp e k) ∨ s = (Rnd.lo_of mp e k) + 1) ∧ Num.rounds_back mp e s k = true.
Proof.
  unfold Num.candidate. fold (Rnd.dnum mp e) (Rnd.dden e). fold (Rnd.dexp mp e).
  cbv zeta.
  assert (EA : (if 0 <=? k - (Rnd.dexp mp e) then (Rnd.dnum mp e) * 10 ^ (k - (Rnd.dexp mp e)) else (Rnd.dnum mp e))
               = (Rnd.dnum mp e) * Rnd.p10p (k - (Rnd.dexp mp e))).
  { rewrite p10p_if. destruct (0 <=? k - (Rnd.dexp mp e)); [done|]. by rewrite Z.mul_1_r. }
  assert (EB : (if 0 <=? k - (Rnd.dexp mp e) then (Rnd.dden e) else (Rnd.dden e) * 10 ^ (Rnd.dexp mp e - k))
               = (Rnd.dden e) * Rnd.p10n (k - (Rnd.dexp mp e))).
  { rewrite p10n_if. destruct (0 <=? k - (Rnd.dexp mp e)); [by rewrite Z.mul_1_r|].
    by replace (- (k - (Rnd.dexp mp e))) with (Rnd.dexp mp e - k) by lia. }
  rewrite EA, EB. fold (Rnd.lo_of mp e k).
  destruct (Num.rounds_back mp e (Rnd.lo_of mp e k) k) eqn:R1;
    destruct (Num.rounds_back mp e (Rnd.lo_of mp e k + 1) k) eqn:R2;
    intros [= <-]; try (split; [by left|done]); try (split; [by right|done]).
  destruct (_ <? _); [split; [by left|done]|].
  destruct (_ <? _); [split; [by right|done]|].
  destruct (Z.even _); [split; [by left|done]|split; [by right|done]].
Qed.

(** With 21 digits the truncated decimal is so close to the double that it
    rounds back: the search for the shortest digits always succeeds. *)
Lemma candidate_21 : Num.candidate mp e 21 ≠ None.
Proof.
  assert (R : Num.rounds_back mp e (Rnd.lo_of mp e 21) 21 = true).
  { apply rounds_back_true. rewrite round_dec_eq.
    replace (Rnd.dexp mp e - 21) with (- (21 - (Rnd.dexp mp e))) by lia.
    rewrite p10p_opp, p10n_opp.
    destruct (lo_bounds 21 ltac:(lia)) as [Hl1 Hl2].
    change (21 - 1) with 20 in Hl1.
    pose proof (dden_pos e) as Hden.
    pose proof (dnum_pos mp e) as Hnum.
    pose proof (p10p_pos (21 - (Rnd.dexp mp e))). pose proof (p10n_pos (21 - (Rnd.dexp mp e))).
    assert (HB : 0 < (Rnd.dden e) * Rnd.p10n (21 - (Rnd.dexp mp e))) by nia.
    pose proof (Z.mul_div_le (Rnd.dnum mp e * Rnd.p10p (21 - (Rnd.dexp mp e))) _ HB) as Hle.
    pose proof (Z.mod_pos_bound (Rnd.dnum mp e * Rnd.p10p (21 - (Rnd.dexp mp e))) _ HB) as Hmod.
    pose proof (Z.div_mod (Rnd.dnum mp e * Rnd.p10p (21 - (Rnd.dexp mp e))) (Rnd.dden e * Rnd.p10n (21 - (Rnd.dexp mp e)))
                  ltac:(lia)) as Hdm.
    fold (Rnd.lo_of mp e 21) in Hle, Hdm.
    set (l := (Rnd.lo_of mp e 21)) in *. set (r := (Rnd.dnum mp e * Rnd.p10p (21 - (Rnd.dexp mp e))) mod _) in *.
    assert (H60 : 2 ^ 60 <= l) by lia.
    apply round_ratio_near; [done|done|nia|done| |].
    - nia.
    - nia. }
  unfold Num.candidate. fold (Rnd.dnum mp e) (Rnd.dden e). fold (Rnd.dexp mp e).
  cbv zeta.
  assert (EA : (if 0 <=? 21 - (Rnd.dexp mp e) then (Rnd.dnum mp e) * 10 ^ (21 - (Rnd.dexp mp e)) else (Rnd.dnum mp e))
               = (Rnd.dnum mp e) * Rnd.p10p (21 - (Rnd.dexp mp e))).
  { rewrite p10p_if. destruct (0 <=? 21 - (Rnd.dexp mp e)); [done|]. by rewrite Z.mul_1_r. }
  assert (EB : (if 0 <=? 21 - (Rnd.dexp mp e) then (Rnd.dden e) else (Rnd.dden e) * 10 ^ (Rnd.dexp mp e - 21))
               = (Rnd.dden e) * Rnd.p10n (21 - (Rnd.dexp mp e))).
  { rewrite p10n_if. destruct (0 <=? 21 - (Rnd.dexp mp e)); [by rewrite Z.mul_1_r|].
    by replace (- (21 - (Rnd.dexp mp e))) with (Rnd.dexp mp e - 21) by lia. }
  rewrite EA, EB. fold (Rnd.lo_of mp e 21). rewrite R.
  by destruct (Num.rounds_back mp e (Rnd.lo_of mp e 21 + 1) 21).
Qed.

Lemma shortest_from_spec fuel k :
  1 <= k → k + Z.of_nat fuel = 21 →
  ∃ s k', Num.shortest_from mp e fuel k = (s, k')
          ∧ k <= k' <= 21 ∧ Num.candidate mp e k' = Some s.
Proof.
  revert k. induction fuel as [|fuel IH]; intros k Hk Hf.
  - assert (k = 21) as -> by lia. cbn [Num.shortest_from].
    destruct (Num.candidate mp e 21) as [s|] eqn:E; [|by destruct candidate_21].
    exists s, 21. by rewrite E.
  - cbn [Num.shortest_from].
    destruct (Num.candidate mp e k) as [s|] eqn:E.
    + exists s, k. split; [done|]. split; [lia|done].
    + destruct (IH (k + 1) ltac:(lia) ltac:(lia)) as (s & k' & H1 & H2 & H3).
      exists s, k'. split; [done|]. split; [lia|done].
Qed.

(** The digits [s], their number [k] and the decimal exponent [n] that
    [Number::toString] finds denote a decimal that rounds to the double. *)
Lemma shortest_spec :
  ∃ s k n, Num.shortest mp e = (s, k, n)
           ∧ 1 <= k <= 21 ∧ 10 ^ (k - 1) <= s < 10 ^ k
           ∧ Num.round_dec s (n - k) = S754_finite false mp e.
Proof.
  destruct (shortest_from_spec 20 1 ltac:(lia) ltac:(lia))
    as (s & k & Hsf & Hk & Hc).
  apply candidate_spec in Hc as [Hs Hr]. apply rounds_back_inv in Hr.
  destruct (lo_bounds k ltac:(lia)) as [Hl1 Hl2].
  assert (Hp : 0 < 10 ^ (k - 1)) by (apply Z.pow_pos_nonneg; lia).
  assert (Hp10 : 10 ^ k = 10 * 10 ^ (k - 1)).
  { rewrite <- Z.pow_succ_r by lia. f_equal. lia. }
  unfold Num.shortest. fold (Rnd.dnum mp e) (Rnd.dden e). fold (Rnd.dexp mp e).
  cbv zeta. rewrite Hsf.
  destruct (Z.eqb_spec s (10 ^ k)) as [Heq|Hne].
  - exists (10 ^ (k - 1)), k, (Rnd.dexp mp e + 1). split; [done|]. split; [lia|].
    split; [lia|].
    rewrite <- Hr, Heq, Hp10, round_dec_scale by done. f_equal. lia.
  - exists s, k, (Rnd.dexp mp e). split; [done|]. split; [lia|]. split; [lia|done].
Qed.

End Double.

(** ** Reading back the rendering of a double *)

Lemma is_digit_val c : Chars.is_digit c = true → 0 <= Chars.digit_val c <= 9.
Proof.
  unfold Chars.is_digit, Chars.digit_val.
  intros [H1 H2]%andb_true_iff.
  apply Nat.leb_le in H1, H2. lia.
Qed.

Lemma digits_val_cons c l :
  Chars.digits_val (c :: l) =
  Chars.digit_val c * 10 ^ Z.of_nat (length l) + Chars.digits_val l.
Proof.
  change (c :: l) with ([c] ++ l)%list. rewrite digits_val_app.
  f_equal.
Qed.

Lemma digits_val_lt l :
  Literal.digit_list l → 0 <= Chars.digits_val l < 10 ^ Z.of_nat (length l).
Proof.
  induction 1 as [|c l Hc Hl IH]; [done|].
  rewrite digits_val_cons. pose proof (is_digit_val c Hc).
  cbn [length]. rewrite Nat2Z.inj_succ, Z.pow_succ_r by lia.
  assert (0 < 10 ^ Z.of_nat (length l)) by (apply Z.pow_pos_nonneg; lia).
  nia.
Qed.

Lemma to_uint_head n d : N.to_uint n = Decimal.D0 d → n = 0%N.
Proof.
  intros H. pose proof (DecimalN.Unsigned.to_of (N.to_uint n)) as Hn.
  rewrite DecimalN.Unsigned.of_to in Hn. rewrite H in Hn.
  unfold Decimal.unorm in Hn. rewrite nzhead_D0 in Hn.
  destruct (Decimal.nzhead d) eqn:E.
  - apply DecimalN.Unsigned.to_uint_inj. by rewrite H, Hn.
  - exfalso. eapply nzhead_nonzero. rewrite E. symmetry. exact Hn.
  - done. - done. - done. - done. - done. - done. - done. - done. - done.
Qed.

Lemma digit_chars_head s :
  0 < s →
  ∃ c l, Chars.digit_chars s = c :: l ∧ 1 <= Chars.digit_val c.
Proof.
  intros Hs. rewrite digit_chars_eq.
  destruct (N.to_uint (Z.to_N s)) as [|d|d|d|d|d|d|d|d|d|d] eqn:E.
  - pose proof (DecimalN.Unsigned.of_to (Z.to_N s)) as H. rewrite E in H.
    cbn in H. lia.
  - apply to_uint_head in E. lia.
  - eexists _, _. split; [reflexivity|by compute].
  - eexists _, _. split; [reflexivity|by compute].
  - eexists _, _. split; [reflexivity|by compute].
  - eexists _, _. split; [reflexivity|by compute].
  - eexists _, _. split; [reflexivity|by compute].
  - eexists _, _. split; [reflexivity|by compute].
  - eexists _, _. split; [reflexivity|by compute].
  - eexists _, _. split; [reflexivity|by compute].
  - eexists _, _. split; [reflexivity|by compute].
Qed.

Lemma digit_chars_length s k :
  1 <= k → 10 ^ (k - 1) <= s < 10 ^ k →
  Z.of_nat (length (Chars.digit_chars s)) = k.
Proof.
  intros Hk [H1 H2].
  assert (Hs : 0 < s).
  { assert (0 < 10 ^ (k - 1)) by (apply Z.pow_pos_nonneg; lia). lia. }
  pose proof (digit_chars_val s ltac:(lia)) as Hv.
  pose proof (digit_chars_digits s) as Hd.
  destruct (digit_chars_head s Hs) as (c & l & Hl & Hc).
  pose proof (digits_val_lt _ Hd) as [_ Hup]. rewrite Hv in Hup.
  rewrite Hl in Hv, Hd |- *. rewrite digits_val_cons in Hv.
  inversion_clear Hd as [|? ? Hcd Hld].
  pose proof (digits_val_lt _ Hld) as [Hlo _].
  rewrite Hl in Hup. cbn [length] in Hup |- *.
  set (L := Z.of_nat (length l)) in *.
  assert (HL : 0 <= L) by (unfold L; lia).
  rewrite Nat2Z.inj_succ in Hup |- *. fold L in Hup |- *.
  assert (HpL : 0 < 10 ^ L) by (apply Z.pow_pos_nonneg; lia).
  assert (Hlow : 10 ^ L <= s) by nia.
  assert (k - 1 < Z.succ L) by (apply (Z.pow_lt_mono_r_iff 10); lia).
  assert (L < k) by (apply (Z.pow_lt_mono_r_iff 10); lia).
  lia.
Qed.

Lemma substring_firstn n s :
  list_ascii_of_string (substring 0 n s) = firstn n (list_ascii_of_string s).
Proof.
  revert n. induction s as [|c s IH]; intros [|n]; cbn; try done.
  by rewrite IH.
Qed.

Lemma substring_all s : substring 0 (String.length s) s = s.
Proof. induction s as [|c s IH]; cbn; [done|by rewrite IH]. Qed.

Lemma substring_skipn n s :
  list_ascii_of_string (substring n (String.length s - n) s)
  = skipn n (list_ascii_of_string s).
Proof.
  revert n. induction s as [|c s IH]; intros [|n]; try done.
  - by rewrite Nat.sub_0_r, substring_all.
  - cbn [String.length Nat.sub substring list_ascii_of_string skipn]. apply IH.
Qed.

Lemma string_length_list s :
  String.length s = length (list_ascii_of_string s).
Proof. induction s as [|c s IH]; cbn; [done|by rewrite IH]. Qed.

Lemma digits_val_zeros l j :
  0 <= j →
  Chars.digits_val (l ++ Chars.zero_chars j)%list = Chars.digits_val l * 10 ^ j.
Proof.
  intros Hj. rewrite digits_val_app, zero_chars_val, zero_chars_length by done.
  lia.
Qed.

Lemma digits_val_leading_zeros j l :
  Chars.digits_val (Chars.zero_chars j ++ l)%list = Chars.digits_val l.
Proof. rewrite digits_val_app, zero_chars_val. lia. Qed.

(** The rendering of [k] digits [s] with decimal exponent [n] reads back as
    a decimal of the same value. *)
Lemma parse_format s k n :
  1 <= k → 10 ^ (k - 1) <= s < 10 ^ k →
  ∃ s' z', Chars.parse_decimal (list_ascii_of_string (Num.format_digits s k n))
             = Some (s', z')
           ∧ 0 < s'
           ∧ Num.round_dec s' z' = Num.round_dec s (n - k).
Proof.
  intros Hk Hs.
  assert (Hs0 : 0 < s).
  { assert (0 < 10 ^ (k - 1)) by (apply Z.pow_pos_nonneg; lia). lia. }
  pose proof (digit_chars_digits s) as Hd.
  pose proof (digit_chars_nonempty s) as Hne.
  pose proof (digit_chars_val s ltac:(lia)) as Hv.
  pose proof (digit_chars_length s k Hk Hs) as Hlen.
  unfold Chars.digit_chars in Hd, Hne, Hv, Hlen.
  set (ds := list_ascii_of_string (Chars.digits s)) in *.
  unfold Num.format_digits, Chars.take, Chars.drop.
  destruct ((k <=? n) && (n <=? 21)) eqn:E1.
  { apply andb_true_iff in E1 as [E1 _]. apply Z.leb_le in E1.
    rewrite list_ascii_app. unfold Chars.zeros.
    rewrite list_ascii_of_string_of_list_ascii. fold ds.
    rewrite <- (app_nil_r (_ ++ _)%list).
    rewrite (parse_decimal_int _ [] 0);
      [|apply Forall_app; split; [done|apply zero_chars_digits]
       |by destruct ds|done|done].
    eexists _, _. split; [reflexivity|].
    rewrite digits_val_zeros, Hv by lia.
    assert (0 < 10 ^ (n - k)) by (apply Z.pow_pos_nonneg; lia).
    split; [nia|].
    unfold Num.round_dec. rewrite (proj2 (Z.leb_le 0 (n - k))) by lia.
    change (0 <=? 0) with true. cbv iota.
    by rewrite Z.pow_0_r, Z.mul_1_r. }
  destruct ((0 <? n) && (n <=? 21)) eqn:E2.
  { apply andb_true_iff in E2 as [E2 E2']. apply Z.ltb_lt in E2.
    apply Z.leb_le in E2'.
    assert (Hnk : n < k).
    { destruct (Z.leb_spec k n); [|done]. simpl in E1.
      apply Z.leb_gt in E1. lia. }
    rewrite !list_ascii_app.
    change (list_ascii_of_string ".") with ["."%char].
    rewrite substring_firstn, substring_skipn. fold ds.
    change (["."%char] ++ ?x)%list with ("."%char :: x).
    rewrite <- (app_nil_r (skipn _ ds)).
    rewrite (parse_decimal_frac _ _ [] 0); [| | | |done|done].
    - eexists _, _. split; [reflexivity|].
      rewrite firstn_skipn, Hv. split; [done|].
      f_equal. rewrite length_skipn. lia.
    - by apply Forall_take.
    - by apply Forall_drop.
    - destruct ds; [done|]. destruct (Z.to_nat n) eqn:En; [lia|done]. }
  destruct ((-6 <? n) && (n <=? 0)) eqn:E3.
  { apply andb_true_iff in E3 as [E3 E3']. apply Z.ltb_lt in E3.
    apply Z.leb_le in E3'.
    rewrite !list_ascii_app. unfold Chars.zeros.
    rewrite list_ascii_of_string_of_list_ascii. fold ds.
    change (list_ascii_of_string "0." ++ ?x)%list
      with (["0"%char] ++ "."%char :: x)%list.
    rewrite <- (app_nil_r (_ ++ ds)%list).
    rewrite (parse_decimal_frac ["0"%char] _ [] 0); try done.
    - eexists _, _. split; [reflexivity|].
      change (["0"%char] ++ ?l)%list with (Chars.zero_chars 1 ++ l)%list.
      rewrite !digits_val_leading_zeros, Hv. split; [done|].
      f_equal. rewrite length_app, Nat2Z.inj_add, zero_chars_length by lia.
      lia.
    - by repeat constructor.
    - apply Forall_app. split; [apply zero_chars_digits|done]. }
  destruct (Z.eqb_spec k 1) as [Hk1|Hk1].
  { rewrite list_ascii_app, exponent_chars. fold ds.
    rewrite (parse_decimal_int ds _ (n - 1));
      [|done|done|apply ends_mantissa_render|apply parse_exponent_render].
    eexists _, _. split; [reflexivity|]. rewrite Hv. split; [done|].
    f_equal. lia. }
  do 3 rewrite list_ascii_app. change (list_ascii_of_string ".") with ["."%char].
  rewrite exponent_chars, substring_firstn, substring_skipn. fold ds.
  change (["."%char] ++ ?x)%list with ("."%char :: x).
  rewrite (parse_decimal_frac _ _ _ (n - 1));
    [|by apply Forall_take|by apply Forall_drop
     |by destruct ds|apply ends_mantissa_render|apply parse_exponent_render].
  eexists _, _. split; [reflexivity|].
  rewrite firstn_skipn, Hv. split; [done|].
  f_equal. rewrite length_skipn. lia.
Qed.

Lemma not_Infinity c l :
  Chars.is_digit c = true →
  String.eqb (string_of_list_ascii (c :: l)) "Infinity" = false.
Proof.
  intros Hc. cbn [string_of_list_ascii String.eqb].
  destruct (Ascii.eqb_spec c "I") as [->|]; [by vm_compute in Hc|done].
Qed.

Lemma SF_ofString_numeral F :
  Literal.numeral (list_ascii_of_string F) →
  Num.SF_ofString F = Num.unsigned_literal false (list_ascii_of_string F).
Proof.
  intros (Hall & c & l & Hl & Hc). unfold Num.SF_ofString.
  rewrite (trim_numeral _ Hall). rewrite Hl in Hall |- *. cbv iota beta.
  rewrite (non_decimal_numeral _ Hall).
  by destruct (digit_not_sign _ Hc) as [-> ->].
Qed.

(** A double in the normal range is read back from its rendering. *)
Lemma SF_round_trip mp e :
  2 ^ 52 <= Z.pos mp < 2 ^ 53 → -1074 <= e <= 971 →
  Num.SF_ofString (Num.SF_toString (S754_finite false mp e))
  = S754_finite false mp e.
Proof.
  intros Hm He.
  destruct (shortest_spec mp e Hm He) as (s & k & n & Hsh & Hk & Hs & Hr).
  cbn [Num.SF_toString]. rewrite Hsh. cbv iota beta.
  change ("" ++ ?x) with x.
  rewrite (SF_ofString_numeral _ (format_digits_numeral s k n)).
  destruct (format_digits_head s k n) as (c & l & Hl & Hc).
  unfold Num.unsigned_literal. rewrite Hl at 1. rewrite (not_Infinity c l Hc).
  destruct (parse_format s k n ltac:(lia) Hs) as (s' & z' & -> & Hs' & Hr').
  unfold Num.of_magnitude. rewrite (proj2 (Z.eqb_neq s' 0)) by lia.
  by rewrite Hr', Hr.
Qed.

(** [Number(String(d))] is [d] for a positive double in the normal
    range. *)
Lemma number_round_trip (d : float) mp e :
  Prim2SF d = S754_finite false mp e →
  2 ^ 52 <= Z.pos mp < 2 ^ 53 → -1074 <= e <= 971 →
  Num.ofString (Num.toString d) = d.
Proof.
  intros Hd Hm He. unfold Num.ofString, Num.toString.
  rewrite Hd, (SF_round_trip mp e Hm He), <- Hd. apply SF2Prim_Prim2SF.
Qed.

(** ** Native numbers whose square is in range *)

Lemma SFleb_finite m1 e1 m2 e2 :
  SFleb (S754_finite false m1 e1) (S754_finite false m2 e2) = true → e1 <= e2.
Proof.
  unfold SFleb, SFcompare. destruct (Z.compare_spec e1 e2); try done; lia.
Qed.

Lemma SFltb_finite m1 e1 m2 e2 :
  SFltb (S754_finite false m1 e1) (S754_finite false m2 e2) = true →
  e1 < e2 ∨ (e1 = e2 ∧ Z.pos m1 < Z.pos m2).
Proof.
  unfold SFltb, SFcompare. destruct (Z.compare_spec e1 e2); try done.
  - rewrite Pos.compare_cont_spec. unfold Pos.switch_Eq.
    destruct (Pos.compare_spec m1 m2); try done. right. split; [done|lia].
  - by left.
Qed.

Lemma in_range_cases p :
  C5.in_range p = true →
  ∃ s mp e, Prim2SF p = S754_finite s mp e
            ∧ 2 ^ 52 <= Z.pos mp < 2 ^ 53 ∧ -563 <= e <= 459.
Proof.
  unfold C5.in_range. rewrite leb_spec, ltb_spec, abs_spec.
  pose proof (Prim2SF_valid p) as Hv.
  assert (E1 : Prim2SF 0x1p-511 = S754_finite false (Z.to_pos (2 ^ 52)) (-563))
    by (vm_compute; reflexivity).
  assert (E2 : Prim2SF 0x1p+512 = S754_finite false (Z.to_pos (2 ^ 52)) 460)
    by (vm_compute; reflexivity).
  rewrite E1, E2. clear E1 E2.
  destruct (Prim2SF p) as [s|s| |s mp e].
  - by destruct s.
  - by destruct s.
  - done.
  - cbn [SFabs]. intros [H1 H2]%andb_true_iff.
    apply SFleb_finite in H1. apply SFltb_finite in H2.
    destruct (valid_normal mp e Hv ltac:(lia)) as [Hm He].
    exists s, mp, e. split; [done|]. split; [done|]. split; [done|].
    rewrite Z2Pos.id in H2 by done. lia.
Qed.

(** For a double [p] with [2 ^ -511 <= |p| < 2 ^ 512], the square root of
    [p * p] is [|p|]. *)
Lemma float_square_root p :
  C5.in_range p = true → PrimFloat.sqrt (p * p) = PrimFloat.abs p.
Proof.
  intros (s & mp & e & Hp & Hm & He)%in_range_cases.
  apply Prim2SF_inj. rewrite sqrt_spec, mul_spec, abs_spec, Hp.
  unfold SF64sqrt, SF64mul.
  destruct (mul_square s mp e Hm He) as (M2 & c & -> & HM2 & Hc & Hy).
  cbn [SFabs]. apply sqrt_of_square; (done || lia).
Qed.

Lemma float_square_normal p :
  C5.in_range p = true →
  ∃ mp e, Prim2SF (p * p) = S754_finite false mp e
          ∧ 2 ^ 52 <= Z.pos mp < 2 ^ 53 ∧ -1074 <= e <= 971.
Proof.
  intros (s & mp & e & Hp & Hm & He)%in_range_cases.
  rewrite mul_spec, Hp. unfold SF64mul.
  destruct (mul_square s mp e Hm He) as (M2 & c & -> & HM2 & Hc & Hy).
  exists (Z.to_pos M2), (2 * e + c). split; [done|].
  rewrite Z2Pos.id by lia. split; [done|]. lia.
Qed.

Lemma float_abs_normal p :
  C5.in_range p = true →
  ∃ mp e, Prim2SF (PrimFloat.abs p) = S754_finite false mp e
          ∧ 2 ^ 52 <= Z.pos mp < 2 ^ 53 ∧ -1074 <= e <= 971.
Proof.
  intros (s & mp & e & Hp & Hm & He)%in_range_cases.
  rewrite abs_spec, Hp. exists mp, e. split; [done|]. split; [done|]. lia.
Qed.

Lemma float_add_zero_r p q :
  C5.in_range p = true → PrimFloat.eqb q 0 = true → (p * p + q * q = p * p)%float.
Proof.
  intros (mp & e & Hp & _)%float_square_normal Hq.
  apply Prim2SF_inj. rewrite add_spec, Hp, mul_spec.
  by destruct (float_eqb_zero q Hq) as [-> | ->].
Qed.

Lemma float_add_zero_l p q :
  PrimFloat.eqb p 0 = true → C5.in_range q = true → (p * p + q * q = q * q)%float.
Proof.
  intros Hp (mq & e & Hq & _)%float_square_normal.
  apply Prim2SF_inj. rewrite add_spec, Hq, mul_spec.
  by destruct (float_eqb_zero p Hp) as [-> | ->].
Qed.

Lemma div_eucl_self_shift mp :
  Z.div_eucl (Z.shiftl (Z.pos mp) 53) (Z.pos mp) = (2 ^ 53, 0).
Proof.
  rewrite Z.shiftl_mul_pow2 by lia.
  pose proof (Z.div_eucl_eq (Z.pos mp * 2 ^ 53) (Z.pos mp) ltac:(lia)) as H.
  pose proof (Z.mod_pos_bound (Z.pos mp * 2 ^ 53) (Z.pos mp) ltac:(lia)) as Hb.
  unfold Z.modulo in Hb.
  destruct (Z.div_eucl (Z.pos mp * 2 ^ 53) (Z.pos mp)) as [q r].
  assert (q = 2 ^ 53) by nia. f_equal; nia.
Qed.

Lemma SFdiv_abs s mp e :
  SFdiv prec emax (S754_finite s mp e) (S754_finite false mp e)
  = Prim2SF (if s then -1 else 1)%float.
Proof.
  cbn [SFdiv]. unfold SFdiv_core_binary.
  rewrite !Z.sub_diag.
  assert (E : Z.min (fexp prec emax 0) 0 = -53) by (vm_compute; reflexivity).
  rewrite E. change (0 - -53) with 53. cbv iota.
  rewrite div_eucl_self_shift.
  assert (Hl : new_location (Z.pos mp) 0 = loc_Exact).
  { unfold new_location. by destruct (Z.even _). }
  rewrite Hl. rewrite xorb_false_r. destruct s; vm_compute; reflexivity.
Qed.

(** A nonzero finite double divided by its absolute value is [1] or
    [-1]. *)
Lemma float_div_abs p s mp e :
  Prim2SF p = S754_finite s mp e →
  (p / PrimFloat.abs p)%float = if s then (-1)%float else 1%float.
Proof.
  intros Hp. apply Prim2SF_inj.
  rewrite div_spec, abs_spec, Hp. cbn [SFabs]. apply SFdiv_abs.
Qed.

Lemma float_zero_div q p s mp e :
  PrimFloat.eqb q 0 = true → Prim2SF p = S754_finite s mp e →
  PrimFloat.eqb (q / PrimFloat.abs p) 0 = true.
Proof.
  intros Hq Hp. rewrite FloatAxioms.eqb_spec, div_spec, abs_spec, Hp.
  by destruct (float_eqb_zero q Hq) as [-> | ->].
Qed.

(** ** The length of a normalized Vector, in general *)

Lemma normalize_length_run os σ v o sx sy len qx qy sx1 sy' sy1 :
  SYSTEM σ = os → heap σ !! v = Some o → operatorSystem o = OS os →
  JS.toString (_x o) = Ok sx → JS.toString (_y o) = Ok sy →
  C5.length_of (OS os) sx sy = Ok len →
  sys_divide (OS os) (VStr sx) (VStr len) = Ok qx →
  JS.toString (JS.or_else qx (VNum 0)) = Ok sx1 → sx1 ≠ "" →
  JS.toString (JS.or_else (VStr sy) (VNum 0)) = Ok sy' →
  sys_divide (OS os) (VStr sy') (VStr len) = Ok qy →
  JS.toString (JS.or_else qy (VNum 0)) = Ok sy1 →
  eval (C5.normalized_length v) σ = C5.length_of (OS os) sx1 sy1.
Proof.
  intros HS Ho Hos Hx Hy Hlen Hqx Hsx1 Hne Hsy' Hqy Hsy1.
  assert (Hl : Vec.length v σ = Ok (len, σ))
    by (by rewrite (length_lookup _ _ _ _ _ Ho Hx Hy), Hos, Hlen).
  destruct (new_lookup qx (VStr sy) σ) as (σ1 & Hn1 & HS1 & Hl1).
  assert (Hd1 : Vec.divideX v (Scalar (VStr len)) σ = Ok (length (heap σ), σ1)).
  { rewrite (divideX_scalar _ _ _ _ _ _ qx Ho Hx Hy); [done|]. by rewrite Hos. }
  destruct (new_lookup (VStr sx1) qy σ1) as (σ2 & Hn2 & HS2 & Hl2).
  rewrite or_else_nonempty in Hl2 by done.
  assert (Hd2 : Vec.divideY (length (heap σ)) (Scalar (VStr len)) σ1
                = Ok (length (heap σ1), σ2)).
  { rewrite (divideY_scalar _ _ _ sx1 sy' _ qy Hl1); [done|done|done|].
    cbn [operatorSystem]. by rewrite HS. }
  assert (Hnorm : Vec.normalize v σ = Ok (length (heap σ1), σ2)).
  { unfold Vec.normalize. rewrite (bind_run _ _ _ _ _ Hl).
    unfold Vec.divide. by rewrite (bind_run _ _ _ _ _ Hd1). }
  unfold eval, C5.normalized_length. rewrite (bind_run _ _ _ _ _ Hnorm).
  rewrite (length_lookup _ _ _ sx1 sy1 Hl2) by done.
  cbn [operatorSystem]. rewrite HS1, HS. unfold lift.
  by destruct (C5.length_of (OS os) sx1 sy1).
Qed.

(** ** Native Vectors on a coordinate axis *)

Lemma native_length_of sx sy :
  C5.length_of (OS BaseOperatorSystem) sx sy =
  Ok (Num.toString
        (PrimFloat.sqrt
           (Num.ofString
              (Num.toString
                 (Num.ofString sx * Num.ofString sx
                  + Num.ofString sy * Num.ofString sy)%float)))).
Proof. reflexivity. Qed.

Lemma native_divide a b :
  sys_divide (OS BaseOperatorSystem) (VStr a) (VStr b)
  = Ok (VNum (Num.ofString a / Num.ofString b)%float).
Proof. reflexivity. Qed.

(** What a Vector built on the coordinate [sy] reads: the constructor
    replaces the empty string by [0], which is the number it denotes. *)
Lemma stored_string sy :
  ∃ sy', JS.toString (JS.or_else (VStr sy) (VNum 0)) = Ok sy'
         ∧ Num.ofString sy' = Num.ofString sy.
Proof.
  unfold JS.or_else. cbn [JS.truthy].
  destruct (String.eqb_spec sy "") as [->|Hne]; cbn [negb].
  - exists "0". split; [by vm_compute|by vm_compute].
  - by exists sy.
Qed.

Lemma stored_zero q :
  PrimFloat.eqb q 0 = true →
  JS.toString (JS.or_else (VNum q) (VNum 0)) = Ok "0".
Proof.
  intros Hq. unfold JS.or_else. cbn [JS.truthy]. rewrite Hq. cbn [orb negb].
  by vm_compute.
Qed.

Lemma stored_unit (s : bool) :
  ∃ u, JS.toString (JS.or_else (VNum (if s then -1 else 1)%float) (VNum 0))
         = Ok u
       ∧ u ≠ ""
       ∧ C5.length_of (OS BaseOperatorSystem) u "0" = Ok "1"
       ∧ C5.length_of (OS BaseOperatorSystem) "0" u = Ok "1".
Proof.
  destruct s.
  - exists "-1". repeat split; try (vm_compute; reflexivity). done.
  - exists "1". repeat split; try (vm_compute; reflexivity). done.
Qed.

Lemma native_axis_length p :
  C5.in_range p = true →
  Num.ofString (Num.toString (PrimFloat.sqrt (Num.ofString (Num.toString (p * p)))))
  = PrimFloat.abs p.
Proof.
  intros Hp.
  destruct (float_square_normal p Hp) as (m2 & e2 & H2 & Hm2 & He2).
  destruct (float_abs_normal p Hp) as (ma & ea & Ha & Hma & Hea).
  rewrite (number_round_trip _ _ _ H2 Hm2 He2), (float_square_root p Hp).
  apply (number_round_trip _ _ _ Ha Hma Hea).
Qed.

(** The native half of the amended claim, on the [x] axis and on the [y]
    axis. *)
Lemma native_x_axis σ v o sx sy :
  SYSTEM σ = BaseOperatorSystem →
  heap σ !! v = Some o → operatorSystem o = OS BaseOperatorSystem →
  JS.toString (_x o) = Ok sx → JS.toString (_y o) = Ok sy →
  C5.in_range (Num.ofString sx) = true →
  PrimFloat.eqb (Num.ofString sy) 0 = true →
  eval (C5.normalized_length v) σ = Ok "1".
Proof.
  intros HS Ho Hos Hx Hy Hp Hq.
  set (p := Num.ofString sx) in *. set (q := Num.ofString sy) in *.
  destruct (in_range_cases p Hp) as (s & mp & e & HP & _).
  destruct (stored_string sy) as (sy' & Hsy' & Eq').
  destruct (stored_unit s) as (u & Hu & Hne & Hlen & _).
  rewrite (normalize_length_run BaseOperatorSystem σ v o sx sy
             (Num.toString (PrimFloat.sqrt (Num.ofString (Num.toString (p * p)))))
             (VNum (if s then -1 else 1)%float)
             (VNum (Num.ofString sy' / PrimFloat.abs p)%float)
             u sy' "0" HS Ho Hos Hx Hy); try done.
  - rewrite native_length_of. fold p q. by rewrite (float_add_zero_r p q Hp Hq).
  - rewrite native_divide. fold p. rewrite (native_axis_length p Hp).
    by rewrite (float_div_abs p s mp e HP).
  - rewrite native_divide. by rewrite (native_axis_length p Hp).
  - apply stored_zero. rewrite Eq'. fold q.
    by apply (float_zero_div q p s mp e).
Qed.

Lemma native_y_axis σ v o sx sy :
  SYSTEM σ = BaseOperatorSystem →
  heap σ !! v = Some o → operatorSystem o = OS BaseOperatorSystem →
  JS.toString (_x o) = Ok sx → JS.toString (_y o) = Ok sy →
  PrimFloat.eqb (Num.ofString sx) 0 = true →
  C5.in_range (Num.ofString sy) = true →
  eval (C5.normalized_length v) σ = Ok "1".
Proof.
  intros HS Ho Hos Hx Hy Hp Hq.
  set (p := Num.ofString sx) in *. set (q := Num.ofString sy) in *.
  destruct (in_range_cases q Hq) as (s & mq & e & HQ & _).
  destruct (stored_string sy) as (sy' & Hsy' & Eq').
  destruct (stored_unit s) as (u & Hu & Hne & _ & Hlen).
  rewrite (normalize_length_run BaseOperatorSystem σ v o sx sy
             (Num.toString (PrimFloat.sqrt (Num.ofString (Num.toString (q * q)))))
             (VNum (p / PrimFloat.abs q)%float)
             (VNum (if s then -1 else 1)%float)
             "0" sy' u HS Ho Hos Hx Hy); try done.
  - rewrite native_length_of. fold p q. by rewrite (float_add_zero_l p q Hp Hq).
  - rewrite native_divide. fold p. by rewrite (native_axis_length q Hq).
  - apply stored_zero. by apply (float_zero_div p q s mq e).
  - rewrite native_divide, Eq'. fold q. rewrite (native_axis_length q Hq).
    by rewrite (float_div_abs q s mq e HQ).
Qed.

(** ** C5: the length of a normalized Vector on a coordinate axis *)

(** C5, amended: for a Vector lying on a coordinate axis,
    [v.normalize().length] is exactly ["1"] under either operator system of
    the package, taken as the static default and as the receiver's system:
    under the arbitrary-precision system when one coordinate reads as a
    zero and the other as a nonzero decimal numeral with at most 20
    decimal places; under the native system when one coordinate is read as
    [0] or [-0] and the other as a number [p] with
    [2 ^ -511 <= |p| < 2 ^ 512]. *)
Theorem C5_axis_aligned_normalize_length
    (os : IOperatorSystem) (σ : state) (v : loc) (o : Vector)
    (sx sy : string) :
  SYSTEM σ = os →
  heap σ !! v = Some o → operatorSystem o = OS os →
  JS.toString (_x o) = Ok sx → JS.toString (_y o) = Ok sy →
  C5.axis_aligned os sx sy →
  eval (C5.normalized_length v) σ = Ok "1".
Proof.
  intros HS Ho Hos Hx Hy
    [[-> (X & Y & HX & HY & Hax)]|[-> [[Hp Hq]|[Hp Hq]]]].
  - destruct Hax as [(Hc & He & Hz)|(Hz & Hc & He)].
    + destruct (Big_length_x_axis sx sy X Y HX HY Hc He Hz) as (Hl & Hqx & Hqy).
      rewrite (normalize_length_eval σ v o sx sy _ _ _ HS Ho Hos Hx Hy
                 (parse_nonempty _ _ HY) Hl Hqx Hqy).
      apply Big_length_unit.
    + destruct (Big_length_y_axis sx sy X Y HX HY Hz Hc He) as (Hl & Hqx & Hqy).
      rewrite (normalize_length_eval σ v o sx sy _ _ _ HS Ho Hos Hx Hy
                 (parse_nonempty _ _ HY) Hl Hqx Hqy).
      apply Big_length_unit.
  - by apply (native_x_axis σ v o sx sy).
  - by apply (native_y_axis σ v o sx sy).
Qed.

Lemma C5_witness :
  eval (C5.normalized_length 0%nat) C5.on_x_axis = Ok "1"
  ∧ eval (C5.normalized_length 0%nat) C5.native_on_y_axis = Ok "1".
Proof.
  split.
  - apply (C5_axis_aligned_normalize_length BigOperatorSystem C5.on_x_axis
             0%nat
             {| _x := VStr "-2.5"; _y := VNum 0;
                operatorSystem := OS BigOperatorSystem |}
             "-2.5" "0").
    + reflexivity.
    + reflexivity.
    + reflexivity.
    + reflexivity.
    + vm_compute. reflexivity.
    + left. split; [reflexivity|].
      exists {| BigJs.neg := true; BigJs.coef := 25; BigJs.expo := -1 |},
        (BigJs.zero false).
      split; [vm_compute; reflexivity|]. split; [vm_compute; reflexivity|].
      left. split; [|split].
      * split; [reflexivity|discriminate].
      * discriminate.
      * reflexivity.
  - apply (C5_axis_aligned_normalize_length BaseOperatorSystem
             C5.native_on_y_axis 0%nat
             {| _x := VNum 0; _y := VNum (-7);
                operatorSystem := OS BaseOperatorSystem |}
             "0" "-7").
    + reflexivity.
    + reflexivity.
    + reflexivity.
    + vm_compute. reflexivity.
    + vm_compute. reflexivity.
    + right. split; [reflexivity|]. right.
      split; vm_compute; reflexivity.
Defined.

(** Natively the range matters: the square of [1e200] overflows, its
    length reads ["Infinity"], and the length of [(1e200, 0)] normalized
    is ["0"]; the square of [1e-200] underflows to [0], its length reads
    ["0"], and the length of [(1e-200, 0)] normalized is ["Infinity"]. *)
Lemma normalize_length_out_of_range :
  eval (C5.program (VStr "1e200") (VNum 0)) native = Ok (false, "0", false)
  ∧ eval (C5.program (VStr "1e-200") (VNum 0)) native
    = Ok (true, "Infinity", false).
Proof. split; vm_compute; reflexivity. Qed.
